(** * Camera-path synthesis: frame expansion, era blending, clustering and
      crossfade scheduling

    A shallow embedding of [scripts/compute_camera_path.py] and of the
    crossfade scheduler that [scripts/render_globe.py],
    [scripts/render_flat.py] and [scripts/test_crossfade.py] each carry.

    Conventions.
    - Python integers are [Z]; loop counters that come from [range] over a
      length are [nat].
    - A Python/numpy float is the rational [Q] it denotes; "equal" on such
      values is [Qeq] unless a value is built syntactically.  Where the
      rounding of an operation can change a discrete outcome (a frame
      count, the maximum picked, a threshold test, a time-stamp field) the
      operation is a member of the class [Float64]; a statement made for
      an arbitrary [Float64] holds for the script's binary64 arithmetic.
      Everywhere else, and in every statement that names no [Float64], the
      arithmetic is exact: such a statement describes the values up to
      rounding.
    - A Python list is a [list]; a dict is a [gmap] when only lookups matter
      and an association list when iteration order matters.
    - A computation that can raise (an index out of range) or whose loop
      needs fuel returns an [option]; [None] stands for "does not return
      normally". *)

From Stdlib Require Import ZArith QArith Qround Qpower Lqa Lia List.
From stdpp Require Import base option list gmap strings.

Local Open Scope Z_scope.

(** ** Shared data *)

(** One record of the ["frames"] list of [camera_path.json]. *)
Record frame := Frame {
  anim_frame : Z;
  time_ma : Q;
  geo_frame_idx : Z;
  camera_lon : Q;
  camera_lat : Q;
  dispersal : Q;
  era_label : string
}.

(** The 4-tuples [(geo, start, end, length)] collected in [runs]. *)
Definition run : Type := Z * Z * Z * Z.

Definition run_geo (r : run) : Z := r.1.1.1.
Definition run_start (r : run) : Z := r.1.1.2.
Definition run_end (r : run) : Z := r.1.2.
Definition run_len (r : run) : Z := r.2.

(** A crossfade assignment [(geo_idx_a, geo_idx_b, alpha)]. *)
Definition assignment : Type := Z * Z * Q.

(** [range(n)] for a Python integer [n] (empty when [n <= 0]). *)
Definition range (n : Z) : list Z := map Z.of_nat (seq 0 (Z.to_nat n)).

(** The loop state [(runs, prev_geo, run_start)] of the run builder. *)
Definition runs_state : Type := list run * Z * Z.

(** ** The scheduler of [render_globe.py] *)

Module RenderGlobe.

(** Body of [for i, pf in enumerate(path_frames)]. *)
Definition runs_step (st : runs_state) (i : Z) (pf : frame) : runs_state :=
  let '(runs, prev_geo, run_start) := st in
  if negb (geo_frame_idx pf =? prev_geo) then
    (runs ++ [(prev_geo, run_start, i, i - run_start)], geo_frame_idx pf, i)
  else st.

Fixpoint runs_loop (i : Z) (frames : list frame) (st : runs_state)
  : runs_state :=
  match frames with
  | [] => st
  | pf :: rest => runs_loop (i + 1) rest (runs_step st i pf)
  end.

(** The first half of the function: [None] is the [IndexError] raised by
    [path_frames[0]] on an empty list. *)
Definition build_runs (path_frames : list frame) : option (list run) :=
  match path_frames with
  | [] => None
  | pf0 :: _ =>
      let '(runs, prev_geo, run_start) :=
        runs_loop 0 path_frames ([], geo_frame_idx pf0, 0) in
      let n := Z.of_nat (length path_frames) in
      Some (runs ++ [(prev_geo, run_start, n, n - run_start)])
  end.

Definition boundary_half (out_run in_run : run) (crossfade_half : Z) : Z :=
  Z.min (Z.min (run_len out_run / 2) (run_len in_run / 2)) crossfade_half.

(** The dict stores executed by one iteration of [for ri in ...], in
    order. *)
Definition boundary_writes (out_run in_run : run) (crossfade_half : Z)
  : list (Z * assignment) :=
  let half := boundary_half out_run in_run crossfade_half in
  if half <? 1 then []
  else
    let window := 2 * half in
    let transition := run_start in_run in
    map (fun k =>
           let anim_idx := transition - half + k in
           let alpha := (inject_Z (k + 1) / inject_Z (window + 1))%Q in
           (anim_idx, (run_geo out_run, run_geo in_run, alpha)))
        (range window).

(** All dict stores of [for ri in range(len(runs) - 1)], in order. *)
Definition crossfade_writes (runs : list run) (crossfade_half : Z)
  : list (Z * assignment) :=
  flat_map (fun ri =>
              match runs !! ri, runs !! S ri with
              | Some out_run, Some in_run =>
                  boundary_writes out_run in_run crossfade_half
              | _, _ => []
              end)
           (seq 0 (length runs - 1)).

(** [crossfade_map[anim_idx] = v], applied to a list of stores. *)
Definition store_all (writes : list (Z * assignment))
  : gmap Z assignment :=
  foldl (fun m kv => <[kv.1 := kv.2]> m) ∅ writes.

Definition compute_crossfade_schedule
    (path_frames : list frame) (crossfade_half : Z)
  : option (gmap Z assignment) :=
  runs ← build_runs path_frames;
  Some (store_all (crossfade_writes runs crossfade_half)).

End RenderGlobe.

(** ** The scheduler of [render_flat.py] *)

Module RenderFlat.

Definition runs_step (st : runs_state) (i : Z) (pf : frame) : runs_state :=
  let '(runs, prev_geo, run_start) := st in
  if negb (geo_frame_idx pf =? prev_geo) then
    (runs ++ [(prev_geo, run_start, i, i - run_start)], geo_frame_idx pf, i)
  else st.

Fixpoint runs_loop (i : Z) (frames : list frame) (st : runs_state)
  : runs_state :=
  match frames with
  | [] => st
  | pf :: rest => runs_loop (i + 1) rest (runs_step st i pf)
  end.

Definition compute_crossfade_schedule
    (path_frames : list frame) (crossfade_half : Z)
  : option (gmap Z assignment) :=
  match path_frames with
  | [] => None
  | pf0 :: _ =>
      let '(runs0, prev_geo, run_start0) :=
        runs_loop 0 path_frames ([], geo_frame_idx pf0, 0) in
      let n := Z.of_nat (length path_frames) in
      let runs := runs0 ++ [(prev_geo, run_start0, n, n - run_start0)] in
      Some
        (foldl
           (fun crossfade_map ri =>
              match runs !! ri, runs !! S ri with
              | Some out_run, Some in_run =>
                  let half :=
                    Z.min (Z.min (run_len out_run / 2) (run_len in_run / 2))
                          crossfade_half in
                  if half <? 1 then crossfade_map
                  else
                    let window := 2 * half in
                    let transition := run_start in_run in
                    foldl
                      (fun m k =>
                         let anim_idx := transition - half + k in
                         let alpha :=
                           (inject_Z (k + 1) / inject_Z (window + 1))%Q in
                         <[anim_idx := (run_geo out_run, run_geo in_run, alpha)]> m)
                      crossfade_map (range window)
              | _, _ => crossfade_map
              end)
           ∅ (seq 0 (length runs - 1)))
  end.

End RenderFlat.

(** ** The scheduler of [test_crossfade.py] *)

Module TestCrossfade.

Definition compute_crossfade_schedule
    (path_frames : list frame) (crossfade_half : Z)
  : option (gmap Z assignment) :=
  match path_frames with
  | [] => None
  | pf0 :: _ =>
      let '(runs0, prev_geo, run_start0) :=
        foldl
          (fun (st : runs_state) (ipf : nat * frame) =>
             let '(runs, prev_geo, run_start) := st in
             let i := Z.of_nat ipf.1 in
             if negb (geo_frame_idx ipf.2 =? prev_geo) then
               (runs ++ [(prev_geo, run_start, i, i - run_start)],
                geo_frame_idx ipf.2, i)
             else st)
          ([], geo_frame_idx pf0, 0)
          (imap pair path_frames) in
      let n := Z.of_nat (length path_frames) in
      let runs := runs0 ++ [(prev_geo, run_start0, n, n - run_start0)] in
      Some
        (foldl
           (fun crossfade_map ri =>
              match runs !! ri, runs !! S ri with
              | Some out_run, Some in_run =>
                  let half :=
                    Z.min (Z.min (run_len out_run / 2) (run_len in_run / 2))
                          crossfade_half in
                  if half <? 1 then crossfade_map
                  else
                    let window := 2 * half in
                    let transition := run_start in_run in
                    foldl
                      (fun m k =>
                         let anim_idx := transition - half + k in
                         let alpha :=
                           (inject_Z (k + 1) / inject_Z (window + 1))%Q in
                         <[anim_idx := (run_geo out_run, run_geo in_run, alpha)]> m)
                      crossfade_map (range window)
              | _, _ => crossfade_map
              end)
           ∅ (seq 0 (length runs - 1)))
  end.

End TestCrossfade.

(** ** Specification vocabulary for the scheduler *)

(** The [geo_frame_idx] shown by animation frame [i]. *)
Definition geo_at (frames : list frame) (i : Z) : option Z :=
  geo_frame_idx <$> frames !! Z.to_nat i.

(** [tiles s runs e]: the runs are non-empty, contiguous, start at [s], end
    at [e], and each length field is the difference of its bounds. *)
Inductive tiles : Z -> list run -> Z -> Prop :=
| tiles_nil s : tiles s [] s
| tiles_cons s r rs e :
    run_start r = s -> s < run_end r -> run_len r = run_end r - s ->
    tiles (run_end r) rs e -> tiles s (r :: rs) e.

(** [runs] is the partition of [frames] into maximal runs of equal
    [geo_frame_idx]. *)
Record maximal_runs (frames : list frame) (runs : list run) : Prop := {
  mr_tiles : tiles 0 runs (Z.of_nat (length frames));
  mr_geo : forall r i, r ∈ runs -> run_start r <= i < run_end r ->
                       geo_at frames i = Some (run_geo r);
  mr_maximal : forall j a b, runs !! j = Some a -> runs !! S j = Some b ->
                             run_geo a <> run_geo b
}.

(** The blend factor at window position [k] of a window of [2 * half]. *)
Definition blend_factor (k half : Z) : Q :=
  (inject_Z (k + 1) / inject_Z (2 * half + 1))%Q.

(** Invariant of the run-building loop before it reads frame [i]. *)
Definition runs_inv (frames : list frame) (i : Z) (st : runs_state) : Prop :=
  let '(runs, prev_geo, rs) := st in
  tiles 0 runs rs /\
  0 <= rs <= i /\ (rs = i -> geo_at frames i = Some prev_geo) /\
  (forall r k, r ∈ runs -> run_start r <= k < run_end r ->
               geo_at frames k = Some (run_geo r)) /\
  (forall j a b, runs !! j = Some a -> runs !! S j = Some b ->
                 run_geo a <> run_geo b) /\
  (forall r, last runs = Some r -> run_geo r <> prev_geo) /\
  (forall k, rs <= k < i -> geo_at frames k = Some prev_geo).

(** Twenty frames: ten showing timestep 0, then ten showing timestep 1. *)
Definition ten_ten : list frame :=
  replicate 10 (Frame 0 0 0 0 0 0 "Rodinia assembling")
  ++ replicate 10 (Frame 0 0 1 0 0 0 "Rodinia assembling").

(** Ten frames: one showing timestep 5, four showing timestep 0, four
    showing timestep 1, one showing timestep 2. *)
Definition lone_ends : list frame :=
  Frame 0 0 5 0 0 0 "Rodinia assembling"
  :: replicate 4 (Frame 0 0 0 0 0 0 "Rodinia assembling")
  ++ replicate 4 (Frame 0 0 1 0 0 0 "Rodinia assembling")
  ++ [Frame 0 0 2 0 0 0 "Rodinia assembling"].


(** ** [compute_camera_path.py]: configuration and external collaborators *)

(** One tuple [(time_ma, target_lon, target_lat, label, weight)] of
    [ERA_OVERRIDES]; [None] for a target is Python's [None]. *)
Record era := Era {
  e_time : Z;
  e_lon : option Q;
  e_lat : option Q;
  e_label : string;
  e_weight : Q
}.

(** The module-level constants of the script. *)
Record config := Config {
  TIME_START : Z;
  TIME_END : Z;
  TIME_STEP : Z;
  CLUSTER_THRESHOLDS : list Q;
  MIN_CLUSTER_COVERAGE : Q;
  ERA_OVERRIDES : list era;
  MIN_SPEED : Q;
  MAX_SPEED : Q;
  SUPERCONTINENT_HOLD : list (Z * Z * string)
}.

Definition script_config : config := {|
  TIME_START := 1000;
  TIME_END := 0;
  TIME_STEP := 1;
  CLUSTER_THRESHOLDS := [12 # 1; 18 # 1; 25 # 1]%Q;
  MIN_CLUSTER_COVERAGE := (50 # 100)%Q;
  ERA_OVERRIDES := [
    Era 1000 None None "Rodinia assembling" 0;
    Era 900 None None "Rodinia assembled" 0;
    Era 750 None None "Rodinia breaking up" 0;
    Era 550 (Some (100 # 1)%Q) (Some (-45 # 1)%Q) "Gondwana assembling" (5 # 10);
    Era 480 (Some (120 # 1)%Q) (Some (-50 # 1)%Q) "Gondwana assembled" (5 # 10);
    Era 380 (Some (5 # 1)%Q) (Some (-15 # 1)%Q) "Laurussia forming" (4 # 10);
    Era 350 (Some 0%Q) (Some (-10 # 1)%Q) "Pangaea assembling" (5 # 10);
    Era 300 (Some 0%Q) (Some (10 # 1)%Q) "Pangaea coalescing" (6 # 10);
    Era 250 (Some 0%Q) (Some (10 # 1)%Q) "Pangaea assembled" (7 # 10);
    Era 200 (Some (20 # 1)%Q) (Some (15 # 1)%Q) "Pangaea breaking up" (5 # 10);
    Era 150 (Some (20 # 1)%Q) (Some (10 # 1)%Q) "Atlantic Ocean opening" (3 # 10);
    Era 100 (Some (10 # 1)%Q) (Some (10 # 1)%Q) "India racing north" (2 # 10);
    Era 66 (Some 0%Q) (Some (10 # 1)%Q) "K-Pg extinction" (2 # 10);
    Era 50 (Some 0%Q) (Some (20 # 1)%Q) "Modern world forming" (1 # 10);
    Era 0 (Some (15 # 1)%Q) (Some (25 # 1)%Q) "Present day" (4 # 10)
  ];
  MIN_SPEED := 1;
  MAX_SPEED := 3;
  SUPERCONTINENT_HOLD := [
    (900, 48, "Rodinia peak"); (480, 36, "Gondwana peak");
    (250, 60, "Pangaea peak"); (0, 60, "Present day")
  ]
|}.

(** The numpy functions the script calls that have no rational model. *)
Class Numpy := {
  np_sin : Q -> Q;
  np_cos : Q -> Q;
  np_sqrt : Q -> Q;
  np_arctan2 : Q -> Q -> Q;
  np_radians : Q -> Q;
  np_degrees : Q -> Q
}.

(** IEEE 754 binary64 arithmetic, as Python floats and numpy [float64]
    arrays compute it: an operation takes the rational values of its
    operands and returns the rational value of the rounded result.
    [f64_sum] is the built-in [sum] on a list of floats, whose result
    depends on the interpreter: CPython adds from the left, and since
    version 3.12 it adds a compensation term at the end.  The embedding
    writes these operations wherever the rounding can change a discrete
    outcome of the script: a count of frames, the choice of a maximum, a
    comparison against a threshold, a field of a time stamp. *)
Class Float64 := {
  f64_add : Q -> Q -> Q;
  f64_sub : Q -> Q -> Q;
  f64_mul : Q -> Q -> Q;
  f64_div : Q -> Q -> Q;
  f64_sum : list Q -> Q
}.

(** What the theorems use of binary64 beyond the operations themselves.  An
    operation is a function of the values of its operands; and when the
    exact result is an integer of magnitude at most [2^53] the operation
    returns it unrounded, because every such integer is a binary64 number
    and a representable result is never rounded. *)
Class Float64Laws (arith : Float64) : Prop := {
  f64_add_proper : Proper (Qeq ==> Qeq ==> Qeq) f64_add;
  f64_sub_proper : Proper (Qeq ==> Qeq ==> Qeq) f64_sub;
  f64_mul_proper : Proper (Qeq ==> Qeq ==> Qeq) f64_mul;
  f64_div_proper : Proper (Qeq ==> Qeq ==> Qeq) f64_div;
  f64_add_exact : forall (x y : Q) (z : Z),
    Z.abs z <= 2 ^ 53 -> (x + y == inject_Z z)%Q ->
    (f64_add x y == inject_Z z)%Q;
  f64_sub_exact : forall (x y : Q) (z : Z),
    Z.abs z <= 2 ^ 53 -> (x - y == inject_Z z)%Q ->
    (f64_sub x y == inject_Z z)%Q;
  f64_mul_exact : forall (x y : Q) (z : Z),
    Z.abs z <= 2 ^ 53 -> (x * y == inject_Z z)%Q ->
    (f64_mul x y == inject_Z z)%Q;
  f64_div_exact : forall (x y : Q) (z : Z),
    Z.abs z <= 2 ^ 53 -> ~ (y == 0)%Q -> (x / y == inject_Z z)%Q ->
    (f64_div x y == inject_Z z)%Q
}.

(** Arithmetic without rounding.  It is the arithmetic of every statement
    that is not made for an arbitrary [Float64]: such a statement is about
    the values the script would compute if no operation rounded. *)
#[export] Instance exact_arith : Float64 := {|
  f64_add := Qplus;
  f64_sub := Qminus;
  f64_mul := Qmult;
  f64_div := Qdiv;
  f64_sum := foldl Qplus 0%Q
|}.

(** A reconstructed geometry: [get_area] is [None] when the call raises. *)
Record geometry := Geometry {
  get_area : option Q;
  to_lat_lon_list : list (Q * Q)
}.

(** The plate model: [pygplates.reconstruct] at a time fills the list
    [reconstructed]; an entry is what [get_reconstructed_geometry()]
    returns ([None] for Python's [None]). *)
Class PlateModel := {
  pygplates_reconstruct : Z -> list (option geometry)
}.

(** ** Small Python and numpy helpers *)

(** A [for] loop whose body may raise. *)
Fixpoint for_each {S A : Type} (body : S -> A -> option S) (st : S)
    (l : list A) : option S :=
  match l with
  | [] => Some st
  | x :: l' => st' ← body st x; for_each body st' l'
  end.

Definition Qsum (l : list Q) : Q := foldl Qplus 0%Q l.

(** [np.mean] of a Python list. *)
Definition np_mean (l : list Q) : Q :=
  (Qsum l / inject_Z (Z.of_nat (length l)))%Q.

(** [round(x)] on a float: to the nearest integer, ties to the even one. *)
Definition py_round (x : Q) : Z :=
  let f := Qfloor x in
  match (x - inject_Z f ?= 1 # 2)%Q with
  | Lt => f
  | Gt => f + 1
  | Eq => if Z.even f then f else f + 1
  end.

(** [floor(log2 x)] of a positive rational. *)
Definition Qfloor_log2 (x : Q) : Z :=
  let k := Z.log2 (Qnum x) - Z.log2 (Zpos (Qden x)) in
  if Qle_bool (2 ^ k) x then k else k - 1.

(** The magnitude [fabs(x)]. *)
Definition Qmagnitude (x : Q) : Q := if Qle_bool 0 x then x else (- x)%Q.

(** Rounding to the nearest binary64 number, ties to the even significand:
    53 significant bits, and below the exponent -1022 the spacing stays
    [2^-1074].  A magnitude of [2^1024] or more, which binary64 turns into
    an infinity, is rounded like any other. *)
Definition b64_round (x : Q) : Q :=
  if Qeq_bool x 0 then 0%Q
  else
    let e := Z.max (Qfloor_log2 (Qmagnitude x)) (-1022) in
    let ulp := (2 ^ (e - 52))%Q in
    (inject_Z (py_round (x / ulp)) * ulp)%Q.

(** Binary64 arithmetic by correct rounding of the exact result, with the
    [sum] of CPython before version 3.12: the terms are added from the
    left, starting from 0. *)
Definition binary64 : Float64 := {|
  f64_add := fun x y => b64_round (x + y);
  f64_sub := fun x y => b64_round (x - y);
  f64_mul := fun x y => b64_round (x * y);
  f64_div := fun x y => b64_round (x / y);
  f64_sum := foldl (fun acc x => b64_round (acc + x)) 0%Q
|}.

(** The [sum] of CPython since version 3.12 on floats: next to the sum
    from the left [f_result] it keeps a compensation [c] (Neumaier's
    summation), updated by [c += (f_result - t) + x] when
    [fabs(f_result) >= fabs(x)] and by [c += (x - t) + f_result]
    otherwise, and added at the end when it is not zero. *)
Definition compensated_sum (l : list Q) : Q :=
  let '(f_result, c) :=
    foldl (fun '(f_result, c) x =>
             let t := b64_round (f_result + x) in
             (t,
              if Qle_bool (Qmagnitude x) (Qmagnitude f_result)
              then b64_round (c + b64_round (b64_round (f_result - t) + x))
              else b64_round (c + b64_round (b64_round (x - t) + f_result))))
          (0%Q, 0%Q) l in
  if Qeq_bool c 0 then f_result else b64_round (f_result + c).

(** Binary64 arithmetic with the compensated [sum]. *)
Definition binary64_compensated : Float64 := {|
  f64_add := fun x y => b64_round (x + y);
  f64_sub := fun x y => b64_round (x - y);
  f64_mul := fun x y => b64_round (x * y);
  f64_div := fun x y => b64_round (x / y);
  f64_sum := compensated_sum
|}.

(** [np.arange(start, stop, step)] on integers: [ceil((stop - start) / step)]
    values; [None] is the error numpy raises for a zero step. *)
Definition np_arange (start stop step : Z) : option (list Z) :=
  if step =? 0 then None
  else Some (map (fun k => start + k * step)
                 (range (- ((- (stop - start)) / step)))).

(** [times = np.arange(TIME_START, TIME_END - 1, -TIME_STEP)]. *)
Definition times_of (cfg : config) : option (list Z) :=
  np_arange (TIME_START cfg) (TIME_END cfg - 1) (- TIME_STEP cfg).

(** [idx = int((TIME_START - t) / TIME_STEP)] followed by
    [max(0, min(idx, total_steps - 1))]; [None] is the
    [ZeroDivisionError]. *)
Definition time_index (cfg : config) (total_steps : nat) (t : Z)
  : option nat :=
  if TIME_STEP cfg =? 0 then None
  else
    let idx := (TIME_START cfg - t) ÷ TIME_STEP cfg in
    Some (Z.to_nat (Z.max 0 (Z.min idx (Z.of_nat total_steps - 1)))).


(** ** Step 5: variable pacing and frame expansion *)

(** The element of [frame_duration] for the dispersal value [d]. *)
Definition duration_at {arith : Float64} (cfg : config) (d : Q) : Q :=
  f64_add (MIN_SPEED cfg)
    (f64_mul (f64_sub (MAX_SPEED cfg) (MIN_SPEED cfg)) (f64_sub 1 d)).

(** [frame_duration = MIN_SPEED + (MAX_SPEED - MIN_SPEED) * (1.0 - smooth_dispersal)],
    element by element. *)
Definition frame_duration {arith : Float64} (cfg : config)
    (smooth_dispersal : list Q) : list Q :=
  map (duration_at cfg) smooth_dispersal.

(** The dict [hold_frames]: clamped timestep index to [(extra, label)]. *)
Definition hold_frames (cfg : config) (total_steps : nat)
  : option (gmap nat (Z * string)) :=
  for_each (fun (hold : gmap nat (Z * string)) '(sc_time, extra, label) =>
              idx ← time_index cfg total_steps sc_time;
              Some (<[idx := (extra, label)]> hold))
           ∅ (SUPERCONTINENT_HOLD cfg).

(** [get_era_label]: [None] is the [IndexError] of [ERA_OVERRIDES[0]]. *)
Definition get_era_label (cfg : config) (time_ma : Q) : option string :=
  best0 ← ERA_OVERRIDES cfg !! 0%nat;
  Some (e_label
          (foldl (fun best e =>
                    if Qle_bool time_ma (inject_Z (e_time e)) then e else best)
                 best0 (ERA_OVERRIDES cfg))).

(** [n_frames = max(1, int(round(frame_duration[i])))]. *)
Definition n_frames_of (duration : Q) : Z := Z.max 1 (py_round duration).

(** The loop state [(output_frames, anim_frame)]. *)
Definition expand_state : Type := list frame * Z.

Section Expander.
Context {arith : Float64}.
Context (cfg : config) (times : list Z).
Context (smooth_lons smooth_lats smooth_dispersal : list Q).

Definition total_steps : nat := length times.

(** [for sub in range(n_frames)]: the regular frames of timestep [i]. *)
Definition regular_loop (i : nat) (time_ma : Q) (label : string)
    (n_frames : Z) (st : expand_state) : option expand_state :=
  for_each
    (fun '(output_frames, anim_frame) sub =>
       let t := if 1 <? n_frames
                then (inject_Z sub / inject_Z n_frames)%Q else 0%Q in
       '(interp_lon, interp_lat) ←
         (if Z.of_nat i <? Z.of_nat total_steps - 1 then
            lon_i ← smooth_lons !! i; lon_n ← smooth_lons !! (i + 1)%nat;
            lat_i ← smooth_lats !! i; lat_n ← smooth_lats !! (i + 1)%nat;
            Some ((lon_i * (1 - t) + lon_n * t)%Q,
                  (lat_i * (1 - t) + lat_n * t)%Q)
          else
            lon_i ← smooth_lons !! i; lat_i ← smooth_lats !! i;
            Some (lon_i, lat_i));
       d ← smooth_dispersal !! i;
       Some (output_frames ++
               [Frame anim_frame time_ma (Z.of_nat i) interp_lon interp_lat
                      d label],
             anim_frame + 1))
    st (range n_frames).

(** [for h in range(extra)]: the hold frames of timestep [i]. *)
Definition hold_loop (i : nat) (time_ma : Q) (label : string) (extra : Z)
    (st : expand_state) : option expand_state :=
  for_each
    (fun '(output_frames, anim_frame) (h : Z) =>
       lon_i ← smooth_lons !! i; lat_i ← smooth_lats !! i;
       d ← smooth_dispersal !! i;
       Some (output_frames ++
               [Frame anim_frame time_ma (Z.of_nat i) lon_i lat_i d label],
             anim_frame + 1))
    st (range extra).

(** Body of [for i in range(total_steps)]. *)
Definition expand_step (hold : gmap nat (Z * string))
    (st : expand_state) (i : nat) : option expand_state :=
  t_i ← times !! i;
  let time_ma := inject_Z t_i in
  label ← get_era_label cfg time_ma;
  duration ← frame_duration cfg smooth_dispersal !! i;
  let n_frames := n_frames_of duration in
  st1 ← regular_loop i time_ma label n_frames st;
  match hold !! i with
  | Some (extra, _) => hold_loop i time_ma label extra st1
  | None => Some st1
  end.

(** The whole of "Build final frame mapping": [output_frames]. *)
Definition expand_frames : option (list frame) :=
  hold ← hold_frames cfg total_steps;
  st ← for_each (expand_step hold) ([], 0) (seq 0 total_steps);
  Some st.1.

End Expander.

(** A block of frames emitted for timestep [i] starting at counter [a]. *)
Definition block_ok (i : nat) (a : Z) (new : list frame) : Prop :=
  forall k f, new !! k = Some f ->
              anim_frame f = a + Z.of_nat k /\ geo_frame_idx f = Z.of_nat i.

(** The number of hold frames configured for timestep [i]. *)
Definition hold_extra (hold : gmap nat (Z * string)) (i : nat) : nat :=
  match hold !! i with
  | Some (extra, _) => Z.to_nat extra
  | None => 0
  end.

(** What the frames emitted for the timesteps below [i] satisfy. *)
Record frames_inv (i : nat) (out : list frame) : Prop := {
  fi_anim : forall k f, out !! k = Some f ->
                        anim_frame f = Z.of_nat k /\
                        0 <= geo_frame_idx f < Z.of_nat i;
  fi_mono : forall k1 k2 f1 f2, (k1 <= k2)%nat ->
                                out !! k1 = Some f1 -> out !! k2 = Some f2 ->
                                geo_frame_idx f1 <= geo_frame_idx f2;
  fi_cover : forall j, (j < i)%nat ->
                       exists k f, out !! k = Some f /\
                                   geo_frame_idx f = Z.of_nat j
}.

(** How many frames of [out] show timestep [j]. *)
Definition frames_showing (j : nat) (out : list frame) : nat :=
  length (filter (fun f => geo_frame_idx f = Z.of_nat j) out).


(** ** Step 3: era-based overrides *)

Definition era_times (cfg : config) : list Q :=
  map (fun e => inject_Z (e_time e)) (ERA_OVERRIDES cfg).

Definition era_weights (cfg : config) : list Q :=
  map e_weight (ERA_OVERRIDES cfg).

(** The loop filling [era_lons] and [era_lats]: an era without a target
    takes the raw centroid of its clamped timestep. *)
Definition era_targets (cfg : config) (total_steps : nat)
    (raw_lons raw_lats : list Q) : option (list Q * list Q) :=
  for_each
    (fun '(era_lons, era_lats) e =>
       t_idx ← time_index cfg total_steps (e_time e);
       lon ← match e_lon e with
             | Some v => Some v
             | None => raw_lons !! t_idx
             end;
       lat ← match e_lat e with
             | Some v => Some v
             | None => raw_lats !! t_idx
             end;
       Some (era_lons ++ [lon], era_lats ++ [lat]))
    ([], []) (ERA_OVERRIDES cfg).

Definition Qlt_bool (a b : Q) : bool := negb (Qle_bool b a).

(** [np.searchsorted(x, v)] on an ascending [x]: how many knots lie
    strictly below [v]. *)
Definition searchsorted (x : list Q) (v : Q) : nat :=
  length (List.filter (fun xi => Qlt_bool xi v) x).

(** scipy's [interp1d(x, y, kind='linear', fill_value='extrapolate')]
    evaluated at [x_new], for knots [x] given in ascending order as the
    script passes them: the segment is chosen by
    [searchsorted(x, x_new).clip(1, len(x) - 1)], so a point outside the
    knots is evaluated on the line through the two nearest knots.  The
    value is the exact one, without the rounding of the float evaluation.
    [None] is the [ValueError] for fewer than two knots or unequal
    lengths. *)
Definition interp1d (x y : list Q) (x_new : Q) : option Q :=
  if (length x <? 2)%nat || negb (length x =? length y)%nat then None
  else
    let hi := Nat.min (Nat.max (searchsorted x x_new) 1) (length x - 1) in
    let lo := (hi - 1)%nat in
    x_lo ← x !! lo; x_hi ← x !! hi;
    y_lo ← y !! lo; y_hi ← y !! hi;
    let slope := ((y_hi - y_lo) / (x_hi - x_lo))%Q in
    Some (slope * (x_new - x_lo) + y_lo)%Q.

(** [interp1d(era_times[::-1], ys[::-1], ...)(times[::-1])[::-1]]. *)
Definition interp_on_grid (cfg : config) (times : list Z) (ys : list Q)
  : option (list Q) :=
  reverse <$>
    mapM (interp1d (reverse (era_times cfg)) (reverse ys))
         (reverse (map inject_Z times)).

Definition override_weights (cfg : config) (times : list Z)
  : option (list Q) :=
  interp_on_grid cfg times (era_weights cfg).

Definition override_lons (cfg : config) (times : list Z)
    (raw_lons raw_lats : list Q) : option (list Q) :=
  targets ← era_targets cfg (length times) raw_lons raw_lats;
  interp_on_grid cfg times targets.1.

Definition override_lats (cfg : config) (times : list Z)
    (raw_lons raw_lats : list Q) : option (list Q) :=
  targets ← era_targets cfg (length times) raw_lons raw_lats;
  interp_on_grid cfg times targets.2.

(** [blended_lons = raw_lons * (1 - override_weights) + override_lons * override_weights],
    element by element on arrays of one length. *)
Definition blended_lons (raw_lons override_weights override_lons : list Q)
  : list Q :=
  zip_with Qplus
    (zip_with Qmult raw_lons (map (fun w => (1 - w)%Q) override_weights))
    (zip_with Qmult override_lons override_weights).

Definition blended_lats (raw_lats override_weights override_lats : list Q)
  : list Q :=
  zip_with Qplus
    (zip_with Qmult raw_lats (map (fun w => (1 - w)%Q) override_weights))
    (zip_with Qmult override_lats override_weights).

(** A configuration whose timestep grid leaves the authored range: eras at
    100 and 50 Ma, timesteps at 100, 50 and 0 Ma. *)
Definition short_era_config : config := {|
  TIME_START := 100;
  TIME_END := 0;
  TIME_STEP := 50;
  CLUSTER_THRESHOLDS := [12 # 1; 18 # 1; 25 # 1]%Q;
  MIN_CLUSTER_COVERAGE := (50 # 100)%Q;
  ERA_OVERRIDES := [
    Era 100 (Some 0%Q) (Some 0%Q) "first" 0;
    Era 50 (Some (10 # 1)%Q) (Some (20 # 1)%Q) "second" 1
  ];
  MIN_SPEED := 1;
  MAX_SPEED := 3;
  SUPERCONTINENT_HOLD := []
|}.

(** Knots in strictly ascending order. *)
Definition ascending (x : list Q) : Prop :=
  forall i j a b, (i < j)%nat -> x !! i = Some a -> x !! j = Some b ->
                  (a < b)%Q.


(** ** Step 1: the dominant landmass of one timestep *)

(** One entry of [poly_data]. *)
Record poly := Poly {
  p_lat : Q;
  p_lon : Q;
  p_area : Q;
  p_x : Q;
  p_y : Q;
  p_z : Q
}.

(** [find_root]: the [while] loop with path compression; [fuel] bounds the
    number of loop tests, and the result carries the mutated [parent]. *)
Fixpoint find_root (fuel : nat) (parent : list nat) (i : nat)
  : option (list nat * nat) :=
  match fuel with
  | O => None
  | S fuel' =>
      p_i ← parent !! i;
      if (p_i =? i)%nat then Some (parent, i)
      else
        pp_i ← parent !! p_i;
        let parent' := <[i := pp_i]> parent in
        i' ← parent' !! i;
        find_root fuel' parent' i'
  end.

(** [union]: both roots are searched with as many loop tests as there are
    nodes. *)
Definition union (parent rank : list nat) (a b : nat)
  : option (list nat * list nat) :=
  '(parent, ra) ← find_root (length parent) parent a;
  '(parent, rb) ← find_root (length parent) parent b;
  if (ra =? rb)%nat then Some (parent, rank)
  else
    rank_ra ← rank !! ra;
    rank_rb ← rank !! rb;
    let '(ra, rb) := if (rank_ra <? rank_rb)%nat then (rb, ra) else (ra, rb) in
    let parent := <[rb := ra]> parent in
    rank_ra ← rank !! ra;
    rank_rb ← rank !! rb;
    if (rank_ra =? rank_rb)%nat
    then Some (parent, <[ra := (rank_ra + 1)%nat]> rank)
    else Some (parent, rank).

(** [clusters[root].append(idx)] on a [defaultdict(list)], kept in
    insertion order. *)
Fixpoint clusters_append (clusters : list (nat * list nat)) (root idx : nat)
  : list (nat * list nat) :=
  match clusters with
  | [] => [(root, [idx])]
  | (r, members) :: rest =>
      if (r =? root)%nat then (r, members ++ [idx]) :: rest
      else (r, members) :: clusters_append rest root idx
  end.

(** [for idx in range(n): root = find_root(parent, idx); clusters[root].append(idx)]. *)
Definition build_clusters (parent : list nat) (n : nat)
  : option (list nat * list (nat * list nat)) :=
  for_each
    (fun '(parent, clusters) idx =>
       '(parent', root) ← find_root (length parent) parent idx;
       Some (parent', clusters_append clusters root idx))
    (parent, []) (seq 0 n).

(** The scan of [max(..., key=...)]: a later element wins only with a
    strictly greater key. *)
Fixpoint max_scan {A : Type} (key : A -> option Q) (best : A) (best_key : Q)
    (l : list A) : option A :=
  match l with
  | [] => Some best
  | x :: l' =>
      k ← key x;
      if Qlt_bool best_key k then max_scan key x k l'
      else max_scan key best best_key l'
  end.

(** [max(l, key=key)]; [None] on the empty sequence ([ValueError]). *)
Definition py_max {A : Type} (key : A -> option Q) (l : list A) : option A :=
  match l with
  | [] => None
  | x :: l' => k ← key x; max_scan key x k l'
  end.

(** [sum(poly_data[j]['area'] for j in idxs)], the built-in [sum] on the
    areas, which are Python floats. *)
Definition cluster_area {arith : Float64} (poly_data : list poly)
    (idxs : list nat) : option Q :=
  areas ← mapM (fun j => p_area <$> poly_data !! j) idxs;
  Some (f64_sum areas).

(** The unions of one threshold, over [pairwise_dist.items()]. *)
Definition union_pairs (threshold : Q) (pairs : list (nat * nat * Q)) (n : nat)
  : option (list nat * list nat) :=
  for_each
    (fun '(parent, rank_arr) '(a_idx, b_idx, dist) =>
       if Qlt_bool dist threshold then union parent rank_arr a_idx b_idx
       else Some (parent, rank_arr))
    (seq 0 n, replicate n 0%nat) pairs.

(** Body of [for threshold in CLUSTER_THRESHOLDS] up to [coverage]:
    the candidate cluster and its coverage. *)
Definition candidate_at {arith : Float64} (poly_data : list poly)
    (pairs : list (nat * nat * Q)) (total_area threshold : Q)
  : option (list nat * Q) :=
  let n := length poly_data in
  '(parent, rank_arr) ← union_pairs threshold pairs n;
  '(_, clusters) ← build_clusters parent n;
  candidate ← py_max (cluster_area poly_data) (map snd clusters);
  candidate_area ← cluster_area poly_data candidate;
  let coverage :=
    if Qlt_bool 0 total_area then f64_div candidate_area total_area
    else 0%Q in
  Some (candidate, coverage).

(** The threshold loop with its [break]; the state is
    [(best_cluster, used_threshold)]. *)
Fixpoint threshold_loop {arith : Float64} (poly_data : list poly)
    (pairs : list (nat * nat * Q))
    (total_area min_coverage : Q) (thresholds : list Q)
    (best_cluster : option (list nat)) (used_threshold : Q)
  : option (option (list nat) * Q) :=
  match thresholds with
  | [] => Some (best_cluster, used_threshold)
  | threshold :: rest =>
      '(candidate, coverage) ← candidate_at poly_data pairs total_area threshold;
      if Qle_bool min_coverage coverage then Some (Some candidate, threshold)
      else threshold_loop poly_data pairs total_area min_coverage rest
                          (Some candidate) threshold
  end.

Section Landmass.
Context {numpy : Numpy} {arith : Float64}.

(** [x**2] on a float. *)
Definition f64_square (x : Q) : Q := f64_mul x x.

Definition haversine_deg (lat1 lon1 lat2 lon2 : Q) : Q :=
  let lat1 := np_radians lat1 in
  let lon1 := np_radians lon1 in
  let lat2 := np_radians lat2 in
  let lon2 := np_radians lon2 in
  let dlat := f64_sub lat2 lat1 in
  let dlon := f64_sub lon2 lon1 in
  let a := f64_add (f64_square (np_sin (f64_div dlat 2)))
                   (f64_mul (f64_mul (np_cos lat1) (np_cos lat2))
                            (f64_square (np_sin (f64_div dlon 2)))) in
  np_degrees (f64_mul 2 (np_arctan2 (np_sqrt a) (np_sqrt (f64_sub 1 a)))).

(** The loop over [reconstructed] that fills [poly_data] and
    [total_area]; a failing or non-positive area becomes 0.001. *)
Definition extract_polys (reconstructed : list (option geometry))
  : list poly * Q :=
  foldl
    (fun '(poly_data, total_area) rg =>
       match rg with
       | None => (poly_data, total_area)
       | Some geom =>
           let area := default (1 # 1000)%Q (get_area geom) in
           let area := if Qle_bool area 0 then (1 # 1000)%Q else area in
           let points := to_lat_lon_list geom in
           match points with
           | [] => (poly_data, total_area)
           | _ =>
               let clat := np_mean (map fst points) in
               let clon := np_mean (map snd points) in
               let clat_r := np_radians clat in
               let clon_r := np_radians clon in
               (poly_data ++
                  [Poly clat clon area
                        (np_cos clat_r * np_cos clon_r)%Q
                        (np_cos clat_r * np_sin clon_r)%Q
                        (np_sin clat_r)],
                (total_area + area)%Q)
           end
       end)
    ([], 0%Q) reconstructed.

(** The dict [pairwise_dist] in insertion order. *)
Definition pairwise_dist (poly_data : list poly)
  : option (list (nat * nat * Q)) :=
  let n := length poly_data in
  mapM (fun '(a_idx, b_idx) =>
          pa ← poly_data !! a_idx;
          pb ← poly_data !! b_idx;
          Some (a_idx, b_idx,
                haversine_deg (p_lat pa) (p_lon pa) (p_lat pb) (p_lon pb)))
       (flat_map (fun a_idx =>
                    map (pair a_idx) (seq (a_idx + 1) (n - (a_idx + 1))))
                 (seq 0 n)).

(** From [best_cluster = None] to the end of the threshold loop:
    [(best_cluster, used_threshold)]. *)
Definition dominant_cluster (cfg : config) (poly_data : list poly)
    (total_area : Q) : option (option (list nat) * Q) :=
  pairs ← pairwise_dist poly_data;
  used_threshold ← last (CLUSTER_THRESHOLDS cfg);
  threshold_loop poly_data pairs total_area (MIN_CLUSTER_COVERAGE cfg)
                 (CLUSTER_THRESHOLDS cfg) None used_threshold.

(** The area-weighted Cartesian centroid, as [(centroid_lon, centroid_lat)]. *)
Definition cluster_centroid (poly_data : list poly) (best_cluster : list nat)
  : option (Q * Q) :=
  '(cx, cy, cz, carea) ←
    for_each
      (fun '(cx, cy, cz, carea) j =>
         p ← poly_data !! j;
         Some ((cx + p_x p * p_area p)%Q, (cy + p_y p * p_area p)%Q,
               (cz + p_z p * p_area p)%Q, (carea + p_area p)%Q))
      (0%Q, 0%Q, 0%Q, 0%Q) best_cluster;
  let cx := (cx / carea)%Q in
  let cy := (cy / carea)%Q in
  let cz := (cz / carea)%Q in
  let centroid_lat :=
    np_degrees (np_arctan2 cz (np_sqrt (cx ^ 2 + cy ^ 2)%Q)) in
  let centroid_lon := np_degrees (np_arctan2 cy cx) in
  Some (centroid_lon, centroid_lat).

End Landmass.


(** ** Steps 1 and 2 over the whole time series *)

(** The lists [(raw_lons, raw_lats, land_areas)] built by step 1. *)
Definition centroid_state : Type := list Q * list Q * list Q.

(** [xs[-1] if xs else 0.0]. *)
Definition last_or_zero (xs : list Q) : Q := default 0%Q (last xs).

(** [arr[i] = v] on a numpy array; [None] is the [IndexError]. *)
Definition array_set (arr : list Q) (i : nat) (v : Q) : option (list Q) :=
  if (i <? length arr)%nat then Some (<[i := v]> arr) else None.

Section Pipeline.
Context {numpy : Numpy} {plates : PlateModel} {arith : Float64}.

(** Body of the step-1 loop [for i, time_ma in enumerate(times)]. *)
Definition centroid_step (cfg : config) (st : centroid_state) (time_ma : Z)
  : option centroid_state :=
  let '(raw_lons, raw_lats, land_areas) := st in
  let reconstructed := pygplates_reconstruct time_ma in
  match reconstructed with
  | [] =>
      match raw_lons with
      | _ :: _ =>
          lon ← last raw_lons; lat ← last raw_lats; area ← last land_areas;
          Some (raw_lons ++ [lon], raw_lats ++ [lat], land_areas ++ [area])
      | [] =>
          Some (raw_lons ++ [0%Q], raw_lats ++ [0%Q], land_areas ++ [0%Q])
      end
  | _ =>
      let '(poly_data, total_area) := extract_polys reconstructed in
      let land_areas := land_areas ++ [total_area] in
      match poly_data with
      | [] =>
          Some (raw_lons ++ [last_or_zero raw_lons],
                raw_lats ++ [last_or_zero raw_lats], land_areas)
      | _ =>
          '(best_cluster, used_threshold) ←
            dominant_cluster cfg poly_data total_area;
          best_cluster ← best_cluster;
          '(centroid_lon, centroid_lat) ←
            cluster_centroid poly_data best_cluster;
          Some (raw_lons ++ [centroid_lon], raw_lats ++ [centroid_lat],
                land_areas)
      end
  end.

(** Step 1: [(raw_lons, raw_lats, land_areas)] after the loop. *)
Definition compute_centroids (cfg : config) (times : list Z)
  : option centroid_state :=
  for_each (centroid_step cfg) ([], [], []) times.

(** The weighted distances [dists] of one timestep in step 2. *)
Definition weighted_dists (raw_lons raw_lats : list Q) (i : nat)
    (reconstructed : list (option geometry)) : option (list Q) :=
  for_each
    (fun dists rg =>
       match rg with
       | None => Some dists
       | Some geom =>
           let points := to_lat_lon_list geom in
           match points with
           | [] => Some dists
           | _ =>
               let plat := np_radians (np_mean (map fst points)) in
               let plon := np_radians (np_mean (map snd points)) in
               lat_i ← raw_lats !! i;
               lon_i ← raw_lons !! i;
               let clat := np_radians lat_i in
               let clon := np_radians lon_i in
               let dlat := (plat - clat)%Q in
               let dlon := (plon - clon)%Q in
               let a := (np_sin (dlat / 2) ^ 2
                         + np_cos clat * np_cos plat * np_sin (dlon / 2) ^ 2)%Q in
               let dist := (2 * np_arctan2 (np_sqrt a) (np_sqrt (1 - a)))%Q in
               let area := default (1 # 1000)%Q (get_area geom) in
               let area := if Qlt_bool area (1 # 1000) then (1 # 1000)%Q
                           else area in
               Some (dists ++ [(dist * area)%Q])
           end
       end)
    [] reconstructed.

(** Body of the step-2 loop. *)
Definition dispersal_step (raw_lons raw_lats land_areas : list Q)
    (dispersal : list Q) (i : nat) (time_ma : Z) : option (list Q) :=
  let reconstructed := pygplates_reconstruct time_ma in
  let previous := Z.to_nat (Z.max 0 (Z.of_nat i - 1)) in
  match reconstructed with
  | [] => d ← dispersal !! previous; array_set dispersal i d
  | _ =>
      dists ← weighted_dists raw_lons raw_lats i reconstructed;
      match dists with
      | [] => d ← dispersal !! previous; array_set dispersal i d
      | _ =>
          land ← land_areas !! i;
          let land := if Qlt_bool land (1 # 1000) then (1 # 1000)%Q
                      else land in
          array_set dispersal i (Qsum dists / land)%Q
      end
  end.

(** Step 2: the raw [dispersal] array after the loop. *)
Definition compute_dispersal (raw_lons raw_lats land_areas : list Q)
    (times : list Z) : option (list Q) :=
  for_each
    (fun dispersal '(i, time_ma) =>
       dispersal_step raw_lons raw_lats land_areas dispersal i time_ma)
    (replicate (length times) 0%Q) (imap pair times).

(** Steps 1 and 2 in sequence. *)
Definition centroids_and_dispersal (cfg : config) (times : list Z)
  : option (centroid_state * list Q) :=
  '(raw_lons, raw_lats, land_areas) ← compute_centroids cfg times;
  dispersal ← compute_dispersal raw_lons raw_lats land_areas times;
  Some ((raw_lons, raw_lats, land_areas), dispersal).

End Pipeline.


(** ** Specification vocabulary for the clusterer *)

(** [root_of parent i r]: following [parent] from [i] ends at the
    self-parented node [r]. *)
Inductive root_of (parent : list nat) : nat -> nat -> Prop :=
| root_self i : parent !! i = Some i -> root_of parent i i
| root_step i j r :
    parent !! i = Some j -> j <> i -> root_of parent j r ->
    root_of parent i r.

Definition same_set (parent : list nat) (i j : nat) : Prop :=
  exists r, root_of parent i r /\ root_of parent j r.

(** The union-by-rank forest over [n] nodes: parents stay in range, ranks
    grow strictly towards the root, and the ranks in use have no gaps. *)
Record uf_inv (n : nat) (parent rank : list nat) : Prop := {
  uf_len_parent : length parent = n;
  uf_len_rank : length rank = n;
  uf_bound : forall i j, parent !! i = Some j -> (j < n)%nat;
  uf_rank : forall i j ri rj,
      parent !! i = Some j -> j <> i ->
      rank !! i = Some ri -> rank !! j = Some rj -> (ri < rj)%nat;
  uf_dense : forall i ri k,
      rank !! i = Some ri -> (k < ri)%nat -> k ∈ rank
}.

(** [linked threshold pairs a b]: the dict holds a distance below the
    threshold for the pair [(a, b)]. *)
Definition linked (threshold : Q) (pairs : list (nat * nat * Q))
  : relation nat :=
  fun a b => exists d, (a, b, d) ∈ pairs /\ (d < threshold)%Q.

(** [c] lists, without repetition, the nodes connected to its member [x]. *)
Definition component_of (n : nat) (threshold : Q)
    (pairs : list (nat * nat * Q)) (x : nat) (c : list nat) : Prop :=
  NoDup c /\
  forall y, y ∈ c <-> (y < n)%nat /\ rtsc (linked threshold pairs) x y.

(** [c] is a connected component of the graph on [n] nodes whose edges are
    the pairs closer than the threshold. *)
Definition component (n : nat) (threshold : Q)
    (pairs : list (nat * nat * Q)) (c : list nat) : Prop :=
  exists x, (x < n)%nat /\ component_of n threshold pairs x c.

(** Node indices listed in increasing order, as the loop over
    [range(n)] files them into a cluster. *)
Definition increasing (c : list nat) : Prop :=
  forall i j a b, (i < j)%nat -> c !! i = Some a -> c !! j = Some b ->
                  (a < b)%nat.



(** What [clusters] holds once the nodes below [k] are filed under their
    roots in [parent]. *)
Record clusters_inv (parent : list nat) (k : nat)
    (clusters : list (nat * list nat)) : Prop := {
  ci_keys : NoDup clusters.*1;
  ci_members : forall r ms, (r, ms) ∈ clusters ->
      ms <> [] /\ NoDup ms /\
      forall x, x ∈ ms <-> (x < k)%nat /\ root_of parent x r;
  ci_cover : forall x r, (x < k)%nat -> root_of parent x r ->
      exists ms, (r, ms) ∈ clusters
}.

(** Every key of [pairwise_dist] names two polygons. *)
Definition pairs_in_range (n : nat) (pairs : list (nat * nat * Q)) : Prop :=
  forall a b d, (a, b, d) ∈ pairs -> (a < n)%nat /\ (b < n)%nat.


(** ** Specification vocabulary for steps 1 and 2 *)

(** An entry of [reconstructed] that both loops skip: no geometry, or a
    geometry without points. *)
Definition unusable (rg : option geometry) : Prop :=
  match rg with
  | None => True
  | Some geom => to_lat_lon_list geom = []
  end.

(** A timestep at which no polygon is observed. *)
Definition no_polygons (reconstructed : list (option geometry)) : Prop :=
  Forall unusable reconstructed.


(** ** Concrete inputs *)

(** The binary64 number just below one quarter, [0x1.fffffffffffffp-3],
    which Python prints as [0.24999999999999997]. *)
Definition below_quarter : Q := 9007199254740991 # 36028797018963968.

(** A computable stand-in for numpy, used to run the model. *)
Definition linear_numpy : Numpy := {|
  np_sin := fun x => x;
  np_cos := fun _ => 1%Q;
  np_sqrt := fun x => x;
  np_arctan2 := fun y _ => y;
  np_radians := fun x => x;
  np_degrees := fun x => x
|}.

(** Two far-apart polygons of areas 5 and 1. *)
Definition two_polygons : list (option geometry) :=
  [Some (Geometry (Some (5 # 1)%Q) [(0%Q, 0%Q)]);
   Some (Geometry (Some 1%Q) [(0%Q, (10 # 1)%Q)])].

(** Three polygons whose areas are the binary64 numbers [0.1 + 0.7]
    (as binary64 adds them), [0.1] and [0.7]: the first lies far from the
    other two, which lie close together. *)
Definition tied_polygons : list poly := [
  Poly 0 0 (7205759403792793 # 9007199254740992) 1 0 0;
  Poly 0 (100 # 1) (3602879701896397 # 36028797018963968) 1 0 0;
  Poly 0 (102 # 1) (3152519739159347 # 4503599627370496) 1 0 0
].

(** A plate model with nothing at 1000 and 998 Ma and [two_polygons]
    elsewhere. *)
Definition gappy_plates : PlateModel := {|
  pygplates_reconstruct := fun time_ma =>
    if (time_ma =? 1000) || (time_ma =? 998) then [] else two_polygons
|}.

(** ** Step 2, continued: normalising the dispersal metric *)

(** [arr.min()] of a numpy array; [None] is the [ValueError] numpy raises
    on an empty array. *)
Definition np_min (arr : list Q) : option Q :=
  match arr with
  | [] => None
  | x :: rest => Some (foldl (fun m y => if Qlt_bool y m then y else m) x rest)
  end.

(** [arr.max()] of a numpy array. *)
Definition np_max (arr : list Q) : option Q :=
  match arr with
  | [] => None
  | x :: rest => Some (foldl (fun m y => if Qlt_bool m y then y else m) x rest)
  end.

(** "Normalize dispersal to 0-1": [dispersal_norm]. *)
Definition normalize_dispersal (dispersal : list Q) : option (list Q) :=
  d_min ← np_min dispersal;
  d_max ← np_max dispersal;
  if Qlt_bool d_min d_max
  then Some (map (fun d => ((d - d_min) / (d_max - d_min))%Q) dispersal)
  else Some (map (fun _ => 0%Q) dispersal).

(** ** Specification vocabulary for the remaining steps *)

(** Era times in strictly descending order, as [ERA_OVERRIDES] lists
    them. *)
Definition descending_eras (eras : list era) : Prop :=
  forall i j a b, (i < j)%nat -> eras !! i = Some a -> eras !! j = Some b ->
                  e_time b < e_time a.

(** [v] lies between [a] and [b], whichever is the larger. *)
Definition Qbetween (a b v : Q) : Prop :=
  (a <= v <= b)%Q \/ (b <= v <= a)%Q.

(** The sum of a list of natural numbers. *)
Definition nat_sum (l : list nat) : nat := foldr Nat.add 0%nat l.

(** What a frame emitted for a timestep carries: the time, dispersal and
    era label of its timestep [geo_frame_idx], and a camera position
    between the smoothed position of that timestep and of the next one (at
    the smoothed position itself on the last timestep). *)
Definition frame_of_timestep (cfg : config) (times : list Z)
    (smooth_lons smooth_lats smooth_dispersal : list Q) (f : frame) : Prop :=
  exists i t lon_i lat_i d label,
    geo_frame_idx f = Z.of_nat i /\
    times !! i = Some t /\ time_ma f = inject_Z t /\
    smooth_lons !! i = Some lon_i /\ smooth_lats !! i = Some lat_i /\
    smooth_dispersal !! i = Some d /\ dispersal f = d /\
    get_era_label cfg (inject_Z t) = Some label /\ era_label f = label /\
    match smooth_lons !! S i, smooth_lats !! S i with
    | Some lon_n, Some lat_n =>
        Qbetween lon_i lon_n (camera_lon f) /\
        Qbetween lat_i lat_n (camera_lat f)
    | _, _ => camera_lon f = lon_i /\ camera_lat f = lat_i
    end.

(** The number of frames the expander emits for timestep [i]: the regular
    ones and the hold. *)
Definition frames_per_step {arith : Float64} (cfg : config)
    (hold : gmap nat (Z * string)) (smooth_dispersal : list Q) (i : nat)
  : nat :=
  (Z.to_nat (n_frames_of
               (duration_at cfg (default 0%Q (smooth_dispersal !! i))))
   + hold_extra hold i)%nat.

(** ** Python helpers shared by the renderers *)

(** [l[i]] for a Python integer [i]: a negative index counts from the end;
    [None] is the [IndexError]. *)
Definition py_index {A : Type} (l : list A) (i : Z) : option A :=
  if 0 <=? i then l !! Z.to_nat i
  else if - Z.of_nat (length l) <=? i
       then l !! Z.to_nat (Z.of_nat (length l) + i)
       else None.

(** [list(range(a, b))]. *)
Definition py_range (a b : Z) : list Z := map (fun k => a + k) (range (b - a)).

(** [int(x)] on a float: truncation towards zero. *)
Definition py_int (x : Q) : Z :=
  if Qle_bool 0 x then Qfloor x else Qceiling x.

(** C's [fmod(x, y)] for a non-zero [y]: the remainder of the division
    truncated towards zero, which is computed without rounding. *)
Definition fmod (x y : Q) : Q := (x - y * inject_Z (py_int (x / y)))%Q.

Section FloatDivMod.
Context {arith : Float64}.

(** The test "the remainder is not zero and its sign differs from the
    divisor's" of Python's float [%] and [//]. *)
Definition sign_differs (r y : Q) : bool :=
  negb (Qeq_bool r 0)
  && negb (Bool.eqb (negb (Qle_bool 0 y)) (negb (Qle_bool 0 r))).

(** [x % y] on Python floats with [y] non-zero: [fmod], moved by [y] into
    the sign of the divisor. *)
Definition py_mod (x y : Q) : Q :=
  let r := fmod x y in
  if sign_differs r y then f64_add r y else r.

(** [x // y] on Python floats with [y] non-zero: the quotient of
    [x - fmod(x, y)] by [y], lowered by one with the remainder's sign
    correction and snapped to the nearest integer. *)
Definition py_floordiv (x y : Q) : Q :=
  let r := fmod x y in
  let div := f64_div (f64_sub x r) y in
  let div := if sign_differs r y then f64_sub div 1 else div in
  if Qeq_bool div 0 then 0%Q
  else
    let floordiv := inject_Z (Qfloor div) in
    if Qle_bool (f64_sub div floordiv) (1 # 2) then floordiv
    else f64_add floordiv 1.

End FloatDivMod.

(** The f-string conversions of the subtitle code, which have no model
    here: [{h}], [{m:02d}], [{s:05.2f}] and [{t:.1f}]. *)
Class PyFormat := {
  format_d : Z -> string;
  format_02d : Z -> string;
  format_05_2f : Q -> string;
  format_1f : Q -> string
}.

(** [math.radians], which has no rational model. *)
Class PyMath := {
  math_radians : Q -> Q
}.

(** ** [render_flat.py]: the frame files *)

Module RenderFlatMain.

Definition CROSSFADE_HALF : Z := 1.

(** [n_geo_frames = len(set(pf["geo_frame_idx"] for pf in path_frames))]. *)
Definition n_geo_frames (path_frames : list frame) : nat :=
  size (list_to_set (geo_frame_idx <$> path_frames) : gset Z).

(** A PIL image, identified by the index of the globe frame whose PNG
    [Image.open] read; the PNG is taken to exist. *)
Definition image : Type := Z.

Definition Image_open (geo_idx : Z) : image := geo_idx.

(** What the loop leaves under [frame_{i + 1:04d}.png]; the file is
    identified by the number [i + 1], a source PNG by its globe frame. *)
Inductive frame_file :=
| Blended (dst : Z) (image_a image_b : image) (alpha : Q)
| Symlink (dst : Z) (geo_idx : Z).

(** The loop state: [image_cache], [blend_count] and the files created in
    [tmp_dir] so far. *)
Record state := State {
  image_cache : gmap Z image;
  blend_count : Z;
  created : list frame_file
}.

(** [for cached_idx in list(image_cache.keys()): if cached_idx != geo_a and
    cached_idx != geo_b: del image_cache[cached_idx]]. *)
Definition evict (geo_a geo_b : Z) (image_cache : gmap Z image)
  : gmap Z image :=
  foldl (fun cache cached_idx =>
           if negb (cached_idx =? geo_a) && negb (cached_idx =? geo_b)
           then delete cached_idx cache else cache)
        image_cache (map fst (map_to_list image_cache)).

(** Body of [for i, pf in enumerate(path_frames)]; [None] is a
    [KeyError] of [image_cache[...]]. *)
Definition frame_step (crossfade_map : gmap Z assignment) (st : state)
    (i : Z) (pf : frame) : option state :=
  let dst := i + 1 in
  match crossfade_map !! i with
  | Some (geo_a, geo_b, alpha) =>
      let cache := image_cache st in
      let cache := match cache !! geo_a with
                   | None => <[geo_a := Image_open geo_a]> cache
                   | Some _ => cache
                   end in
      let cache := match cache !! geo_b with
                   | None => <[geo_b := Image_open geo_b]> cache
                   | Some _ => cache
                   end in
      image_a ← cache !! geo_a;
      image_b ← cache !! geo_b;
      Some (State (evict geo_a geo_b cache) (blend_count st + 1)
                  (created st ++ [Blended dst image_a image_b alpha]))
  | None =>
      Some (State (image_cache st) (blend_count st)
                  (created st ++ [Symlink dst (geo_frame_idx pf)]))
  end.

Fixpoint frame_loop (crossfade_map : gmap Z assignment) (i : Z)
    (frames : list frame) (st : state) : option state :=
  match frames with
  | [] => Some st
  | pf :: rest =>
      st' ← frame_step crossfade_map st i pf;
      frame_loop crossfade_map (i + 1) rest st'
  end.

(** From the schedule to the end of the frame loop. *)
Definition create_frames (path_frames : list frame) : option state :=
  crossfade_map ←
    RenderFlat.compute_crossfade_schedule path_frames CROSSFADE_HALF;
  frame_loop crossfade_map 0 path_frames (State ∅ 0 []).

(** The cache holds at most two images, each the image of its key. *)
Definition cache_ok (cache : gmap Z image) : Prop :=
  (size cache <= 2)%nat /\
  forall g img, cache !! g = Some img -> img = Image_open g.

(** The file the loop must create for frame [k]. *)
Definition expected_file (m : gmap Z assignment) (k : nat) (f : frame)
  : frame_file :=
  match m !! Z.of_nat k with
  | Some (geo_a, geo_b, alpha) =>
      Blended (Z.of_nat k + 1) (Image_open geo_a) (Image_open geo_b) alpha
  | None => Symlink (Z.of_nat k + 1) (geo_frame_idx f)
  end.

End RenderFlatMain.

(** ** [render_globe.py]: the per-frame render loop *)

Module RenderGlobeMain.

Definition CROSSFADE_HALF : Z := 1.

(** One call of [bpy.ops.render.render]: the frame number, the rotation of
    the globe, the images in the two texture slots and the mix factor. *)
Record render := Render {
  r_anim_f : Z;
  r_rotation_euler : Q * Q * Q;
  r_image_a : string;
  r_image_b : string;
  r_factor : Q
}.

(** The Blender state the loop touches.  An image data-block is
    identified by its file path: [load(path, check_existing=True)] returns
    the block already loaded from [path] if there is one. *)
Record state := State {
  images : gset string;
  tex_image_a : string;
  tex_image_b : string;
  mix_factor : Q;
  rotation_euler : Q * Q * Q;
  prev_geo_a : Z;
  prev_geo_b : Z;
  renders : list render
}.

(** "Load texture A if changed", for [geo] being [geo_a] or [geo_idx];
    [None] is the [IndexError] of [frame_files[geo]]. *)
Definition load_texture_a (frame_files : list string) (geo : Z) (st : state)
  : option state :=
  if negb (geo =? prev_geo_a st) then
    let old_a := tex_image_a st in
    new_a ← py_index frame_files geo;
    let loaded := images st ∪ {[new_a]} in
    let kept :=
      if bool_decide (old_a <> new_a) && bool_decide (old_a <> tex_image_b st)
      then loaded ∖ {[old_a]} else loaded in
    Some (State kept new_a (tex_image_b st) (mix_factor st)
                (rotation_euler st) geo (prev_geo_b st) (renders st))
  else Some st.

(** "Load texture B (incoming) if changed". *)
Definition load_texture_b (frame_files : list string) (geo_b : Z) (st : state)
  : option state :=
  if negb (geo_b =? prev_geo_b st) then
    let old_b := tex_image_b st in
    new_b ← py_index frame_files geo_b;
    let loaded := images st ∪ {[new_b]} in
    let kept :=
      if bool_decide (old_b <> new_b) && bool_decide (old_b <> tex_image_a st)
      then loaded ∖ {[old_b]} else loaded in
    Some (State kept (tex_image_a st) new_b (mix_factor st)
                (rotation_euler st) (prev_geo_a st) geo_b (renders st))
  else Some st.

Definition set_mix_factor (alpha : Q) (st : state) : state :=
  State (images st) (tex_image_a st) (tex_image_b st) alpha
        (rotation_euler st) (prev_geo_a st) (prev_geo_b st) (renders st).

Section Loop.
Context {py_math : PyMath}.

(** Body of [for i, pf in enumerate(path_frames)]. *)
Definition frame_step (frame_files : list string)
    (crossfade_map : gmap Z assignment) (st : state) (i : Z) (pf : frame)
  : option state :=
  let anim_f := anim_frame pf + 1 in
  let geo_idx := geo_frame_idx pf in
  let rot_y := (- math_radians (camera_lat pf))%Q in
  let rot_z := (- math_radians (camera_lon pf))%Q in
  let st := State (images st) (tex_image_a st) (tex_image_b st)
                  (mix_factor st) (0%Q, rot_y, rot_z)
                  (prev_geo_a st) (prev_geo_b st) (renders st) in
  st ← match crossfade_map !! i with
       | Some (geo_a, geo_b, alpha) =>
           st ← load_texture_a frame_files geo_a st;
           st ← load_texture_b frame_files geo_b st;
           Some (set_mix_factor alpha st)
       | None =>
           st ← load_texture_a frame_files geo_idx st;
           Some (set_mix_factor 0 st)
       end;
  Some (State (images st) (tex_image_a st) (tex_image_b st) (mix_factor st)
              (rotation_euler st) (prev_geo_a st) (prev_geo_b st)
              (renders st ++
                 [Render anim_f (rotation_euler st) (tex_image_a st)
                         (tex_image_b st) (mix_factor st)])).

Fixpoint frame_loop (frame_files : list string)
    (crossfade_map : gmap Z assignment) (i : Z) (frames : list frame)
    (st : state) : option state :=
  match frames with
  | [] => Some st
  | pf :: rest =>
      st' ← frame_step frame_files crossfade_map st i pf;
      frame_loop frame_files crossfade_map (i + 1) rest st'
  end.

(** The state before the loop: [frame_files[0]] loaded into both slots
    (the script has exited if there is no frame file), factor 0. *)
Definition initial_state (frame_files : list string) : option state :=
  img ← frame_files !! 0%nat;
  Some (State {[img]} img img 0 (0%Q, 0%Q, 0%Q) (-1) (-1) []).

(** From the initial texture to the end of the render loop. *)
Definition render_frames (frame_files : list string)
    (path_frames : list frame) : option state :=
  st ← initial_state frame_files;
  crossfade_map ←
    RenderGlobe.compute_crossfade_schedule path_frames CROSSFADE_HALF;
  frame_loop frame_files crossfade_map 0 path_frames st.

(** What the render of frame [i] must show: the frame's own texture with
    factor 0, or the two textures of its schedule entry with the entry's
    factor; in both cases under the frame's number and rotation. *)
Definition shows (frame_files : list string)
    (crossfade_map : gmap Z assignment) (i : Z) (pf : frame) (r : render)
  : Prop :=
  r_anim_f r = anim_frame pf + 1 /\
  r_rotation_euler r
  = (0%Q, (- math_radians (camera_lat pf))%Q,
     (- math_radians (camera_lon pf))%Q) /\
  match crossfade_map !! i with
  | Some (geo_a, geo_b, alpha) =>
      frame_files !! Z.to_nat geo_a = Some (r_image_a r) /\
      frame_files !! Z.to_nat geo_b = Some (r_image_b r) /\
      r_factor r = alpha
  | None =>
      frame_files !! Z.to_nat (geo_frame_idx pf) = Some (r_image_a r) /\
      r_factor r = 0%Q
  end.

End Loop.

(** The loaded images are exactly those in the two slots, and a slot whose
    [prev_geo] is not the initial [-1] holds the file of that index. *)
Definition slots_ok (frame_files : list string) (st : state) : Prop :=
  images st = {[tex_image_a st]} ∪ {[tex_image_b st]} /\
  (prev_geo_a st = -1 \/
   (0 <= prev_geo_a st /\
    frame_files !! Z.to_nat (prev_geo_a st) = Some (tex_image_a st))) /\
  (prev_geo_b st = -1 \/
   (0 <= prev_geo_b st /\
    frame_files !! Z.to_nat (prev_geo_b st) = Some (tex_image_b st))).

(** Every timestep index of the path names one of the frame files. *)
Definition geo_in_range (frame_files : list string)
    (path_frames : list frame) : Prop :=
  forall k pf, path_frames !! k = Some pf ->
               0 <= geo_frame_idx pf < Z.of_nat (length frame_files).

End RenderGlobeMain.

(** ** The subtitle overlay of [render_globe.py] and [render_flat.py] *)

Module Subtitles.

Definition FPS : Z := 24.

(** [total_seconds = frame_num / fps], the division of two Python
    integers. *)
Definition total_seconds {arith : Float64} (frame_num fps : Z) : Q :=
  f64_div (inject_Z frame_num) (inject_Z fps).

(** [h], [m] and [s] of [frame_to_ass_time]; [None] is the
    [ZeroDivisionError] of [frame_num / fps]. *)
Definition ass_time_fields {arith : Float64} (frame_num fps : Z)
  : option (Z * Z * Q) :=
  if fps =? 0 then None
  else
    let total_seconds := total_seconds frame_num fps in
    let h := py_int (py_floordiv total_seconds (3600 # 1)) in
    let m := py_int (py_floordiv (py_mod total_seconds (3600 # 1)) (60 # 1)) in
    let s := py_mod total_seconds (60 # 1) in
    Some (h, m, s).

Inductive ass_style := TimeLabel | EraLabel.

Definition style_name (style : ass_style) : string :=
  match style with
  | TimeLabel => "TimeLabel"
  | EraLabel => "EraLabel"
  end.

(** One [Dialogue:] event: the frames its two timestamps are computed
    from, its style and its text. *)
Record dialogue := Dialogue {
  d_start : Z;
  d_end : Z;
  d_style : ass_style;
  d_text : string
}.

(** The loop state [(ass_events, (prev_time_ma, prev_era),
    block_start_frame)]; the two [prev] variables are [None] together. *)
Definition subtitle_state : Type := list dialogue * option (Q * string) * Z.

Definition is_time_label (d : dialogue) : bool :=
  match d_style d with
  | TimeLabel => true
  | EraLabel => false
  end.

Section Format.
Context {py_format : PyFormat} {arith : Float64}.

Definition frame_to_ass_time (frame_num fps : Z) : option string :=
  '(h, m, s) ← ass_time_fields frame_num fps;
  Some (format_d h +:+ ":" +:+ format_02d m +:+ ":" +:+ format_05_2f s).

(** [time_str] when a block is closed inside the loop. *)
Definition time_str (prev_time_ma : Q) : string :=
  if Qeq_bool prev_time_ma (inject_Z (py_int prev_time_ma))
  then format_d (py_int prev_time_ma) +:+ " Ma"
  else format_1f prev_time_ma +:+ " Ma".

(** [time_str] of the final block. *)
Definition final_time_str (prev_time_ma : Q) : string :=
  format_d (py_int prev_time_ma) +:+ " Ma".

(** The events appended when a block is closed: the time label, and the
    era label [if prev_era]. *)
Definition block_events (start_frame end_frame : Z) (time_text : string)
    (prev_era : string) : list dialogue :=
  Dialogue start_frame end_frame TimeLabel time_text ::
  (if negb (String.eqb prev_era EmptyString)
   then [Dialogue start_frame end_frame EraLabel prev_era] else []).

(** Body of [for pf in path_frames]. *)
Definition subtitle_step (st : subtitle_state) (pf : frame)
  : subtitle_state :=
  let '(ass_events, prev, block_start_frame) := st in
  let anim_f := anim_frame pf in
  match prev with
  | None => (ass_events, Some (time_ma pf, era_label pf), anim_f)
  | Some (prev_time_ma, prev_era) =>
      if negb (Qeq_bool (time_ma pf) prev_time_ma)
         || negb (String.eqb (era_label pf) prev_era)
      then (ass_events ++
              block_events block_start_frame anim_f (time_str prev_time_ma)
                           prev_era,
            Some (time_ma pf, era_label pf), anim_f)
      else st
  end.

(** The events of the whole loop and of "Close final block". *)
Definition subtitle_blocks (path_frames : list frame) (total_frames : Z)
  : list dialogue :=
  let '(ass_events, prev, block_start_frame) :=
    foldl subtitle_step ([], None, 0) path_frames in
  match prev with
  | None => ass_events
  | Some (prev_time_ma, prev_era) =>
      ass_events ++
        block_events block_start_frame total_frames
                     (final_time_str prev_time_ma) prev_era
  end.

(** The text of one event. *)
Definition ass_line (fps : Z) (d : dialogue) : option string :=
  start_ts ← frame_to_ass_time (d_start d) fps;
  end_ts ← frame_to_ass_time (d_end d) fps;
  Some ("Dialogue: 0," +:+ start_ts +:+ "," +:+ end_ts +:+ ","
        +:+ style_name (d_style d) +:+ ",,0,0,0,," +:+ d_text d).

(** The list [ass_events]. *)
Definition ass_events (path_frames : list frame) : option (list string) :=
  mapM (ass_line FPS)
       (subtitle_blocks path_frames (Z.of_nat (length path_frames))).

End Format.

(** Events that follow one another from frame [s] to frame [e]. *)
Inductive chained : Z -> list dialogue -> Z -> Prop :=
| chained_nil s : chained s [] s
| chained_cons s d ds e :
    d_start d = s -> s < d_end d -> chained (d_end d) ds e ->
    chained s (d :: ds) e.

(** [d] covers a block of frames that share the time and era label of the
    block's first frame [f0], and stops where they change. *)
Definition covers_block (path_frames : list frame) (d : dialogue)
    (f0 : frame) : Prop :=
  path_frames !! Z.to_nat (d_start d) = Some f0 /\
  0 <= d_start d < d_end d /\
  (forall k f, d_start d <= k < d_end d ->
               path_frames !! Z.to_nat k = Some f ->
               (time_ma f == time_ma f0)%Q /\ era_label f = era_label f0) /\
  (forall f, path_frames !! Z.to_nat (d_end d) = Some f ->
             ~ ((time_ma f == time_ma f0)%Q /\ era_label f = era_label f0)).

Section Events.
Context {py_format : PyFormat}.

(** What the text of [d] says about the block that starts with [f0]: a
    time label carries the time of the block, written by the final
    [time_str] when the block ends at [total_frames]; an era label carries
    the era, which is not empty. *)
Definition describes (total_frames : Z) (d : dialogue) (f0 : frame) : Prop :=
  match d_style d with
  | TimeLabel =>
      d_text d = if d_end d =? total_frames
                 then final_time_str (time_ma f0)
                 else time_str (time_ma f0)
  | EraLabel => d_text d = era_label f0 /\ era_label f0 <> EmptyString
  end.

End Events.

End Subtitles.

(** ** [test_crossfade.py]: choosing the test frames *)

Module TestCrossfadeMain.

Definition CROSSFADE_HALF : Z := 2.

(** The search [for i in range(1, len(path_frames))] with its [break]:
    [Some None] when the loop ends with [test_center] still [None]. *)
Fixpoint transition_scan (path_frames : list frame) (indices : list Z)
  : option (option Z) :=
  match indices with
  | [] => Some None
  | i :: rest =>
      pf ← py_index path_frames i;
      prev ← py_index path_frames (i - 1);
      if negb (geo_frame_idx pf =? geo_frame_idx prev)
      then if Qle_bool (time_ma pf) (500 # 1) then Some (Some i)
           else transition_scan path_frames rest
      else transition_scan path_frames rest
  end.

(** [test_center] after the fallback. *)
Definition test_center (path_frames : list frame) : option Z :=
  found ← transition_scan path_frames
            (py_range 1 (Z.of_nat (length path_frames)));
  Some (default 672 found).

Definition test_indices (center : Z) : list Z :=
  py_range (center - 3) (center + 3).

(** What the loops over [test_indices] read: the frame [path_frames[idx]]
    and the schedule entry [crossfade_map.get(idx)]. *)
Definition test_frames (path_frames : list frame)
  : option (list (Z * frame * option assignment)) :=
  crossfade_map ←
    TestCrossfade.compute_crossfade_schedule path_frames CROSSFADE_HALF;
  center ← test_center path_frames;
  mapM (fun idx =>
          pf ← py_index path_frames idx;
          Some (idx, pf, crossfade_map !! idx))
       (test_indices center).

(** What the search looks for: frame [i] shows another timestep than the
    frame before it, at 500 Ma or later. *)
Definition late_transition (path_frames : list frame) (i : Z) : Prop :=
  exists pf prev,
    path_frames !! Z.to_nat i = Some pf /\
    path_frames !! Z.to_nat (i - 1) = Some prev /\
    geo_frame_idx pf <> geo_frame_idx prev /\
    (time_ma pf <= 500 # 1)%Q.

End TestCrossfadeMain.

(** Concrete stand-ins for the formatting and [math] functions. *)
Definition plain_format : PyFormat := {|
  format_d := fun _ => "d";
  format_02d := fun _ => "dd";
  format_05_2f := fun _ => "ss.cc";
  format_1f := fun _ => "t.t"
|}.

Definition linear_math : PyMath := {| math_radians := fun x => x |}.

(** Four frames: two of timestep 0 at 900 Ma, two of timestep 1 at 400 Ma. *)
Definition two_two : list frame := [
  Frame 0 (900 # 1) 0 0 0 0 "Rodinia assembled";
  Frame 1 (900 # 1) 0 0 0 0 "Rodinia assembled";
  Frame 2 (400 # 1) 1 0 0 0 "Laurussia forming";
  Frame 3 (400 # 1) 1 0 0 0 "Laurussia forming"
].

(* ===================================================================== *)
(** * Theorems *)
(* ===================================================================== *)


Section Crossfade.
Import RenderGlobe.

(** *** The run builder yields the maximal runs *)

Lemma tiles_snoc s runs e g e' :
  tiles s runs e -> e < e' -> tiles s (runs ++ [(g, e, e', e' - e)]) e'.
Proof.
  induction 1 as [s|s r rs e Hs Hlt Hlen Ht IH]; intros He; simpl.
  - apply tiles_cons; try done. constructor.
  - apply tiles_cons; auto.
Qed.

Lemma tiles_le s runs e : tiles s runs e -> s <= e.
Proof. induction 1; lia. Qed.

Lemma tiles_bounds s runs e r :
  tiles s runs e -> r ∈ runs ->
  s <= run_start r /\ run_start r < run_end r /\ run_end r <= e /\
  run_len r = run_end r - run_start r.
Proof.
  induction 1 as [s|s r0 rs e Hs Hlt Hlen Ht IH]; intros Hin.
  - by apply elem_of_nil in Hin.
  - apply elem_of_cons in Hin as [->|Hin].
    + apply tiles_le in Ht. lia.
    + apply IH in Hin. lia.
Qed.

Lemma adjacent_snoc (runs : list run) (x : run) :
  (forall j a b, runs !! j = Some a -> runs !! S j = Some b ->
                 run_geo a <> run_geo b) ->
  (forall r, last runs = Some r -> run_geo r <> run_geo x) ->
  forall j a b, (runs ++ [x]) !! j = Some a -> (runs ++ [x]) !! S j = Some b ->
                run_geo a <> run_geo b.
Proof.
  intros Hadj Hlast j a b Ha Hb.
  destruct (decide (S j < length runs)%nat) as [Hlt|Hge].
  - rewrite lookup_app_l in Ha by lia. rewrite lookup_app_l in Hb by lia.
    eauto.
  - assert (S j = length runs) as Hj.
    { apply lookup_lt_Some in Hb. rewrite length_app in Hb. simpl in Hb. lia. }
    rewrite lookup_app_l in Ha by lia.
    rewrite Hj, lookup_app_r in Hb by lia.
    replace (length runs - length runs)%nat with 0%nat in Hb by lia.
    simpl in Hb. injection Hb as <-.
    apply Hlast. rewrite last_lookup.
    replace (pred (length runs)) with j by lia. done.
Qed.

Lemma runs_step_inv frames i st pf :
  frames !! Z.to_nat i = Some pf -> 0 <= i ->
  runs_inv frames i st -> runs_inv frames (i + 1) (runs_step st i pf).
Proof.
  destruct st as [[runs prev] rs]. intros Hpf Hi.
  intros (Ht & Hrs & Hfirst & Hgeo & Hadj & Hlast & Hcur).
  assert (geo_at frames i = Some (geo_frame_idx pf)) as Hgi.
  { unfold geo_at. by rewrite Hpf. }
  unfold runs_step.
  destruct (Z.eqb_spec (geo_frame_idx pf) prev) as [Heq|Hne]; simpl.
  - repeat split; try done; try lia.
    intros k Hk. destruct (decide (k = i)) as [->|Hki].
    + by rewrite Hgi, Heq.
    + apply Hcur. lia.
  - assert (rs < i) as Hlt.
    { destruct (decide (rs = i)) as [Hri|]; [|lia].
      apply Hfirst in Hri. congruence. }
    split; [by apply tiles_snoc|].
    split; [lia|]. split; [lia|]. split; [|split; [|split]].
    + intros r k Hin Hk. apply elem_of_app in Hin as [Hin|Hin]; [eauto|].
      apply list_elem_of_singleton in Hin as ->. apply Hcur.
      unfold run_start, run_end in Hk. simpl in Hk. lia.
    + apply adjacent_snoc; auto.
    + intros r. rewrite last_snoc. intros [= <-]. unfold run_geo. simpl.
      congruence.
    + intros k Hk. assert (k = i) as -> by lia. done.
Qed.

Lemma runs_loop_inv frames rest i st :
  0 <= i ->
  (forall k, rest !! k = frames !! (Z.to_nat i + k)%nat) ->
  runs_inv frames i st ->
  runs_inv frames (i + Z.of_nat (length rest)) (runs_loop i rest st).
Proof.
  revert i st. induction rest as [|pf rest IH]; intros i st Hi Hrest Hinv.
  - simpl. by rewrite Z.add_0_r.
  - simpl runs_loop.
    replace (i + Z.of_nat (length (pf :: rest)))
      with (i + 1 + Z.of_nat (length rest)) by (simpl length; lia).
    apply IH; [lia| |].
    + intros k.
      replace (Z.to_nat (i + 1) + k)%nat with (Z.to_nat i + S k)%nat by lia.
      by rewrite <- Hrest.
    + apply runs_step_inv; [|done|done].
      rewrite <- (Nat.add_0_r (Z.to_nat i)), <- Hrest. done.
Qed.

Lemma build_runs_maximal frames :
  frames <> [] ->
  exists runs, build_runs frames = Some runs /\ maximal_runs frames runs.
Proof.
  destruct frames as [|pf0 rest0]; [done|]. intros _.
  unfold build_runs. remember (pf0 :: rest0) as frames eqn:Hfr.
  pose proof (runs_loop_inv frames frames 0 ([], geo_frame_idx pf0, 0)) as H.
  destruct (runs_loop 0 frames ([], geo_frame_idx pf0, 0))
    as [[runs prev] rs] eqn:Hloop.
  eexists. split; [reflexivity|].
  destruct H as (Ht & Hrs & Hfirst & Hgeo & Hadj & Hlast & Hcur);
    [lia|done| |].
  { repeat split; try lia; try (constructor).
    - intros _. unfold geo_at. by rewrite Hfr.
    - intros r k Hin. by apply elem_of_nil in Hin.
    - intros j a b Ha. done.
    - done. }
  rewrite Z.add_0_l in *.
  assert (0 < Z.of_nat (length frames)) as Hn by (rewrite Hfr; simpl; lia).
  assert (rs < Z.of_nat (length frames)) as Hlt.
  { destruct (decide (rs = Z.of_nat (length frames))) as [Hri|]; [|lia].
    apply Hfirst in Hri. unfold geo_at in Hri.
    rewrite lookup_ge_None_2 in Hri by lia. done. }
  split.
  - by apply tiles_snoc.
  - intros r k Hin Hk. apply elem_of_app in Hin as [Hin|Hin]; [eauto|].
    apply list_elem_of_singleton in Hin as ->. apply Hcur.
    unfold run_start, run_end in Hk. simpl in Hk. lia.
  - apply adjacent_snoc; auto.
Qed.

End Crossfade.


Section CrossfadeWindows.
Import RenderGlobe.

(** *** The stores of one boundary and of all boundaries *)

Lemma elem_of_range (k n : Z) : k ∈ range n <-> 0 <= k < n.
Proof.
  unfold range. rewrite list_elem_of_In, in_map_iff. split.
  - intros (j & <- & Hj). apply in_seq in Hj. lia.
  - intros Hk. exists (Z.to_nat k). split; [lia|]. apply in_seq. lia.
Qed.

Lemma NoDup_range (n : Z) : NoDup (range n).
Proof.
  unfold range. apply (NoDup_fmap_2 Z.of_nat), NoDup_seq.
Qed.

Lemma crossfade_writes_cons a b rest h :
  crossfade_writes (a :: b :: rest) h
  = boundary_writes a b h ++ crossfade_writes (b :: rest) h.
Proof.
  unfold crossfade_writes. simpl length.
  replace (S (S (length rest)) - 1)%nat with (S (length rest)) by lia.
  replace (S (length rest) - 1)%nat with (length rest) by lia.
  rewrite <- cons_seq. simpl flat_map. f_equal.
  rewrite <- seq_shift, flat_map_concat_map, map_map.
  by rewrite <- flat_map_concat_map.
Qed.

Lemma crossfade_writes_short h : forall runs : list run,
  (length runs <= 1)%nat -> crossfade_writes runs h = [].
Proof.
  intros runs Hl. unfold crossfade_writes.
  by replace (length runs - 1)%nat with 0%nat by lia.
Qed.

Lemma elem_of_boundary_writes a b h i v :
  (i, v) ∈ boundary_writes a b h <->
  exists k, 1 <= boundary_half a b h /\ 0 <= k < 2 * boundary_half a b h /\
            i = run_start b - boundary_half a b h + k /\
            v = (run_geo a, run_geo b, blend_factor k (boundary_half a b h)).
Proof.
  unfold boundary_writes.
  destruct (Z.ltb_spec (boundary_half a b h) 1) as [Hlt|Hge].
  - split; [intros Hin; by apply elem_of_nil in Hin|].
    intros (k & ? & _). lia.
  - rewrite list_elem_of_In, in_map_iff. split.
    + intros (k & [= <- <-] & Hk).
      apply list_elem_of_In, elem_of_range in Hk. by exists k.
    + intros (k & _ & Hk & -> & ->). exists k. split; [done|].
      by apply list_elem_of_In, elem_of_range.
Qed.

Lemma elem_of_crossfade_writes runs h i v :
  (i, v) ∈ crossfade_writes runs h <->
  exists j a b, runs !! j = Some a /\ runs !! S j = Some b /\
                (i, v) ∈ boundary_writes a b h.
Proof.
  unfold crossfade_writes. rewrite list_elem_of_In, in_flat_map. split.
  - intros (j & _ & Hin).
    destruct (runs !! j) as [a|] eqn:Ha; [|done].
    destruct (runs !! S j) as [b|] eqn:Hb; [|done].
    exists j, a, b. split; [done|]. split; [done|]. by apply list_elem_of_In.
  - intros (j & a & b & Ha & Hb & Hin). exists j. split.
    + apply in_seq. apply lookup_lt_Some in Hb. lia.
    + rewrite Ha, Hb. by apply list_elem_of_In.
Qed.

(** Every store of the boundary [a|b] lands in the second half of [a] or
    the first half of [b]. *)
Lemma boundary_writes_keys a b h i v :
  run_start b = run_end a -> 0 <= run_len a -> 0 <= run_len b ->
  (i, v) ∈ boundary_writes a b h ->
  run_end a - run_len a / 2 <= i < run_start b + run_len b / 2.
Proof.
  intros Hab Ha Hb (k & Hh & Hk & -> & _)%elem_of_boundary_writes.
  unfold boundary_half in *. lia.
Qed.

Lemma NoDup_boundary_writes a b h : NoDup (boundary_writes a b h).*1.
Proof.
  unfold boundary_writes. destruct (_ <? 1); [constructor|].
  rewrite <- list_fmap_compose. apply NoDup_fmap_2; [|apply NoDup_range].
  intros x y Hxy. simpl in Hxy. lia.
Qed.

Lemma crossfade_writes_keys s runs e h :
  tiles s runs e ->
  forall i v, (i, v) ∈ crossfade_writes runs h ->
    exists a rest, runs = a :: rest /\ run_end a - run_len a / 2 <= i < e.
Proof.
  induction 1 as [s|s a rs e Hs Hlt Hlen Ht IH]; intros i v Hin.
  - rewrite crossfade_writes_short in Hin by (simpl; lia).
    by apply elem_of_nil in Hin.
  - exists a, rs. split; [done|].
    inversion Ht as [|s' b rs' e' Hsb Hltb Hlenb Ht' E1 E2 E3]; subst.
    + rewrite crossfade_writes_short in Hin by (simpl; lia).
      by apply elem_of_nil in Hin.
    + rewrite crossfade_writes_cons in Hin.
      apply elem_of_app in Hin as [Hin|Hin].
      * apply boundary_writes_keys in Hin; [|lia..].
        apply tiles_le in Ht'.
        assert (run_len b / 2 <= run_len b) by (apply Z.div_le_upper_bound; lia).
        lia.
      * destruct (IH _ _ Hin) as (a' & rest' & [= <- <-] & Hi).
        assert (0 <= run_len b / 2 <= run_len b)
          by (split; [apply Z.div_pos|apply Z.div_le_upper_bound]; lia).
        assert (0 <= run_len a / 2 <= run_len a)
          by (split; [apply Z.div_pos|apply Z.div_le_upper_bound]; lia).
        lia.
Qed.

(** No animation frame is stored twice. *)
Lemma NoDup_crossfade_writes s runs e h :
  tiles s runs e -> NoDup (crossfade_writes runs h).*1.
Proof.
  induction 1 as [s|s a rs e Hs Hlt Hlen Ht IH].
  - rewrite crossfade_writes_short by (simpl; lia). constructor.
  - inversion Ht as [|s' b rs' e' Hsb Hltb Hlenb Ht' E1 E2 E3]; subst.
    + rewrite crossfade_writes_short by (simpl; lia). constructor.
    + rewrite crossfade_writes_cons, fmap_app. apply NoDup_app.
      split; [apply NoDup_boundary_writes|]. split; [|done].
      intros i [[i1 v1] [Hi1 Hin1]]%list_elem_of_fmap
               [[i2 v2] [Hi2 Hin2]]%list_elem_of_fmap.
      simpl in *. subst i1 i2.
      apply boundary_writes_keys in Hin1; [|lia..].
      destruct (crossfade_writes_keys _ _ _ h Ht _ _ Hin2)
        as (a' & rest' & [= <- <-] & Hi).
      assert (run_len b / 2 + run_len b / 2 <= run_len b).
      { pose proof (Z.mul_div_le (run_len b) 2). lia. }
      lia.
Qed.

Lemma store_all_snoc (writes : list (Z * assignment)) kv :
  store_all (writes ++ [kv]) = <[kv.1 := kv.2]> (store_all writes).
Proof. unfold store_all. by rewrite foldl_app. Qed.

(** With distinct keys, the final dict holds exactly the stores. *)
Lemma store_all_lookup (writes : list (Z * assignment)) i v :
  NoDup writes.*1 -> (store_all writes !! i = Some v <-> (i, v) ∈ writes).
Proof.
  induction writes as [|[k x] l IH] using rev_ind; intros Hnd.
  - unfold store_all. simpl. rewrite lookup_empty, elem_of_nil. naive_solver.
  - rewrite fmap_app in Hnd. apply NoDup_app in Hnd as (Hl & Hdisj & _).
    rewrite store_all_snoc, lookup_insert_Some, elem_of_app,
      list_elem_of_singleton, IH by done.
    simpl. split.
    + intros [[-> ->]|[_ Hin]]; auto.
    + intros [Hin|[= -> ->]]; [|auto]. right. split; [|done].
      intros ->. apply (Hdisj i).
      * apply list_elem_of_fmap. by exists (i, v).
      * simpl. apply list_elem_of_singleton. done.
Qed.

Lemma store_all_size (writes : list (Z * assignment)) :
  NoDup writes.*1 -> size (store_all writes) = length writes.
Proof.
  intros Hnd.
  assert (dom (store_all writes) = list_to_set writes.*1) as Hdom.
  { apply set_eq. intros i. rewrite elem_of_dom, elem_of_list_to_set.
    rewrite list_elem_of_fmap. split.
    - intros [v Hv]. exists (i, v). split; [done|]. by apply store_all_lookup.
    - intros ([i' v] & -> & Hin). exists v. by apply store_all_lookup. }
  rewrite <- size_dom, Hdom, size_list_to_set, length_fmap; done.
Qed.

(** *** Blend factors *)

Lemma blend_factor_range k half :
  0 <= k < 2 * half -> (0 < blend_factor k half < 1)%Q.
Proof.
  intros Hk. unfold blend_factor.
  assert (0 < inject_Z (2 * half + 1))%Q as Hden
    by (rewrite <- (Zlt_Qlt 0); lia).
  split.
  - apply Qlt_shift_div_l; [done|]. rewrite Qmult_0_l.
    rewrite <- (Zlt_Qlt 0). lia.
  - apply Qlt_shift_div_r; [done|]. rewrite Qmult_1_l.
    rewrite <- Zlt_Qlt. lia.
Qed.

Lemma blend_factor_increasing k half :
  0 <= k -> k + 1 < 2 * half ->
  (blend_factor k half < blend_factor (k + 1) half)%Q.
Proof.
  intros Hk Hk1. unfold blend_factor.
  assert (0 < inject_Z (2 * half + 1))%Q as Hden
    by (rewrite <- (Zlt_Qlt 0); lia).
  apply Qlt_shift_div_l; [done|].
  unfold Qdiv. rewrite <- Qmult_assoc, (Qmult_comm (/ _)).
  rewrite Qmult_inv_r, Qmult_1_r.
  - rewrite <- Zlt_Qlt. lia.
  - intros Heq. rewrite Heq in Hden. by apply Qlt_irrefl in Hden.
Qed.

End CrossfadeWindows.


Section CrossfadeClaims.
Import RenderGlobe.

Lemma NoDup_flat_map_blocks {A B : Type} (f : A -> list B) (l : list A) :
  NoDup (flat_map f l) ->
  forall j1 j2 x1 x2 y,
    l !! j1 = Some x1 -> l !! j2 = Some x2 -> y ∈ f x1 -> y ∈ f x2 ->
    j1 = j2.
Proof.
  induction l as [|x l IH]; intros Hnd j1 j2 x1 x2 y H1 H2 Hy1 Hy2;
    [done|].
  simpl in Hnd. apply NoDup_app in Hnd as (_ & Hdisj & Hnd).
  assert (forall j z, l !! j = Some z -> y ∈ f z -> y ∈ flat_map f l) as Hmem.
  { intros j z Hz Hyz. apply list_elem_of_In, in_flat_map. exists z.
    split; apply list_elem_of_In; [|done]. by eapply list_elem_of_lookup_2. }
  destruct j1 as [|j1], j2 as [|j2]; simpl in *; simplify_eq; try done.
  - exfalso. eapply Hdisj; eauto.
  - exfalso. eapply Hdisj; eauto.
  - f_equal. eauto.
Qed.

Lemma crossfade_writes_keys_flat runs h :
  (crossfade_writes runs h).*1
  = flat_map (fun ri =>
                match runs !! ri, runs !! S ri with
                | Some a, Some b => (boundary_writes a b h).*1
                | _, _ => []
                end) (seq 0 (length runs - 1)).
Proof.
  unfold crossfade_writes. generalize (seq 0 (length runs - 1)) as l.
  induction l as [|ri l IH]; [done|]. simpl. rewrite fmap_app, IH.
  f_equal. by destruct (runs !! ri), (runs !! S ri).
Qed.

(** Two different boundaries never store to the same frame. *)
Lemma boundaries_disjoint s runs e h j1 j2 a1 b1 a2 b2 i v1 v2 :
  tiles s runs e ->
  runs !! j1 = Some a1 -> runs !! S j1 = Some b1 ->
  runs !! j2 = Some a2 -> runs !! S j2 = Some b2 ->
  (i, v1) ∈ boundary_writes a1 b1 h -> (i, v2) ∈ boundary_writes a2 b2 h ->
  j1 = j2.
Proof.
  intros Ht Ha1 Hb1 Ha2 Hb2 Hi1 Hi2.
  pose proof (NoDup_crossfade_writes _ _ _ h Ht) as Hnd.
  rewrite crossfade_writes_keys_flat in Hnd.
  eapply (NoDup_flat_map_blocks _ _ Hnd j1 j2 j1 j2 i).
  - apply lookup_seq. apply lookup_lt_Some in Hb1. lia.
  - apply lookup_seq. apply lookup_lt_Some in Hb2. lia.
  - rewrite Ha1, Hb1. apply list_elem_of_fmap. by exists (i, v1).
  - rewrite Ha2, Hb2. apply list_elem_of_fmap. by exists (i, v2).
Qed.

Lemma runs_loop_constant g : forall seg i runs rs,
  Forall (fun pf => geo_frame_idx pf = g) seg ->
  runs_loop i seg (runs, g, rs) = (runs, g, rs).
Proof.
  induction seg as [|pf seg IH]; intros i runs rs Hall; [done|].
  apply Forall_cons in Hall as [Hpf Hall]. simpl.
  rewrite Hpf, Z.eqb_refl. simpl. by apply IH.
Qed.

Lemma runs_loop_app l1 l2 i st :
  runs_loop i (l1 ++ l2) st
  = runs_loop (i + Z.of_nat (length l1)) l2 (runs_loop i l1 st).
Proof.
  revert i st. induction l1 as [|pf l1 IH]; intros i st; simpl.
  - by rewrite Z.add_0_r.
  - rewrite IH. f_equal. lia.
Qed.

(** Two runs of ten frames each. *)
Lemma build_runs_ten_ten frames a b :
  a <> b -> geo_frame_idx <$> frames = replicate 10 a ++ replicate 10 b ->
  build_runs frames = Some [(a, 0, 10, 10); (b, 10, 20, 10)].
Proof.
  intros Hab Hgeo.
  apply fmap_app_inv in Hgeo as (l1 & l2 & H1 & H2 & ->).
  assert (length l1 = 10%nat) as Hl1
    by (rewrite <- (length_fmap geo_frame_idx), <- H1; done).
  assert (length l2 = 10%nat) as Hl2
    by (rewrite <- (length_fmap geo_frame_idx), <- H2; done).
  assert (Forall (fun pf => geo_frame_idx pf = a) l1) as Ha.
  { apply (Forall_fmap geo_frame_idx (fun g => g = a)).
    rewrite <- H1. by apply Forall_replicate. }
  assert (Forall (fun pf => geo_frame_idx pf = b) l2) as Hb.
  { apply (Forall_fmap geo_frame_idx (fun g => g = b)).
    rewrite <- H2. by apply Forall_replicate. }
  destruct l1 as [|pf0 l1]; [done|]. destruct l2 as [|pf1 l2]; [done|].
  simpl app. unfold build_runs.
  change (pf0 :: l1 ++ pf1 :: l2) with ((pf0 :: l1) ++ pf1 :: l2).
  pose proof (Forall_inv Ha) as Hpf0. pose proof (Forall_inv Hb) as Hpf1.
  rewrite runs_loop_app, Hpf0, runs_loop_constant, Hl1 by done.
  simpl runs_loop. rewrite Hpf1.
  destruct (Z.eqb_spec b a) as [->|_]; [done|]. simpl negb. cbv iota.
  rewrite runs_loop_constant by (by apply Forall_inv_tail in Hb).
  rewrite length_app, Hl1, Hl2. done.
Qed.

(** *** The three copies agree *)

Lemma foldl_flat_map {A B C : Type} (f : A -> B -> A) (g : C -> list B)
      (l : list C) (a : A) :
  foldl f a (flat_map g l) = foldl (fun a x => foldl f a (g x)) a l.
Proof.
  revert a. induction l as [|x l IH]; intros a; [done|].
  simpl. by rewrite foldl_app, IH.
Qed.

Lemma foldl_ext_in {A B : Type} (f g : A -> B -> A) (l : list B) (a : A) :
  (forall a x, f a x = g a x) -> foldl f a l = foldl g a l.
Proof.
  intros Hfg. revert a. induction l as [|x l IH]; intros a; [done|].
  simpl. by rewrite Hfg, IH.
Qed.

Lemma foldl_map {A B C : Type} (f : A -> B -> A) (g : C -> B)
      (l : list C) (a : A) :
  foldl f a (map g l) = foldl (fun a x => f a (g x)) a l.
Proof. revert a. induction l as [|x l IH]; intros a; [done|]. simpl. done. Qed.

Lemma render_flat_agrees path_frames crossfade_half :
  RenderFlat.compute_crossfade_schedule path_frames crossfade_half
  = RenderGlobe.compute_crossfade_schedule path_frames crossfade_half.
Proof.
  unfold RenderFlat.compute_crossfade_schedule,
    RenderGlobe.compute_crossfade_schedule, build_runs.
  destruct path_frames as [|pf0 rest]; [done|].
  change RenderFlat.runs_loop with RenderGlobe.runs_loop.
  destruct (runs_loop 0 (pf0 :: rest) ([], geo_frame_idx pf0, 0))
    as [[runs0 prev] rs0].
  simpl. f_equal. unfold store_all, crossfade_writes.
  rewrite foldl_flat_map. apply foldl_ext_in. intros m ri.
  destruct (_ !! ri) as [a|]; [|done]. destruct (_ !! S ri) as [b|]; [|done].
  unfold boundary_writes, boundary_half.
  destruct (_ <? 1); [done|]. by rewrite foldl_map.
Qed.

Lemma enumerate_loop step : forall (l : list frame) (n : nat) (st : runs_state),
  (forall st i pf, step st (i, pf) = runs_step st (Z.of_nat i) pf) ->
  foldl step st (imap (fun k x => ((n + k)%nat, x)) l)
  = runs_loop (Z.of_nat n) l st.
Proof.
  induction l as [|pf l IH]; intros n st Hstep; [done|].
  simpl. rewrite Hstep, Nat.add_0_r.
  replace (Z.of_nat n + 1) with (Z.of_nat (S n)) by lia.
  rewrite <- IH by done. f_equal. apply imap_ext. intros k x _. simpl.
  f_equal. lia.
Qed.

Lemma test_crossfade_agrees path_frames crossfade_half :
  TestCrossfade.compute_crossfade_schedule path_frames crossfade_half
  = RenderFlat.compute_crossfade_schedule path_frames crossfade_half.
Proof.
  unfold TestCrossfade.compute_crossfade_schedule,
    RenderFlat.compute_crossfade_schedule.
  destruct path_frames as [|pf0 rest]; [done|].
  change RenderFlat.runs_loop with RenderGlobe.runs_loop.
  change (imap pair (pf0 :: rest))
    with (imap (fun k x => ((0 + k)%nat, x)) (pf0 :: rest)).
  rewrite enumerate_loop; [done|].
  intros [[runs prev] rs] i pf. done.
Qed.

End CrossfadeClaims.


Section CrossfadeTheorems.
Import RenderGlobe.

(** C1. For a non-empty frame sequence the scheduler returns a map [m];
    [runs] is the partition into maximal runs of equal [geo_frame_idx];
    for each adjacent pair of runs, with
    [half = min (len out / 2) (len in / 2) half_window], a boundary with
    [half < 1] stores nothing, and otherwise frame
    [start in - half + k] carries
    [(geo out, geo in, (k + 1) / (2 * half + 1))] for each
    [k = 0 .. 2 * half - 1], a factor strictly between 0 and 1 that grows
    with [k]; no other frame is assigned.  For two runs of ten frames and
    [half_window = 2] the map has exactly the four entries 8, 9, 10, 11
    with factors 1/5, 2/5, 3/5, 4/5. *)
Theorem C1_crossfade_windows (path_frames : list frame) (half_window : Z) :
  path_frames <> [] ->
  exists runs m,
    build_runs path_frames = Some runs /\
    maximal_runs path_frames runs /\
    compute_crossfade_schedule path_frames half_window = Some m /\
    (forall j out_run in_run,
        runs !! j = Some out_run -> runs !! S j = Some in_run ->
        let half :=
          Z.min (Z.min (run_len out_run / 2) (run_len in_run / 2))
                half_window in
        (half < 1 -> boundary_writes out_run in_run half_window = []) /\
        (1 <= half -> forall k, 0 <= k < 2 * half ->
           m !! (run_start in_run - half + k)
             = Some (run_geo out_run, run_geo in_run, blend_factor k half) /\
           (0 < blend_factor k half < 1)%Q /\
           (k + 1 < 2 * half ->
            (blend_factor k half < blend_factor (k + 1) half)%Q))) /\
    (forall i v, m !! i = Some v ->
        exists j out_run in_run k,
          runs !! j = Some out_run /\ runs !! S j = Some in_run /\
          let half :=
            Z.min (Z.min (run_len out_run / 2) (run_len in_run / 2))
                  half_window in
          1 <= half /\ 0 <= k < 2 * half /\
          i = run_start in_run - half + k /\
          v = (run_geo out_run, run_geo in_run, blend_factor k half)) /\
    (forall a b,
        a <> b -> half_window = 2 ->
        geo_frame_idx <$> path_frames = replicate 10 a ++ replicate 10 b ->
        size m = 4%nat /\
        m = <[11 := (a, b, 4 # 5)]> (<[10 := (a, b, 3 # 5)]>
              (<[9 := (a, b, 2 # 5)]> (<[8 := (a, b, 1 # 5)]> ∅)))).
Proof.
  intros Hne.
  destruct (build_runs_maximal path_frames Hne) as (runs & Hruns & Hmax).
  exists runs, (store_all (crossfade_writes runs half_window)).
  pose proof (NoDup_crossfade_writes _ _ _ half_window (mr_tiles _ _ Hmax))
    as Hnd.
  split; [done|]. split; [done|].
  split; [unfold compute_crossfade_schedule; by rewrite Hruns|].
  split; [|split].
  - intros j a b Ha Hb half. split.
    + intros Hlt. unfold boundary_writes.
      fold half in Hlt. change (boundary_half a b half_window) with half.
      destruct (Z.ltb_spec half 1); [done|lia].
    + intros Hge k Hk. split; [|split].
      * apply store_all_lookup; [done|].
        apply elem_of_crossfade_writes. exists j, a, b.
        split; [done|]. split; [done|].
        apply elem_of_boundary_writes. by exists k.
      * by apply blend_factor_range.
      * intros Hk1. apply blend_factor_increasing; lia.
  - intros i v Hiv. apply store_all_lookup in Hiv; [|done].
    apply elem_of_crossfade_writes in Hiv as (j & a & b & Ha & Hb & Hin).
    apply elem_of_boundary_writes in Hin as (k & Hh & Hk & Hi & Hv).
    by exists j, a, b, k.
  - intros a b Hab -> Hgeo.
    rewrite (build_runs_ten_ten _ a b Hab Hgeo) in Hruns.
    injection Hruns as <-. split; [|done].
    by apply store_all_size in Hnd.
Qed.

Lemma C1_crossfade_windows_witness :
  ten_ten <> [] /\
  exists m, compute_crossfade_schedule ten_ten 2 = Some m /\
            m !! 8 = Some (0, 1, (1 # 5)%Q) /\ m !! 12 = None.
Proof.
  split; [done|].
  destruct (C1_crossfade_windows ten_ten 2) as (runs & m & _ & _ & Hm & _);
    [done|].
  exists m. split; [exact Hm|].
  injection Hm as <-. done.
Defined.

(** C2. The schedulers of [render_globe.py], [render_flat.py] and
    [test_crossfade.py] are the same function: on every frame sequence
    and every half-window all three give the same outcome (the same map,
    or all raise on the empty sequence); being functions, equal inputs
    give equal outputs. *)
Theorem C2_schedulers_agree :
  forall (path_frames : list frame) (crossfade_half : Z),
    RenderFlat.compute_crossfade_schedule path_frames crossfade_half
    = RenderGlobe.compute_crossfade_schedule path_frames crossfade_half /\
    TestCrossfade.compute_crossfade_schedule path_frames crossfade_half
    = RenderGlobe.compute_crossfade_schedule path_frames crossfade_half /\
    (forall path_frames' crossfade_half',
        path_frames' = path_frames -> crossfade_half' = crossfade_half ->
        RenderGlobe.compute_crossfade_schedule path_frames' crossfade_half'
        = RenderGlobe.compute_crossfade_schedule path_frames crossfade_half).
Proof.
  intros path_frames crossfade_half. split; [|split].
  - apply render_flat_agrees.
  - rewrite test_crossfade_agrees. apply render_flat_agrees.
  - by intros ? ? -> ->.
Qed.

Lemma C2_schedulers_agree_witness :
  RenderFlat.compute_crossfade_schedule ten_ten 2
  = RenderGlobe.compute_crossfade_schedule ten_ten 2 /\
  TestCrossfade.compute_crossfade_schedule ten_ten 2
  = RenderGlobe.compute_crossfade_schedule ten_ten 2.
Proof.
  destruct (C2_schedulers_agree ten_ten 2) as (Hflat & Htest & _).
  exact (conj Hflat Htest).
Defined.

(** C10. The stores executed by the scheduler hit pairwise distinct
    frame indices, so no store overwrites an earlier one and two
    different boundaries never assign the same frame; every stored index
    is a valid frame index; each boundary takes at most half of each
    adjoining run. *)
Theorem C10_windows_disjoint
    (path_frames : list frame) (half_window : Z) (runs : list run) :
  build_runs path_frames = Some runs ->
  let writes := crossfade_writes runs half_window in
  compute_crossfade_schedule path_frames half_window
    = Some (store_all writes) /\
  NoDup writes.*1 /\
  (forall pre kv post, writes = pre ++ kv :: post ->
                       store_all pre !! kv.1 = None) /\
  (forall j1 j2 a1 b1 a2 b2 i v1 v2,
      runs !! j1 = Some a1 -> runs !! S j1 = Some b1 ->
      runs !! j2 = Some a2 -> runs !! S j2 = Some b2 ->
      (i, v1) ∈ boundary_writes a1 b1 half_window ->
      (i, v2) ∈ boundary_writes a2 b2 half_window -> j1 = j2) /\
  (forall i v, store_all writes !! i = Some v ->
               0 <= i < Z.of_nat (length path_frames)) /\
  (forall j a b, runs !! j = Some a -> runs !! S j = Some b ->
                 boundary_half a b half_window <= run_len a / 2 /\
                 boundary_half a b half_window <= run_len b / 2).
Proof.
  intros Hruns writes.
  assert (path_frames <> []) as Hne by (by destruct path_frames).
  destruct (build_runs_maximal path_frames Hne) as (runs' & Hruns' & Hmax).
  assert (runs' = runs) as -> by congruence.
  pose proof (mr_tiles _ _ Hmax) as Ht.
  pose proof (NoDup_crossfade_writes _ _ _ half_window Ht) as Hnd.
  fold writes in Hnd.
  split; [unfold compute_crossfade_schedule; by rewrite Hruns|].
  split; [done|]. split; [|split; [|split]].
  - intros pre [k v] post Hw. simpl.
    destruct (store_all pre !! k) as [v'|] eqn:Hk; [|done]. exfalso.
    rewrite Hw, fmap_app in Hnd. apply NoDup_app in Hnd as (Hpre & Hdisj & _).
    apply store_all_lookup in Hk; [|done].
    apply (Hdisj k); [apply list_elem_of_fmap; by exists (k, v')|].
    simpl. left.
  - intros j1 j2 a1 b1 a2 b2 i v1 v2.
    by apply boundaries_disjoint with 0 (Z.of_nat (length path_frames)).
  - intros i v Hiv. apply store_all_lookup in Hiv; [|done].
    destruct (crossfade_writes_keys _ _ _ half_window Ht _ _ Hiv)
      as (a & rest & -> & Hi).
    inversion Ht as [|s r rs e Hs Hlt Hlen Ht' E1 E2 E3]; subst.
    assert (run_len a / 2 <= run_len a)
      by (apply Z.div_le_upper_bound; lia).
    lia.
  - intros j a b Ha Hb. unfold boundary_half. lia.
Qed.

Lemma C10_windows_disjoint_witness :
  build_runs ten_ten = Some [(0, 0, 10, 10); (1, 10, 20, 10)] /\
  NoDup (crossfade_writes [(0, 0, 10, 10); (1, 10, 20, 10)] 2).*1.
Proof.
  split; [reflexivity|].
  apply (C10_windows_disjoint ten_ten 2 _ eq_refl).
Defined.

End CrossfadeTheorems.


(** ** The two arithmetics have the properties asked of binary64 *)

Lemma exact_arith_laws : Float64Laws exact_arith.
Proof.
  split; try (intros x y z _ H; exact H); try (intros x y z _ _ H; exact H);
    cbn [f64_add f64_sub f64_mul f64_div exact_arith]; apply _.
Qed.

(** Python's [round] respects equality of rationals. *)
Lemma py_round_proper x y : (x == y)%Q -> py_round x = py_round y.
Proof.
  intros Hxy. unfold py_round. rewrite (Qfloor_comp _ _ Hxy).
  assert ((x - inject_Z (Qfloor y)) == (y - inject_Z (Qfloor y)))%Q as ->
    by (by rewrite Hxy).
  done.
Qed.

Lemma py_round_inject_Z (z : Z) : py_round (inject_Z z) = z.
Proof.
  unfold py_round. rewrite Qfloor_Z.
  assert ((inject_Z z - inject_Z z) == 0)%Q as -> by ring. done.
Qed.

(** Powers of two. *)
Lemma Qpow2_pos (k : Z) : (0 < 2 ^ k)%Q.
Proof. by apply Qpower_0_lt. Qed.

Lemma Qpow2_plus (n m : Z) : (2 ^ (n + m) == 2 ^ n * 2 ^ m)%Q.
Proof. by apply Qpower_plus. Qed.

Lemma Qpow2_Z (n : Z) : 0 <= n -> (inject_Z (2 ^ n) == 2 ^ n)%Q.
Proof. intros Hn. by rewrite Zpower_Qpower. Qed.

Lemma Qpow2_lt (n m : Z) : n < m -> (2 ^ n < 2 ^ m)%Q.
Proof. intros H. by apply Qpower_lt_compat_l. Qed.

Lemma Qpow2_le (n m : Z) : n <= m -> (2 ^ n <= 2 ^ m)%Q.
Proof. intros H. by apply Qpower_le_compat_l. Qed.

(** [Qfloor_log2] is the binary exponent: the [k] with
    [2^k <= x < 2^(k+1)]. *)
Lemma Qfloor_log2_spec (x : Q) :
  (0 < x)%Q -> (2 ^ Qfloor_log2 x <= x)%Q /\ (x < 2 ^ (Qfloor_log2 x + 1))%Q.
Proof.
  intros Hx. destruct x as [num den]. unfold Qfloor_log2. cbn [Qnum Qden].
  assert (0 < num) as Hnum.
  { unfold Qlt in Hx. simpl in Hx. lia. }
  set (a := Z.log2 num). set (b := Z.log2 (Z.pos den)).
  destruct (Z.log2_spec num Hnum) as [Ha1 Ha2]. fold a in Ha1, Ha2.
  destruct (Z.log2_spec (Z.pos den) ltac:(lia)) as [Hb1 Hb2].
  fold b in Hb1, Hb2.
  assert (0 <= a) as Ha0 by apply Z.log2_nonneg.
  assert (0 <= b) as Hb0 by apply Z.log2_nonneg.
  assert (num # den == inject_Z num / inject_Z (Z.pos den))%Q as Ex
    by apply Qmake_Qdiv.
  assert (0 < inject_Z (Z.pos den))%Q as Hden by done.
  assert (inject_Z (2 ^ a) <= inject_Z num)%Q as Qa1 by (by rewrite <- Zle_Qle).
  assert (inject_Z num < inject_Z (2 ^ Z.succ a))%Q as Qa2
    by (by rewrite <- Zlt_Qlt).
  assert (inject_Z (2 ^ b) <= inject_Z (Z.pos den))%Q as Qb1
    by (by rewrite <- Zle_Qle).
  assert (inject_Z (Z.pos den) < inject_Z (2 ^ Z.succ b))%Q as Qb2
    by (by rewrite <- Zlt_Qlt).
  rewrite Qpow2_Z in Qa1, Qa2, Qb1, Qb2 by lia.
  set (n := inject_Z num) in *. set (d := inject_Z (Z.pos den)) in *.
  (* the two outer bounds *)
  assert (n / d < 2 ^ (a - b + 1))%Q as Hupper.
  { apply Qlt_shift_div_r; [done|].
    eapply Qlt_le_trans; [exact Qa2|].
    replace (Z.succ a) with ((a - b + 1) + b) by lia.
    rewrite Qpow2_plus. apply Qmult_le_l; [apply Qpow2_pos|done]. }
  assert (2 ^ (a - b - 1) < n / d)%Q as Hlower.
  { apply Qlt_shift_div_l; [done|].
    eapply Qlt_le_trans; [|exact Qa1].
    replace a with ((a - b - 1) + Z.succ b) at 2 by lia.
    rewrite Qpow2_plus. apply Qmult_lt_l; [apply Qpow2_pos|done]. }
  rewrite <- Ex in Hupper, Hlower.
  destruct (Qle_bool (2 ^ (a - b)) (num # den)) eqn:Hle.
  - apply Qle_bool_iff in Hle. done.
  - assert (num # den < 2 ^ (a - b))%Q as Hlt.
    { apply Qnot_le_lt. rewrite <- Qle_bool_iff. congruence. }
    replace (a - b - 1 + 1) with (a - b) by lia.
    split; [by apply Qlt_le_weak|done].
Qed.

Lemma Qfloor_log2_unique (x : Q) (k : Z) :
  (2 ^ k <= x)%Q -> (x < 2 ^ (k + 1))%Q -> Qfloor_log2 x = k.
Proof.
  intros H1 H2.
  assert (0 < x)%Q as Hx by (eapply Qlt_le_trans; [apply (Qpow2_pos k)|done]).
  destruct (Qfloor_log2_spec x Hx) as [H3 H4].
  set (j := Qfloor_log2 x) in *.
  assert (k < j + 1) as Hkj.
  { apply (Qpower_lt_compat_l_inv 2); [|done].
    eapply Qle_lt_trans; [exact H1|exact H4]. }
  assert (j < k + 1) as Hjk.
  { apply (Qpower_lt_compat_l_inv 2); [|done].
    eapply Qle_lt_trans; [exact H3|exact H2]. }
  lia.
Qed.

Lemma Qfloor_log2_proper (x y : Q) :
  (0 < x)%Q -> (x == y)%Q -> Qfloor_log2 x = Qfloor_log2 y.
Proof.
  intros Hx Hxy. symmetry. apply Qfloor_log2_unique.
  - rewrite <- Hxy. by apply Qfloor_log2_spec.
  - rewrite <- Hxy. by apply Qfloor_log2_spec.
Qed.

Lemma Qle_bool_proper (a x y : Q) : (x == y)%Q -> Qle_bool a x = Qle_bool a y.
Proof.
  intros Hxy. apply eq_true_iff_eq. rewrite !Qle_bool_iff. by rewrite Hxy.
Qed.

Lemma Qeq_bool_proper (x y a : Q) : (x == y)%Q -> Qeq_bool x a = Qeq_bool y a.
Proof.
  intros Hxy. apply eq_true_iff_eq. rewrite !Qeq_bool_iff. by rewrite Hxy.
Qed.

Lemma Qmagnitude_pos (x : Q) : ~ (x == 0)%Q -> (0 < Qmagnitude x)%Q.
Proof.
  intros Hx. unfold Qmagnitude. destruct (Qle_bool 0 x) eqn:Hle.
  - apply Qle_bool_iff in Hle. apply Qle_lteq in Hle as [Hlt|Heq]; [done|].
    exfalso. apply Hx. by symmetry.
  - assert (x < 0)%Q; [|lra].
    apply Qnot_le_lt. rewrite <- Qle_bool_iff. congruence.
Qed.

Lemma Qmagnitude_proper (x y : Q) :
  (x == y)%Q -> (Qmagnitude x == Qmagnitude y)%Q.
Proof.
  intros Hxy. unfold Qmagnitude. rewrite (Qle_bool_proper 0 x y Hxy).
  destruct (Qle_bool 0 y); by rewrite Hxy.
Qed.

Lemma b64_round_proper (x y : Q) :
  (x == y)%Q -> (b64_round x == b64_round y)%Q.
Proof.
  intros Hxy. unfold b64_round. rewrite (Qeq_bool_proper x y 0 Hxy).
  destruct (Qeq_bool y 0) eqn:Hz; [reflexivity|].
  assert (~ (x == 0)%Q) as Hx0.
  { rewrite Hxy. rewrite <- Qeq_bool_iff. congruence. }
  rewrite (Qfloor_log2_proper (Qmagnitude x) (Qmagnitude y))
    by (by apply Qmagnitude_pos || by apply Qmagnitude_proper).
  cbv zeta.
  set (ulp := (2 ^ (Z.max (Qfloor_log2 (Qmagnitude y)) (-1022) - 52))%Q).
  rewrite (py_round_proper (x / ulp) (y / ulp)) by (by rewrite Hxy).
  reflexivity.
Qed.

(** An integer of magnitude at most [2^53] is a binary64 number. *)
Lemma b64_round_integer (z : Z) :
  Z.abs z <= 2 ^ 53 -> (b64_round (inject_Z z) == inject_Z z)%Q.
Proof.
  intros Hz. unfold b64_round.
  destruct (Qeq_bool (inject_Z z) 0) eqn:Hz0.
  { apply Qeq_bool_iff in Hz0. by rewrite Hz0. }
  assert (z <> 0) as Hne.
  { intros ->. by rewrite Qeq_bool_refl in Hz0. }
  assert (Qmagnitude (inject_Z z) == inject_Z (Z.abs z))%Q as Hmag.
  { unfold Qmagnitude. destruct (Qle_bool 0 (inject_Z z)) eqn:Hle.
    - apply Qle_bool_iff in Hle. change 0%Q with (inject_Z 0) in Hle.
      rewrite <- Zle_Qle in Hle. by rewrite Z.abs_eq.
    - assert (inject_Z z < inject_Z 0)%Q as Hlt.
      { apply Qnot_le_lt. rewrite <- Qle_bool_iff.
        change (inject_Z 0) with 0%Q. congruence. }
      rewrite <- Zlt_Qlt in Hlt. rewrite Z.abs_neq by lia.
      by rewrite inject_Z_opp. }
  set (l := Z.log2 (Z.abs z)).
  destruct (Z.log2_spec (Z.abs z) ltac:(lia)) as [Hl1 Hl2]. fold l in Hl1, Hl2.
  assert (0 <= l) as Hl0 by apply Z.log2_nonneg.
  assert (Qfloor_log2 (Qmagnitude (inject_Z z)) = l) as ->.
  { apply Qfloor_log2_unique; rewrite Hmag.
    - rewrite <- Qpow2_Z by done. by rewrite <- Zle_Qle.
    - rewrite <- Qpow2_Z by lia. by rewrite <- Zlt_Qlt. }
  assert (l <= 53) as Hl53.
  { unfold l. etrans; [apply Z.log2_le_mono, Hz|]. by vm_compute. }
  rewrite Z.max_l by lia. cbv zeta.
  destruct (decide (l = 53)) as [->|Hl].
  - assert (Z.abs z = 2 ^ 53) as Habs by lia.
    assert (z = 2 ^ 53 \/ z = - 2 ^ 53) as [-> | ->] by lia;
      vm_compute; reflexivity.
  - assert (inject_Z z / 2 ^ (l - 52) == inject_Z (z * 2 ^ (52 - l)))%Q as Hq.
    { rewrite inject_Z_mult, Qpow2_Z by lia.
      replace (52 - l) with (- (l - 52)) by lia. rewrite Qpower_opp.
      reflexivity. }
    rewrite (py_round_proper _ _ Hq), py_round_inject_Z.
    rewrite inject_Z_mult, Qpow2_Z by lia.
    rewrite <- Qmult_assoc, <- Qpow2_plus.
    replace (52 - l + (l - 52)) with 0 by lia.
    change (2 ^ 0)%Q with 1%Q. ring.
Qed.

Lemma b64_round_exact (x : Q) (z : Z) :
  Z.abs z <= 2 ^ 53 -> (x == inject_Z z)%Q -> (b64_round x == inject_Z z)%Q.
Proof.
  intros Hz Hx. rewrite (b64_round_proper _ _ Hx). by apply b64_round_integer.
Qed.

(** Correctly rounded binary64 arithmetic satisfies the laws. *)
Lemma binary64_laws : Float64Laws binary64.
Proof.
  split; cbn [f64_add f64_sub f64_mul f64_div binary64].
  - intros x x' Hx y y' Hy. apply b64_round_proper. by rewrite Hx, Hy.
  - intros x x' Hx y y' Hy. apply b64_round_proper. by rewrite Hx, Hy.
  - intros x x' Hx y y' Hy. apply b64_round_proper. by rewrite Hx, Hy.
  - intros x x' Hx y y' Hy. apply b64_round_proper. by rewrite Hx, Hy.
  - intros x y z Hz H. by apply b64_round_exact.
  - intros x y z Hz H. by apply b64_round_exact.
  - intros x y z Hz H. by apply b64_round_exact.
  - intros x y z Hz _ H. by apply b64_round_exact.
Qed.


Section ExpanderProofs.

Lemma for_each_emit {A : Type} (body : expand_state -> A -> option expand_state)
    (P : Z -> frame -> Prop) (l : list A) :
  (forall out a x, exists f, body (out, a) x = Some (out ++ [f], a + 1) /\ P a f) ->
  forall out a,
  exists new,
    for_each body (out, a) l = Some (out ++ new, a + Z.of_nat (length l)) /\
    length new = length l /\
    (forall k f, new !! k = Some f -> P (a + Z.of_nat k) f).
Proof.
  intros Hbody. induction l as [|x l IH]; intros out a.
  - exists []. simpl. rewrite app_nil_r, Z.add_0_r. by repeat split.
  - destruct (Hbody out a x) as (f & Hf & HP).
    destruct (IH (out ++ [f]) (a + 1)) as (new & Hnew & Hlen & Hall).
    exists (f :: new). simpl. rewrite Hf. simpl. rewrite Hnew.
    split; [|split].
    + f_equal. rewrite <- app_assoc. simpl. f_equal. lia.
    + simpl. by rewrite Hlen.
    + intros [|k] g Hg; simpl in Hg.
      * injection Hg as <-. by rewrite Z.add_0_r.
      * apply Hall in Hg.
        by replace (a + Z.of_nat (S k)) with (a + 1 + Z.of_nat k) by lia.
Qed.

Lemma length_range n : length (range n) = Z.to_nat n.
Proof. unfold range. by rewrite length_map, length_seq. Qed.

Context (cfg : config) (times : list Z).
Context (smooth_lons smooth_lats smooth_dispersal : list Q).
Hypothesis Hlons : length smooth_lons = length times.
Hypothesis Hlats : length smooth_lats = length times.
Hypothesis Hdisp : length smooth_dispersal = length times.


Lemma regular_loop_emits i time_ma label n out a :
  (i < length times)%nat ->
  exists new,
    regular_loop times smooth_lons smooth_lats smooth_dispersal i time_ma label n (out, a)
      = Some (out ++ new, a + Z.of_nat (length new)) /\
    length new = Z.to_nat n /\ block_ok i a new.
Proof.
  intros Hi. unfold regular_loop.
  match goal with |- context [for_each ?b _ _] => set (body := b) end.
  destruct (for_each_emit body
              (fun a f => anim_frame f = a /\ geo_frame_idx f = Z.of_nat i)
              (range n)) with (out := out) (a := a)
    as (new & Hnew & Hlen & Hall).
  - intros out' a' sub. unfold body.
    destruct (lookup_lt_is_Some_2 smooth_lons i) as [lon_i Hlon]; [lia|].
    destruct (lookup_lt_is_Some_2 smooth_lats i) as [lat_i Hlat]; [lia|].
    destruct (lookup_lt_is_Some_2 smooth_dispersal i) as [d Hd]; [lia|].
    rewrite Hlon, Hlat, Hd. unfold total_steps.
    destruct (Z.ltb_spec (Z.of_nat i) (Z.of_nat (length times) - 1)) as [Hlt|Hge].
    + destruct (lookup_lt_is_Some_2 smooth_lons (i + 1)) as [lon_n Hlonn]; [lia|].
      destruct (lookup_lt_is_Some_2 smooth_lats (i + 1)) as [lat_n Hlatn]; [lia|].
      rewrite Hlonn, Hlatn. simpl. eexists. split; [reflexivity|done].
    + simpl. eexists. split; [reflexivity|done].
  - exists new. rewrite Hlen. split; [exact Hnew|]. by rewrite length_range.
Qed.

Lemma hold_loop_emits i time_ma label extra out a :
  (i < length times)%nat ->
  exists new,
    hold_loop smooth_lons smooth_lats smooth_dispersal i time_ma label extra (out, a)
      = Some (out ++ new, a + Z.of_nat (length new)) /\
    length new = Z.to_nat extra /\ block_ok i a new.
Proof.
  intros Hi. unfold hold_loop.
  match goal with |- context [for_each ?b _ _] => set (body := b) end.
  destruct (for_each_emit body
              (fun a f => anim_frame f = a /\ geo_frame_idx f = Z.of_nat i)
              (range extra)) with (out := out) (a := a)
    as (new & Hnew & Hlen & Hall).
  - intros out' a' sub. unfold body.
    destruct (lookup_lt_is_Some_2 smooth_lons i) as [lon_i Hlon]; [lia|].
    destruct (lookup_lt_is_Some_2 smooth_lats i) as [lat_i Hlat]; [lia|].
    destruct (lookup_lt_is_Some_2 smooth_dispersal i) as [d Hd]; [lia|].
    rewrite Hlon, Hlat, Hd. simpl. eexists. split; [reflexivity|done].
  - exists new. rewrite Hlen. split; [exact Hnew|]. by rewrite length_range.
Qed.

End ExpanderProofs.

Section ExpanderLoop.
Context {arith : Float64}.
Context (cfg : config) (times : list Z).
Context (smooth_lons smooth_lats smooth_dispersal : list Q).
Hypothesis Hlons : length smooth_lons = length times.
Hypothesis Hlats : length smooth_lats = length times.
Hypothesis Hdisp : length smooth_dispersal = length times.
Hypothesis Heras : ERA_OVERRIDES cfg <> [].


Lemma get_era_label_total time_ma : is_Some (get_era_label cfg time_ma).
Proof.
  unfold get_era_label. destruct (ERA_OVERRIDES cfg) as [|e l]; [done|].
  simpl. eauto.
Qed.

Lemma block_ok_app i a b1 b2 :
  block_ok i a b1 -> block_ok i (a + Z.of_nat (length b1)) b2 ->
  block_ok i a (b1 ++ b2).
Proof.
  intros H1 H2 k f Hk. apply lookup_app_Some in Hk as [Hk|[Hge Hk]].
  - by apply H1.
  - apply H2 in Hk. split; [|tauto]. lia.
Qed.

Lemma expand_step_emits hold i out a :
  (i < length times)%nat ->
  exists t_i label d reg hld,
    times !! i = Some t_i /\ smooth_dispersal !! i = Some d /\
    regular_loop times smooth_lons smooth_lats smooth_dispersal i (inject_Z t_i) label
            (n_frames_of (duration_at cfg d))
            (out, a)
      = Some (out ++ reg, a + Z.of_nat (length reg)) /\
    expand_step cfg times smooth_lons smooth_lats smooth_dispersal hold (out, a) i
      = Some (out ++ reg ++ hld, a + Z.of_nat (length (reg ++ hld))) /\
    length reg
      = Z.to_nat (n_frames_of (duration_at cfg d)) /\
    length hld = hold_extra hold i /\
    block_ok i a (reg ++ hld).
Proof.
  intros Hi. unfold expand_step.
  destruct (lookup_lt_is_Some_2 times i) as [t_i Ht]; [lia|].
  destruct (lookup_lt_is_Some_2 smooth_dispersal i) as [d Hd]; [lia|].
  destruct (get_era_label_total (inject_Z t_i)) as [label Hlabel].
  set (n := n_frames_of (duration_at cfg d)).
  destruct (regular_loop_emits times smooth_lons smooth_lats smooth_dispersal
              Hlons Hlats Hdisp i (inject_Z t_i) label n out a Hi)
    as (reg & Hreg & Hlreg & Hokreg).
  exists t_i, label, d, reg.
  rewrite Ht. simpl. rewrite Hlabel. simpl.
  unfold frame_duration. rewrite list_lookup_fmap, Hd. simpl. fold n.
  rewrite Hreg. simpl. unfold hold_extra.
  destruct (hold !! i) as [[extra lbl]|] eqn:Hhold.
  - destruct (hold_loop_emits times smooth_lons smooth_lats smooth_dispersal
                Hlons Hlats Hdisp i (inject_Z t_i) label extra
                (out ++ reg) (a + Z.of_nat (length reg)) Hi)
      as (hld & Hhld & Hlhld & Hokhld).
    exists hld. rewrite Hhld.
    split; [done|]. split; [done|]. split; [done|]. split; [|split; [done|]].
    + f_equal. rewrite app_assoc. f_equal. rewrite length_app. lia.
    + split; [done|]. by apply block_ok_app.
  - exists []. rewrite !app_nil_r.
    split; [done|]. split; [done|]. split; [done|]. done.
Qed.

Lemma frames_showing_app j l1 l2 :
  frames_showing j (l1 ++ l2) = (frames_showing j l1 + frames_showing j l2)%nat.
Proof. unfold frames_showing. by rewrite filter_app, length_app. Qed.

Lemma frames_showing_block i a b j :
  block_ok i a b ->
  frames_showing j b = if decide (j = i) then length b else 0%nat.
Proof.
  intros Hb. unfold frames_showing.
  assert (Forall (fun f => geo_frame_idx f = Z.of_nat i) b) as Hall.
  { apply Forall_lookup. intros k f Hk. exact (proj2 (Hb _ _ Hk)). }
  clear Hb. induction Hall as [|f b Hf Hall IH].
  - by destruct (decide _).
  - rewrite filter_cons. destruct (decide (j = i)) as [->|Hne].
    + rewrite decide_True by done. simpl. by rewrite IH.
    + rewrite decide_False by lia. done.
Qed.

Lemma frames_inv_snoc i out b :
  frames_inv i out -> block_ok i (Z.of_nat (length out)) b -> b <> [] ->
  frames_inv (S i) (out ++ b).
Proof.
  intros [Hanim Hmono Hcover] Hb Hne. split.
  - intros k f Hk. apply lookup_app_Some in Hk as [Hk|[Hge Hk]].
    + apply Hanim in Hk. lia.
    + apply Hb in Hk. lia.
  - intros k1 k2 f1 f2 Hle H1 H2.
    apply lookup_app_Some in H1 as [H1|[Hge1 H1]];
      apply lookup_app_Some in H2 as [H2|[Hge2 H2]].
    + eauto.
    + apply Hanim in H1. apply Hb in H2. lia.
    + apply lookup_lt_Some in H2. lia.
    + apply Hb in H1. apply Hb in H2. lia.
  - intros j Hj. destruct (decide (j = i)) as [->|Hji].
    + destruct b as [|f b]; [done|]. exists (length out), f. split.
      * rewrite lookup_app_r by lia. by rewrite Nat.sub_diag.
      * by apply (Hb 0%nat).
    + destruct (Hcover j) as (k & f & Hk & Hf); [lia|].
      exists k, f. split; [|done]. by apply lookup_app_l_Some.
Qed.

Lemma expand_loop hold : forall m i out,
  (i + m = length times)%nat -> frames_inv i out ->
  (forall j, (j < i)%nat -> exists d,
       smooth_dispersal !! j = Some d /\
       frames_showing j out
       = (Z.to_nat (n_frames_of (duration_at cfg d))
          + hold_extra hold j)%nat) ->
  (forall j, (i <= j)%nat -> frames_showing j out = 0%nat) ->
  exists out',
    for_each (expand_step cfg times smooth_lons smooth_lats smooth_dispersal
                          hold)
             (out, Z.of_nat (length out)) (seq i m)
      = Some (out', Z.of_nat (length out')) /\
    frames_inv (i + m) out' /\
    (forall j, (j < i + m)%nat -> exists d,
         smooth_dispersal !! j = Some d /\
         frames_showing j out'
         = (Z.to_nat (n_frames_of (duration_at cfg d))
            + hold_extra hold j)%nat).
Proof.
  induction m as [|m IH]; intros i out Him Hinv Hcount Hzero.
  - exists out. rewrite Nat.add_0_r. done.
  - simpl seq. simpl for_each.
    destruct (expand_step_emits hold i out (Z.of_nat (length out)))
      as (t_i & label & d & reg & hld & Ht & Hd & _ & Hstep & Hlreg & Hlhld & Hok);
      [lia|].
    rewrite Hstep. simpl.
    assert (reg <> []) as Hreg.
    { intros ->. simpl in Hlreg. unfold n_frames_of in Hlreg. lia. }
    replace (Z.of_nat (length out) + Z.of_nat (length (reg ++ hld)))
      with (Z.of_nat (length (out ++ reg ++ hld)))
      by (rewrite !length_app; lia).
    destruct (IH (S i) (out ++ reg ++ hld)) as (out' & Hout' & Hinv' & Hcount').
    + lia.
    + apply frames_inv_snoc; [done..|]. by destruct reg.
    + intros j Hj. rewrite frames_showing_app.
      rewrite (frames_showing_block i _ _ j Hok).
      destruct (decide (j = i)) as [->|Hne].
      * exists d. split; [done|]. rewrite Hzero by lia.
        rewrite length_app. lia.
      * destruct (Hcount j) as (d' & Hd' & Hc); [lia|]. exists d'.
        split; [done|]. lia.
    + intros j Hj. rewrite frames_showing_app, Hzero by lia.
      rewrite (frames_showing_block i _ _ j Hok).
      rewrite decide_False by lia. done.
    + exists out'. replace (i + S m)%nat with (S i + m)%nat by lia. done.
Qed.

Lemma hold_frames_total n :
  TIME_STEP cfg <> 0 -> is_Some (hold_frames cfg n).
Proof.
  intros Hstep. unfold hold_frames.
  assert (forall t, is_Some (time_index cfg n t)) as Hti.
  { intros t. unfold time_index.
    destruct (Z.eqb_spec (TIME_STEP cfg) 0); [done|eauto]. }
  generalize (∅ : gmap nat (Z * string)).
  induction (SUPERCONTINENT_HOLD cfg) as [|[[sc extra] label] l IH];
    intros hold; simpl; [eauto|].
  destruct (Hti sc) as [idx ->]. simpl. apply IH.
Qed.

(** The expander returns, and its frames satisfy the invariant and the
    per-timestep counts. *)
Lemma expand_frames_spec :
  TIME_STEP cfg <> 0 ->
  exists hold frames,
    hold_frames cfg (length times) = Some hold /\
    expand_frames cfg times smooth_lons smooth_lats smooth_dispersal
      = Some frames /\
    frames_inv (length times) frames /\
    (forall j, (j < length times)%nat -> exists d,
         smooth_dispersal !! j = Some d /\
         frames_showing j frames
         = (Z.to_nat (n_frames_of (duration_at cfg d))
            + hold_extra hold j)%nat).
Proof.
  intros Hstep. destruct (hold_frames_total (length times) Hstep) as [hold Hhold].
  destruct (expand_loop hold (length times) 0 []) as (out & Hout & Hinv & Hcount).
  - lia.
  - split; [done|done|lia].
  - lia.
  - done.
  - exists hold, out. unfold expand_frames, total_steps. rewrite Hhold. simpl.
    assert (for_each (expand_step cfg times smooth_lons smooth_lats
                                  smooth_dispersal hold)
                     ([], 0) (seq 0 (length times))
            = Some (out, Z.of_nat (length out))) as -> by exact Hout.
    done.
Qed.

End ExpanderLoop.


Section ExpanderTheorems.
Context {arith : Float64}.

Lemma duration_at_one (cfg : config) (d : Q) :
  Float64Laws arith ->
  (MIN_SPEED cfg == 1)%Q -> (MAX_SPEED cfg == 3)%Q -> (d == 1)%Q ->
  (duration_at cfg d == inject_Z 1)%Q.
Proof.
  intros Hlaws Hmin Hmax Hd.
  pose proof f64_add_proper. pose proof f64_sub_proper.
  pose proof f64_mul_proper.
  unfold duration_at. rewrite Hmin, Hmax, Hd.
  rewrite (f64_sub_exact 3 1 2) by (try reflexivity; lia).
  rewrite (f64_sub_exact 1 1 0) by (try reflexivity; lia).
  rewrite (f64_mul_exact (inject_Z 2) (inject_Z 0) 0)
    by (try reflexivity; lia).
  apply (f64_add_exact 1 (inject_Z 0) 1); [lia|reflexivity].
Qed.

Lemma duration_at_zero (cfg : config) (d : Q) :
  Float64Laws arith ->
  (MIN_SPEED cfg == 1)%Q -> (MAX_SPEED cfg == 3)%Q -> (d == 0)%Q ->
  (duration_at cfg d == inject_Z 3)%Q.
Proof.
  intros Hlaws Hmin Hmax Hd.
  pose proof f64_add_proper. pose proof f64_sub_proper.
  pose proof f64_mul_proper.
  unfold duration_at. rewrite Hmin, Hmax, Hd.
  rewrite (f64_sub_exact 3 1 2) by (try reflexivity; lia).
  rewrite (f64_sub_exact 1 0 1) by (try reflexivity; lia).
  rewrite (f64_mul_exact (inject_Z 2) (inject_Z 1) 2)
    by (try reflexivity; lia).
  apply (f64_add_exact 1 (inject_Z 2) 3); [lia|reflexivity].
Qed.

(** C5. In the script's arithmetic, whatever its rounding: for every
    timestep [i] with smoothed dispersal [d] the expander runs its
    regular-frame loop with
    [n = max(1, round(MIN_SPEED + (MAX_SPEED - MIN_SPEED) * (1.0 - d)))],
    the four operations being those of [Float64], and that loop emits
    exactly [n] frames; the frames of the output that show timestep [i]
    are these [n] plus the configured hold frames.  With [MIN_SPEED = 1]
    and [MAX_SPEED = 3], [d = 1] gives [n = 1] and [d = 0] gives
    [n = round(MAX_SPEED) = 3]; these operands and results are small
    integers, which binary64 computes without rounding. *)
Theorem C5_regular_frame_count
    (cfg : config) (times : list Z)
    (smooth_lons smooth_lats smooth_dispersal : list Q) :
  length smooth_lons = length times ->
  length smooth_lats = length times ->
  length smooth_dispersal = length times ->
  ERA_OVERRIDES cfg <> [] -> TIME_STEP cfg <> 0 ->
  exists hold frames,
    hold_frames cfg (length times) = Some hold /\
    expand_frames cfg times smooth_lons smooth_lats smooth_dispersal
      = Some frames /\
    forall i d, smooth_dispersal !! i = Some d ->
      let n :=
        Z.max 1 (py_round
                   (f64_add (MIN_SPEED cfg)
                      (f64_mul (f64_sub (MAX_SPEED cfg) (MIN_SPEED cfg))
                               (f64_sub 1 d)))) in
      (forall out a, exists t_i label reg hld,
          regular_loop times smooth_lons smooth_lats smooth_dispersal
                       i (inject_Z t_i) label n (out, a)
            = Some (out ++ reg, a + Z.of_nat (length reg)) /\
          expand_step cfg times smooth_lons smooth_lats smooth_dispersal
                      hold (out, a) i
            = Some (out ++ reg ++ hld, a + Z.of_nat (length (reg ++ hld))) /\
          length reg = Z.to_nat n /\ length hld = hold_extra hold i) /\
      frames_showing i frames = (Z.to_nat n + hold_extra hold i)%nat /\
      (Float64Laws arith ->
       (MIN_SPEED cfg == 1)%Q -> (MAX_SPEED cfg == 3)%Q ->
       ((d == 1)%Q -> n = 1) /\
       ((d == 0)%Q -> n = 3 /\ n = py_round (MAX_SPEED cfg))).
Proof.
  intros Hlons Hlats Hdisp Heras Hstep.
  destruct (expand_frames_spec cfg times smooth_lons smooth_lats
              smooth_dispersal Hlons Hlats Hdisp Heras Hstep)
    as (hold & frames & Hhold & Hframes & Hinv & Hcount).
  exists hold, frames. split; [done|]. split; [done|].
  intros i d Hd n.
  assert (i < length times)%nat as Hi
    by (apply lookup_lt_Some in Hd; lia).
  change n with (n_frames_of (duration_at cfg d)).
  split; [|split].
  - intros out a.
    destruct (expand_step_emits cfg times smooth_lons smooth_lats
                smooth_dispersal Hlons Hlats Hdisp Heras hold i out a Hi)
      as (t_i & label & d' & reg & hld & Ht & Hd' & Hreg & Hstp & Hlreg
          & Hlhld & _).
    assert (d' = d) as -> by congruence.
    by exists t_i, label, reg, hld.
  - destruct (Hcount i Hi) as (d' & Hd' & Hc).
    assert (d' = d) as -> by congruence. done.
  - intros Hlaws Hmin Hmax. unfold n_frames_of. split.
    + intros H1.
      rewrite (py_round_proper _ _ (duration_at_one cfg d Hlaws Hmin Hmax H1)).
      by rewrite py_round_inject_Z.
    + intros H0.
      rewrite (py_round_proper _ _ (duration_at_zero cfg d Hlaws Hmin Hmax H0)).
      rewrite py_round_inject_Z. split; [done|].
      rewrite (py_round_proper _ (inject_Z 3)); [by rewrite py_round_inject_Z|].
      by rewrite Hmax.
Qed.

(** C9. Whatever the timestep count, the dispersal values and the hold
    configuration, the emitted frames have [anim_frame] 0, 1, 2, ... in
    order, [geo_frame_idx] never decreases along the sequence, and every
    timestep index below [total_steps] is the [geo_frame_idx] of some
    frame. *)
Theorem C9_frame_sequence_invariant
    (cfg : config) (times : list Z)
    (smooth_lons smooth_lats smooth_dispersal : list Q) :
  length smooth_lons = length times ->
  length smooth_lats = length times ->
  length smooth_dispersal = length times ->
  ERA_OVERRIDES cfg <> [] -> TIME_STEP cfg <> 0 ->
  exists frames,
    expand_frames cfg times smooth_lons smooth_lats smooth_dispersal
      = Some frames /\
    (forall k f, frames !! k = Some f -> anim_frame f = Z.of_nat k) /\
    (forall k1 k2 f1 f2, (k1 <= k2)%nat ->
        frames !! k1 = Some f1 -> frames !! k2 = Some f2 ->
        geo_frame_idx f1 <= geo_frame_idx f2) /\
    (forall i, (i < length times)%nat ->
        exists k f, frames !! k = Some f /\ geo_frame_idx f = Z.of_nat i).
Proof.
  intros Hlons Hlats Hdisp Heras Hstep.
  destruct (expand_frames_spec cfg times smooth_lons smooth_lats
              smooth_dispersal Hlons Hlats Hdisp Heras Hstep)
    as (hold & frames & _ & Hframes & [Hanim Hmono Hcover] & _).
  exists frames. split; [done|]. split; [|split; [done|done]].
  intros k f Hk. by apply Hanim in Hk as [? _].
Qed.

End ExpanderTheorems.

Lemma C5_regular_frame_count_witness :
  exists hold frames exact_frames,
    hold_frames script_config 3 = Some hold /\
    @expand_frames binary64 script_config [1000; 999; 998]
      [0; 0; 0]%Q [0; 0; 0]%Q [1; below_quarter; 0]%Q = Some frames /\
    frames_showing 0 frames = 1%nat /\ frames_showing 1 frames = 2%nat /\
    frames_showing 2 frames = 63%nat /\
    @expand_frames exact_arith script_config [1000; 999; 998]
      [0; 0; 0]%Q [0; 0; 0]%Q [1; below_quarter; 0]%Q = Some exact_frames /\
    frames_showing 1 exact_frames = 3%nat.
Proof.
  destruct (@C5_regular_frame_count binary64 script_config [1000; 999; 998]
              [0; 0; 0]%Q [0; 0; 0]%Q [1; below_quarter; 0]%Q
              eq_refl eq_refl eq_refl)
    as (hold & frames & Hhold & Hframes & Hper);
    [discriminate|discriminate|].
  destruct (@C5_regular_frame_count exact_arith script_config
              [1000; 999; 998] [0; 0; 0]%Q [0; 0; 0]%Q
              [1; below_quarter; 0]%Q eq_refl eq_refl eq_refl)
    as (hold' & exact_frames & Hhold' & Hexact & Hper');
    [discriminate|discriminate|].
  exists hold, frames, exact_frames.
  split; [exact Hhold|]. split; [exact Hframes|].
  assert (hold' = hold) as -> by congruence.
  vm_compute in Hhold. injection Hhold as <-.
  destruct (Hper 0%nat 1%Q eq_refl) as (_ & H0 & _).
  destruct (Hper 1%nat below_quarter eq_refl) as (_ & H1 & _).
  destruct (Hper 2%nat 0%Q eq_refl) as (_ & H2 & _).
  destruct (Hper' 1%nat below_quarter eq_refl) as (_ & H1' & _).
  split; [rewrite H0; vm_compute; reflexivity|].
  split; [rewrite H1; vm_compute; reflexivity|].
  split; [rewrite H2; vm_compute; reflexivity|].
  split; [exact Hexact|]. rewrite H1'. vm_compute. reflexivity.
Defined.

Lemma C9_frame_sequence_invariant_witness :
  exists frames,
    expand_frames script_config [1000; 999] [0; 0]%Q [0; 0]%Q [1; 0]%Q
      = Some frames /\
    length frames = 64%nat.
Proof.
  destruct (C9_frame_sequence_invariant script_config [1000; 999]
              [0; 0]%Q [0; 0]%Q [1; 0]%Q)
    as (frames & Hframes & _); try done.
  exists frames. split; [done|].
  by injection Hframes as <-.
Defined.


Section Blender.

(** *** Blending *)

Lemma blended_lons_lookup raw w o i r wi oi :
  raw !! i = Some r -> w !! i = Some wi -> o !! i = Some oi ->
  blended_lons raw w o !! i = Some (r * (1 - wi) + oi * wi)%Q.
Proof.
  intros Hr Hw Ho. unfold blended_lons.
  rewrite !lookup_zip_with, list_lookup_fmap, Hr, Hw, Ho. done.
Qed.

Lemma blended_lons_length raw w o :
  length w = length raw -> length o = length raw ->
  length (blended_lons raw w o) = length raw.
Proof.
  intros Hw Ho. unfold blended_lons.
  rewrite !length_zip_with, length_map. lia.
Qed.

Lemma blended_lons_all (c : Q) (rel : list Q -> list Q -> list Q) raw w o :
  length w = length raw -> length o = length raw ->
  Forall (fun wi => wi == c)%Q w ->
  (forall i r oi x, raw !! i = Some r -> o !! i = Some oi ->
                    rel raw o !! i = Some x ->
                    (r * (1 - c) + oi * c == x)%Q) ->
  length (rel raw o) = length raw ->
  Forall2 Qeq (blended_lons raw w o) (rel raw o).
Proof.
  intros Hw Ho Hall Hrel Hlen.
  apply Forall2_same_length_lookup_2.
  { rewrite blended_lons_length by done. done. }
  intros i b x Hb Hx.
  assert (i < length raw)%nat as Hi.
  { apply lookup_lt_Some in Hx. lia. }
  destruct (lookup_lt_is_Some_2 raw i) as [r Hr]; [lia|].
  destruct (lookup_lt_is_Some_2 w i) as [wi Hwi]; [lia|].
  destruct (lookup_lt_is_Some_2 o i) as [oi Hoi]; [lia|].
  rewrite (blended_lons_lookup _ _ _ _ _ _ _ Hr Hwi Hoi) in Hb.
  injection Hb as <-.
  rewrite Forall_lookup in Hall. rewrite (Hall i wi Hwi).
  by eapply Hrel.
Qed.

(** *** Interpolation *)

Lemma Qlt_bool_true a b : Qlt_bool a b = true <-> (a < b)%Q.
Proof.
  unfold Qlt_bool. rewrite negb_true_iff, <- not_true_iff_false, Qle_bool_iff.
  split; [apply Qnot_le_lt|apply Qlt_not_le].
Qed.

Lemma searchsorted_below x t :
  Forall (fun xi => t < xi)%Q x -> searchsorted x t = 0%nat.
Proof.
  unfold searchsorted. induction 1 as [|xi x Hxi Hall IH]; [done|].
  simpl. destruct (Qlt_bool xi t) eqn:Hlt; [|done].
  apply Qlt_bool_true in Hlt. exfalso.
  apply (Qlt_irrefl t). by apply Qlt_trans with xi.
Qed.

Lemma searchsorted_above x t :
  Forall (fun xi => xi < t)%Q x -> searchsorted x t = length x.
Proof.
  unfold searchsorted. induction 1 as [|xi x Hxi Hall IH]; [done|].
  simpl. apply Qlt_bool_true in Hxi. rewrite Hxi. simpl. by rewrite IH.
Qed.

Lemma ascending_head x0 x :
  ascending (x0 :: x) -> Forall (fun xi => x0 < xi)%Q x.
Proof.
  intros Hasc. apply Forall_lookup. intros i xi Hxi.
  apply (Hasc 0%nat (S i)); [lia|done|done].
Qed.

Lemma ascending_last x xb :
  ascending (x ++ [xb]) -> Forall (fun xi => xi < xb)%Q x.
Proof.
  intros Hasc. apply Forall_lookup. intros i xi Hxi.
  apply (Hasc i (length x)).
  - by apply lookup_lt_Some in Hxi.
  - by apply lookup_app_l_Some.
  - rewrite lookup_app_r by lia. by rewrite Nat.sub_diag.
Qed.

(** Below the first knot the value lies on the line through the first two
    knots. *)
Lemma interp1d_below x0 x1 xs y0 y1 ys t :
  ascending (x0 :: x1 :: xs) -> length xs = length ys -> (t < x0)%Q ->
  interp1d (x0 :: x1 :: xs) (y0 :: y1 :: ys) t
  = Some ((y1 - y0) / (x1 - x0) * (t - x0) + y0)%Q.
Proof.
  intros Hasc Hlen Ht. unfold interp1d.
  rewrite searchsorted_below.
  - simpl length. rewrite Hlen, Nat.eqb_refl. simpl. done.
  - constructor; [done|]. eapply Forall_impl; [by apply ascending_head|].
    intros xi Hxi. by apply Qlt_trans with x0.
Qed.

(** Above the last knot the value lies on the line through the last two
    knots. *)
Lemma interp1d_above xs xa xb ys ya yb t :
  ascending (xs ++ [xa; xb]) -> length xs = length ys -> (xb < t)%Q ->
  interp1d (xs ++ [xa; xb]) (ys ++ [ya; yb]) t
  = Some ((yb - ya) / (xb - xa) * (t - xa) + ya)%Q.
Proof.
  intros Hasc Hlen Ht. unfold interp1d.
  rewrite searchsorted_above.
  - rewrite !length_app. simpl length. rewrite Hlen.
    replace (length ys + 2 <? 2)%nat with false
      by (symmetry; apply Nat.ltb_ge; lia).
    rewrite Nat.eqb_refl. simpl orb. cbv iota.
    replace (Nat.min (Nat.max (length ys + 2) 1) (length ys + 2 - 1))
      with (S (length ys)) by lia.
    replace (S (length ys) - 1)%nat with (length ys) by lia.
    rewrite (lookup_app_r xs _ (length ys)) by lia.
    rewrite (lookup_app_r xs _ (S (length ys))) by lia.
    rewrite (lookup_app_r ys _ (length ys)) by lia.
    rewrite (lookup_app_r ys _ (S (length ys))) by lia.
    rewrite Hlen.
    replace (S (length ys) - length ys)%nat with 1%nat by lia.
    rewrite Nat.sub_diag. done.
  - assert (Forall (fun xi => xi < xb)%Q (xs ++ [xa])) as Hall.
    { apply ascending_last. by rewrite <- app_assoc. }
    change [xa; xb] with ([xa] ++ [xb]). rewrite app_assoc.
    apply Forall_app. split.
    + eapply Forall_impl; [exact Hall|]. intros xi Hxi.
      by apply Qlt_trans with xb.
    + by constructor.
Qed.

Lemma mapM_reverse {A B : Type} (f : A -> option B) (l : list A) :
  reverse <$> mapM f (reverse l) = mapM f l.
Proof.
  destruct (mapM f l) as [k|] eqn:Hk.
  - apply mapM_Some, Forall2_reverse, mapM_Some in Hk. rewrite Hk. simpl.
    by rewrite reverse_involutive.
  - destruct (mapM f (reverse l)) as [k|] eqn:Hk'; [|done].
    apply mapM_Some, Forall2_reverse, mapM_Some in Hk'.
    rewrite reverse_involutive in Hk'. congruence.
Qed.

(** Each grid value is the interpolant at that timestep's time. *)
Lemma interp_on_grid_lookup cfg times ys vs i t :
  interp_on_grid cfg times ys = Some vs -> times !! i = Some t ->
  exists v, vs !! i = Some v /\
            interp1d (reverse (era_times cfg)) (reverse ys) (inject_Z t)
            = Some v.
Proof.
  unfold interp_on_grid. rewrite mapM_reverse. intros Hvs Ht.
  apply mapM_Some in Hvs.
  assert (map inject_Z times !! i = Some (inject_Z t)) as Hti
    by (by rewrite list_lookup_fmap, Ht).
  destruct (Forall2_lookup_l _ _ _ _ _ Hvs Hti) as (v & Hv & Hf).
  by exists v.
Qed.

End Blender.


Section BlenderTheorems.

(** C6. At every timestep the blended longitude and latitude are
    [(1 - weight) * computed + weight * target]; when every weight is 0
    the blended arrays equal the raw computed arrays, and when every
    weight is 1 they equal the interpolated target arrays. *)
Theorem C6_era_blend
    (raw_lons raw_lats override_weights override_lons override_lats : list Q) :
  length raw_lats = length raw_lons ->
  length override_weights = length raw_lons ->
  length override_lons = length raw_lons ->
  length override_lats = length raw_lons ->
  (forall i w, override_weights !! i = Some w ->
     exists c_lon c_lat t_lon t_lat b_lon b_lat,
       raw_lons !! i = Some c_lon /\ raw_lats !! i = Some c_lat /\
       override_lons !! i = Some t_lon /\ override_lats !! i = Some t_lat /\
       blended_lons raw_lons override_weights override_lons !! i = Some b_lon /\
       blended_lats raw_lats override_weights override_lats !! i = Some b_lat /\
       (b_lon == (1 - w) * c_lon + w * t_lon)%Q /\
       (b_lat == (1 - w) * c_lat + w * t_lat)%Q) /\
  (Forall (fun w => w == 0)%Q override_weights ->
     Forall2 Qeq (blended_lons raw_lons override_weights override_lons) raw_lons /\
     Forall2 Qeq (blended_lats raw_lats override_weights override_lats) raw_lats) /\
  (Forall (fun w => w == 1)%Q override_weights ->
     Forall2 Qeq (blended_lons raw_lons override_weights override_lons)
             override_lons /\
     Forall2 Qeq (blended_lats raw_lats override_weights override_lats)
             override_lats).
Proof.
  intros Hlats Hw Holons Holats. split; [|split].
  - intros i w Hwi.
    assert (i < length raw_lons)%nat as Hi
      by (apply lookup_lt_Some in Hwi; lia).
    destruct (lookup_lt_is_Some_2 raw_lons i) as [c_lon Hc1]; [lia|].
    destruct (lookup_lt_is_Some_2 raw_lats i) as [c_lat Hc2]; [lia|].
    destruct (lookup_lt_is_Some_2 override_lons i) as [t_lon Ht1]; [lia|].
    destruct (lookup_lt_is_Some_2 override_lats i) as [t_lat Ht2]; [lia|].
    exists c_lon, c_lat, t_lon, t_lat.
    eexists. eexists. do 4 (split; [done|]).
    split; [by apply blended_lons_lookup|].
    split; [by apply (blended_lons_lookup raw_lats)|].
    split; ring.
  - intros Hall.
    change (blended_lats raw_lats override_weights override_lats)
      with (blended_lons raw_lats override_weights override_lats). split.
    + apply (blended_lons_all 0 (fun raw _ => raw)); try done.
      intros i r oi x Hr _ Hx. assert (x = r) as -> by congruence. ring.
    + apply (blended_lons_all 0 (fun raw _ => raw)); try done; try lia.
      intros i r oi x Hr _ Hx. assert (x = r) as -> by congruence. ring.
  - intros Hall.
    change (blended_lats raw_lats override_weights override_lats)
      with (blended_lons raw_lats override_weights override_lats). split.
    + apply (blended_lons_all 1 (fun _ o => o)); try done.
      intros i r oi x _ Ho Hx. assert (x = oi) as -> by congruence. ring.
    + apply (blended_lons_all 1 (fun _ o => o)); try done; try lia.
      intros i r oi x _ Ho Hx. assert (x = oi) as -> by congruence. ring.
Qed.

Lemma C6_era_blend_witness :
  Forall2 Qeq (blended_lons [10 # 1; 20 # 1] [0; 0] [5 # 1; 7 # 1])%Q
          [10 # 1; 20 # 1]%Q.
Proof.
  refine (proj1 (proj1 (proj2 (C6_era_blend
                   [10 # 1; 20 # 1]%Q [1; 2]%Q [0; 0]%Q [5 # 1; 7 # 1]%Q
                   [3 # 1; 4 # 1]%Q eq_refl eq_refl eq_refl eq_refl)) _)).
  repeat constructor.
Defined.

Lemma line_leaves_level (xa xb ya yb t x_ref y_ref : Q) :
  (xa < xb)%Q -> ~ (ya == yb)%Q -> ~ (t == x_ref)%Q ->
  (y_ref == (yb - ya) / (xb - xa) * (x_ref - xa) + ya)%Q ->
  ~ ((yb - ya) / (xb - xa) * (t - xa) + ya == y_ref)%Q.
Proof.
  intros Hx Hy Ht Href Heq.
  assert ((yb - ya) * (t - x_ref) == 0)%Q as Hz.
  { assert (~ (xb - xa == 0))%Q as Hd by lra.
    assert ((yb - ya) * (t - x_ref)
            == (((yb - ya) / (xb - xa) * (t - xa) + ya)
                - ((yb - ya) / (xb - xa) * (x_ref - xa) + ya)) * (xb - xa))%Q
      as -> by (field; done).
    rewrite Heq, <- Href. ring. }
  apply Qmult_integral in Hz as [Hz|Hz]; [apply Hy|apply Ht]; lra.
Qed.

(** C7 (as the code has it). Outside the authored keyframe times the
    interpolated weight, target longitude and target latitude continue
    the straight line through the two nearest keyframes: below the
    smallest keyframe time the line through the first two knots, above
    the largest the line through the last two.  Unless those two
    keyframes carry the same value, the result differs from the value of
    the nearest keyframe. *)
Theorem C7_linear_extrapolation
    (cfg : config) (times : list Z) (ys vs : list Q) (i : nat) (t : Z) :
  ascending (reverse (era_times cfg)) ->
  length ys = length (ERA_OVERRIDES cfg) ->
  interp_on_grid cfg times ys = Some vs ->
  times !! i = Some t ->
  exists v,
    vs !! i = Some v /\
    (forall x0 x1 xs y0 y1 ys',
        reverse (era_times cfg) = x0 :: x1 :: xs ->
        reverse ys = y0 :: y1 :: ys' ->
        (inject_Z t < x0)%Q ->
        v = ((y1 - y0) / (x1 - x0) * (inject_Z t - x0) + y0)%Q /\
        (~ (y0 == y1)%Q -> ~ (v == y0)%Q)) /\
    (forall xs xa xb ys' ya yb,
        reverse (era_times cfg) = xs ++ [xa; xb] ->
        reverse ys = ys' ++ [ya; yb] ->
        (xb < inject_Z t)%Q ->
        v = ((yb - ya) / (xb - xa) * (inject_Z t - xa) + ya)%Q /\
        (~ (ya == yb)%Q -> ~ (v == yb)%Q)).
Proof.
  intros Hasc Hlen Hvs Ht.
  destruct (interp_on_grid_lookup _ _ _ _ _ _ Hvs Ht) as (v & Hv & Hint).
  exists v. split; [done|].
  assert (length (reverse (era_times cfg)) = length (reverse ys)) as Hl.
  { rewrite !length_reverse. unfold era_times. rewrite length_map. lia. }
  split.
  - intros x0 x1 xs y0 y1 ys' Hx Hy Hlt. rewrite Hx, Hy in *.
    simpl in Hl. rewrite interp1d_below in Hint; [|done|lia|done].
    injection Hint as <-. split; [done|]. intros Hne.
    assert (x0 < x1)%Q as Hx01 by (apply (Hasc 0%nat 1%nat); done || lia).
    apply line_leaves_level with (x_ref := x0); try done; [lra|].
    field. lra.
  - intros xs xa xb ys' ya yb Hx Hy Hlt. rewrite Hx, Hy in *.
    rewrite !length_app in Hl. simpl in Hl.
    rewrite interp1d_above in Hint; [|done|lia|done].
    injection Hint as <-. split; [done|]. intros Hne.
    assert (xa < xb)%Q as Hxab.
    { apply (Hasc (length xs) (S (length xs))); [lia| |].
      - rewrite lookup_app_r by lia. by rewrite Nat.sub_diag.
      - rewrite lookup_app_r by lia.
        by replace (S (length xs) - length xs)%nat with 1%nat by lia. }
    apply line_leaves_level with (x_ref := xb); try done; [lra|].
    field. lra.
Qed.

Lemma short_era_ascending :
  ascending (reverse (era_times short_era_config)).
Proof.
  intros [|[|[|i]]] [|[|[|j]]] a b Hij Ha Hb; try lia; try done.
  injection Ha as <-. injection Hb as <-. done.
Qed.

Lemma C7_linear_extrapolation_witness :
  exists v,
    [0 # 50; 50 # 50; 100 # 50]%Q !! 2%nat = Some v /\ ~ (v == 1)%Q.
Proof.
  destruct (C7_linear_extrapolation short_era_config [100; 50; 0]
              [0; 1]%Q [0 # 50; 50 # 50; 100 # 50]%Q 2 0
              short_era_ascending eq_refl)
    as (v & Hv & Hbelow & _).
  - vm_compute. reflexivity.
  - reflexivity.
  - exists v. split; [exact Hv|].
    refine (proj2 (Hbelow _ _ _ _ _ _ eq_refl eq_refl _) _); done.
Defined.

(** C7 as stated fails: with keyframes at 100 and 50 Ma the timestep at
    0 Ma lies below the authored range; its nearest keyframe (50 Ma) has
    weight 1 and target (10, 20), but the interpolated weight is 2 and
    the interpolated target is (20, 40). *)
Lemma C7_constant_extrapolation_counterexample :
  times_of short_era_config = Some [100; 50; 0] /\
  exists ws lons lats w lon lat,
    override_weights short_era_config [100; 50; 0] = Some ws /\
    override_lons short_era_config [100; 50; 0] [0; 0; 0]%Q [0; 0; 0]%Q
      = Some lons /\
    override_lats short_era_config [100; 50; 0] [0; 0; 0]%Q [0; 0; 0]%Q
      = Some lats /\
    ws !! 2%nat = Some w /\ lons !! 2%nat = Some lon /\
    lats !! 2%nat = Some lat /\
    (w == 2)%Q /\ (lon == 20 # 1)%Q /\ (lat == 40 # 1)%Q /\
    ~ (w == 1)%Q /\ ~ (lon == 10 # 1)%Q /\ ~ (lat == 20 # 1)%Q.
Proof.
  split; [reflexivity|].
  do 6 eexists.
  split; [vm_compute; reflexivity|].
  split; [vm_compute; reflexivity|].
  split; [vm_compute; reflexivity|].
  do 3 (split; [reflexivity|]).
  repeat split; done.
Qed.

End BlenderTheorems.


Section UnionFind.

(** *** Roots in a ranked forest *)

Lemma root_of_is_root p i r : root_of p i r -> p !! r = Some r.
Proof. induction 1; done. Qed.

Lemma root_of_inv p i r :
  root_of p i r ->
  (p !! i = Some i /\ r = i) \/
  (exists j, p !! i = Some j /\ j <> i /\ root_of p j r).
Proof. destruct 1 as [i Hi|i j r Hi Hne Hr]; [by left|right; eauto]. Qed.

Lemma root_of_functional p i r r' : root_of p i r -> root_of p i r' -> r = r'.
Proof.
  induction 1 as [i Hi|i j r Hi Hne Hr IH]; intros Hr'.
  - inversion Hr' as [|? j' ? Hi' Hne' ?]; subst; [done|]. congruence.
  - inversion Hr' as [? Hi'|? j' ? Hi' Hne' Hr'']; subst; [congruence|].
    apply IH. congruence.
Qed.

Lemma root_of_root p r x : p !! r = Some r -> root_of p r x -> x = r.
Proof.
  intros Hr Hx. apply (root_of_functional p r); [done|by constructor].
Qed.

Context (n : nat).

Lemma rank_lt n0 p rk i ri :
  uf_inv n0 p rk -> rk !! i = Some ri -> (ri < n0)%nat.
Proof.
  intros Hinv Hri.
  assert (seq 0 (S ri) ⊆+ rk) as Hsub.
  { apply NoDup_submseteq; [apply NoDup_seq|].
    intros k Hk. apply elem_of_seq in Hk.
    destruct (decide (k = ri)) as [->|Hne].
    - by eapply list_elem_of_lookup_2.
    - apply (uf_dense _ _ _ Hinv i ri); [done|lia]. }
  apply submseteq_length in Hsub. rewrite length_seq in Hsub.
  rewrite (uf_len_rank _ _ _ Hinv) in Hsub. lia.
Qed.

Lemma uf_lookup_parent p rk i :
  uf_inv n p rk -> (i < n)%nat -> exists j, p !! i = Some j /\ (j < n)%nat.
Proof.
  intros Hinv Hi.
  destruct (lookup_lt_is_Some_2 p i) as [j Hj];
    [by rewrite (uf_len_parent _ _ _ Hinv)|].
  exists j. split; [done|]. by eapply uf_bound.
Qed.

Lemma uf_lookup_rank p rk i :
  uf_inv n p rk -> (i < n)%nat -> exists ri, rk !! i = Some ri /\ (ri < n)%nat.
Proof.
  intros Hinv Hi.
  destruct (lookup_lt_is_Some_2 rk i) as [ri Hri];
    [by rewrite (uf_len_rank _ _ _ Hinv)|].
  exists ri. split; [done|]. by eapply rank_lt.
Qed.

(** Every node has a root. *)
Lemma root_of_total p rk :
  uf_inv n p rk -> forall i, (i < n)%nat -> exists r, root_of p i r /\ (r < n)%nat.
Proof.
  intros Hinv.
  assert (forall m i ri, rk !! i = Some ri -> (n - ri <= m)%nat -> (i < n)%nat ->
                         exists r, root_of p i r /\ (r < n)%nat) as Hm.
  { induction m as [|m IH]; intros i ri Hri Hm Hi.
    - apply (rank_lt _ _ _ _ _ Hinv) in Hri. lia.
    - destruct (uf_lookup_parent p rk i Hinv Hi) as (j & Hj & Hjn).
      destruct (decide (j = i)) as [->|Hne].
      + exists i. split; [by constructor|done].
      + destruct (uf_lookup_rank p rk j Hinv Hjn) as (rj & Hrj & _).
        pose proof (uf_rank _ _ _ Hinv i j ri rj Hj Hne Hri Hrj).
        destruct (IH j rj Hrj) as (r & Hr & Hrn); [lia|done|].
        exists r. split; [by eapply root_step|done]. }
  intros i Hi. destruct (uf_lookup_rank p rk i Hinv Hi) as (ri & Hri & _).
  apply (Hm n i ri); [done|lia|done].
Qed.

(** *** Path compression keeps the forest and its roots *)

Lemma compress_inv p rk i j k :
  uf_inv n p rk -> p !! i = Some j -> j <> i -> p !! j = Some k ->
  uf_inv n (<[i := k]> p) rk /\ k <> i.
Proof.
  intros Hinv Hi Hne Hj.
  assert (i < n)%nat as Hin
    by (apply lookup_lt_Some in Hi; by rewrite (uf_len_parent _ _ _ Hinv) in Hi).
  assert (j < n)%nat as Hjn by (by eapply uf_bound).
  assert (k < n)%nat as Hkn by (by eapply uf_bound).
  destruct (uf_lookup_rank p rk i Hinv Hin) as (ri & Hri & _).
  destruct (uf_lookup_rank p rk j Hinv Hjn) as (rj & Hrj & _).
  destruct (uf_lookup_rank p rk k Hinv Hkn) as (rk_k & Hrk & _).
  pose proof (uf_rank _ _ _ Hinv i j ri rj Hi Hne Hri Hrj) as Hij.
  assert (ri < rk_k)%nat as Hik.
  { destruct (decide (k = j)) as [->|Hkj]; [congruence|].
    pose proof (uf_rank _ _ _ Hinv j k rj rk_k Hj Hkj Hrj Hrk). lia. }
  split; [|intros ->; assert (ri = rk_k) by congruence; lia].
  split.
  - rewrite length_insert. exact (uf_len_parent _ _ _ Hinv).
  - exact (uf_len_rank _ _ _ Hinv).
  - intros x y Hx. destruct (decide (x = i)) as [->|Hxi].
    + rewrite list_lookup_insert_eq in Hx
        by (by rewrite (uf_len_parent _ _ _ Hinv)).
      congruence.
    + rewrite list_lookup_insert_ne in Hx by done. by eapply uf_bound.
  - intros x y rx ry Hx Hxy Hrx Hry. destruct (decide (x = i)) as [->|Hxi].
    + rewrite list_lookup_insert_eq in Hx
        by (by rewrite (uf_len_parent _ _ _ Hinv)).
      assert (y = k) as -> by congruence. congruence.
    + rewrite list_lookup_insert_ne in Hx by done.
      by eapply (uf_rank _ _ _ Hinv x y).
  - exact (uf_dense _ _ _ Hinv).
Qed.

Lemma compress_roots p rk i j k :
  uf_inv n p rk -> p !! i = Some j -> j <> i -> p !! j = Some k ->
  forall x r, root_of (<[i := k]> p) x r <-> root_of p x r.
Proof.
  intros Hinv Hi Hne Hj.
  destruct (compress_inv p rk i j k Hinv Hi Hne Hj) as [_ Hki].
  assert (i < length p)%nat as Hin by (by apply lookup_lt_Some in Hi).
  intros x r. split.
  - induction 1 as [x Hx|x y r Hx Hxy Hr IH].
    + destruct (decide (x = i)) as [->|Hxi].
      * rewrite list_lookup_insert_eq in Hx by done. congruence.
      * rewrite list_lookup_insert_ne in Hx by done. by constructor.
    + destruct (decide (x = i)) as [->|Hxi].
      * rewrite list_lookup_insert_eq in Hx by done.
        assert (y = k) as -> by congruence.
        apply root_step with j; [done|done|].
        destruct (decide (k = j)) as [->|Hkj]; [done|].
        by apply root_step with k.
      * rewrite list_lookup_insert_ne in Hx by done.
        by apply root_step with y.
  - induction 1 as [x Hx|x y r Hx Hxy Hr IH].
    + assert (x <> i) as Hxi by congruence.
      constructor. by rewrite list_lookup_insert_ne.
    + destruct (decide (x = i)) as [->|Hxi].
      * assert (y = j) as -> by congruence.
        apply root_step with k; [by rewrite list_lookup_insert_eq|done|].
        destruct (root_of_inv _ _ _ IH) as [[Hjj ->]|(k' & Hjk & Hkj & Hk)].
        -- rewrite list_lookup_insert_ne in Hjj by done.
           assert (k = j) as -> by congruence. done.
        -- rewrite list_lookup_insert_ne in Hjk by done.
           assert (k' = k) as -> by congruence. done.
      * apply root_step with y; [by rewrite list_lookup_insert_ne|done|done].
Qed.

(** *** [find_root] returns the root and keeps every root *)

Lemma find_root_spec rk : forall fuel p i ri,
  uf_inv n p rk -> rk !! i = Some ri -> (n - ri <= fuel)%nat -> (i < n)%nat ->
  exists p' r,
    find_root fuel p i = Some (p', r) /\ root_of p i r /\ (r < n)%nat /\
    uf_inv n p' rk /\ forall x y, root_of p' x y <-> root_of p x y.
Proof.
  induction fuel as [|fuel IH]; intros p i ri Hinv Hri Hfuel Hi.
  - apply (rank_lt _ _ _ _ _ Hinv) in Hri. lia.
  - destruct (uf_lookup_parent p rk i Hinv Hi) as (j & Hj & Hjn).
    simpl. rewrite Hj. simpl.
    destruct (Nat.eqb_spec j i) as [->|Hne].
    + exists p, i. split; [done|]. split; [by constructor|]. done.
    + destruct (uf_lookup_parent p rk j Hinv Hjn) as (k & Hk & Hkn).
      rewrite Hk. simpl.
      rewrite list_lookup_insert_eq
        by (by rewrite (uf_len_parent _ _ _ Hinv)).
      simpl.
      destruct (compress_inv p rk i j k Hinv Hj Hne Hk) as [Hinv' Hki].
      pose proof (compress_roots p rk i j k Hinv Hj Hne Hk) as Hroots.
      destruct (uf_lookup_rank p rk j Hinv Hjn) as (rj & Hrj & _).
      destruct (uf_lookup_rank p rk k Hinv Hkn) as (rk_k & Hrk & _).
      pose proof (uf_rank _ _ _ Hinv i j ri rj Hj Hne Hri Hrj) as Hij.
      assert (ri < rk_k)%nat as Hik.
      { destruct (decide (k = j)) as [->|Hkj]; [congruence|].
        pose proof (uf_rank _ _ _ Hinv j k rj rk_k Hk Hkj Hrj Hrk). lia. }
      destruct (IH (<[i := k]> p) k rk_k Hinv' Hrk) as
        (p' & r & Hfind & Hr & Hrn & Hinv'' & Hroots'); [lia|done|].
      exists p', r. split; [done|]. split; [|split; [done|split; [done|]]].
      * apply Hroots. apply root_step with k;
          [by rewrite list_lookup_insert_eq
             by (by rewrite (uf_len_parent _ _ _ Hinv))|done|done].
      * intros x y. by rewrite Hroots', Hroots.
Qed.

Lemma find_root_ok p rk i :
  uf_inv n p rk -> (i < n)%nat ->
  exists p' r,
    find_root (length p) p i = Some (p', r) /\ root_of p i r /\ (r < n)%nat /\
    uf_inv n p' rk /\ forall x y, root_of p' x y <-> root_of p x y.
Proof.
  intros Hinv Hi. destruct (uf_lookup_rank p rk i Hinv Hi) as (ri & Hri & _).
  apply (find_root_spec rk _ p i ri); try done.
  rewrite (uf_len_parent _ _ _ Hinv). lia.
Qed.

End UnionFind.


Section Union.
Context (n : nat).

(** *** Sets of nodes sharing a root *)

Lemma same_set_sym p x y : same_set p x y -> same_set p y x.
Proof. intros (r & Hx & Hy). by exists r. Qed.

Lemma same_set_trans p x y z : same_set p x y -> same_set p y z -> same_set p x z.
Proof.
  intros (r & Hx & Hy) (r' & Hy' & Hz).
  assert (r' = r) as -> by (by apply (root_of_functional p y)).
  by exists r.
Qed.

Lemma same_set_root p a ra x :
  root_of p a ra -> (root_of p x ra <-> same_set p x a).
Proof.
  intros Ha. split.
  - intros Hx. by exists ra.
  - intros (r & Hx & Ha').
    assert (r = ra) as -> by (by apply (root_of_functional p a)). done.
Qed.

Lemma same_set_ext p p' :
  (forall x y, root_of p' x y <-> root_of p x y) ->
  forall x y, same_set p' x y <-> same_set p x y.
Proof.
  intros Hroots x y.
  split; intros (r & Hx & Hy); exists r; split; by apply Hroots.
Qed.

(** *** Linking two roots *)

Lemma link_roots p A B :
  p !! A = Some A -> p !! B = Some B -> A <> B ->
  forall x r, root_of (<[B := A]> p) x r <->
              (root_of p x r /\ r <> B) \/ (root_of p x B /\ r = A).
Proof.
  intros HA HB Hne x r.
  assert (B < length p)%nat as HBn by (by apply lookup_lt_Some in HB).
  assert (<[B := A]> p !! B = Some A) as HB'
    by (by rewrite list_lookup_insert_eq).
  assert (root_of (<[B := A]> p) A A) as HA'.
  { constructor. by rewrite list_lookup_insert_ne. }
  split.
  - induction 1 as [x Hx|x y r Hx Hxy Hr IH].
    + assert (x <> B) as HxB by congruence.
      rewrite list_lookup_insert_ne in Hx by done.
      left. split; [by constructor|done].
    + destruct (decide (x = B)) as [->|HxB].
      * assert (y = A) as -> by congruence.
        right. split; [by constructor|].
        destruct IH as [[HAr _]|[_ ->]]; [|done].
        by apply (root_of_root p A r) in HAr.
      * rewrite list_lookup_insert_ne in Hx by done.
        destruct IH as [[Hyr HrB]|[HyB ->]].
        -- left. split; [by apply root_step with y|done].
        -- right. split; [by apply root_step with y|done].
  - intros [[Hx HrB]|[Hx ->]].
    + induction Hx as [x Hx|x y r Hx Hxy Hr IH].
      * constructor. by rewrite list_lookup_insert_ne.
      * assert (x <> B) as HxB by congruence.
        apply root_step with y; [by rewrite list_lookup_insert_ne|done|].
        by apply IH.
    + remember B as r eqn:Er in Hx.
      induction Hx as [x Hx|x y r Hx Hxy Hr IH]; subst.
      * by apply root_step with A.
      * assert (x <> B) as HxB by congruence.
        apply root_step with y; [by rewrite list_lookup_insert_ne|done|].
        by apply IH.
Qed.

Lemma link_same_set p A B :
  p !! A = Some A -> p !! B = Some B -> A <> B ->
  forall x y, same_set (<[B := A]> p) x y <->
              same_set p x y \/
              (root_of p x A /\ root_of p y B) \/
              (root_of p x B /\ root_of p y A).
Proof.
  intros HA HB Hne x y. unfold same_set.
  setoid_rewrite (link_roots p A B HA HB Hne). split.
  - intros (r & [[Hx HrB]|[Hx ->]] & [[Hy HrB']|[Hy Hr]]).
    + left. by exists r.
    + subst r. right. left. done.
    + right. right. done.
    + left. by exists B.
  - intros [(r & Hx & Hy)|[[Hx Hy]|[Hx Hy]]].
    + destruct (decide (r = B)) as [->|HrB].
      * exists A. split; by right.
      * exists r. split; by left.
    + exists A. split; [left|right]; done.
    + exists A. split; [right|left]; done.
Qed.

Lemma link_inv p rk A B rA rB :
  uf_inv n p rk -> p !! A = Some A -> p !! B = Some B -> A <> B ->
  rk !! A = Some rA -> rk !! B = Some rB -> (rB <= rA)%nat ->
  uf_inv n (<[B := A]> p)
         (if (rA =? rB)%nat then <[A := (rA + 1)%nat]> rk else rk).
Proof.
  intros Hinv HA HB Hne HrA HrB Hle.
  assert (A < n)%nat as HAn by (by eapply uf_bound).
  assert (B < n)%nat as HBn by (by eapply uf_bound).
  pose proof (uf_len_parent _ _ _ Hinv) as Hlp.
  pose proof (uf_len_rank _ _ _ Hinv) as Hlr.
  set (rk' := if (rA =? rB)%nat then <[A := (rA + 1)%nat]> rk else rk).
  assert (forall x rx, x <> A -> rk' !! x = Some rx -> rk !! x = Some rx)
    as Hother.
  { intros x rx HxA. unfold rk'. destruct (rA =? rB)%nat; [|done].
    by rewrite list_lookup_insert_ne. }
  assert (exists rA', rk' !! A = Some rA' /\ (rA <= rA')%nat /\
                      (rB < rA')%nat) as (rA' & HrA' & HleA & HltB).
  { unfold rk'. destruct (Nat.eqb_spec rA rB) as [->|Hneq].
    - exists (rB + 1)%nat. rewrite list_lookup_insert_eq by lia.
      split; [done|lia].
    - exists rA. split; [done|lia]. }
  split.
  - by rewrite length_insert.
  - unfold rk'. destruct (rA =? rB)%nat; [by rewrite length_insert|done].
  - intros x y Hx. destruct (decide (x = B)) as [->|HxB].
    + rewrite list_lookup_insert_eq in Hx by lia. congruence.
    + rewrite list_lookup_insert_ne in Hx by done. by eapply uf_bound.
  - intros x y rx ry Hx Hxy Hrx Hry. destruct (decide (x = B)) as [->|HxB].
    + rewrite list_lookup_insert_eq in Hx by lia.
      assert (y = A) as -> by congruence.
      apply Hother in Hrx; [|done]. congruence.
    + rewrite list_lookup_insert_ne in Hx by done.
      assert (x <> A) as HxA by congruence.
      apply Hother in Hrx; [|done].
      destruct (decide (y = A)) as [->|HyA].
      * pose proof (uf_rank _ _ _ Hinv x A rx rA Hx Hxy Hrx HrA).
        assert (ry = rA') by congruence. lia.
      * apply Hother in Hry; [|done].
        by eapply (uf_rank _ _ _ Hinv x y).
  - intros i ri k Hri Hk.
    assert (forall j, rk !! j = Some k -> k ∈ rk') as Hkeep.
    { intros j Hj. unfold rk'.
      destruct (Nat.eqb_spec rA rB) as [Heq|Hneq];
        [|by eapply list_elem_of_lookup_2].
      destruct (decide (j = A)) as [->|HjA].
      - assert (k = rB) as -> by congruence.
        apply list_elem_of_lookup_2 with B.
        by rewrite list_lookup_insert_ne.
      - apply list_elem_of_lookup_2 with j.
        by rewrite list_lookup_insert_ne. }
    assert (forall ri0 i0, rk !! i0 = Some ri0 -> (k < ri0)%nat -> k ∈ rk')
      as Hold.
    { intros ri0 i0 Hi0 Hk0.
      pose proof (uf_dense _ _ _ Hinv i0 ri0 k Hi0 Hk0) as Hin.
      apply list_elem_of_lookup_1 in Hin as [j Hj]. by eapply Hkeep. }
    destruct (decide (i = A)) as [->|HiA].
    + assert (ri = rA') as -> by congruence.
      unfold rk' in HrA'. destruct (Nat.eqb_spec rA rB) as [Heq|Hneq].
      * rewrite list_lookup_insert_eq in HrA' by lia.
        injection HrA' as <-.
        destruct (decide (k = rA)) as [->|Hkr].
        -- by eapply Hkeep.
        -- apply (Hold rA A); [done|lia].
      * assert (rA' = rA) as -> by congruence. by apply (Hold rA A).
    + apply Hother in Hri; [|done]. by apply (Hold ri i).
Qed.

(** *** [union] merges the sets of its two arguments *)

Lemma union_spec p rk a b :
  uf_inv n p rk -> (a < n)%nat -> (b < n)%nat ->
  exists p' rk',
    union p rk a b = Some (p', rk') /\ uf_inv n p' rk' /\
    forall x y, same_set p' x y <->
                same_set p x y \/
                (same_set p x a /\ same_set p b y) \/
                (same_set p x b /\ same_set p a y).
Proof.
  intros Hinv Ha Hb. unfold union.
  destruct (find_root_ok n p rk a Hinv Ha)
    as (p1 & ra & Hfa & Hra & Hran & Hinv1 & Hroots1).
  rewrite Hfa. simpl.
  destruct (find_root_ok n p1 rk b Hinv1 Hb)
    as (p2 & rb & Hfb & Hrb & Hrbn & Hinv2 & Hroots2).
  rewrite Hfb. simpl.
  assert (forall x y, root_of p2 x y <-> root_of p x y) as Hroots
    by (intros x y; by rewrite Hroots2, Hroots1).
  apply Hroots1 in Hrb.
  pose proof (same_set_ext p p2 Hroots) as Hsame.
  destruct (Nat.eqb_spec ra rb) as [->|Hne].
  { exists p2, rk. split; [done|]. split; [done|].
    intros x y. rewrite Hsame.
    assert (same_set p a b) as Hab by (by exists rb).
    split; [by left|]. intros [H|[[Hx Hy]|[Hx Hy]]]; [done| |].
    - eapply same_set_trans; [exact Hx|]. by eapply same_set_trans.
    - eapply same_set_trans; [exact Hx|].
      eapply same_set_trans; [apply same_set_sym; exact Hab|done]. }
  destruct (uf_lookup_rank n p2 rk ra Hinv2 Hran) as (rank_ra & Hrka & _).
  destruct (uf_lookup_rank n p2 rk rb Hinv2 Hrbn) as (rank_rb & Hrkb & _).
  rewrite Hrka, Hrkb. simpl.
  assert (p2 !! ra = Some ra) as Hpa
    by (apply (root_of_is_root p2 a), Hroots; done).
  assert (p2 !! rb = Some rb) as Hpb
    by (apply (root_of_is_root p2 b), Hroots; done).
  assert (forall x y,
             same_set p x y \/
             (root_of p2 x ra /\ root_of p2 y rb) \/
             (root_of p2 x rb /\ root_of p2 y ra) <->
             same_set p x y \/
             (same_set p x a /\ same_set p b y) \/
             (same_set p x b /\ same_set p a y)) as Hrhs.
  { intros x y. rewrite !Hroots.
    rewrite !(same_set_root p a ra) by done.
    rewrite !(same_set_root p b rb) by done.
    split; (intros [H|[[H1 H2]|[H1 H2]]];
            [by left|right; left|right; right]);
      (split; [done|by apply same_set_sym]). }
  destruct (Nat.ltb_spec rank_ra rank_rb) as [Hlt|Hge].
  - rewrite Hrkb, Hrka. simpl.
    pose proof (link_inv p2 rk rb ra rank_rb rank_ra Hinv2 Hpb Hpa
                  (not_eq_sym Hne) Hrkb Hrka ltac:(lia)) as Hinv3.
    destruct (rank_rb =? rank_ra)%nat;
      (eexists _, _; split; [reflexivity|]; split; [exact Hinv3|];
       intros x y; rewrite (link_same_set p2 rb ra Hpb Hpa (not_eq_sym Hne));
       rewrite Hsame, <- Hrhs; tauto).
  - rewrite Hrka, Hrkb. simpl.
    pose proof (link_inv p2 rk ra rb rank_ra rank_rb Hinv2 Hpa Hpb
                  Hne Hrka Hrkb Hge) as Hinv3.
    destruct (rank_ra =? rank_rb)%nat;
      (eexists _, _; split; [reflexivity|]; split; [exact Hinv3|];
       intros x y; rewrite (link_same_set p2 ra rb Hpa Hpb Hne);
       rewrite Hsame, <- Hrhs; tauto).
Qed.

End Union.


Section UnionPairs.
Context (n : nat).

(** *** Connectivity when one edge is added *)

Lemma rtsc_mono (R R' : relation nat) x y :
  (forall u v, R u v -> R' u v) -> rtsc R x y -> rtsc R' x y.
Proof.
  intros Hsub. apply rtc_subrel. intros u v [H|H]; [left|right]; auto.
Qed.

Lemma rtsc_add_edge (R R' : relation nat) a b :
  (forall u v, R' u v <-> R u v \/ (u = a /\ v = b)) ->
  forall x y, rtsc R' x y <->
              rtsc R x y \/ (rtsc R x a /\ rtsc R b y) \/
              (rtsc R x b /\ rtsc R a y).
Proof.
  intros HR' x y. split.
  - induction 1 as [x|x z y Hxz Hzy IH]; [by left|].
    assert (sc R x z \/ (x = a /\ z = b) \/ (z = a /\ x = b)) as Hcase.
    { destruct Hxz as [H|H]; apply HR' in H as [H|H]; auto.
      - left. by left.
      - left. by right. }
    destruct Hcase as [Hsc|[[-> ->]|[-> ->]]].
    + assert (rtsc R x z) as Hxz' by (by apply rtc_once).
      destruct IH as [IH|[[IH1 IH2]|[IH1 IH2]]].
      * left. by etrans.
      * right. left. split; [by etrans|done].
      * right. right. split; [by etrans|done].
    + destruct IH as [IH|[[IH1 IH2]|[IH1 IH2]]].
      * right. left. done.
      * left. etrans; [symmetry; exact IH1|done].
      * left. done.
    + destruct IH as [IH|[[IH1 IH2]|[IH1 IH2]]].
      * right. right. done.
      * left. done.
      * left. etrans; [symmetry; exact IH1|done].
  - assert (forall u v, rtsc R u v -> rtsc R' u v) as Hsub.
    { intros u v. apply rtsc_mono. intros u' v' H. apply HR'. by left. }
    assert (rtsc R' a b) as Hab.
    { apply rtsc_lr, HR'. by right. }
    intros [H|[[H1 H2]|[H1 H2]]].
    + by apply Hsub.
    + etrans; [apply Hsub, H1|]. etrans; [exact Hab|]. by apply Hsub.
    + etrans; [apply Hsub, H1|]. etrans; [symmetry; exact Hab|].
      by apply Hsub.
Qed.

Lemma linked_snoc t done a b d u v :
  linked t (done ++ [(a, b, d)]) u v <->
  linked t done u v \/ ((d < t)%Q /\ u = a /\ v = b).
Proof.
  unfold linked. split.
  - intros (d' & Hin & Hd'). apply elem_of_app in Hin as [Hin|Hin].
    + left. by exists d'.
    + apply list_elem_of_singleton in Hin. injection Hin as -> -> ->.
      by right.
  - intros [(d' & Hin & Hd')|(Hd & -> & ->)].
    + exists d'. split; [|done]. apply elem_of_app. by left.
    + exists d. split; [|done]. apply elem_of_app. right.
      by apply list_elem_of_singleton.
Qed.

(** *** The fresh forest *)

Lemma fresh_inv : uf_inv n (seq 0 n) (replicate n 0%nat).
Proof.
  split.
  - apply length_seq.
  - apply length_replicate.
  - intros i j Hi. apply lookup_seq in Hi. lia.
  - intros i j ri rj Hi Hne. apply lookup_seq in Hi. lia.
  - intros i ri k Hri Hk. apply lookup_replicate in Hri. lia.
Qed.

Lemma fresh_same_set x y :
  (x < n)%nat -> (same_set (seq 0 n) x y <-> x = y).
Proof.
  intros Hx.
  assert (forall i r, root_of (seq 0 n) i r -> r = i) as Hroot.
  { intros i r Hr. destruct (root_of_inv _ _ _ Hr) as [[_ ->]|(j & Hj & Hne & _)];
      [done|]. apply lookup_seq in Hj. lia. }
  split.
  - intros (r & Hxr & Hyr). apply Hroot in Hxr, Hyr. congruence.
  - intros <-. exists x. split; constructor; by apply lookup_seq.
Qed.

Lemma union_loop_spec t : forall rest done p rk,
  pairs_in_range n (done ++ rest) ->
  uf_inv n p rk ->
  (forall x y, (x < n)%nat -> (same_set p x y <-> rtsc (linked t done) x y)) ->
  exists p' rk',
    for_each
      (fun '(parent, rank_arr) '(a_idx, b_idx, dist) =>
         if Qlt_bool dist t then union parent rank_arr a_idx b_idx
         else Some (parent, rank_arr))
      (p, rk) rest = Some (p', rk') /\
    uf_inv n p' rk' /\
    (forall x y, (x < n)%nat ->
                 (same_set p' x y <-> rtsc (linked t (done ++ rest)) x y)).
Proof.
  induction rest as [|[[a b] d] rest IH]; intros done p rk Hrange Hinv Hsame.
  - exists p, rk. rewrite app_nil_r. done.
  - assert ((a < n)%nat /\ (b < n)%nat) as [Ha Hb].
    { apply (Hrange a b d). apply elem_of_app. right. left. }
    replace (done ++ (a, b, d) :: rest) with ((done ++ [(a, b, d)]) ++ rest)
      in * by (by rewrite <- app_assoc).
    assert (pairs_in_range n done) as Hdone.
    { intros a' b' d' Hin. apply (Hrange a' b' d').
      apply elem_of_app. left. apply elem_of_app. by left. }
    simpl. destruct (Qlt_bool d t) eqn:Hd.
    + apply Qlt_bool_true in Hd.
      destruct (union_spec n p rk a b Hinv Ha Hb) as (p' & rk' & Hu & Hinv' & Hsame').
      rewrite Hu. simpl. apply IH; [done|done|].
      intros x y Hx. rewrite Hsame'.
      rewrite (rtsc_add_edge (linked t done) (linked t (done ++ [(a, b, d)])) a b).
      2:{ intros u v. rewrite linked_snoc. tauto. }
      rewrite (Hsame x y Hx), (Hsame x a Hx), (Hsame x b Hx).
      rewrite (Hsame b y Hb), (Hsame a y Ha). done.
    + apply IH; [done|done|].
      intros x y Hx. rewrite (Hsame x y Hx).
      assert (~ (d < t)%Q) as Hnd by (rewrite <- Qlt_bool_true; congruence).
      split; apply rtsc_mono; intros u v; rewrite linked_snoc; tauto.
Qed.

Lemma union_pairs_spec t pairs :
  pairs_in_range n pairs ->
  exists p rk,
    union_pairs t pairs n = Some (p, rk) /\ uf_inv n p rk /\
    (forall x y, (x < n)%nat ->
                 (same_set p x y <-> rtsc (linked t pairs) x y)).
Proof.
  intros Hrange. apply (union_loop_spec t pairs []); [done|apply fresh_inv|].
  intros x y Hx. rewrite (fresh_same_set x y Hx). split.
  - by intros ->.
  - intros H. apply rtc_inv in H as [->|(z & [(d & Hin & _)|(d & Hin & _)] & _)];
      [done| |]; by apply elem_of_nil in Hin.
Qed.

End UnionPairs.


Section Clusters.
Context (n : nat).

(** *** Filing nodes under their roots *)

Lemma clusters_append_keys cl r idx :
  (clusters_append cl r idx).*1
  = if decide (r ∈ cl.*1) then cl.*1 else cl.*1 ++ [r].
Proof.
  induction cl as [|[r0 ms0] cl IH].
  - destruct (decide (r ∈ ([] : list (nat * list nat)).*1)) as [Hin|_]; [|done].
    by apply elem_of_nil in Hin.
  - cbn [clusters_append]. destruct (Nat.eqb_spec r0 r) as [->|Hne].
    + destruct (decide (r ∈ ((r, ms0) :: cl).*1)) as [_|Hnin]; [done|].
      exfalso. apply Hnin. left.
    + rewrite fmap_cons, IH. cbn [fst].
      destruct (decide (r ∈ cl.*1)) as [Hin|Hnin];
        destruct (decide (r ∈ ((r0, ms0) :: cl).*1)) as [Hin'|Hnin'];
        try done.
      * exfalso. apply Hnin'. by right.
      * exfalso. rewrite fmap_cons in Hin'. cbn [fst] in Hin'.
        apply elem_of_cons in Hin' as [?|?]; [congruence|done].
Qed.

Lemma elem_of_clusters_append cl r idx r' ms' :
  NoDup cl.*1 ->
  (r', ms') ∈ clusters_append cl r idx <->
  (r' <> r /\ (r', ms') ∈ cl) \/
  (r' = r /\ ((exists ms, (r, ms) ∈ cl /\ ms' = ms ++ [idx]) \/
              ((r ∉ cl.*1) /\ ms' = [idx]))).
Proof.
  induction cl as [|[r0 ms0] cl IH]; intros Hnd.
  - cbn [clusters_append]. rewrite list_elem_of_singleton. split.
    + intros [= -> ->]. right. split; [done|]. right.
      split; [apply not_elem_of_nil|done].
    + intros [[_ Hin]|[-> [(ms & Hin & _)|[_ ->]]]];
        [by apply elem_of_nil in Hin|by apply elem_of_nil in Hin|done].
  - rewrite fmap_cons in Hnd. cbn [fst] in Hnd.
    apply NoDup_cons in Hnd as [Hr0 Hnd]. specialize (IH Hnd).
    assert (forall ms, (r0, ms) ∈ cl -> False) as Hr0'.
    { intros ms Hin. apply Hr0. apply list_elem_of_fmap. by exists (r0, ms). }
    cbn [clusters_append]. rewrite fmap_cons. cbn [fst].
    destruct (Nat.eqb_spec r0 r) as [->|Hne].
    + rewrite !elem_of_cons. split.
      * intros [Heq|Hin].
        -- simplify_eq.
           right. split; [done|]. left. exists ms0. split; [by left|done].
        -- left. split; [|by right]. intros ->. by apply (Hr0' ms').
      * intros [[Hne [Heq|Hin]]|[-> [(ms & Hin & ->)|[Hnin _]]]].
        -- simplify_eq.
        -- by right.
        -- apply elem_of_cons in Hin as [Heq|Hin].
           ++ simplify_eq. by left.
           ++ exfalso. by apply (Hr0' ms).
        -- exfalso. apply Hnin. apply elem_of_cons. by left.
    + rewrite elem_of_cons, IH. split.
      * intros [Heq|[[Hne' Hin]|[-> [(ms & Hin & ->)|[Hnin ->]]]]].
        -- simplify_eq. left. split; [done|left].
        -- left. split; [done|by right].
        -- right. split; [done|]. left. exists ms. split; [by right|done].
        -- right. split; [done|]. right. split; [|done].
           intros [?|?]%elem_of_cons; [congruence|done].
      * intros [[Hne' Hin]|[-> [(ms & Hin & ->)|[Hnin ->]]]].
        -- apply elem_of_cons in Hin as [Heq|Hin]; [by left|].
           right. left. done.
        -- apply elem_of_cons in Hin as [Heq|Hin]; [congruence|].
           right. right. split; [done|]. left. by exists ms.
        -- right. right. split; [done|]. right. split; [|done].
           intros Hin. apply Hnin. by right.
Qed.

Lemma clusters_inv_step p0 k cl r :
  clusters_inv p0 k cl -> root_of p0 k r ->
  clusters_inv p0 (S k) (clusters_append cl r k).
Proof.
  intros [Hkeys Hmem Hcover] Hr. split.
  - rewrite clusters_append_keys. destruct (decide _) as [Hin|Hnin]; [done|].
    apply NoDup_app. split; [done|]. split; [|apply NoDup_singleton].
    intros x Hx ->%list_elem_of_singleton. done.
  - intros r' ms' Hin. apply elem_of_clusters_append in Hin; [|done].
    destruct Hin as [[Hne Hin]|[-> [(ms & Hin & ->)|[Hnin ->]]]].
    + destruct (Hmem r' ms' Hin) as (Hnil & Hnd & Hx).
      split; [done|]. split; [done|]. intros x. rewrite Hx. split.
      * intros [Hlt Hroot]. split; [lia|done].
      * intros [Hlt Hroot]. split; [|done].
        destruct (decide (x = k)) as [->|]; [|lia].
        exfalso. apply Hne. by apply (root_of_functional p0 k).
    + destruct (Hmem r ms Hin) as (Hnil & Hnd & Hx).
      split; [by destruct ms|]. split.
      * apply NoDup_app. split; [done|]. split; [|apply NoDup_singleton].
        intros x Hxin ->%list_elem_of_singleton. apply Hx in Hxin. lia.
      * intros x. rewrite elem_of_app, list_elem_of_singleton, Hx. split.
        -- intros [[Hlt Hroot]| ->]; (split; [lia|done]).
        -- intros [Hlt Hroot]. destruct (decide (x = k)); [by right|left].
           split; [lia|done].
    + split; [done|]. split; [apply NoDup_singleton|].
      intros x. rewrite list_elem_of_singleton. split.
      * intros ->. split; [lia|done].
      * intros [Hlt Hroot]. destruct (decide (x = k)) as [|Hxk]; [done|].
        exfalso. destruct (Hcover x r) as (ms & Hin); [lia|done|].
        apply Hnin. apply list_elem_of_fmap. by exists (r, ms).
  - intros x r0 Hlt Hroot.
    assert (exists ms, (r0, ms) ∈ cl \/ r0 = r) as (ms & Hcase).
    { destruct (decide (x = k)) as [->|Hxk].
      - exists []. right. by apply (root_of_functional p0 k).
      - destruct (Hcover x r0) as (ms & Hin); [lia|done|]. exists ms. by left. }
    destruct (decide (r0 = r)) as [->|Hne].
    + destruct (decide (r ∈ cl.*1)) as [Hin|Hnin].
      * apply list_elem_of_fmap in Hin as ([r1 ms1] & -> & Hin).
        exists (ms1 ++ [k]). apply elem_of_clusters_append; [done|].
        right. split; [done|]. left. by exists ms1.
      * exists [k]. apply elem_of_clusters_append; [done|].
        right. split; [done|]. by right.
    + destruct Hcase as [Hin|?]; [|done].
      exists ms. apply elem_of_clusters_append; [done|]. by left.
Qed.

Lemma build_loop_spec p0 rk : forall m k p cl,
  (k + m = n)%nat -> uf_inv n p rk ->
  (forall x y, root_of p x y <-> root_of p0 x y) ->
  clusters_inv p0 k cl ->
  exists p' cl',
    for_each
      (fun '(parent, clusters) idx =>
         '(parent', root) ← find_root (length parent) parent idx;
         Some (parent', clusters_append clusters root idx))
      (p, cl) (seq k m) = Some (p', cl') /\
    clusters_inv p0 n cl'.
Proof.
  induction m as [|m IH]; intros k p cl Hkm Hinv Hroots Hcl.
  - exists p, cl. replace n with k by lia. done.
  - simpl.
    destruct (find_root_ok n p rk k Hinv) as (p' & r & Hf & Hr & _ & Hinv' & Hroots');
      [lia|].
    rewrite Hf. simpl. apply IH; [lia|done| |].
    + intros x y. by rewrite Hroots', Hroots.
    + apply clusters_inv_step; [done|]. by apply Hroots.
Qed.

Lemma build_clusters_spec p rk :
  uf_inv n p rk ->
  exists p' cl, build_clusters p n = Some (p', cl) /\ clusters_inv p n cl.
Proof.
  intros Hinv. apply (build_loop_spec p rk n 0 p []); try done.
  split.
  - constructor.
  - intros r ms Hin. by apply elem_of_nil in Hin.
  - intros x r Hlt. lia.
Qed.

(** *** Clusters list their members in increasing order *)

Lemma clusters_append_Forall (Q Q' : list nat -> Prop) cl r idx :
  Forall (fun e => Q e.2) cl ->
  (forall ms, Q ms -> Q' ms) ->
  (forall ms, Q ms -> Q' (ms ++ [idx])) -> Q' [idx] ->
  Forall (fun e => Q' e.2) (clusters_append cl r idx).
Proof.
  intros Hall Hkeep Happ Hnew.
  induction Hall as [|[r0 ms0] cl H0 Hall IH]; cbn [clusters_append].
  - by constructor.
  - destruct (r0 =? r)%nat.
    + constructor; [by apply Happ|].
      eapply Forall_impl; [exact Hall|]. intros e. apply Hkeep.
    + constructor; [by apply Hkeep|done].
Qed.

Lemma increasing_snoc (ms : list nat) (k : nat) :
  increasing ms -> (forall x, x ∈ ms -> (x < k)%nat) ->
  increasing (ms ++ [k]).
Proof.
  intros Hinc Hlt i j a b Hij Ha Hb.
  apply lookup_app_Some in Hb as [Hb|[Hge Hb]].
  - apply lookup_lt_Some in Hb as Hj.
    rewrite lookup_app_l in Ha by lia. by apply (Hinc i j).
  - apply list_lookup_singleton_Some in Hb as [Hj0 <-].
    rewrite lookup_app_l in Ha by lia.
    apply Hlt. by eapply list_elem_of_lookup_2.
Qed.

Lemma increasing_tail (a : nat) (t : list nat) :
  increasing (a :: t) ->
  increasing t /\ forall y, y ∈ t -> (a < y)%nat.
Proof.
  intros Hinc. split.
  - intros i j x y Hij Hx Hy. by apply (Hinc (S i) (S j)); [lia|..].
  - intros y Hy. apply list_elem_of_lookup_1 in Hy as [j Hj].
    by apply (Hinc 0%nat (S j)); [lia|..].
Qed.

Lemma increasing_unique (c c' : list nat) :
  increasing c -> increasing c' -> (forall y, y ∈ c <-> y ∈ c') -> c = c'.
Proof.
  revert c'. induction c as [|a t IH]; intros c' Hc Hc' Hsame.
  - destruct c' as [|a' t']; [done|].
    assert (a' ∈ ([] : list nat)) as Hin by (apply Hsame; left).
    by apply elem_of_nil in Hin.
  - destruct c' as [|a' t'].
    { assert (a ∈ ([] : list nat)) as Hin by (apply Hsame; left).
      by apply elem_of_nil in Hin. }
    destruct (increasing_tail a t Hc) as [Ht Hlt].
    destruct (increasing_tail a' t' Hc') as [Ht' Hlt'].
    assert (a = a') as <-.
    { assert (a ∈ a' :: t') as Ha by (apply Hsame; left).
      assert (a' ∈ a :: t) as Ha' by (apply Hsame; left).
      apply elem_of_cons in Ha as [?|Ha]; [done|].
      apply elem_of_cons in Ha' as [?|Ha']; [done|].
      apply Hlt' in Ha. apply Hlt in Ha'. lia. }
    f_equal. apply IH; [done|done|].
    intros y. split; intros Hy.
    + assert (y ∈ a :: t') as Hy' by (apply Hsame; by right).
      apply elem_of_cons in Hy' as [->|?]; [|done].
      apply Hlt in Hy. lia.
    + assert (y ∈ a :: t) as Hy' by (apply Hsame; by right).
      apply elem_of_cons in Hy' as [->|?]; [|done].
      apply Hlt' in Hy. lia.
Qed.

Lemma build_loop_increasing : forall m k p cl p' cl',
  for_each
    (fun '(parent, clusters) idx =>
       '(parent', root) ← find_root (length parent) parent idx;
       Some (parent', clusters_append clusters root idx))
    (p, cl) (seq k m) = Some (p', cl') ->
  Forall (fun e => increasing e.2 /\ forall x, x ∈ e.2 -> (x < k)%nat) cl ->
  Forall (fun e => increasing e.2) cl'.
Proof.
  induction m as [|m IH]; intros k p cl p' cl' Hloop Hcl.
  - simpl in Hloop. injection Hloop as <- <-.
    eapply Forall_impl; [exact Hcl|]. by intros e [? _].
  - cbn [seq for_each] in Hloop.
    destruct (find_root (length p) p k) as [[p1 r]|]; [|done].
    cbn [mbind option_bind] in Hloop.
    apply (IH (S k) p1 (clusters_append cl r k) p' cl' Hloop).
    apply (clusters_append_Forall
             (fun ms => increasing ms /\ forall x, x ∈ ms -> (x < k)%nat)
             (fun ms => increasing ms /\ forall x, x ∈ ms -> (x < S k)%nat));
      [done| | |].
    + intros ms [Hinc Hlt]. split; [done|]. intros x Hx. apply Hlt in Hx. lia.
    + intros ms [Hinc Hlt]. split; [by apply increasing_snoc|].
      intros x [Hx| ->%list_elem_of_singleton]%elem_of_app; [|lia].
      apply Hlt in Hx. lia.
    + split.
      * intros i j a b Hij Ha Hb. apply lookup_lt_Some in Hb. simpl in Hb. lia.
      * intros x ->%list_elem_of_singleton. lia.
Qed.

Lemma build_clusters_increasing p p' cl :
  build_clusters p n = Some (p', cl) ->
  forall r ms, (r, ms) ∈ cl -> increasing ms.
Proof.
  intros Hb r ms Hin.
  pose proof (build_loop_increasing n 0 p [] p' cl Hb (Forall_nil_2 _)) as Hall.
  rewrite Forall_forall in Hall. exact (Hall (r, ms) Hin).
Qed.

(** *** Python's [max] with a key *)

Lemma Qlt_bool_false a b : Qlt_bool a b = false <-> (b <= a)%Q.
Proof.
  rewrite <- not_true_iff_false, Qlt_bool_true. split.
  - apply Qnot_lt_le.
  - intros Hle Hlt. by apply (Qlt_not_le a b).
Qed.

Lemma max_scan_spec {A : Type} (key : A -> option Q) : forall l best bk,
  key best = Some bk ->
  (forall x, x ∈ l -> is_Some (key x)) ->
  exists c kc,
    max_scan key best bk l = Some c /\ key c = Some kc /\
    (c = best \/ c ∈ l) /\ (bk <= kc)%Q /\
    forall x kx, x ∈ l -> key x = Some kx -> (kx <= kc)%Q.
Proof.
  induction l as [|x l IH]; intros best bk Hbest Hkeys.
  - exists best, bk. simpl. split; [done|]. split; [done|].
    split; [by left|]. split; [apply Qle_refl|].
    intros x kx Hin. by apply elem_of_nil in Hin.
  - destruct (Hkeys x) as [k Hk]; [left|]. simpl. rewrite Hk. simpl.
    destruct (Qlt_bool bk k) eqn:Hlt.
    + apply Qlt_bool_true in Hlt.
      destruct (IH x k Hk) as (c & kc & Hc & Hkc & Hin & Hle & Hall).
      { intros y Hy. apply Hkeys. by right. }
      exists c, kc. split; [done|]. split; [done|]. split; [|split].
      * right. destruct Hin as [->|Hin]; [left|by right].
      * apply Qlt_le_weak. by apply Qlt_le_trans with k.
      * intros y ky [->|Hy]%elem_of_cons Hky.
        -- assert (ky = k) as -> by congruence. done.
        -- by apply (Hall y).
    + apply Qlt_bool_false in Hlt.
      destruct (IH best bk Hbest) as (c & kc & Hc & Hkc & Hin & Hle & Hall).
      { intros y Hy. apply Hkeys. by right. }
      exists c, kc. split; [done|]. split; [done|]. split; [|split; [done|]].
      * destruct Hin as [->|Hin]; [by left|right; by right].
      * intros y ky [->|Hy]%elem_of_cons Hky.
        -- assert (ky = k) as -> by congruence. by apply Qle_trans with bk.
        -- by apply (Hall y).
Qed.

Lemma py_max_spec {A : Type} (key : A -> option Q) (l : list A) :
  l <> [] -> (forall x, x ∈ l -> is_Some (key x)) ->
  exists c kc,
    py_max key l = Some c /\ key c = Some kc /\ c ∈ l /\
    forall x kx, x ∈ l -> key x = Some kx -> (kx <= kc)%Q.
Proof.
  destruct l as [|x l]; [done|]. intros _ Hkeys.
  destruct (Hkeys x) as [k Hk]; [left|]. simpl. rewrite Hk. simpl.
  destruct (max_scan_spec key l x k Hk) as (c & kc & Hc & Hkc & Hin & Hle & Hall).
  { intros y Hy. apply Hkeys. by right. }
  exists c, kc. split; [done|]. split; [done|]. split.
  - destruct Hin as [->|Hin]; [left|by right].
  - intros y ky [->|Hy]%elem_of_cons Hky.
    + assert (ky = k) as -> by congruence. done.
    + by apply (Hall y).
Qed.

End Clusters.


Section Candidate.

(** *** Sums of areas *)

Lemma foldl_Qplus (l : list Q) (a : Q) : (foldl Qplus a l == a + Qsum l)%Q.
Proof.
  unfold Qsum. revert a. induction l as [|x l IH]; intros a; simpl.
  - ring.
  - rewrite (IH (a + x)%Q), (IH (0 + x)%Q). ring.
Qed.

Lemma Qsum_cons (x : Q) (l : list Q) : (Qsum (x :: l) == x + Qsum l)%Q.
Proof. unfold Qsum at 1. simpl. rewrite foldl_Qplus. ring. Qed.





(** *** The candidate of one threshold *)

Lemma component_of_same n t pairs x c c' :
  component_of n t pairs x c -> component_of n t pairs x c' ->
  forall y, y ∈ c <-> y ∈ c'.
Proof. intros [_ H] [_ H'] y. by rewrite H, H'. Qed.




End Candidate.

(** *** The candidate of one threshold, in any arithmetic *)

Section CandidateComputed.
Context {arith : Float64}.

Lemma cluster_area_total poly_data idxs :
  (forall j, j ∈ idxs -> (j < length poly_data)%nat) ->
  is_Some (cluster_area poly_data idxs).
Proof.
  intros Hrange. unfold cluster_area.
  destruct (mapM_is_Some_2 (fun j => p_area <$> poly_data !! j) idxs)
    as [areas ->]; [|by eexists].
  apply Forall_forall. intros j Hj. unfold compose.
  destruct (lookup_lt_is_Some_2 poly_data j) as [pj ->]; [by apply Hrange|].
  by eexists.
Qed.

(** The candidate is a component, listed in increasing order, whose summed
    area is not exceeded by the summed area of any component so listed;
    the sums are those the script computes. *)
Lemma candidate_at_computed poly_data pairs total_area t :
  poly_data <> [] -> pairs_in_range (length poly_data) pairs ->
  exists cand area_cand,
    candidate_at poly_data pairs total_area t
      = Some (cand,
              if Qlt_bool 0 total_area
              then f64_div area_cand total_area else 0%Q) /\
    cluster_area poly_data cand = Some area_cand /\
    component (length poly_data) t pairs cand /\ increasing cand /\
    forall c area_c,
      component (length poly_data) t pairs c -> increasing c ->
      cluster_area poly_data c = Some area_c -> (area_c <= area_cand)%Q.
Proof.
  intros Hne Hrange. set (n := length poly_data).
  assert (0 < n)%nat as Hn by (destruct poly_data; [done|simpl in n; lia]).
  unfold candidate_at. fold n.
  destruct (union_pairs_spec n t pairs Hrange) as (p & rk & Hu & Hinv & Hsame).
  rewrite Hu. cbn [mbind option_bind].
  destruct (build_clusters_spec n p rk Hinv)
    as (p' & cl & Hb & [Hkeys Hmem Hcover]).
  rewrite Hb. cbn [mbind option_bind]. change (map snd cl) with (snd <$> cl).
  pose proof (build_clusters_increasing n p p' cl Hb) as Hinc.
  assert (forall x, (x < n)%nat ->
            exists r ms, (r, ms) ∈ cl /\ component_of n t pairs x ms) as Hcomp.
  { intros x Hx. destruct (root_of_total n p rk Hinv x Hx) as (r & Hr & _).
    destruct (Hcover x r Hx Hr) as (ms & Hin). exists r, ms. split; [done|].
    destruct (Hmem r ms Hin) as (_ & Hnd & Hms). split; [done|].
    intros y. rewrite Hms. split; intros [Hy Hyr]; (split; [done|]).
    - apply Hsame; [done|]. by exists r.
    - apply Hsame in Hyr; [|done]. destruct Hyr as (r' & Hx' & Hy').
      by rewrite (root_of_functional p x r r' Hr Hx'). }
  assert (forall ms, ms ∈ snd <$> cl -> forall j, j ∈ ms -> (j < n)%nat) as Hlt.
  { intros ms Hin j Hj. apply list_elem_of_fmap in Hin as ([r ms'] & -> & Hin).
    destruct (Hmem r ms' Hin) as (_ & _ & Hms). by apply Hms in Hj as [? _]. }
  destruct (py_max_spec (cluster_area poly_data) (snd <$> cl))
    as (cand & kc & Hmax & Hkc & Hin & Hall).
  { destruct (Hcomp 0%nat Hn) as (r & ms & Hin & _).
    intros Hnil. apply (list_elem_of_fmap_2 snd) in Hin.
    rewrite Hnil in Hin. by apply elem_of_nil in Hin. }
  { intros ms Hms. apply cluster_area_total. by apply Hlt. }
  rewrite Hmax. cbn [mbind option_bind]. rewrite Hkc.
  cbn [mbind option_bind]. exists cand, kc. split; [done|]. split; [done|].
  apply list_elem_of_fmap in Hin as ([r ms'] & -> & Hin). cbn [snd] in *.
  destruct (Hmem r ms' Hin) as (Hnil & Hnd & Hms).
  split; [|split; [by apply (Hinc r)|]].
  - destruct ms' as [|x0 tl] eqn:Ems; [done|]. rewrite <- Ems in *.
    assert (x0 ∈ ms') as Hx0 by (rewrite Ems; left).
    pose proof (proj1 (Hms x0) Hx0) as [Hx0n Hx0r].
    exists x0. split; [done|]. split; [done|].
    intros y. rewrite Hms. split; intros [Hy Hyr]; (split; [done|]).
    + apply Hsame; [done|]. by exists r.
    + apply Hsame in Hyr; [|done]. destruct Hyr as (r' & Hx' & Hy').
      by rewrite (root_of_functional p x0 r r' Hx0r Hx').
  - intros c area_c (x & Hx & Hc) Hcinc Harea.
    destruct (Hcomp x Hx) as (r' & ms & Hin' & Hms').
    assert (c = ms) as ->.
    { apply increasing_unique; [done|by apply (Hinc r')|].
      by apply (component_of_same n t pairs x). }
    apply (Hall ms); [|done].
    by apply (list_elem_of_fmap_2 snd _ (r', ms)).
Qed.

End CandidateComputed.


Section Dominant.
Context {numpy : Numpy} {arith : Float64}.

(** *** The distance table *)

Lemma pairwise_dist_spec poly_data :
  exists pairs,
    pairwise_dist poly_data = Some pairs /\
    pairs_in_range (length poly_data) pairs /\
    forall a b d,
      (a, b, d) ∈ pairs <->
      exists pa pb,
        (a < b)%nat /\ poly_data !! a = Some pa /\ poly_data !! b = Some pb /\
        d = haversine_deg (p_lat pa) (p_lon pa) (p_lat pb) (p_lon pb).
Proof.
  unfold pairwise_dist. set (n := length poly_data).
  match goal with |- context [mapM ?f ?l] => set (entry := f); set (keys := l) end.
  assert (forall a b, (a, b) ∈ keys <-> (a < b)%nat /\ (b < n)%nat) as Hkeys.
  { intros a b. unfold keys. rewrite list_elem_of_In, in_flat_map. split.
    - intros (a' & Ha' & Hin). apply in_map_iff in Hin as (b' & [= -> ->] & Hb').
      apply in_seq in Ha', Hb'. lia.
    - intros [Hab Hb]. exists a. split; [apply in_seq; lia|].
      apply in_map_iff. exists b. split; [done|]. apply in_seq. lia. }
  assert (forall a b, (a < b)%nat -> (b < n)%nat ->
            exists pa pb, poly_data !! a = Some pa /\ poly_data !! b = Some pb /\
              entry (a, b)
              = Some (a, b, haversine_deg (p_lat pa) (p_lon pa)
                                          (p_lat pb) (p_lon pb))) as Hentry.
  { intros a b Hab Hb.
    destruct (lookup_lt_is_Some_2 poly_data a) as [pa Hpa]; [fold n; lia|].
    destruct (lookup_lt_is_Some_2 poly_data b) as [pb Hpb]; [done|].
    exists pa, pb. unfold entry. by rewrite Hpa, Hpb. }
  destruct (mapM_is_Some_2 entry keys) as [pairs Hpairs].
  { apply Forall_forall. intros [a b] Hin. apply Hkeys in Hin as [Hab Hb].
    destruct (Hentry a b Hab Hb) as (pa & pb & _ & _ & He).
    unfold compose. by rewrite He. }
  exists pairs. split; [done|].
  apply mapM_Some in Hpairs.
  assert (forall a b d,
            (a, b, d) ∈ pairs <->
            exists pa pb,
              (a < b)%nat /\ poly_data !! a = Some pa /\
              poly_data !! b = Some pb /\
              d = haversine_deg (p_lat pa) (p_lon pa) (p_lat pb) (p_lon pb))
    as Hchar.
  { intros a b d. split.
    - intros Hin. apply list_elem_of_lookup_1 in Hin as [i Hi].
      destruct (Forall2_lookup_r _ _ _ _ _ Hpairs Hi) as ([a' b'] & Hk & He).
      apply list_elem_of_lookup_2, Hkeys in Hk as [Hab Hb].
      destruct (Hentry a' b' Hab Hb) as (pa & pb & Hpa & Hpb & He').
      rewrite He' in He. simplify_eq. by exists pa, pb.
    - intros (pa & pb & Hab & Hpa & Hpb & ->).
      assert ((a, b) ∈ keys) as Hin.
      { apply Hkeys. split; [done|]. by apply lookup_lt_Some in Hpb. }
      apply list_elem_of_lookup_1 in Hin as [i Hi].
      destruct (Forall2_lookup_l _ _ _ _ _ Hpairs Hi) as (y & Hy & He).
      unfold entry in He. rewrite Hpa, Hpb in He. simpl in He.
      injection He as <-. by eapply list_elem_of_lookup_2. }
  split; [|done].
  intros a b d Hin. apply Hchar in Hin as (pa & pb & Hab & Hpa & Hpb & _).
  apply lookup_lt_Some in Hpb. lia.
Qed.

(** *** Extraction clamps areas to a positive floor *)

Lemma Qsum_snoc (l : list Q) (x : Q) : (Qsum (l ++ [x]) == Qsum l + x)%Q.
Proof. unfold Qsum. rewrite foldl_app. simpl. reflexivity. Qed.

Lemma extract_polys_spec reconstructed poly_data total_area :
  extract_polys reconstructed = (poly_data, total_area) ->
  Forall (fun p => 0 < p_area p)%Q poly_data /\
  (total_area == Qsum (map p_area poly_data))%Q /\
  (poly_data <> [] -> 0 < total_area)%Q.
Proof.
  unfold extract_polys.
  match goal with |- context [foldl ?f _ _] => set (step := f) end.
  assert (forall l pd tot,
            Forall (fun p => 0 < p_area p)%Q pd ->
            (tot == Qsum (map p_area pd))%Q ->
            Forall (fun p => 0 < p_area p)%Q (foldl step (pd, tot) l).1 /\
            ((foldl step (pd, tot) l).2
             == Qsum (map p_area (foldl step (pd, tot) l).1))%Q) as Hloop.
  { induction l as [|rg l IH]; intros pd tot Hpos Htot; [done|].
    cbn [foldl].
    assert (Forall (fun p => 0 < p_area p)%Q (step (pd, tot) rg).1 /\
            ((step (pd, tot) rg).2
             == Qsum (map p_area (step (pd, tot) rg).1))%Q) as [H1 H2].
    { unfold step. destruct rg as [geom|]; [|done].
      destruct (to_lat_lon_list geom) as [|pt pts]; [done|]. simpl. split.
      - apply Forall_app. split; [done|]. constructor; [|done]. simpl.
        destruct (Qle_bool _ 0) eqn:Hle; [done|].
        apply Qnot_le_lt. rewrite <- Qle_bool_iff. congruence.
      - rewrite map_app. cbn [map p_area]. rewrite Qsum_snoc, Htot.
        reflexivity. }
    destruct (step (pd, tot) rg) as [pd' tot']. by apply IH. }
  intros Heq. destruct (Hloop reconstructed [] 0%Q) as [Hpos Htot];
    [done|done|].
  rewrite Heq in Hpos, Htot. simpl in *. split; [done|]. split; [done|].
  intros Hne. rewrite Htot. clear -Hpos Hne.
  induction Hpos as [|p pd Hp Hpos IH]; [done|].
  simpl. rewrite Qsum_cons. destruct pd as [|p' pd'].
  - unfold Qsum. simpl. lra.
  - specialize (IH ltac:(done)). lra.
Qed.


(** *** The threshold loop stops at the first sufficient threshold *)

Lemma threshold_loop_spec poly_data pairs total_area min_coverage :
  poly_data <> [] -> pairs_in_range (length poly_data) pairs ->
  forall thresholds best used,
    thresholds <> [] ->
    exists pre t post cand coverage,
      thresholds = pre ++ t :: post /\
      threshold_loop poly_data pairs total_area min_coverage thresholds
                     best used = Some (Some cand, t) /\
      candidate_at poly_data pairs total_area t = Some (cand, coverage) /\
      (forall t', t' ∈ pre ->
         exists c' coverage',
           candidate_at poly_data pairs total_area t' = Some (c', coverage') /\
           (coverage' < min_coverage)%Q) /\
      ((min_coverage <= coverage)%Q \/ post = []).
Proof.
  intros Hne Hrange. induction thresholds as [|t rest IH]; [done|].
  intros best used _.
  destruct (candidate_at_computed poly_data pairs total_area t Hne Hrange)
    as (cand & area_cand & Hcand & _).
  simpl. rewrite Hcand. simpl.
  match type of Hcand with _ = Some (_, ?c) => set (coverage := c) in * end.
  destruct (Qle_bool min_coverage coverage) eqn:Hle.
  - exists [], t, rest, cand, coverage. split; [done|]. split; [done|].
    split; [done|]. split; [intros t' Hin; by apply elem_of_nil in Hin|].
    left. by apply Qle_bool_iff.
  - assert (coverage < min_coverage)%Q as Hlt.
    { apply Qnot_le_lt. rewrite <- Qle_bool_iff. congruence. }
    destruct rest as [|t2 rest].
    + exists [], t, [], cand, coverage. split; [done|]. split; [done|].
      split; [done|]. split; [intros t' Hin; by apply elem_of_nil in Hin|].
      by right.
    + destruct (IH (Some cand) t) as
        (pre & t' & post & cand' & cov' & Hsplit & Hloop & Hc' & Hpre & Hlast);
        [done|].
      exists (t :: pre), t', post, cand', cov'.
      split; [by rewrite Hsplit|]. split; [done|]. split; [done|].
      split; [|done].
      intros t0 [->|Hin]%elem_of_cons; [by exists cand, coverage|by apply Hpre].
Qed.

End Dominant.


Section DominantSpec.
Context {numpy : Numpy} {arith : Float64}.

(** The threshold loop always returns a cluster of valid polygon indices. *)
Lemma dominant_cluster_total cfg poly_data total_area :
  poly_data <> [] -> CLUSTER_THRESHOLDS cfg <> [] ->
  exists best used,
    dominant_cluster cfg poly_data total_area = Some (Some best, used) /\
    forall j, j ∈ best -> (j < length poly_data)%nat.
Proof.
  intros Hne Hts.
  destruct (pairwise_dist_spec poly_data) as (pairs & Hpairs & Hrange & _).
  destruct (last (CLUSTER_THRESHOLDS cfg)) as [t0|] eqn:Hl0;
    [|by apply last_None in Hl0].
  destruct (threshold_loop_spec poly_data pairs total_area
              (MIN_CLUSTER_COVERAGE cfg) Hne Hrange (CLUSTER_THRESHOLDS cfg)
              None t0 Hts)
    as (pre & used & post & best & coverage & _ & Hloop & Hcand & _).
  destruct (candidate_at_computed poly_data pairs total_area used Hne Hrange)
    as (best' & area' & Hcand' & _ & (x & _ & _ & Hc) & _).
  assert (best' = best) as -> by congruence.
  exists best, used. split.
  - unfold dominant_cluster. rewrite Hpairs. simpl. by rewrite Hl0.
  - intros j Hj. by apply Hc in Hj as [? _].
Qed.

End DominantSpec.


Section Steps.
Context {numpy : Numpy} {plates : PlateModel} {arith : Float64}.

(** *** Step 1 never raises and appends one record per timestep *)

Lemma cluster_centroid_total poly_data best :
  (forall j, j ∈ best -> (j < length poly_data)%nat) ->
  is_Some (cluster_centroid poly_data best).
Proof.
  intros Hrange. unfold cluster_centroid.
  match goal with
  | |- context [for_each ?f ?s _] => set (body := f); generalize s
  end.
  induction best as [|j best IH]; intros [[[cx cy] cz] carea]; simpl; [eauto|].
  destruct (lookup_lt_is_Some_2 poly_data j) as [p Hp]; [apply Hrange; left|].
  rewrite Hp. simpl. apply IH. intros j' Hj'. apply Hrange. by right.
Qed.

Lemma extract_polys_none reconstructed :
  no_polygons reconstructed -> extract_polys reconstructed = ([], 0%Q).
Proof.
  unfold extract_polys. generalize (([], 0%Q) : list poly * Q).
  induction 1 as [|rg l Hrg Hl IH]; [done|]. cbn [foldl].
  destruct p as [pd tot]. destruct rg as [geom|]; [|exact IH].
  simpl in Hrg. rewrite Hrg. exact IH.
Qed.

(** What one iteration of step 1 appends. *)
Lemma centroid_step_spec cfg raw_lons raw_lats land_areas time_ma :
  CLUSTER_THRESHOLDS cfg <> [] ->
  length raw_lats = length raw_lons -> length land_areas = length raw_lons ->
  exists lon lat area,
    centroid_step cfg (raw_lons, raw_lats, land_areas) time_ma
      = Some (raw_lons ++ [lon], raw_lats ++ [lat], land_areas ++ [area]) /\
    (no_polygons (pygplates_reconstruct time_ma) ->
     lon = last_or_zero raw_lons /\ lat = last_or_zero raw_lats /\
     area = match pygplates_reconstruct time_ma with
            | [] => last_or_zero land_areas
            | _ => 0%Q
            end).
Proof.
  intros Hts Hlats Hareas. unfold centroid_step.
  destruct (pygplates_reconstruct time_ma) as [|rg rest] eqn:Hrec.
  - destruct raw_lons as [|x l].
    + destruct raw_lats; [|done]. destruct land_areas; [|done].
      exists 0%Q, 0%Q, 0%Q. done.
    + assert (is_Some (last (x :: l))) as [lon Hlon]
        by (by rewrite last_is_Some).
      assert (is_Some (last raw_lats)) as [lat Hlat].
      { rewrite last_is_Some. by intros ->. }
      assert (is_Some (last land_areas)) as [area Harea].
      { rewrite last_is_Some. by intros ->. }
      exists lon, lat, area. rewrite Hlon, Hlat, Harea.
      split; [done|].
      intros _. unfold last_or_zero. by rewrite Hlon, Hlat, Harea.
  - destruct (extract_polys (rg :: rest)) as [poly_data total_area] eqn:Hext.
    destruct poly_data as [|p0 pd].
    + eexists _, _, _. split; [reflexivity|].
      intros Hnone. rewrite (extract_polys_none _ Hnone) in Hext.
      by injection Hext as <-.
    + destruct (dominant_cluster_total cfg (p0 :: pd) total_area
                  ltac:(done) Hts) as (best & used & Hdom & Hbest).
      rewrite Hdom.
      destruct (cluster_centroid_total (p0 :: pd) best Hbest)
        as [[clon clat] Hc].
      simpl. rewrite Hc. simpl. eexists _, _, _. split; [reflexivity|].
      intros Hnone. by rewrite (extract_polys_none _ Hnone) in Hext.
Qed.

Lemma last_or_zero_lookup (xs : list Q) m :
  length xs = S m -> xs !! m = Some (last_or_zero xs).
Proof.
  intros Hlen. unfold last_or_zero. rewrite last_lookup, Hlen. simpl.
  destruct (lookup_lt_is_Some_2 xs m) as [x ->]; [lia|]. done.
Qed.

(** Appending the last value (or zero) repeats the previous entry. *)
Lemma snoc_forward_fill (xs xs' : list Q) a k :
  length xs = k -> a = last_or_zero xs -> (xs ++ [a]) `prefix_of` xs' ->
  (k = 0%nat -> xs' !! 0%nat = Some 0%Q) /\
  (forall m, k = S m -> xs' !! S m = xs' !! m).
Proof.
  intros Hlen Ha Hpre.
  assert (xs' !! k = Some a) as Hk.
  { eapply prefix_lookup_Some; [|exact Hpre].
    rewrite lookup_app_r by lia. by rewrite Hlen, Nat.sub_diag. }
  split.
  - intros ->. destruct xs; [|done]. by rewrite Hk, Ha.
  - intros m ->. rewrite Hk.
    pose proof (last_or_zero_lookup xs m Hlen) as Hm. rewrite <- Ha in Hm.
    symmetry. eapply prefix_lookup_Some; [|exact Hpre].
    by apply lookup_app_l_Some.
Qed.

Lemma centroid_loop_spec cfg :
  CLUSTER_THRESHOLDS cfg <> [] ->
  forall times raw_lons raw_lats land_areas,
    length raw_lats = length raw_lons -> length land_areas = length raw_lons ->
    exists lons' lats' areas',
      for_each (centroid_step cfg) (raw_lons, raw_lats, land_areas) times
        = Some (lons', lats', areas') /\
      length lons' = (length raw_lons + length times)%nat /\
      length lats' = length lons' /\ length areas' = length lons' /\
      raw_lons `prefix_of` lons' /\ raw_lats `prefix_of` lats' /\
      land_areas `prefix_of` areas' /\
      forall j t, times !! j = Some t ->
        no_polygons (pygplates_reconstruct t) ->
        ((length raw_lons + j = 0)%nat ->
         lons' !! 0%nat = Some 0%Q /\ lats' !! 0%nat = Some 0%Q /\
         areas' !! 0%nat = Some 0%Q) /\
        (forall m, (length raw_lons + j)%nat = S m ->
                   lons' !! S m = lons' !! m /\ lats' !! S m = lats' !! m /\
                   (pygplates_reconstruct t = [] ->
                    areas' !! S m = areas' !! m)).
Proof.
  intros Hts. induction times as [|t times IH];
    intros raw_lons raw_lats land_areas Hlats Hareas.
  - exists raw_lons, raw_lats, land_areas. simpl.
    split; [done|]. split; [lia|]. split; [done|]. split; [done|].
    split; [done|]. split; [done|]. split; [done|]. intros j t Hj. done.
  - destruct (centroid_step_spec cfg raw_lons raw_lats land_areas t
                Hts Hlats Hareas) as (lon & lat & area & Hstep & Hfill).
    cbn [for_each]. rewrite Hstep. cbn [mbind option_bind].
    destruct (IH (raw_lons ++ [lon]) (raw_lats ++ [lat]) (land_areas ++ [area]))
      as (lons' & lats' & areas' & Hloop & Hlen & Hlen2 & Hlen3
          & Hp1 & Hp2 & Hp3 & Hrest).
    { rewrite !length_app. simpl. lia. }
    { rewrite !length_app. simpl. lia. }
    exists lons', lats', areas'. split; [done|].
    split; [rewrite Hlen, length_app; simpl; lia|].
    split; [done|]. split; [done|].
    split; [by etrans; [apply prefix_app_r|exact Hp1]|].
    split; [by etrans; [apply prefix_app_r|exact Hp2]|].
    split; [by etrans; [apply prefix_app_r|exact Hp3]|].
    intros [|j] t' Hj Hnone.
    + simpl in Hj. injection Hj as <-.
      destruct (Hfill Hnone) as (Hlon & Hlat & Harea).
      rewrite Nat.add_0_r.
      destruct (snoc_forward_fill raw_lons lons' lon _ eq_refl Hlon Hp1)
        as [A1 A2].
      destruct (snoc_forward_fill raw_lats lats' lat _ Hlats Hlat Hp2)
        as [B1 B2].
      split.
      * intros H0. split; [auto|]. split; [auto|].
        assert (area = 0%Q) as ->.
        { rewrite Harea. destruct (pygplates_reconstruct t); [|done].
          destruct land_areas; [done|]. simpl in Hareas. lia. }
        eapply prefix_lookup_Some; [|exact Hp3].
        destruct land_areas; [done|]. simpl in Hareas. lia.
      * intros m Hm. split; [auto|]. split; [auto|].
        intros Hrec. rewrite Hrec in Harea.
        by apply (snoc_forward_fill land_areas areas' area _ Hareas Harea Hp3).
    + simpl in Hj. destruct (Hrest j t' Hj Hnone) as [_ H].
      split; [lia|]. intros m Hm. apply H. rewrite length_app. simpl. lia.
Qed.

(** *** Step 2 never raises and forward-fills *)

Lemma weighted_dists_spec raw_lons raw_lats i reconstructed :
  (i < length raw_lons)%nat -> (i < length raw_lats)%nat ->
  exists dists,
    weighted_dists raw_lons raw_lats i reconstructed = Some dists /\
    (no_polygons reconstructed -> dists = []).
Proof.
  intros Hlons Hlats. unfold weighted_dists.
  match goal with |- context [for_each ?f _ _] => set (body := f) end.
  assert (forall l acc, exists dists,
            for_each body acc l = Some dists /\
            (no_polygons l -> dists = acc)) as Hloop.
  { induction l as [|rg l IH]; intros acc; cbn [for_each]; [by exists acc|].
    assert (exists acc', body acc rg = Some acc' /\ (unusable rg -> acc' = acc))
      as (acc' & -> & Hacc).
    { unfold body. destruct rg as [geom|]; [|by exists acc].
      destruct (to_lat_lon_list geom) as [|pt pts] eqn:Hpts; [by exists acc|].
      destruct (lookup_lt_is_Some_2 raw_lats i Hlats) as [lat ->].
      destruct (lookup_lt_is_Some_2 raw_lons i Hlons) as [lon ->].
      simpl. eexists. split; [reflexivity|]. by rewrite Hpts. }
    cbn [mbind option_bind]. destruct (IH acc') as (dists & Hd & Hnone).
    exists dists. split; [done|].
    intros [Hrg Hl]%Forall_cons. rewrite Hnone by done. by apply Hacc. }
  apply Hloop.
Qed.

Lemma dispersal_step_spec raw_lons raw_lats land_areas dispersal i time_ma :
  (i < length raw_lons)%nat -> (i < length raw_lats)%nat ->
  (i < length land_areas)%nat -> (i < length dispersal)%nat ->
  exists v,
    dispersal_step raw_lons raw_lats land_areas dispersal i time_ma
      = Some (<[i := v]> dispersal) /\
    (no_polygons (pygplates_reconstruct time_ma) ->
     dispersal !! (i - 1)%nat = Some v).
Proof.
  intros Hlons Hlats Hareas Hdisp. unfold dispersal_step.
  replace (Z.to_nat (Z.max 0 (Z.of_nat i - 1))) with (i - 1)%nat by lia.
  destruct (lookup_lt_is_Some_2 dispersal (i - 1)) as [d Hd]; [lia|].
  assert (forall v, array_set dispersal i v = Some (<[i := v]> dispersal))
    as Hset.
  { intros v. unfold array_set. by rewrite (proj2 (Nat.ltb_lt _ _) Hdisp). }
  destruct (pygplates_reconstruct time_ma) as [|rg rest].
  - exists d. rewrite Hd. simpl. by rewrite Hset.
  - destruct (weighted_dists_spec raw_lons raw_lats i (rg :: rest) Hlons Hlats)
      as (dists & -> & Hnone).
    simpl. destruct dists as [|x dists].
    + exists d. rewrite Hd. simpl. by rewrite Hset.
    + destruct (lookup_lt_is_Some_2 land_areas i Hareas) as [land ->].
      simpl. rewrite Hset. eexists. split; [reflexivity|].
      intros H. by apply Hnone in H.
Qed.

Lemma dispersal_loop_spec raw_lons raw_lats land_areas n :
  length raw_lons = n -> length raw_lats = n -> length land_areas = n ->
  forall times k dispersal,
    length dispersal = n -> (k + length times = n)%nat ->
    exists dispersal',
      for_each
        (fun dispersal '(i, time_ma) =>
           dispersal_step raw_lons raw_lats land_areas dispersal i time_ma)
        dispersal (imap (fun j t => ((k + j)%nat, t)) times)
        = Some dispersal' /\
      length dispersal' = n /\
      (forall i, (i < k)%nat -> dispersal' !! i = dispersal !! i) /\
      forall j t, times !! j = Some t ->
        no_polygons (pygplates_reconstruct t) ->
        ((k + j = 0)%nat -> dispersal' !! 0%nat = dispersal !! 0%nat) /\
        (forall m, (k + j)%nat = S m -> dispersal' !! S m = dispersal' !! m).
Proof.
  intros Hlons Hlats Hareas. induction times as [|t times IH];
    intros k dispersal Hlen Hk.
  - exists dispersal. simpl. split; [done|]. split; [done|].
    split; [done|]. intros j t Hj. done.
  - simpl in Hk. cbn [imap for_each]. rewrite Nat.add_0_r.
    destruct (dispersal_step_spec raw_lons raw_lats land_areas dispersal k t)
      as (v & Hstep & Hfill); try lia.
    rewrite Hstep. cbn [mbind option_bind].
    destruct (IH (S k) (<[k := v]> dispersal))
      as (d' & Hloop & Hlen' & Hkeep & Hrest).
    { by rewrite length_insert. }
    { lia. }
    exists d'. split.
    { rewrite <- Hloop. f_equal. apply imap_ext. intros j x _. simpl.
      f_equal. lia. }
    split; [done|]. split.
    { intros i Hi. rewrite Hkeep by lia.
      by rewrite list_lookup_insert_ne by lia. }
    intros [|j] t' Hj Hnone.
    + simpl in Hj. injection Hj as <-. specialize (Hfill Hnone).
      rewrite Nat.add_0_r.
      assert (d' !! k = Some v) as Hv.
      { rewrite Hkeep by lia. apply list_lookup_insert_eq. lia. }
      split.
      * intros ->. by rewrite Hv.
      * intros m ->. rewrite Hv, Hkeep by lia.
        rewrite list_lookup_insert_ne by lia.
        replace (S m - 1)%nat with m in Hfill by lia. done.
    + simpl in Hj. destruct (Hrest j t' Hj Hnone) as [_ H].
      split; [lia|]. intros m Hm. apply H. lia.
Qed.

End Steps.


Section DominantCluster.
Context {numpy : Numpy} {arith : Float64}.

(** C3. In the script's arithmetic, whatever its rounding: for a non-empty
    polygon list and a positive total area the threshold loop returns the
    candidate of the threshold [used].  That candidate is a connected
    component of the graph linking polygons closer than [used], listed in
    increasing order, and no component so listed has a greater summed
    area, the sums being the ones the built-in [sum] of the arithmetic
    computes.  [used] is the first configured threshold
    at which the coverage, the candidate's summed area divided by the
    total area, reaches [MIN_CLUSTER_COVERAGE]; if none does, it is the
    last threshold.  [used_threshold] is that same threshold. *)
Theorem C3_dominant_cluster
    (cfg : config) (poly_data : list poly) (total_area : Q) :
  poly_data <> [] -> CLUSTER_THRESHOLDS cfg <> [] -> (0 < total_area)%Q ->
  exists pairs best used best_area coverage pre post,
    pairwise_dist poly_data = Some pairs /\
    (forall a b d,
        (a, b, d) ∈ pairs <->
        exists pa pb,
          (a < b)%nat /\ poly_data !! a = Some pa /\
          poly_data !! b = Some pb /\
          d = haversine_deg (p_lat pa) (p_lon pa) (p_lat pb) (p_lon pb)) /\
    dominant_cluster cfg poly_data total_area = Some (Some best, used) /\
    CLUSTER_THRESHOLDS cfg = pre ++ used :: post /\
    candidate_at poly_data pairs total_area used = Some (best, coverage) /\
    cluster_area poly_data best = Some best_area /\
    coverage = f64_div best_area total_area /\
    component (length poly_data) used pairs best /\ increasing best /\
    (forall c area_c,
        component (length poly_data) used pairs c -> increasing c ->
        cluster_area poly_data c = Some area_c ->
        (area_c <= best_area)%Q) /\
    (forall t, t ∈ pre ->
       exists c coverage',
         candidate_at poly_data pairs total_area t = Some (c, coverage') /\
         (coverage' < MIN_CLUSTER_COVERAGE cfg)%Q) /\
    ((MIN_CLUSTER_COVERAGE cfg <= coverage)%Q \/ post = []).
Proof.
  intros Hne Hts Hpos.
  destruct (pairwise_dist_spec poly_data) as (pairs & Hpairs & Hrange & Hchar).
  destruct (threshold_loop_spec poly_data pairs total_area
              (MIN_CLUSTER_COVERAGE cfg) Hne Hrange (CLUSTER_THRESHOLDS cfg)
              None (default 0%Q (last (CLUSTER_THRESHOLDS cfg))) Hts)
    as (pre & used & post & best & coverage & Hsplit & Hloop & Hcand & Hpre
        & Hlast).
  destruct (candidate_at_computed poly_data pairs total_area used Hne Hrange)
    as (best' & best_area & Hcand' & Harea & Hcomp & Hinc & Hall).
  rewrite Hcand in Hcand'. injection Hcand' as <- Hcov.
  assert (Qlt_bool 0 total_area = true) as Hlt by (by apply Qlt_bool_true).
  rewrite Hlt in Hcov.
  exists pairs, best, used, best_area, coverage, pre, post.
  split; [done|]. split; [done|]. split.
  { unfold dominant_cluster. rewrite Hpairs. cbn [mbind option_bind].
    destruct (last (CLUSTER_THRESHOLDS cfg)) as [t0|] eqn:Hl0.
    - cbn [mbind option_bind default from_option id] in *. done.
    - apply last_None in Hl0. done. }
  split; [done|]. split; [done|]. split; [done|]. split; [done|].
  split; [done|]. split; [done|]. split; [done|]. split; [done|done].
Qed.

End DominantCluster.

Section ClusterTheorems.
Context {numpy : Numpy}.


End ClusterTheorems.

Lemma C3_dominant_cluster_witness :
  exists used compensated_used exact_used,
    @dominant_cluster linear_numpy binary64 script_config tied_polygons
      (16 # 10)
    = Some (Some [0%nat], used) /\
    @dominant_cluster linear_numpy binary64_compensated script_config
      tied_polygons (16 # 10)
    = Some (Some [0%nat], compensated_used) /\
    @dominant_cluster linear_numpy exact_arith script_config tied_polygons
      (16 # 10)
    = Some (Some [1%nat; 2%nat], exact_used).
Proof.
  destruct (@C3_dominant_cluster linear_numpy binary64 script_config
              tied_polygons (16 # 10))
    as (pairs & best & used & best_area & coverage & pre & post & _ & _
        & Hdom & _); [discriminate|discriminate|reflexivity|].
  destruct (@C3_dominant_cluster linear_numpy binary64_compensated
              script_config tied_polygons (16 # 10))
    as (pairs'' & best'' & used'' & best_area'' & coverage'' & pre'' & post''
        & _ & _ & Hdom'' & _); [discriminate|discriminate|reflexivity|].
  destruct (@C3_dominant_cluster linear_numpy exact_arith script_config
              tied_polygons (16 # 10))
    as (pairs' & best' & used' & best_area' & coverage' & pre' & post' & _
        & _ & Hdom' & _); [discriminate|discriminate|reflexivity|].
  exists used, used'', used'. split; [|split].
  - rewrite Hdom. vm_compute in Hdom. injection Hdom as <- _. reflexivity.
  - rewrite Hdom''. vm_compute in Hdom''. injection Hdom'' as <- _.
    reflexivity.
  - rewrite Hdom'. vm_compute in Hdom'. injection Hdom' as <- _. reflexivity.
Defined.



Section StepsTheorems.
Context {numpy : Numpy} {plates : PlateModel} {arith : Float64}.

(** C8 (as the code has it). Steps 1 and 2 complete on every time
    series.  A first timestep at which no polygon is observed gets the
    zero default (longitude, latitude, land area and dispersal all 0) and
    the run continues; every later timestep at which no polygon is
    observed inherits the previous record's centroid and dispersal (and,
    when the reconstruction is empty, its land area). *)
Theorem C8_forward_fill (cfg : config) (times : list Z) :
  CLUSTER_THRESHOLDS cfg <> [] ->
  exists raw_lons raw_lats land_areas dispersal,
    centroids_and_dispersal cfg times
      = Some ((raw_lons, raw_lats, land_areas), dispersal) /\
    length raw_lons = length times /\ length raw_lats = length times /\
    length land_areas = length times /\ length dispersal = length times /\
    (forall t, times !! 0%nat = Some t ->
       no_polygons (pygplates_reconstruct t) ->
       raw_lons !! 0%nat = Some 0%Q /\ raw_lats !! 0%nat = Some 0%Q /\
       land_areas !! 0%nat = Some 0%Q /\ dispersal !! 0%nat = Some 0%Q) /\
    (forall i t, times !! S i = Some t ->
       no_polygons (pygplates_reconstruct t) ->
       raw_lons !! S i = raw_lons !! i /\ raw_lats !! S i = raw_lats !! i /\
       dispersal !! S i = dispersal !! i /\
       (pygplates_reconstruct t = [] ->
        land_areas !! S i = land_areas !! i)).
Proof.
  intros Hts.
  destruct (centroid_loop_spec cfg Hts times [] [] []) as
    (lons & lats & areas & Hc & Hlen & Hlen2 & Hlen3 & _ & _ & _ & Hfill);
    [done|done|].
  simpl in Hlen.
  destruct (dispersal_loop_spec lons lats areas (length times))
    with (times := times) (k := 0%nat)
         (dispersal := replicate (length times) 0%Q)
    as (d & Hd & Hdlen & _ & Hdfill); try lia.
  { apply length_replicate. }
  exists lons, lats, areas, d. split.
  { unfold centroids_and_dispersal, compute_centroids. rewrite Hc. simpl.
    unfold compute_dispersal.
    assert (imap pair times = imap (fun j t => ((0 + j)%nat, t)) times) as ->
      by (by apply imap_ext).
    rewrite Hd. done. }
  split; [done|]. split; [lia|]. split; [lia|]. split; [done|]. split.
  - intros t Ht Hnone. destruct (Hfill 0%nat t Ht Hnone) as [H0 _].
    destruct H0 as (A & B & C); [done|].
    destruct (Hdfill 0%nat t Ht Hnone) as [D0 _].
    split; [done|]. split; [done|]. split; [done|].
    rewrite D0 by done. apply lookup_replicate. split; [done|].
    apply lookup_lt_Some in Ht. lia.
  - intros i t Ht Hnone. destruct (Hfill (S i) t Ht Hnone) as [_ HS].
    destruct (HS i) as (A & B & C); [done|].
    destruct (Hdfill (S i) t Ht Hnone) as [_ DS].
    split; [done|]. split; [done|]. split; [by apply DS|done].
Qed.

End StepsTheorems.

Lemma C8_forward_fill_witness :
  exists raw_lons raw_lats land_areas dispersal,
    @centroids_and_dispersal linear_numpy gappy_plates exact_arith script_config
      [1000; 999; 998]
    = Some ((raw_lons, raw_lats, land_areas), dispersal) /\
    raw_lons !! 2%nat = raw_lons !! 1%nat /\
    dispersal !! 2%nat = dispersal !! 1%nat.
Proof.
  destruct (@C8_forward_fill linear_numpy gappy_plates exact_arith script_config
              [1000; 999; 998])
    as (raw_lons & raw_lats & land_areas & dispersal & Hrun
        & _ & _ & _ & _ & _ & Hfill);
    [discriminate|].
  exists raw_lons, raw_lats, land_areas, dispersal. split; [exact Hrun|].
  destruct (Hfill 1%nat 998 eq_refl (Forall_nil_2 _)) as (H1 & _ & H2 & _).
  by split.
Defined.

(** C8 as stated fails at the first timestep: with no polygons at
    1000 Ma, the first of the timesteps 1000, 999, 998 Ma, the run does not
    fail; it completes, and the first record is the zero default. *)
Lemma C8_first_timestep_counterexample :
  @pygplates_reconstruct gappy_plates 1000 = [] /\
  @centroids_and_dispersal linear_numpy gappy_plates exact_arith script_config
    [1000; 999; 998] <> None /\
  exists raw_lons raw_lats land_areas dispersal,
    @centroids_and_dispersal linear_numpy gappy_plates exact_arith script_config
      [1000; 999; 998]
    = Some ((raw_lons, raw_lats, land_areas), dispersal) /\
    raw_lons !! 0%nat = Some 0%Q /\ raw_lats !! 0%nat = Some 0%Q /\
    land_areas !! 0%nat = Some 0%Q /\ dispersal !! 0%nat = Some 0%Q.
Proof.
  split; [reflexivity|].
  assert (exists r, @centroids_and_dispersal linear_numpy gappy_plates exact_arith
                      script_config [1000; 999; 998] = Some r) as [r Hr].
  { eexists. vm_compute. reflexivity. }
  split; [by rewrite Hr|].
  destruct r as [[[raw_lons raw_lats] land_areas] dispersal].
  exists raw_lons, raw_lats, land_areas, dispersal. split; [exact Hr|].
  vm_compute in Hr. injection Hr as <- <- <- <-. done.
Qed.

(** ** Further properties of the union-find helpers *)

Section ExtraUnionFind.

(** The forest [2 -> 1 -> 0] with ranks 0, 1 and 2. *)
Lemma chain_forest_inv : uf_inv 3 [0; 0; 1]%nat [2; 1; 0]%nat.
Proof.
  split; try reflexivity.
  - intros i j H. destruct i as [|[|[|?]]]; simplify_eq/=; lia.
  - intros i j ri rj Hp Hne Hri Hrj.
    destruct i as [|[|[|?]]]; simplify_eq/=; lia.
  - intros i ri k Hr Hk.
    destruct i as [|[|[|?]]]; simplify_eq/=; try lia;
      destruct k as [|[|?]]; try lia; set_solver.
Qed.

(** X1. [find_root] on a node of a union-by-rank forest returns, within as
    many loop tests as there are nodes, the root of that node; the path
    compression it performs leaves every node with the root it had and
    keeps the forest well formed, and searching the returned root again
    changes nothing. *)
Theorem X1_find_root_compression
    (n : nat) (parent rank : list nat) (i : nat) :
  uf_inv n parent rank -> (i < n)%nat ->
  exists parent' r,
    find_root (length parent) parent i = Some (parent', r) /\
    root_of parent i r /\ (r < n)%nat /\
    parent' !! r = Some r /\
    uf_inv n parent' rank /\
    (forall x y, root_of parent' x y <-> root_of parent x y) /\
    find_root (length parent') parent' r = Some (parent', r).
Proof.
  intros Hinv Hi.
  destruct (find_root_ok n parent rank i Hinv Hi)
    as (p' & r & Hfind & Hroot & Hr & Hinv' & Hsame).
  assert (p' !! r = Some r) as Hfix.
  { apply (root_of_is_root p' i), Hsame, Hroot. }
  exists p', r.
  split; [exact Hfind|]. split; [exact Hroot|]. split; [exact Hr|].
  split; [exact Hfix|]. split; [exact Hinv'|]. split; [exact Hsame|].
  rewrite (uf_len_parent _ _ _ Hinv').
  destruct n as [|n']; [lia|]. cbn [find_root].
  rewrite Hfix. cbn. rewrite Nat.eqb_refl. done.
Qed.

Lemma X1_find_root_compression_witness :
  exists parent' r,
    find_root 3 [0; 0; 1]%nat 2 = Some (parent', r) /\
    root_of [0; 0; 1]%nat 2 r /\ (r < 3)%nat /\
    parent' !! r = Some r /\
    uf_inv 3 parent' [2; 1; 0]%nat /\
    (forall x y, root_of parent' x y <-> root_of [0; 0; 1]%nat x y) /\
    find_root (length parent') parent' r = Some (parent', r).
Proof.
  apply (X1_find_root_compression 3 [0; 0; 1]%nat [2; 1; 0]%nat 2).
  - exact chain_forest_inv.
  - lia.
Defined.

(** X2. [union] on two nodes of a union-by-rank forest returns normally,
    keeps the forest well formed and joins exactly the two sets: afterwards
    two nodes share a root when they did before or when one was with [a]
    and the other with [b].  When [a] and [b] already share a root the rank
    array is returned as it was and no set changes. *)
Theorem X2_union_joins_two_sets
    (n : nat) (parent rank : list nat) (a b : nat) :
  uf_inv n parent rank -> (a < n)%nat -> (b < n)%nat ->
  exists parent' rank',
    union parent rank a b = Some (parent', rank') /\
    uf_inv n parent' rank' /\
    same_set parent' a b /\
    (forall x y, same_set parent' x y <->
                 same_set parent x y \/
                 (same_set parent x a /\ same_set parent b y) \/
                 (same_set parent x b /\ same_set parent a y)) /\
    (same_set parent a b ->
     rank' = rank /\ forall x y, same_set parent' x y <-> same_set parent x y).
Proof.
  intros Hinv Ha Hb.
  destruct (union_spec n parent rank a b Hinv Ha Hb)
    as (p' & rk' & Hun & Hinv' & Hsets).
  exists p', rk'.
  assert (forall x, (x < n)%nat -> same_set parent x x) as Hrefl.
  { intros x Hx.
    destruct (root_of_total n parent rank Hinv x Hx) as (r & Hr & _).
    exists r. done. }
  split; [exact Hun|]. split; [exact Hinv'|].
  split. { apply Hsets. right. left. split; apply Hrefl; done. }
  split; [exact Hsets|].
  intros Hab. split.
  - revert Hun. unfold union.
    destruct (find_root_ok n parent rank a Hinv Ha)
      as (p1 & ra & Hf1 & Hra & Hran & Hinv1 & Hsame1).
    rewrite Hf1. cbn [mbind option_bind].
    assert (length p1 = length parent) as Hlen.
    { rewrite (uf_len_parent _ _ _ Hinv1), (uf_len_parent _ _ _ Hinv). done. }
    destruct (find_root_ok n p1 rank b Hinv1 Hb)
      as (p2 & rb & Hf2 & Hrb & Hrbn & Hinv2 & Hsame2).
    rewrite Hf2. cbn [mbind option_bind].
    assert (ra = rb) as ->.
    { destruct Hab as (r & Har & Hbr).
      rewrite (root_of_functional _ _ _ _ Hra Har).
      apply Hsame1 in Hrb.
      rewrite (root_of_functional _ _ _ _ Hrb Hbr). done. }
    rewrite Nat.eqb_refl. intros [= _ <-]. done.
  - intros x y. rewrite Hsets. split; [|auto].
    intros [H|[[Hxa Hby]|[Hxb Hay]]]; [done| |].
    + eapply same_set_trans; [exact Hxa|].
      eapply same_set_trans; [exact Hab|exact Hby].
    + eapply same_set_trans; [exact Hxb|].
      eapply same_set_trans; [apply same_set_sym; exact Hab|exact Hay].
Qed.

Lemma X2_union_joins_two_sets_witness :
  exists parent' rank',
    union (seq 0 3) (replicate 3 0%nat) 0 2 = Some (parent', rank') /\
    uf_inv 3 parent' rank' /\
    same_set parent' 0 2 /\
    (forall x y, same_set parent' x y <->
                 same_set (seq 0 3) x y \/
                 (same_set (seq 0 3) x 0 /\ same_set (seq 0 3) 2 y) \/
                 (same_set (seq 0 3) x 2 /\ same_set (seq 0 3) 0 y)) /\
    (same_set (seq 0 3) 0 2 ->
     rank' = replicate 3 0%nat /\
     forall x y, same_set parent' x y <-> same_set (seq 0 3) x y).
Proof.
  apply (X2_union_joins_two_sets 3 (seq 0 3) (replicate 3 0%nat) 0 2).
  - apply fresh_inv.
  - lia.
  - lia.
Defined.

End ExtraUnionFind.

(** ** Further properties of the clusters of one threshold *)

Section ExtraClusters.

Lemma elem_of_concat {A : Type} (ls : list (list A)) (x : A) :
  x ∈ concat ls <-> exists l, l ∈ ls /\ x ∈ l.
Proof.
  induction ls as [|l ls IH]; simpl.
  - split; [intros H; inversion H|intros (l & H & _); inversion H].
  - rewrite elem_of_app, IH. split.
    + intros [H|(l' & Hl' & Hx)].
      * exists l. split; [left|done].
      * exists l'. split; [right; done|done].
    + intros (l' & Hl' & Hx). apply elem_of_cons in Hl' as [->|Hl'].
      * left. done.
      * right. exists l'. done.
Qed.

Lemma NoDup_concat_keyed (R : nat -> nat -> Prop)
    (cl : list (nat * list nat)) :
  (forall x r r', R x r -> R x r' -> r = r') ->
  NoDup cl.*1 ->
  (forall r ms, (r, ms) ∈ cl -> NoDup ms /\ forall x, x ∈ ms -> R x r) ->
  NoDup (concat (map snd cl)).
Proof.
  intros Hfun. induction cl as [|[r ms] cl IH]; intros Hkeys Hcl; simpl.
  - constructor.
  - apply NoDup_cons in Hkeys as [Hr Hkeys]. apply NoDup_app. split; [|split].
    + apply (Hcl r ms). left.
    + intros x Hx Hin. apply elem_of_concat in Hin as (l & Hl & Hxl).
      apply list_elem_of_fmap in Hl as ([r' ms'] & -> & Hin').
      simpl in Hxl. apply Hr.
      assert (r = r') as ->.
      { apply (Hfun x).
        - apply (Hcl r ms); [left|done].
        - apply (Hcl r' ms'); [right; done|done]. }
      apply list_elem_of_fmap. exists (r', ms'). done.
    + apply IH; [done|]. intros r' ms' Hin. apply Hcl. right. done.
Qed.

(** X3. Filing the nodes under their roots, as the loop after the unions
    does, returns normally and partitions the nodes: the clusters taken
    together list every node below [n] exactly once, each cluster contains
    its own key, and a cluster holds exactly the nodes that share a root
    with its key. *)
Theorem X3_clusters_partition (n : nat) (parent rank : list nat) :
  uf_inv n parent rank ->
  exists parent' clusters,
    build_clusters parent n = Some (parent', clusters) /\
    concat (map snd clusters) ≡ₚ seq 0 n /\
    NoDup (map fst clusters) /\
    forall r ms, (r, ms) ∈ clusters ->
      r ∈ ms /\ forall x, x ∈ ms <-> (x < n)%nat /\ same_set parent x r.
Proof.
  intros Hinv.
  destruct (build_clusters_spec n parent rank Hinv) as (p' & cl & Hb & Hcl).
  exists p', cl. split; [exact Hb|].
  destruct Hcl as [Hkeys Hmem Hcov].
  assert (forall r ms, (r, ms) ∈ cl -> root_of parent r r /\ (r < n)%nat)
    as Hkey.
  { intros r ms Hin. destruct (Hmem r ms Hin) as (Hne & _ & Hx).
    destruct ms as [|x ms']; [done|].
    assert (root_of parent x r) as Hroot by (apply Hx; left).
    pose proof (root_of_is_root _ _ _ Hroot) as Hfix.
    split; [apply root_self; done|].
    apply (uf_bound _ _ _ Hinv r r Hfix). }
  split; [|split; [exact Hkeys|]].
  - apply NoDup_Permutation.
    + apply (NoDup_concat_keyed (root_of parent)); [|done|].
      * intros x r r'. apply root_of_functional.
      * intros r ms Hin. destruct (Hmem r ms Hin) as (_ & Hnd & Hx).
        split; [done|]. intros x Hxin. apply Hx. done.
    + apply NoDup_seq.
    + intros x. rewrite elem_of_concat, elem_of_seq. split.
      * intros (l & Hl & Hx).
        apply list_elem_of_fmap in Hl as ([r ms] & -> & Hin).
        simpl in Hx. apply (Hmem r ms Hin) in Hx. lia.
      * intros [_ Hx]. simpl in Hx.
        destruct (root_of_total n parent rank Hinv x Hx) as (r & Hr & _).
        destruct (Hcov x r Hx Hr) as (ms & Hin).
        exists ms. split.
        -- apply list_elem_of_fmap. exists (r, ms). done.
        -- apply (Hmem r ms Hin). done.
  - intros r ms Hin. destruct (Hkey r ms Hin) as [Hrr Hrn].
    destruct (Hmem r ms Hin) as (_ & _ & Hx). split.
    + apply Hx. done.
    + intros x. rewrite Hx. rewrite (same_set_root parent r r x Hrr). done.
Qed.

Lemma X3_clusters_partition_witness :
  exists parent' clusters,
    build_clusters [0; 0; 1]%nat 3 = Some (parent', clusters) /\
    concat (map snd clusters) ≡ₚ seq 0 3 /\
    NoDup (map fst clusters) /\
    forall r ms, (r, ms) ∈ clusters ->
      r ∈ ms /\
      forall x, x ∈ ms <-> (x < 3)%nat /\ same_set [0; 0; 1]%nat x r.
Proof.
  apply (X3_clusters_partition 3 [0; 0; 1]%nat [2; 1; 0]%nat).
  exact chain_forest_inv.
Defined.

End ExtraClusters.

(** ** Further properties of the dominant-landmass search *)

Section ExtraCoverage.
Context {numpy : Numpy}.



Lemma threshold_loop_exhausted (p : poly) (total_area min_coverage : Q)
    (candidate : list nat) (coverage : Q) :
  (forall t, candidate_at [p] [] total_area t = Some (candidate, coverage)) ->
  Qle_bool min_coverage coverage = false ->
  forall thresholds best used,
    threshold_loop [p] [] total_area min_coverage thresholds best used
    = Some (match thresholds with [] => best | _ => Some candidate end,
            default used (last thresholds)).
Proof.
  intros Hcand Hfail. induction thresholds as [|t rest IH]; intros best used.
  - done.
  - cbn [threshold_loop]. rewrite Hcand. cbn [mbind option_bind].
    rewrite Hfail, IH. destruct rest as [|t' rest']; [done|].
    change (last (t :: t' :: rest')) with (last (t' :: rest')).
    destruct (last (t' :: rest')) eqn:Hlast; [done|].
    by apply last_None in Hlast.
Qed.

(** X5. A timestep with a single polygon: the distance table is empty, the
    only cluster is that polygon, and its coverage is 1.  With a coverage
    floor of at most 1 the search stops at the first threshold; with a
    floor above 1 every threshold is tried and the last one is reported.
    Either way the dominant cluster is the polygon itself. *)
Theorem X5_single_polygon
    (cfg : config) (reconstructed : list (option geometry)) (p : poly)
    (total_area threshold : Q) (rest : list Q) :
  extract_polys reconstructed = ([p], total_area) ->
  CLUSTER_THRESHOLDS cfg = threshold :: rest ->
  pairwise_dist [p] = Some [] /\
  (exists coverage,
     (forall t, candidate_at [p] [] total_area t = Some ([0%nat], coverage)) /\
     (coverage == 1)%Q) /\
  ((MIN_CLUSTER_COVERAGE cfg <= 1)%Q ->
   dominant_cluster cfg [p] total_area = Some (Some [0%nat], threshold)) /\
  ((1 < MIN_CLUSTER_COVERAGE cfg)%Q ->
   dominant_cluster cfg [p] total_area
   = Some (Some [0%nat], default threshold (last rest))).
Proof.
  intros Hext Hts.
  destruct (extract_polys_spec _ _ _ Hext) as (Hpos & Htot & Htotpos).
  specialize (Htotpos ltac:(done)).
  apply Forall_singleton in Hpos.
  assert (Qlt_bool 0 total_area = true) as Hlt by (by apply Qlt_bool_true).
  set (coverage := ((0 + p_area p) / total_area)%Q).
  assert (forall t, candidate_at [p] [] total_area t
                    = Some ([0%nat], coverage)) as Hcand.
  { intros t. unfold candidate_at. cbn. rewrite Hlt. done. }
  assert (coverage == 1)%Q as Hcov.
  { unfold coverage. rewrite Htot. unfold Qsum. simpl. field.
    unfold Qsum in Htot. simpl in Htot. lra. }
  split; [done|]. split; [by exists coverage|].
  unfold dominant_cluster. rewrite Hts.
  change (pairwise_dist [p]) with (Some ([] : list (nat * nat * Q))).
  cbn [mbind option_bind].
  destruct (last (threshold :: rest)) as [used|] eqn:Hlast;
    [|by apply last_None in Hlast].
  cbn [mbind option_bind]. split.
  - intros Hmin. cbn [threshold_loop]. rewrite Hcand. cbn [mbind option_bind].
    assert (Qle_bool (MIN_CLUSTER_COVERAGE cfg) coverage = true) as ->.
    { apply Qle_bool_iff. rewrite Hcov. done. }
    done.
  - intros Hmin.
    rewrite (threshold_loop_exhausted p total_area (MIN_CLUSTER_COVERAGE cfg)
               [0%nat] coverage Hcand).
    + rewrite Hlast. cbn [default from_option id]. f_equal. f_equal.
      destruct rest as [|t' rest'].
      * injection Hlast as <-. done.
      * change (last (threshold :: t' :: rest')) with (last (t' :: rest'))
          in Hlast.
        rewrite Hlast. done.
    + destruct (Qle_bool (MIN_CLUSTER_COVERAGE cfg) coverage) eqn:Hle; [|done].
      apply Qle_bool_iff in Hle. rewrite Hcov in Hle. lra.
Qed.

Lemma pair_keys_length (n : nat) : forall m s,
  (s + m = n)%nat ->
  (2 * length (flat_map (fun a_idx =>
                           map (pair a_idx) (seq (a_idx + 1) (n - (a_idx + 1))))
                        (seq s m))
   = m * (m - 1))%nat.
Proof.
  induction m as [|m IH]; intros s Hs; [done|].
  cbn [seq flat_map]. rewrite length_app, length_map, length_seq.
  specialize (IH (S s) ltac:(lia)). nia.
Qed.

Lemma pair_keys_NoDup (n : nat) : forall m s,
  NoDup (flat_map (fun a_idx =>
                     map (pair a_idx) (seq (a_idx + 1) (n - (a_idx + 1))))
                  (seq s m)).
Proof.
  induction m as [|m IH]; intros s; [constructor|].
  cbn [seq flat_map]. apply NoDup_app. split; [|split].
  - apply (NoDup_fmap_2 (pair s)), NoDup_seq.
  - intros [a b] Hin1 Hin2.
    apply list_elem_of_In, in_map_iff in Hin1 as (b' & [= <- <-] & _).
    apply list_elem_of_In, in_flat_map in Hin2 as (a' & Ha' & Hin2).
    apply in_map_iff in Hin2 as (b'' & [= -> _] & _).
    apply in_seq in Ha'. lia.
  - apply IH.
Qed.

(** X6. The distance table of [n] polygons holds one entry for each pair
    [a < b < n] and no pair twice: it has [n * (n - 1) / 2] entries with
    pairwise different keys, so no store into the dict overwrites an earlier
    one. *)
Theorem X6_pairwise_dist_size (poly_data : list poly) :
  exists pairs,
    pairwise_dist poly_data = Some pairs /\
    (2 * length pairs = length poly_data * (length poly_data - 1))%nat /\
    NoDup (map fst pairs) /\
    forall a b d, (a, b, d) ∈ pairs ->
                  (a < b)%nat /\ (b < length poly_data)%nat.
Proof.
  destruct (pairwise_dist_spec poly_data) as (pairs & Hpairs & _ & Hchar).
  exists pairs. split; [done|].
  assert (map fst pairs
          = flat_map (fun a_idx =>
                        map (pair a_idx)
                            (seq (a_idx + 1)
                                 (length poly_data - (a_idx + 1))))
                     (seq 0 (length poly_data))) as Hkeys.
  { clear Hchar. unfold pairwise_dist in Hpairs. apply mapM_Some in Hpairs.
    induction Hpairs as [|[a b] entry keys rest Hentry _ IH]; [done|].
    cbn [map]. rewrite IH. f_equal.
    destruct (poly_data !! a) as [pa|]; simpl in Hentry; [|done].
    destruct (poly_data !! b) as [pb|]; simpl in Hentry; [|done].
    injection Hentry as <-. done. }
  split; [|split].
  - rewrite <- (length_map fst pairs), Hkeys.
    apply pair_keys_length. done.
  - rewrite Hkeys. apply pair_keys_NoDup.
  - intros a b d Hin. apply Hchar in Hin as (pa & pb & Hab & _ & Hpb & _).
    split; [done|]. by apply lookup_lt_Some in Hpb.
Qed.

End ExtraCoverage.


Lemma X5_single_polygon_witness :
  @dominant_cluster linear_numpy exact_arith script_config
    [Poly 0 0 (5 # 1) 1 0 0] (0 + (5 # 1))
  = Some (Some [0%nat], (12 # 1)%Q).
Proof.
  refine (proj1 (proj2 (proj2
            (@X5_single_polygon linear_numpy script_config
               [Some (Geometry (Some (5 # 1)%Q) [(0%Q, 0%Q)])]
               (Poly 0 0 (5 # 1) 1 0 0) (0 + (5 # 1)) (12 # 1)
               [18 # 1; 25 # 1]%Q _ _))) _).
  - vm_compute. reflexivity.
  - reflexivity.
  - vm_compute. discriminate.
Defined.

(** ** Further properties of the time grid, the holds and the era labels *)

Section ExtraConfig.

(** *** The era label of a time *)

Lemma era_scan_past (time_ma : Q) (l : list era) (best : era) :
  Forall (fun e => (inject_Z (e_time e) < time_ma)%Q) l ->
  foldl (fun best e =>
           if Qle_bool time_ma (inject_Z (e_time e)) then e else best)
        best l = best.
Proof.
  induction 1 as [|e l He _ IH]; [done|]. cbn [foldl].
  destruct (Qle_bool time_ma (inject_Z (e_time e))) eqn:Hle; [|done].
  apply Qle_bool_iff in Hle. lra.
Qed.

Lemma era_scan_last (time_ma : Q) (pre post : list era) (e best : era) :
  (time_ma <= inject_Z (e_time e))%Q ->
  Forall (fun e' => (inject_Z (e_time e') < time_ma)%Q) post ->
  foldl (fun best e =>
           if Qle_bool time_ma (inject_Z (e_time e)) then e else best)
        best (pre ++ e :: post) = e.
Proof.
  intros He Hpost. rewrite foldl_app. cbn [foldl].
  assert (Qle_bool time_ma (inject_Z (e_time e)) = true) as ->
    by (by apply Qle_bool_iff).
  by apply era_scan_past.
Qed.

(** X7. [get_era_label] raises on an empty era list; otherwise it returns
    the label of the last era in the list whose time is at or above the
    given time, and the label of the first era when no era qualifies.  With
    the eras listed in descending time, as the script lists them, that is
    the era whose time is closest to the given time from above. *)
Theorem X7_era_label_last_reached (cfg : config) (time_ma : Q) :
  (ERA_OVERRIDES cfg = [] -> get_era_label cfg time_ma = None) /\
  (forall pre e post,
      ERA_OVERRIDES cfg = pre ++ e :: post ->
      (time_ma <= inject_Z (e_time e))%Q ->
      Forall (fun e' => (inject_Z (e_time e') < time_ma)%Q) post ->
      get_era_label cfg time_ma = Some (e_label e)) /\
  (forall e0 rest,
      ERA_OVERRIDES cfg = e0 :: rest ->
      Forall (fun e' => (inject_Z (e_time e') < time_ma)%Q) (e0 :: rest) ->
      get_era_label cfg time_ma = Some (e_label e0)) /\
  (descending_eras (ERA_OVERRIDES cfg) ->
   forall j e,
     ERA_OVERRIDES cfg !! j = Some e ->
     (time_ma <= inject_Z (e_time e))%Q ->
     (forall e', ERA_OVERRIDES cfg !! S j = Some e' ->
                 (inject_Z (e_time e') < time_ma)%Q) ->
     get_era_label cfg time_ma = Some (e_label e) /\
     forall e', e' ∈ ERA_OVERRIDES cfg ->
                (time_ma <= inject_Z (e_time e'))%Q -> e_time e <= e_time e').
Proof.
  unfold get_era_label.
  assert (forall pre e post,
             ERA_OVERRIDES cfg = pre ++ e :: post ->
             (time_ma <= inject_Z (e_time e))%Q ->
             Forall (fun e' => (inject_Z (e_time e') < time_ma)%Q) post ->
             (best0 ← ERA_OVERRIDES cfg !! 0%nat;
              Some (e_label
                      (foldl (fun best e =>
                                if Qle_bool time_ma (inject_Z (e_time e))
                                then e else best)
                             best0 (ERA_OVERRIDES cfg))))
             = Some (e_label e)) as Hlast.
  { intros pre e post Heq He Hpost. rewrite Heq.
    destruct ((pre ++ e :: post) !! 0%nat) as [best0|] eqn:H0.
    - cbn [mbind option_bind]. by rewrite era_scan_last.
    - destruct pre; discriminate. }
  split; [|split; [|split]].
  - intros ->. done.
  - exact Hlast.
  - intros e0 rest Heq Hall. rewrite Heq. cbn [lookup list_lookup mbind option_bind].
    by rewrite era_scan_past.
  - intros Hdesc j e Hj He Hnext.
    pose proof (take_drop_middle _ _ _ Hj) as Hsplit.
    assert (Forall (fun e' => (inject_Z (e_time e') < time_ma)%Q)
                   (drop (S j) (ERA_OVERRIDES cfg))) as Hpost.
    { apply Forall_lookup. intros k e' Hk. rewrite lookup_drop in Hk.
      destruct k as [|k].
      - apply Hnext. by rewrite Nat.add_0_r in Hk.
      - destruct (lookup_lt_is_Some_2 (ERA_OVERRIDES cfg) (S j)) as [e1 He1].
        { apply lookup_lt_Some in Hk. lia. }
        pose proof (Hnext e1 He1) as Hlt.
        assert (e_time e' < e_time e1) as Hlt'.
        { apply (Hdesc (S j) (S j + S k)%nat); [lia|done|done]. }
        assert (inject_Z (e_time e') < inject_Z (e_time e1))%Q
          by (by rewrite <- Zlt_Qlt).
        lra. }
    split.
    + apply (Hlast (take j (ERA_OVERRIDES cfg)) e
                   (drop (S j) (ERA_OVERRIDES cfg))); by try symmetry.
    + intros e' Hin He'. apply list_elem_of_lookup_1 in Hin as [k Hk].
      destruct (decide (k = j)) as [->|Hne]; [by simplify_eq|].
      destruct (decide (k < j)%nat) as [Hlt|Hge].
      * pose proof (Hdesc k j e' e Hlt Hk Hj). lia.
      * exfalso. assert (inject_Z (e_time e') < time_ma)%Q; [|lra].
        rewrite Forall_lookup in Hpost.
        apply (Hpost (k - S j)%nat). rewrite lookup_drop.
        by replace (S j + (k - S j))%nat with k by lia.
Qed.

(** *** The time grid and its index *)

Lemma times_of_lookup cfg times k t :
  times_of cfg = Some times -> times !! k = Some t ->
  TIME_STEP cfg <> 0 /\
  t = TIME_START cfg - Z.of_nat k * TIME_STEP cfg /\
  Z.of_nat k
  < - (- (TIME_END cfg - 1 - TIME_START cfg) / - TIME_STEP cfg) /\
  length times
  = Z.to_nat (- (- (TIME_END cfg - 1 - TIME_START cfg) / - TIME_STEP cfg)).
Proof.
  unfold times_of, np_arange. intros Htimes Hk.
  destruct (Z.eqb_spec (- TIME_STEP cfg) 0) as [|Hstep]; [done|].
  injection Htimes as <-. split; [lia|].
  rewrite length_map, length_range.
  change (map ?f ?l) with (f <$> l) in Hk.
  rewrite list_lookup_fmap in Hk. unfold range in Hk.
  change (map ?f ?l) with (f <$> l) in Hk.
  rewrite list_lookup_fmap in Hk.
  destruct (seq 0 _ !! k) as [k'|] eqn:Hseq; [|done].
  apply lookup_seq in Hseq as [-> Hlt]. simpl in Hk. injection Hk as <-.
  split; [lia|]. split; [lia|done].
Qed.

(** X8. The time grid and the timestep index invert each other: entry [k]
    of [times] is [TIME_START - k * TIME_STEP], and the clamped index
    computed from that time, as used for holds and era targets, is [k]
    again.  With a positive step every time lies between [TIME_END] and
    [TIME_START], and a grid from [TIME_START] down to [TIME_END] has
    [(TIME_START - TIME_END) / TIME_STEP + 1] entries. *)
Theorem X8_time_index_inverts_grid
    (cfg : config) (times : list Z) (k : nat) (t : Z) :
  times_of cfg = Some times -> times !! k = Some t ->
  t = TIME_START cfg - Z.of_nat k * TIME_STEP cfg /\
  time_index cfg (length times) t = Some k /\
  (0 < TIME_STEP cfg ->
   TIME_END cfg <= t <= TIME_START cfg /\
   Z.of_nat (length times)
   = (TIME_START cfg - TIME_END cfg) / TIME_STEP cfg + 1).
Proof.
  intros Htimes Hk.
  destruct (times_of_lookup cfg times k t Htimes Hk)
    as (Hstep & -> & Hlt & Hlen).
  split; [done|]. split.
  - unfold time_index. destruct (Z.eqb_spec (TIME_STEP cfg) 0); [done|].
    f_equal.
    replace (TIME_START cfg - (TIME_START cfg - Z.of_nat k * TIME_STEP cfg))
      with (Z.of_nat k * TIME_STEP cfg) by lia.
    rewrite Z.quot_mul by done.
    apply lookup_lt_Some in Hk. lia.
  - intros Hpos.
    set (L := TIME_START cfg - TIME_END cfg + 1) in *.
    replace (- (TIME_END cfg - 1 - TIME_START cfg)) with L in *
      by (unfold L; lia).
    set (step := TIME_STEP cfg) in *.
    pose proof (Z.div_mod L (- step) ltac:(lia)) as Hdm.
    pose proof (Z.mod_neg_bound L (- step) ltac:(lia)) as Hmod.
    set (q := L / - step) in *. set (r := L mod - step) in *.
    assert (Z.of_nat k * step <= (- q - 1) * step) as Hk' by nia.
    split; [split; [unfold L in *; nia|nia]|].
    rewrite Hlen, Z2Nat.id by lia.
    replace (TIME_START cfg - TIME_END cfg) with (L - 1) by (unfold L; lia).
    pose proof (Z.div_mod (L - 1) step ltac:(lia)) as Hdm1.
    pose proof (Z.mod_pos_bound (L - 1) step ltac:(lia)) as Hmod1.
    set (q1 := (L - 1) / step) in *. set (r1 := (L - 1) mod step) in *.
    assert (step * (- q - q1) = r1 + 1 - r) as Heq by lia.
    assert (0 < - q - q1 < 2) by nia. lia.
Qed.

Lemma X8_time_index_inverts_grid_witness :
  time_index short_era_config 3 50 = Some 1%nat.
Proof.
  refine (proj1 (proj2 (X8_time_index_inverts_grid
                          short_era_config [100; 50; 0] 1 50 _ _)));
    reflexivity.
Defined.

End ExtraConfig.

(** ** Further properties of the pacing and of the frame expander *)

Section ExtraPacing.

(** *** Python's [round] is monotone *)

Lemma py_round_cases (x : Q) :
  (py_round x = Qfloor x /\ (x - inject_Z (Qfloor x) <= 1 # 2)%Q) \/
  (py_round x = Qfloor x + 1 /\ (1 # 2 <= x - inject_Z (Qfloor x))%Q).
Proof.
  unfold py_round.
  destruct (Qcompare_spec (x - inject_Z (Qfloor x)) (1 # 2)) as [Hc|Hc|Hc].
  - destruct (Z.even (Qfloor x)).
    + left. split; [done|]. rewrite Hc. apply Qle_refl.
    + right. split; [done|]. rewrite Hc. apply Qle_refl.
  - left. split; [done|]. by apply Qlt_le_weak.
  - right. split; [done|]. by apply Qlt_le_weak.
Qed.

Lemma py_round_mono (x y : Q) : (x <= y)%Q -> py_round x <= py_round y.
Proof.
  intros Hxy. pose proof (Qfloor_resp_le x y Hxy) as Hfl.
  destruct (Z.eq_dec (Qfloor x) (Qfloor y)) as [Heq|Hne].
  - unfold py_round. rewrite <- Heq.
    assert (x - inject_Z (Qfloor x) <= y - inject_Z (Qfloor x))%Q as Hfrac
      by lra.
    destruct (Qcompare_spec (x - inject_Z (Qfloor x)) (1 # 2)) as [Hcx|Hcx|Hcx];
      destruct (Qcompare_spec (y - inject_Z (Qfloor x)) (1 # 2))
        as [Hcy|Hcy|Hcy];
      try destruct (Z.even (Qfloor x)); first [lia|exfalso; lra].
  - destruct (py_round_cases x) as [[-> _]|[-> _]];
      destruct (py_round_cases y) as [[-> _]|[-> _]]; lia.
Qed.

(** X9. Pacing bounds: for a dispersal value between 0 and 1 and speeds
    with [MIN_SPEED <= MAX_SPEED], the frame duration lies between the two
    speeds and the number of regular frames of the timestep lies between
    the rounded speeds (and is at least 1); with the script's speeds 1 and
    3 every timestep gets one, two or three regular frames. *)
Theorem X9_pacing_bounds
    (cfg : config) (smooth_dispersal : list Q) (i : nat) (d : Q) :
  (MIN_SPEED cfg <= MAX_SPEED cfg)%Q ->
  smooth_dispersal !! i = Some d -> (0 <= d <= 1)%Q ->
  exists duration,
    frame_duration cfg smooth_dispersal !! i = Some duration /\
    (MIN_SPEED cfg <= duration <= MAX_SPEED cfg)%Q /\
    Z.max 1 (py_round (MIN_SPEED cfg)) <= n_frames_of duration
      <= Z.max 1 (py_round (MAX_SPEED cfg)) /\
    ((MIN_SPEED cfg == 1)%Q -> (MAX_SPEED cfg == 3)%Q ->
     1 <= n_frames_of duration <= 3).
Proof.
  intros Hspeeds Hd Hrange. unfold frame_duration.
  change (map ?f ?l) with (f <$> l).
  rewrite list_lookup_fmap, Hd. simpl. eexists. split; [reflexivity|].
  set (duration := (MIN_SPEED cfg
                    + (MAX_SPEED cfg - MIN_SPEED cfg) * (1 - d))%Q).
  assert (MIN_SPEED cfg <= duration <= MAX_SPEED cfg)%Q as Hdur.
  { unfold duration. split; nra. }
  assert (Z.max 1 (py_round (MIN_SPEED cfg)) <= n_frames_of duration
          <= Z.max 1 (py_round (MAX_SPEED cfg))) as Hn.
  { unfold n_frames_of.
    pose proof (py_round_mono _ _ (proj1 Hdur)).
    pose proof (py_round_mono _ _ (proj2 Hdur)). lia. }
  split; [done|]. split; [done|].
  intros Hmin Hmax.
  rewrite (py_round_proper _ _ Hmin), (py_round_proper _ _ Hmax) in Hn.
  change 1%Q with (inject_Z 1) in Hn. change 3%Q with (inject_Z 3) in Hn.
  rewrite !py_round_inject_Z in Hn. lia.
Qed.

Lemma X9_pacing_bounds_witness :
  exists duration,
    frame_duration script_config [1 # 2]%Q !! 0%nat = Some duration /\
    1 <= n_frames_of duration <= 3.
Proof.
  destruct (X9_pacing_bounds script_config [1 # 2]%Q 0 (1 # 2))
    as (duration & Hdur & _ & _ & Hn).
  - vm_compute. discriminate.
  - reflexivity.
  - split; vm_compute; discriminate.
  - exists duration. split; [exact Hdur|]. apply Hn; reflexivity.
Defined.

(** *** The hold table *)

Lemma time_index_some cfg n t :
  TIME_STEP cfg <> 0 ->
  exists idx, time_index cfg n t = Some idx /\ (idx <= n - 1)%nat.
Proof.
  intros Hstep. unfold time_index.
  destruct (Z.eqb_spec (TIME_STEP cfg) 0); [done|].
  eexists. split; [reflexivity|]. lia.
Qed.

Lemma hold_loop_spec cfg n :
  TIME_STEP cfg <> 0 ->
  forall l hold0,
  exists hold,
    for_each (fun (hold : gmap nat (Z * string)) '(sc_time, extra, label) =>
                idx ← time_index cfg n sc_time;
                Some (<[idx := (extra, label)]> hold))
             hold0 l = Some hold /\
    (forall i v, hold !! i = Some v ->
       hold0 !! i = Some v \/
       exists sc_time, (sc_time, v.1, v.2) ∈ l /\
                       time_index cfg n sc_time = Some i) /\
    (forall i, (forall entry, entry ∈ l ->
                  time_index cfg n entry.1.1 <> Some i) ->
               hold !! i = hold0 !! i) /\
    (forall pre sc_time extra label post i,
       l = pre ++ (sc_time, extra, label) :: post ->
       time_index cfg n sc_time = Some i ->
       (forall entry, entry ∈ post -> time_index cfg n entry.1.1 <> Some i) ->
       hold !! i = Some (extra, label)).
Proof.
  intros Hstep. induction l as [|[[sc extra] label] l IH]; intros hold0.
  - exists hold0. split; [done|]. split; [auto|]. split; [done|].
    intros pre ? ? ? ? ? Heq. by destruct pre.
  - cbn [for_each].
    destruct (time_index_some cfg n sc Hstep) as (idx & Hidx & _).
    rewrite Hidx. cbn [mbind option_bind].
    destruct (IH (<[idx := (extra, label)]> hold0))
      as (hold & Hloop & Hfrom & Hkeep & Hlast).
    exists hold. split; [exact Hloop|]. split; [|split].
    + intros i v Hi. destruct (Hfrom i v Hi) as [H0|(sc' & Hin & Hsc')].
      * apply lookup_insert_Some in H0 as [[<- <-]|[_ H0]]; [|by left].
        right. exists sc. split; [left|done].
      * right. exists sc'. split; [by right|done].
    + intros i Hnone. rewrite Hkeep.
      * apply lookup_insert_ne. intros ->.
        apply (Hnone (sc, extra, label)); [left|done].
      * intros entry Hin. apply Hnone. by right.
    + intros pre sc' extra' label' post i Heq Hsc' Hpost.
      destruct pre as [|x pre]; simpl in Heq; simplify_eq.
      * rewrite Hkeep by done. by rewrite lookup_insert_eq.
      * by eapply Hlast.
Qed.

Lemma last_hit {A : Type} (P : A -> Prop) `{!forall x, Decision (P x)}
    (l : list A) (x : A) :
  x ∈ l -> P x ->
  exists pre y post, l = pre ++ y :: post /\ P y /\ Forall (fun z => ~ P z) post.
Proof.
  intros Hin HP. revert x Hin HP. induction l as [|a l IH]; intros x Hin HP.
  - by apply elem_of_nil in Hin.
  - destruct (decide (Exists P l)) as [Hex|Hno].
    + apply Exists_exists in Hex as (x' & Hin' & HP').
      destruct (IH x' Hin' HP') as (pre & y & post & -> & Hy & Hpost).
      by exists (a :: pre), y, post.
    + assert (Forall (fun z => ~ P z) l) as Hall.
      { apply Forall_forall. intros z Hz HPz. apply Hno, Exists_exists. eauto. }
      apply elem_of_cons in Hin as [->|Hin].
      * by exists [], a, l.
      * exfalso. apply Hno, Exists_exists. eauto.
Qed.

Lemma time_index_clamped cfg n t i :
  time_index cfg n t = Some i ->
  Z.of_nat i
  = Z.max 0 (Z.min ((TIME_START cfg - t) ÷ TIME_STEP cfg) (Z.of_nat n - 1)).
Proof.
  unfold time_index. destruct (Z.eqb_spec (TIME_STEP cfg) 0); [done|].
  intros [= <-]. lia.
Qed.

(** X10. The hold table is built without error for a non-zero time step.
    Every key comes from one of the configured holds and is its clamped
    timestep index [max(0, min(idx, total_steps - 1))] with
    [idx = int((TIME_START - sc_time) / TIME_STEP)]: it lies between 0 and
    [total_steps - 1], and it is 0 when there is no timestep at all.  A
    hold time outside the time range is therefore pinned to the first or
    last timestep instead of being dropped; and when several holds fall on
    one timestep the last one listed is the one kept. *)
Theorem X10_hold_frames_clamped (cfg : config) (total_steps : nat) :
  TIME_STEP cfg <> 0 ->
  exists hold,
    hold_frames cfg total_steps = Some hold /\
    (forall i extra label, hold !! i = Some (extra, label) ->
       exists sc_time,
         (sc_time, extra, label) ∈ SUPERCONTINENT_HOLD cfg /\
         time_index cfg total_steps sc_time = Some i /\
         Z.of_nat i
         = Z.max 0 (Z.min ((TIME_START cfg - sc_time) ÷ TIME_STEP cfg)
                          (Z.of_nat total_steps - 1)) /\
         (0 < Z.of_nat total_steps ->
          0 <= Z.of_nat i <= Z.of_nat total_steps - 1) /\
         (total_steps = 0%nat -> i = 0%nat)) /\
    (forall sc_time extra label,
       (sc_time, extra, label) ∈ SUPERCONTINENT_HOLD cfg ->
       exists i, time_index cfg total_steps sc_time = Some i /\
                 is_Some (hold !! i)) /\
    (forall pre sc_time extra label post i,
       SUPERCONTINENT_HOLD cfg = pre ++ (sc_time, extra, label) :: post ->
       time_index cfg total_steps sc_time = Some i ->
       (forall entry, entry ∈ post ->
                      time_index cfg total_steps entry.1.1 <> Some i) ->
       hold !! i = Some (extra, label)).
Proof.
  intros Hstep. unfold hold_frames.
  destruct (hold_loop_spec cfg total_steps Hstep (SUPERCONTINENT_HOLD cfg) ∅)
    as (hold & Hloop & Hfrom & Hkeep & Hlast).
  exists hold. split; [exact Hloop|]. split; [|split; [|exact Hlast]].
  - intros i extra label Hi.
    destruct (Hfrom i _ Hi) as [H0|(sc & Hin & Hsc)]; [done|].
    exists sc. split; [done|]. split; [done|].
    pose proof (time_index_clamped cfg total_steps sc i Hsc) as Hclamp.
    split; [done|]. split; lia.
  - intros sc extra label Hin.
    destruct (time_index_some cfg total_steps sc Hstep) as (i & Hi & _).
    exists i. split; [done|].
    destruct (last_hit
                (fun entry : Z * Z * string =>
                   time_index cfg total_steps entry.1.1 = Some i)
                (SUPERCONTINENT_HOLD cfg) (sc, extra, label) Hin Hi)
      as (pre & [[sc' extra'] label'] & post & Heq & Hsc' & Hpost).
    rewrite Forall_forall in Hpost.
    rewrite (Hlast pre sc' extra' label' post i Heq Hsc' Hpost). eauto.
Qed.

Lemma X10_hold_frames_clamped_witness :
  exists hold,
    hold_frames script_config 1001 = Some hold /\
    hold !! 100%nat = Some (48, "Rodinia peak"%string).
Proof.
  destruct (X10_hold_frames_clamped script_config 1001)
    as (hold & Hhold & _ & _ & Hlast).
  - discriminate.
  - exists hold. split; [exact Hhold|].
    apply (Hlast [] 900 48 "Rodinia peak"%string
                 [(480, 36, "Gondwana peak"%string);
                  (250, 60, "Pangaea peak"%string);
                  (0, 60, "Present day"%string)]).
    + reflexivity.
    + reflexivity.
    + intros entry Hin.
      repeat (apply elem_of_cons in Hin as [->|Hin]; [discriminate|]).
      by apply elem_of_nil in Hin.
Defined.

End ExtraPacing.

(** ** What the expanded frames carry, and how many there are *)

Section ExtraFrames.
Context {arith : Float64}.

Lemma for_each_emit_in {A : Type}
    (body : expand_state -> A -> option expand_state)
    (P : frame -> Prop) (l : list A) :
  (forall out a x, x ∈ l ->
     exists f, body (out, a) x = Some (out ++ [f], a + 1) /\ P f) ->
  forall out a,
  exists new,
    for_each body (out, a) l = Some (out ++ new, a + Z.of_nat (length new)) /\
    length new = length l /\ Forall P new.
Proof.
  induction l as [|x l IH]; intros Hbody out a.
  - exists []. simpl. rewrite app_nil_r, Z.add_0_r. done.
  - destruct (Hbody out a x) as (f & Hf & HP); [left|].
    destruct (IH (fun out a y Hy => Hbody out a y (list_elem_of_further _ _ _ Hy))
                 (out ++ [f]) (a + 1))
      as (new & Hnew & Hlen & Hall).
    exists (f :: new). cbn [for_each]. rewrite Hf. cbn [mbind option_bind].
    rewrite Hnew. split; [|split].
    + f_equal. rewrite <- app_assoc. simpl. f_equal. lia.
    + simpl. by rewrite Hlen.
    + by constructor.
Qed.

Lemma convex_between (a b t : Q) :
  (0 <= t <= 1)%Q -> Qbetween a b (a * (1 - t) + b * t).
Proof.
  intros Ht. unfold Qbetween. destruct (Qlt_le_dec b a) as [Hlt|Hle].
  - right. split; nra.
  - left. split; nra.
Qed.

Lemma between_start (a b : Q) : Qbetween a b a.
Proof.
  unfold Qbetween. destruct (Qlt_le_dec b a) as [Hlt|Hle].
  - right. split; lra.
  - left. split; lra.
Qed.

Lemma sub_fraction (sub n : Z) :
  0 <= sub < n ->
  (0 <= (if 1 <? n then inject_Z sub / inject_Z n else 0) <= 1)%Q.
Proof.
  intros Hsub. destruct (1 <? n); [|lra].
  assert (0 < inject_Z n)%Q as Hn.
  { change 0%Q with (inject_Z 0). rewrite <- Zlt_Qlt. lia. }
  assert (0 <= inject_Z sub)%Q as Hs.
  { change 0%Q with (inject_Z 0). rewrite <- Zle_Qle. lia. }
  assert (inject_Z sub <= inject_Z n)%Q as Hsn.
  { rewrite <- Zle_Qle. lia. }
  split.
  - apply Qle_shift_div_l; [done|]. lra.
  - apply Qle_shift_div_r; [done|]. lra.
Qed.

Context (cfg : config) (times : list Z).
Context (smooth_lons smooth_lats smooth_dispersal : list Q).
Hypothesis Hlons : length smooth_lons = length times.
Hypothesis Hlats : length smooth_lats = length times.
Hypothesis Hdisp : length smooth_dispersal = length times.

Lemma regular_frames i t label n out a :
  times !! i = Some t ->
  get_era_label cfg (inject_Z t) = Some label ->
  exists new,
    regular_loop times smooth_lons smooth_lats smooth_dispersal i (inject_Z t)
                 label n (out, a)
      = Some (out ++ new, a + Z.of_nat (length new)) /\
    length new = Z.to_nat n /\
    Forall (frame_of_timestep cfg times smooth_lons smooth_lats
                              smooth_dispersal) new.
Proof.
  intros Ht Hlabel. pose proof (lookup_lt_Some _ _ _ Ht) as Hi.
  unfold regular_loop.
  match goal with |- context [for_each ?b _ _] => set (body := b) end.
  destruct (for_each_emit_in body
              (frame_of_timestep cfg times smooth_lons smooth_lats
                                 smooth_dispersal)
              (range n)) with (out := out) (a := a)
    as (new & Hnew & Hlen & Hall).
  - intros out' a' sub Hsub. apply elem_of_range in Hsub. unfold body.
    destruct (lookup_lt_is_Some_2 smooth_lons i) as [lon_i Hlon]; [lia|].
    destruct (lookup_lt_is_Some_2 smooth_lats i) as [lat_i Hlat]; [lia|].
    destruct (lookup_lt_is_Some_2 smooth_dispersal i) as [d Hd]; [lia|].
    rewrite Hlon, Hlat, Hd. unfold total_steps.
    pose proof (sub_fraction sub n Hsub) as Hfrac.
    set (frac := if 1 <? n then (inject_Z sub / inject_Z n)%Q else 0%Q) in *.
    destruct (Z.ltb_spec (Z.of_nat i) (Z.of_nat (length times) - 1))
      as [Hlt|Hge].
    + destruct (lookup_lt_is_Some_2 smooth_lons (i + 1)) as [lon_n Hlonn];
        [lia|].
      destruct (lookup_lt_is_Some_2 smooth_lats (i + 1)) as [lat_n Hlatn];
        [lia|].
      rewrite Hlonn, Hlatn. cbn [mbind option_bind].
      eexists. split; [reflexivity|].
      exists i, t, lon_i, lat_i, d, label. simpl.
      do 9 (split; [done|]).
      rewrite Nat.add_1_r in Hlonn, Hlatn. rewrite Hlonn, Hlatn.
      split; by apply convex_between.
    + cbn [mbind option_bind]. eexists. split; [reflexivity|].
      exists i, t, lon_i, lat_i, d, label. simpl.
      do 9 (split; [done|]).
      rewrite (lookup_ge_None_2 smooth_lons (S i)) by lia. done.
  - exists new. split; [exact Hnew|]. split; [|done].
    by rewrite Hlen, length_range.
Qed.

Lemma hold_frames_emitted i t label extra out a :
  times !! i = Some t ->
  get_era_label cfg (inject_Z t) = Some label ->
  exists new,
    hold_loop smooth_lons smooth_lats smooth_dispersal i (inject_Z t) label
              extra (out, a)
      = Some (out ++ new, a + Z.of_nat (length new)) /\
    length new = Z.to_nat extra /\
    Forall (frame_of_timestep cfg times smooth_lons smooth_lats
                              smooth_dispersal) new.
Proof.
  intros Ht Hlabel. pose proof (lookup_lt_Some _ _ _ Ht) as Hi.
  unfold hold_loop.
  match goal with |- context [for_each ?b _ _] => set (body := b) end.
  destruct (for_each_emit_in body
              (frame_of_timestep cfg times smooth_lons smooth_lats
                                 smooth_dispersal)
              (range extra)) with (out := out) (a := a)
    as (new & Hnew & Hlen & Hall).
  - intros out' a' h _. unfold body.
    destruct (lookup_lt_is_Some_2 smooth_lons i) as [lon_i Hlon]; [lia|].
    destruct (lookup_lt_is_Some_2 smooth_lats i) as [lat_i Hlat]; [lia|].
    destruct (lookup_lt_is_Some_2 smooth_dispersal i) as [d Hd]; [lia|].
    rewrite Hlon, Hlat, Hd. cbn [mbind option_bind].
    eexists. split; [reflexivity|].
    exists i, t, lon_i, lat_i, d, label. simpl.
    do 9 (split; [done|]).
    destruct (smooth_lons !! S i) as [lon_n|]; [|done].
    destruct (smooth_lats !! S i) as [lat_n|]; [|done].
    split; apply between_start.
  - exists new. split; [exact Hnew|]. split; [|done].
    by rewrite Hlen, length_range.
Qed.

Hypothesis Heras : ERA_OVERRIDES cfg <> [].

Lemma expand_step_frames hold i out a :
  (i < length times)%nat ->
  exists new,
    expand_step cfg times smooth_lons smooth_lats smooth_dispersal hold
                (out, a) i
      = Some (out ++ new, a + Z.of_nat (length new)) /\
    length new = frames_per_step cfg hold smooth_dispersal i /\
    Forall (frame_of_timestep cfg times smooth_lons smooth_lats
                              smooth_dispersal) new.
Proof.
  intros Hi. unfold expand_step, frames_per_step.
  destruct (lookup_lt_is_Some_2 times i) as [t Ht]; [lia|].
  destruct (lookup_lt_is_Some_2 smooth_dispersal i) as [d Hd]; [lia|].
  destruct (get_era_label_total cfg Heras (inject_Z t)) as [label Hlabel].
  rewrite Ht. cbn [mbind option_bind]. rewrite Hlabel.
  cbn [mbind option_bind].
  unfold frame_duration. change (map ?f ?l) with (f <$> l).
  rewrite list_lookup_fmap, Hd.
  cbn [fmap option_fmap option_map mbind option_bind default from_option id].
  set (n := n_frames_of (duration_at cfg d)).
  destruct (regular_frames i t label n out a Ht Hlabel)
    as (reg & Hreg & Hlreg & Hallreg).
  rewrite Hreg. cbn [mbind option_bind]. unfold hold_extra.
  destruct (hold !! i) as [[extra lbl]|] eqn:Hhold.
  - destruct (hold_frames_emitted i t label extra (out ++ reg)
                (a + Z.of_nat (length reg)) Ht Hlabel)
      as (hld & Hhld & Hlhld & Hallhld).
    exists (reg ++ hld). rewrite Hhld. split; [|split].
    + f_equal. rewrite app_assoc. f_equal. rewrite length_app. lia.
    + rewrite length_app. lia.
    + by apply Forall_app.
  - exists reg. split; [done|]. split; [lia|done].
Qed.

Lemma expand_loop_frames hold : forall m i out a,
  (i + m = length times)%nat ->
  exists new,
    for_each (expand_step cfg times smooth_lons smooth_lats smooth_dispersal
                          hold)
             (out, a) (seq i m)
      = Some (out ++ new, a + Z.of_nat (length new)) /\
    length new
    = nat_sum (map (frames_per_step cfg hold smooth_dispersal) (seq i m)) /\
    Forall (frame_of_timestep cfg times smooth_lons smooth_lats
                              smooth_dispersal) new.
Proof.
  induction m as [|m IH]; intros i out a Him.
  - exists []. simpl. rewrite app_nil_r, Z.add_0_r. done.
  - cbn [seq for_each map nat_sum foldr].
    destruct (expand_step_frames hold i out a) as (new & Hstep & Hlen & Hall);
      [lia|].
    rewrite Hstep. cbn [mbind option_bind].
    destruct (IH (S i) (out ++ new) (a + Z.of_nat (length new)))
      as (rest & Hrest & Hlrest & Hallrest); [lia|].
    exists (new ++ rest). rewrite Hrest. split; [|split].
    + f_equal. rewrite app_assoc. f_equal. rewrite length_app. lia.
    + rewrite length_app, Hlen, Hlrest. done.
    + by apply Forall_app.
Qed.

End ExtraFrames.

Section ExtraFrameTheorems.
Context {arith : Float64}.

(** X11. Every frame the expander emits belongs to a timestep [i]: it
    carries that timestep's time, smoothed dispersal and era label, and its
    camera longitude and latitude lie between the smoothed position of
    timestep [i] and that of timestep [i + 1], so the camera never
    overshoots a segment of the smoothed path; a frame of the last timestep
    sits exactly on the last smoothed position. *)
Theorem X11_frames_follow_their_timestep
    (cfg : config) (times : list Z)
    (smooth_lons smooth_lats smooth_dispersal : list Q) :
  length smooth_lons = length times ->
  length smooth_lats = length times ->
  length smooth_dispersal = length times ->
  ERA_OVERRIDES cfg <> [] -> TIME_STEP cfg <> 0 ->
  exists frames,
    expand_frames cfg times smooth_lons smooth_lats smooth_dispersal
      = Some frames /\
    forall f, f ∈ frames ->
      frame_of_timestep cfg times smooth_lons smooth_lats smooth_dispersal f.
Proof.
  intros Hlons Hlats Hdisp Heras Hstep.
  destruct (hold_frames_total cfg (length times) Hstep) as [hold Hhold].
  destruct (expand_loop_frames cfg times smooth_lons smooth_lats
              smooth_dispersal Hlons Hlats Hdisp Heras hold
              (length times) 0 [] 0)
    as (frames & Hloop & _ & Hall); [lia|].
  exists frames. split.
  - unfold expand_frames, total_steps. rewrite Hhold.
    cbn [mbind option_bind].
    assert (for_each (expand_step cfg times smooth_lons smooth_lats
                                  smooth_dispersal hold)
                     ([], 0) (seq 0 (length times))
            = Some (frames, 0 + Z.of_nat (length frames))) as ->
      by exact Hloop.
    done.
  - intros f Hf. rewrite Forall_forall in Hall. by apply Hall.
Qed.

(** X12. In the script's arithmetic, whatever its rounding: the number
    of animation frames is the sum over the timesteps of the regular
    frames, [max(1, round(frame_duration[i]))] with the duration computed
    by the [Float64] operations, and the hold frames of each timestep; it
    is at least the number of timesteps. *)
Theorem X12_total_frame_count
    (cfg : config) (times : list Z)
    (smooth_lons smooth_lats smooth_dispersal : list Q) :
  length smooth_lons = length times ->
  length smooth_lats = length times ->
  length smooth_dispersal = length times ->
  ERA_OVERRIDES cfg <> [] -> TIME_STEP cfg <> 0 ->
  exists hold frames,
    hold_frames cfg (length times) = Some hold /\
    expand_frames cfg times smooth_lons smooth_lats smooth_dispersal
      = Some frames /\
    length frames
    = nat_sum (map (frames_per_step cfg hold smooth_dispersal)
                   (seq 0 (length times))) /\
    (length times <= length frames)%nat.
Proof.
  intros Hlons Hlats Hdisp Heras Hstep.
  destruct (hold_frames_total cfg (length times) Hstep) as [hold Hhold].
  destruct (expand_loop_frames cfg times smooth_lons smooth_lats
              smooth_dispersal Hlons Hlats Hdisp Heras hold
              (length times) 0 [] 0)
    as (frames & Hloop & Hlen & _); [lia|].
  exists hold, frames. split; [done|]. split; [|split; [done|]].
  - unfold expand_frames, total_steps. rewrite Hhold.
    cbn [mbind option_bind].
    assert (for_each (expand_step cfg times smooth_lons smooth_lats
                                  smooth_dispersal hold)
                     ([], 0) (seq 0 (length times))
            = Some (frames, 0 + Z.of_nat (length frames))) as ->
      by exact Hloop.
    done.
  - rewrite Hlen. clear. generalize 0%nat.
    induction (length times) as [|m IH]; intros s; [done|].
    cbn [seq map nat_sum foldr]. specialize (IH (S s)).
    unfold nat_sum in IH.
    assert (1 <= frames_per_step cfg hold smooth_dispersal s)%nat.
    { unfold frames_per_step, n_frames_of. lia. }
    lia.
Qed.

End ExtraFrameTheorems.

Lemma X11_frames_follow_their_timestep_witness :
  exists frames,
    expand_frames script_config [1000; 999] [0; 10 # 1]%Q [0; 0]%Q [1; 0]%Q
      = Some frames /\
    forall f, f ∈ frames ->
      frame_of_timestep script_config [1000; 999] [0; 10 # 1]%Q [0; 0]%Q
                        [1; 0]%Q f.
Proof.
  apply X11_frames_follow_their_timestep; try reflexivity; discriminate.
Defined.

Lemma X12_total_frame_count_witness :
  exists hold frames,
    hold_frames script_config 3 = Some hold /\
    @expand_frames binary64 script_config [1000; 999; 998]
      [0; 0; 0]%Q [0; 0; 0]%Q [1; below_quarter; 0]%Q = Some frames /\
    length frames = 66%nat.
Proof.
  destruct (@X12_total_frame_count binary64 script_config [1000; 999; 998]
              [0; 0; 0]%Q [0; 0; 0]%Q [1; below_quarter; 0]%Q
              eq_refl eq_refl eq_refl)
    as (hold & frames & Hhold & Hframes & Hlen & _);
    [discriminate|discriminate|].
  exists hold, frames. split; [exact Hhold|]. split; [exact Hframes|].
  rewrite Hlen. vm_compute in Hhold. injection Hhold as <-.
  vm_compute. reflexivity.
Defined.

(** ** Interpolation of the era overrides inside the authored range *)

Section ExtraBlender.

Lemma ascending_tail x0 x : ascending (x0 :: x) -> ascending x.
Proof.
  intros Hasc i j a b Hij Ha Hb. apply (Hasc (S i) (S j)); [lia|done|done].
Qed.

(** On ascending knots [searchsorted] splits the knots into those below the
    point and those at or above it. *)
Lemma searchsorted_split x v :
  ascending x ->
  (searchsorted x v <= length x)%nat /\
  (forall j xj, x !! j = Some xj -> (j < searchsorted x v)%nat ->
                (xj < v)%Q) /\
  (forall j xj, x !! j = Some xj -> (searchsorted x v <= j)%nat ->
                (v <= xj)%Q).
Proof.
  induction x as [|x0 x IH]; intros Hasc.
  - split; [done|]. split; intros j xj Hj; done.
  - pose proof (ascending_head _ _ Hasc) as Hhead.
    destruct (Qlt_le_dec x0 v) as [Hlt|Hle].
    + assert (searchsorted (x0 :: x) v = S (searchsorted x v)) as ->.
      { unfold searchsorted. cbn [List.filter].
        apply Qlt_bool_true in Hlt. rewrite Hlt. done. }
      destruct (IH (ascending_tail _ _ Hasc)) as (Hlen & Hbelow & Habove).
      split; [simpl; lia|]. split.
      * intros [|j] xj Hj Hjk; simpl in Hj; [by simplify_eq|].
        apply (Hbelow j); [done|lia].
      * intros [|j] xj Hj Hjk; simpl in Hj; [lia|].
        apply (Habove j); [done|lia].
    + assert (searchsorted (x0 :: x) v = 0%nat) as ->.
      { unfold searchsorted. cbn [List.filter].
        apply Qlt_bool_false in Hle. rewrite Hle.
        apply (searchsorted_below x v).
        eapply Forall_impl; [exact Hhead|]. intros xi Hxi.
        apply Qlt_bool_false in Hle. cbv beta in *. lra. }
      split; [lia|]. split.
      * intros j xj _ Hj. lia.
      * intros [|j] xj Hj _; simpl in Hj; [by simplify_eq|].
        rewrite Forall_lookup in Hhead. apply Hhead in Hj. lra.
Qed.

(** Inside the knots the interpolant is evaluated on the segment that
    contains the point. *)
Lemma interp1d_segment x y v x_first x_last :
  ascending x -> length x = length y ->
  x !! 0%nat = Some x_first -> last x = Some x_last ->
  (x_first < x_last)%Q -> (x_first <= v <= x_last)%Q ->
  exists j x_lo x_hi y_lo y_hi,
    x !! j = Some x_lo /\ x !! S j = Some x_hi /\
    y !! j = Some y_lo /\ y !! S j = Some y_hi /\
    (x_lo <= v <= x_hi)%Q /\ (x_lo < x_hi)%Q /\
    interp1d x y v
    = Some ((y_hi - y_lo) / (x_hi - x_lo) * (v - x_lo) + y_lo)%Q.
Proof.
  intros Hasc Hlen Hfirst Hlast Hends Hv.
  destruct (searchsorted_split x v Hasc) as (Hk & Hbelow & Habove).
  set (k := searchsorted x v) in *.
  rewrite last_lookup in Hlast.
  assert (2 <= length x)%nat as Hlen2.
  { destruct x as [|a [|b x']]; simpl in *; [done| |lia].
    simplify_eq. lra. }
  assert (k <= length x - 1)%nat as Hklast.
  { destruct (decide (k <= length x - 1)%nat) as [|Hgt]; [done|].
    exfalso. assert (x_last < v)%Q; [|lra].
    apply (Hbelow (pred (length x))); [done|lia]. }
  set (lo := (Nat.min (Nat.max k 1) (length x - 1) - 1)%nat).
  assert (S lo = Nat.min (Nat.max k 1) (length x - 1)) as Hhi by lia.
  destruct (lookup_lt_is_Some_2 x lo) as [x_lo Hxlo]; [lia|].
  destruct (lookup_lt_is_Some_2 x (S lo)) as [x_hi Hxhi]; [lia|].
  destruct (lookup_lt_is_Some_2 y lo) as [y_lo Hylo]; [lia|].
  destruct (lookup_lt_is_Some_2 y (S lo)) as [y_hi Hyhi]; [lia|].
  exists lo, x_lo, x_hi, y_lo, y_hi.
  do 4 (split; [done|]). split; [|split].
  - split.
    + destruct (decide (k = 0)%nat) as [Hk0|Hk0].
      * assert (lo = 0)%nat as Hlo0 by lia. rewrite Hlo0 in Hxlo.
        simplify_eq. lra.
      * apply Qlt_le_weak. apply (Hbelow lo); [done|lia].
    + apply (Habove (S lo)); [done|lia].
  - apply (Hasc lo (S lo)); [lia|done|done].
  - unfold interp1d. fold k.
    replace (length x <? 2)%nat with false
      by (symmetry; apply Nat.ltb_ge; lia).
    rewrite Hlen, Nat.eqb_refl. cbn [orb negb].
    rewrite <- Hlen, <- Hhi.
    replace (S lo - 1)%nat with lo by lia.
    rewrite Hxlo, Hxhi, Hylo, Hyhi. done.
Qed.

Lemma segment_bounded (x_lo x_hi y_lo y_hi v lo hi : Q) :
  (x_lo < x_hi)%Q -> (x_lo <= v <= x_hi)%Q ->
  (lo <= y_lo <= hi)%Q -> (lo <= y_hi <= hi)%Q ->
  (lo <= (y_hi - y_lo) / (x_hi - x_lo) * (v - x_lo) + y_lo <= hi)%Q.
Proof.
  intros Hlt Hv Hlo Hhi.
  set (t := ((v - x_lo) / (x_hi - x_lo))%Q).
  assert (0 <= t <= 1)%Q as Ht.
  { unfold t. split.
    - apply Qle_shift_div_l; lra.
    - apply Qle_shift_div_r; lra. }
  assert ((y_hi - y_lo) / (x_hi - x_lo) * (v - x_lo) + y_lo
          == y_lo * (1 - t) + y_hi * t)%Q as ->.
  { unfold t. field. lra. }
  split; nra.
Qed.

(** X14. Inside the authored range the interpolation interpolates: when
    the time of a timestep lies between the last and the first era time,
    the interpolated value lies within any bounds that hold for all the
    keyframe values.  In particular override weights authored in [0, 1] stay
    in [0, 1] there, and the blended coordinate then lies between the raw
    centroid and the era target. *)
Theorem X14_weights_stay_in_range
    (cfg : config) (times : list Z) (ys vs : list Q)
    (i : nat) (t : Z) (e_first e_last : era) (lo hi : Q) :
  ascending (reverse (era_times cfg)) ->
  length ys = length (ERA_OVERRIDES cfg) ->
  interp_on_grid cfg times ys = Some vs ->
  times !! i = Some t ->
  ERA_OVERRIDES cfg !! 0%nat = Some e_first ->
  last (ERA_OVERRIDES cfg) = Some e_last ->
  e_time e_last < e_time e_first ->
  e_time e_last <= t <= e_time e_first ->
  Forall (fun y => lo <= y <= hi)%Q ys ->
  exists v,
    vs !! i = Some v /\ (lo <= v <= hi)%Q /\
    ((lo == 0)%Q -> (hi == 1)%Q ->
     forall raw target, Qbetween raw target (raw * (1 - v) + target * v)).
Proof.
  intros Hasc Hlen Hvs Hti Hfirst Hlast Hends Ht Hys.
  destruct (interp_on_grid_lookup cfg times ys vs i t Hvs Hti)
    as (v & Hv & Hinterp).
  exists v. split; [done|].
  set (x := reverse (era_times cfg)) in *. set (yr := reverse ys) in *.
  assert (length (era_times cfg) = length (ERA_OVERRIDES cfg)) as Hlx
    by (unfold era_times; by rewrite length_map).
  assert (length x = length yr) as Hxy.
  { unfold x, yr. rewrite !length_reverse. lia. }
  assert (x !! 0%nat = Some (inject_Z (e_time e_last))) as Hx0.
  { unfold x. rewrite last_lookup in Hlast.
    pose proof (lookup_lt_Some _ _ _ Hlast) as Hlt.
    rewrite reverse_lookup by (rewrite Hlx; lia).
    unfold era_times. change (map ?f ?l) with (f <$> l).
    rewrite list_lookup_fmap, length_fmap.
    replace (length (ERA_OVERRIDES cfg) - 1)%nat
      with (pred (length (ERA_OVERRIDES cfg))) by lia.
    by rewrite Hlast. }
  assert (last x = Some (inject_Z (e_time e_first))) as Hxl.
  { unfold x. rewrite last_lookup, length_reverse.
    pose proof (lookup_lt_Some _ _ _ Hfirst) as Hlt.
    rewrite reverse_lookup by (rewrite Hlx; lia).
    replace (length (era_times cfg) - S (pred (length (era_times cfg))))%nat
      with 0%nat by lia.
    unfold era_times. change (map ?f ?l) with (f <$> l).
    by rewrite list_lookup_fmap, Hfirst. }
  assert (inject_Z (e_time e_last) < inject_Z (e_time e_first))%Q as Hends'
    by (by rewrite <- Zlt_Qlt).
  assert (inject_Z (e_time e_last) <= inject_Z t
          <= inject_Z (e_time e_first))%Q as Ht'
    by (by rewrite <- !Zle_Qle).
  destruct (interp1d_segment x yr (inject_Z t) _ _
              Hasc Hxy Hx0 Hxl Hends' Ht')
    as (k & x_lo & x_hi & y_lo & y_hi & Hxlo & Hxhi & Hylo & Hyhi & Hin
        & Hlt & Heval).
  rewrite Heval in Hinterp. injection Hinterp as <-.
  assert (Forall (fun y => lo <= y <= hi)%Q yr) as Hyr.
  { unfold yr. by apply Forall_reverse. }
  rewrite Forall_lookup in Hyr.
  pose proof (segment_bounded x_lo x_hi y_lo y_hi (inject_Z t) lo hi Hlt Hin
                (Hyr _ _ Hylo) (Hyr _ _ Hyhi)) as Hbound.
  split; [exact Hbound|].
  intros Hlo Hhi raw target. apply convex_between.
  rewrite Hlo, Hhi in Hbound. exact Hbound.
Qed.

Lemma X14_weights_stay_in_range_witness :
  exists vs,
    interp_on_grid short_era_config [100; 50] [0; 1]%Q = Some vs /\
    exists v, vs !! 0%nat = Some v /\ (0 <= v <= 1)%Q.
Proof.
  eexists. split; [vm_compute; reflexivity|].
  destruct (X14_weights_stay_in_range short_era_config [100; 50]
              [0; 1]%Q _ 0 100
              (Era 100 (Some 0%Q) (Some 0%Q) "first" 0)
              (Era 50 (Some (10 # 1)%Q) (Some (20 # 1)%Q) "second" 1) 0 1
              short_era_ascending eq_refl eq_refl eq_refl eq_refl eq_refl)
    as (v & Hv & Hrange & _).
  - reflexivity.
  - split; discriminate.
  - repeat constructor; discriminate.
  - exists v. split; [exact Hv|exact Hrange].
Defined.

End ExtraBlender.

(** ** The era targets and the normalised dispersal *)

Section ExtraTargets.

Lemma era_targets_loop cfg n raw_lons raw_lats :
  TIME_STEP cfg <> 0 -> (0 < n)%nat ->
  length raw_lons = n -> length raw_lats = n ->
  forall eras era_lons era_lats,
  exists new_lons new_lats,
    for_each
      (fun '(era_lons, era_lats) e =>
         t_idx ← time_index cfg n (e_time e);
         lon ← match e_lon e with
               | Some v => Some v
               | None => raw_lons !! t_idx
               end;
         lat ← match e_lat e with
               | Some v => Some v
               | None => raw_lats !! t_idx
               end;
         Some (era_lons ++ [lon], era_lats ++ [lat]))
      (era_lons, era_lats) eras
    = Some (era_lons ++ new_lons, era_lats ++ new_lats) /\
    length new_lons = length eras /\ length new_lats = length eras /\
    forall j e, eras !! j = Some e ->
      exists t_idx,
        time_index cfg n (e_time e) = Some t_idx /\ (t_idx < n)%nat /\
        new_lons !! j = match e_lon e with
                        | Some v => Some v
                        | None => raw_lons !! t_idx
                        end /\
        new_lats !! j = match e_lat e with
                        | Some v => Some v
                        | None => raw_lats !! t_idx
                        end /\
        is_Some (new_lons !! j) /\ is_Some (new_lats !! j).
Proof.
  intros Hstep Hn Hlons Hlats.
  induction eras as [|e eras IH]; intros era_lons era_lats.
  - exists [], []. rewrite !app_nil_r. split; [done|]. split; [done|].
    split; [done|]. intros j e Hj. done.
  - cbn [for_each].
    destruct (time_index_some cfg n (e_time e) Hstep) as (t_idx & Hidx & Hle).
    rewrite Hidx. cbn [mbind option_bind].
    destruct (lookup_lt_is_Some_2 raw_lons t_idx) as [rlon Hrlon]; [lia|].
    destruct (lookup_lt_is_Some_2 raw_lats t_idx) as [rlat Hrlat]; [lia|].
    set (lon := match e_lon e with Some v => v | None => rlon end).
    set (lat := match e_lat e with Some v => v | None => rlat end).
    assert (match e_lon e with
            | Some v => Some v
            | None => raw_lons !! t_idx
            end = Some lon) as Hlon.
    { unfold lon. by destruct (e_lon e). }
    assert (match e_lat e with
            | Some v => Some v
            | None => raw_lats !! t_idx
            end = Some lat) as Hlat.
    { unfold lat. by destruct (e_lat e). }
    rewrite Hlon, Hlat. cbn [mbind option_bind].
    destruct (IH (era_lons ++ [lon]) (era_lats ++ [lat]))
      as (new_lons & new_lats & Hloop & Hl1 & Hl2 & Hall).
    exists (lon :: new_lons), (lat :: new_lats).
    rewrite Hloop, <- !app_assoc. split; [done|].
    split; [simpl; lia|]. split; [simpl; lia|].
    intros [|j] e' Hj; simpl in Hj.
    + injection Hj as <-. exists t_idx. simpl. rewrite Hlon, Hlat.
      do 4 (split; [done || lia|]). split; eauto.
    + apply Hall. done.
Qed.

(** X15. With at least one timestep and a non-zero time step the era
    targets are built without error and there is one longitude and one
    latitude per era: the authored target where the era has one, and
    otherwise the raw centroid of the timestep whose clamped index the
    era time maps to. *)
Theorem X15_era_targets_defined
    (cfg : config) (total_steps : nat) (raw_lons raw_lats : list Q) :
  TIME_STEP cfg <> 0 -> (0 < total_steps)%nat ->
  length raw_lons = total_steps -> length raw_lats = total_steps ->
  exists era_lons era_lats,
    era_targets cfg total_steps raw_lons raw_lats
      = Some (era_lons, era_lats) /\
    length era_lons = length (ERA_OVERRIDES cfg) /\
    length era_lats = length (ERA_OVERRIDES cfg) /\
    forall j e, ERA_OVERRIDES cfg !! j = Some e ->
      exists t_idx lon lat,
        time_index cfg total_steps (e_time e) = Some t_idx /\
        (t_idx < total_steps)%nat /\
        era_lons !! j = Some lon /\ era_lats !! j = Some lat /\
        match e_lon e with
        | Some v => lon = v
        | None => raw_lons !! t_idx = Some lon
        end /\
        match e_lat e with
        | Some v => lat = v
        | None => raw_lats !! t_idx = Some lat
        end.
Proof.
  intros Hstep Hn Hlons Hlats. unfold era_targets.
  destruct (era_targets_loop cfg total_steps raw_lons raw_lats Hstep Hn
              Hlons Hlats (ERA_OVERRIDES cfg) [] [])
    as (era_lons & era_lats & Hloop & Hl1 & Hl2 & Hall).
  exists era_lons, era_lats. split; [exact Hloop|].
  split; [done|]. split; [done|].
  intros j e Hj.
  destruct (Hall j e Hj) as (t_idx & Hidx & Hlt & Hlon & Hlat & [lon Hl] & [lat Ha]).
  exists t_idx, lon, lat. do 4 (split; [done|]).
  rewrite Hl in Hlon. rewrite Ha in Hlat. split.
  - destruct (e_lon e); congruence.
  - destruct (e_lat e); congruence.
Qed.

Lemma X15_era_targets_defined_witness :
  exists era_lons era_lats,
    era_targets script_config 2 [7 # 1; 8 # 1]%Q [1; 2]%Q
      = Some (era_lons, era_lats) /\
    length era_lons = 15%nat /\ length era_lats = 15%nat.
Proof.
  destruct (X15_era_targets_defined script_config 2 [7 # 1; 8 # 1]%Q [1; 2]%Q)
    as (era_lons & era_lats & Hrun & Hl1 & Hl2 & _).
  - discriminate.
  - lia.
  - reflexivity.
  - reflexivity.
  - exists era_lons, era_lats. split; [exact Hrun|]. split; assumption.
Defined.

End ExtraTargets.

Section ExtraNormalize.

Lemma min_scan_spec (rest : list Q) : forall m0,
  let m := foldl (fun m y => if Qlt_bool y m then y else m) m0 rest in
  (m = m0 \/ m ∈ rest) /\ (m <= m0)%Q /\ Forall (fun y => m <= y)%Q rest.
Proof.
  induction rest as [|y rest IH]; intros m0; cbn [foldl].
  - split; [by left|]. split; [apply Qle_refl|constructor].
  - destruct (IH (if Qlt_bool y m0 then y else m0)) as (Hin & Hle & Hall).
    set (m := foldl _ _ rest) in *.
    destruct (Qlt_bool y m0) eqn:Hlt.
    + apply Qlt_bool_true in Hlt. split; [|split].
      * destruct Hin as [->|Hin]; right; [left|by right].
      * lra.
      * constructor; [done|done].
    + apply Qlt_bool_false in Hlt. split; [|split].
      * destruct Hin as [->|Hin]; [by left|right; by right].
      * done.
      * constructor; [lra|done].
Qed.

Lemma max_scan_values_spec (rest : list Q) : forall m0,
  let m := foldl (fun m y => if Qlt_bool m y then y else m) m0 rest in
  (m = m0 \/ m ∈ rest) /\ (m0 <= m)%Q /\ Forall (fun y => y <= m)%Q rest.
Proof.
  induction rest as [|y rest IH]; intros m0; cbn [foldl].
  - split; [by left|]. split; [apply Qle_refl|constructor].
  - destruct (IH (if Qlt_bool m0 y then y else m0)) as (Hin & Hle & Hall).
    set (m := foldl _ _ rest) in *.
    destruct (Qlt_bool m0 y) eqn:Hlt.
    + apply Qlt_bool_true in Hlt. split; [|split].
      * destruct Hin as [->|Hin]; right; [left|by right].
      * lra.
      * constructor; [done|done].
    + apply Qlt_bool_false in Hlt. split; [|split].
      * destruct Hin as [->|Hin]; [by left|right; by right].
      * done.
      * constructor; [lra|done].
Qed.

Lemma np_min_max_spec (dispersal : list Q) :
  dispersal <> [] ->
  exists d_min d_max,
    np_min dispersal = Some d_min /\ np_max dispersal = Some d_max /\
    d_min ∈ dispersal /\ d_max ∈ dispersal /\
    Forall (fun d => d_min <= d <= d_max)%Q dispersal.
Proof.
  destruct dispersal as [|x rest]; [done|]. intros _.
  destruct (min_scan_spec rest x) as (Hmin_in & Hmin_le & Hmin_all).
  destruct (max_scan_values_spec rest x) as (Hmax_in & Hmax_le & Hmax_all).
  eexists _, _. split; [reflexivity|]. split; [reflexivity|].
  set (d_min := foldl _ x rest) in *. set (d_max := foldl _ x rest) in *.
  split; [|split; [|constructor]].
  - destruct Hmin_in as [->|Hin]; [left|by right].
  - destruct Hmax_in as [->|Hin]; [left|by right].
  - done.
  - rewrite Forall_forall in Hmin_all, Hmax_all. apply Forall_forall.
    intros d Hd. split; [by apply Hmin_all|by apply Hmax_all].
Qed.

(** X16. Normalising the dispersal raises on an empty series; otherwise it
    returns a series of the same length with every value between 0 and 1.
    When the series is not constant its smallest value becomes 0, its
    largest becomes 1 and the order of the values is kept; a constant
    series becomes all zeros. *)
Theorem X16_normalized_dispersal (dispersal : list Q) :
  (dispersal = [] -> normalize_dispersal dispersal = None) /\
  (dispersal <> [] ->
   exists d_min d_max norm,
     np_min dispersal = Some d_min /\ np_max dispersal = Some d_max /\
     Forall (fun d => d_min <= d <= d_max)%Q dispersal /\
     normalize_dispersal dispersal = Some norm /\
     length norm = length dispersal /\
     Forall (fun v => 0 <= v <= 1)%Q norm /\
     ((d_min < d_max)%Q ->
      (forall i d, dispersal !! i = Some d ->
         exists v, norm !! i = Some v /\
                   ((d == d_min)%Q -> (v == 0)%Q) /\
                   ((d == d_max)%Q -> (v == 1)%Q)) /\
      (exists i, norm !! i = Some ((d_min - d_min) / (d_max - d_min))%Q) /\
      (exists i, norm !! i = Some ((d_max - d_min) / (d_max - d_min))%Q) /\
      (forall i j di dj vi vj,
         dispersal !! i = Some di -> dispersal !! j = Some dj ->
         norm !! i = Some vi -> norm !! j = Some vj ->
         (di <= dj)%Q -> (vi <= vj)%Q)) /\
     (~ (d_min < d_max)%Q -> norm = map (fun _ => 0%Q) dispersal)).
Proof.
  split; [intros ->; done|]. intros Hne.
  destruct (np_min_max_spec dispersal Hne)
    as (d_min & d_max & Hmin & Hmax & Hmin_in & Hmax_in & Hall).
  unfold normalize_dispersal. rewrite Hmin, Hmax. cbn [mbind option_bind].
  exists d_min, d_max.
  destruct (Qlt_bool d_min d_max) eqn:Hlt.
  - apply Qlt_bool_true in Hlt.
    eexists. do 3 (split; [done|]). split; [reflexivity|].
    split; [by rewrite length_map|].
    assert (forall d, (d_min <= d <= d_max)%Q ->
                      (0 <= (d - d_min) / (d_max - d_min) <= 1)%Q) as Hfrac.
    { intros d Hd. split.
      - apply Qle_shift_div_l; lra.
      - apply Qle_shift_div_r; lra. }
    split; [|split].
    + change (map ?f ?l) with (f <$> l). apply Forall_fmap.
      eapply Forall_impl; [exact Hall|]. intros d Hd. by apply Hfrac.
    + intros _. change (map ?f ?l) with (f <$> l).
      split; [|split; [|split]].
      * intros i d Hd. rewrite list_lookup_fmap, Hd. simpl.
        eexists. split; [reflexivity|]. split.
        -- intros ->. field. lra.
        -- intros ->. field. lra.
      * apply list_elem_of_lookup_1 in Hmin_in as [i Hi]. exists i.
        by rewrite list_lookup_fmap, Hi.
      * apply list_elem_of_lookup_1 in Hmax_in as [i Hi]. exists i.
        by rewrite list_lookup_fmap, Hi.
      * intros i j di dj vi vj Hdi Hdj Hvi Hvj Hle.
        rewrite list_lookup_fmap, Hdi in Hvi.
        rewrite list_lookup_fmap, Hdj in Hvj.
        simpl in Hvi, Hvj. simplify_eq.
        apply Qle_shift_div_l; [lra|].
        assert ((di - d_min) / (d_max - d_min) * (d_max - d_min)
                == di - d_min)%Q as -> by (field; lra).
        lra.
    + intros Hcontra. done.
  - eexists. do 3 (split; [done|]). split; [reflexivity|].
    split; [by rewrite length_map|]. split; [|split].
    + change (map ?f ?l) with (f <$> l). apply Forall_fmap.
      apply Forall_forall. intros d _. simpl. lra.
    + intros Hcontra. apply Qlt_bool_true in Hcontra. congruence.
    + done.
Qed.

End ExtraNormalize.

(** ** Further properties of the crossfade schedule *)

Section ExtraCrossfade.
Import RenderGlobe.

Lemma tiles_adjacent s runs e : tiles s runs e ->
  forall j a b, runs !! j = Some a -> runs !! S j = Some b ->
                run_end a = run_start b.
Proof.
  induction 1 as [s|s r rs e Hs Hlt Hlen Ht IH]; intros j a b Ha Hb; [done|].
  destruct j as [|j]; simpl in Ha, Hb.
  - injection Ha as <-.
    inversion Ht as [|s' b' rs' e' Hsb _ _ _]; subst; simpl in Hb; [done|].
    injection Hb as <-. done.
  - by eapply IH.
Qed.

(** Where a stored frame lies: in the second half of the outgoing run or
    in the first half of the incoming one, never on the first frame of the
    outgoing run nor on the last frame of the incoming run. *)
Lemma crossfade_entry frames runs h i v :
  maximal_runs frames runs ->
  (i, v) ∈ crossfade_writes runs h ->
  exists a b k,
    a ∈ runs /\ b ∈ runs /\ run_geo a <> run_geo b /\
    run_end a = run_start b /\
    1 <= boundary_half a b h /\ boundary_half a b h <= h /\
    0 <= k < 2 * boundary_half a b h /\
    i = run_start b - boundary_half a b h + k /\
    v = (run_geo a, run_geo b, blend_factor k (boundary_half a b h)) /\
    run_start a < run_start b - boundary_half a b h /\
    run_start b + boundary_half a b h < run_end b.
Proof.
  intros Hmax Hin.
  apply elem_of_crossfade_writes in Hin as (j & a & b & Ha & Hb & Hin).
  apply elem_of_boundary_writes in Hin as (k & Hh & Hk & Hi & Hv).
  pose proof (mr_tiles _ _ Hmax) as Ht.
  assert (a ∈ runs) as Hain by (by eapply list_elem_of_lookup_2).
  assert (b ∈ runs) as Hbin by (by eapply list_elem_of_lookup_2).
  destruct (tiles_bounds _ _ _ _ Ht Hain) as (_ & Ha1 & _ & Ha2).
  destruct (tiles_bounds _ _ _ _ Ht Hbin) as (_ & Hb1 & _ & Hb2).
  pose proof (tiles_adjacent _ _ _ Ht j a b Ha Hb) as Hadj.
  exists a, b, k. split; [done|]. split; [done|].
  split; [by apply (mr_maximal _ _ Hmax j)|]. split; [done|].
  split; [done|].
  assert (boundary_half a b h <= run_len a / 2 /\
          boundary_half a b h <= run_len b / 2 /\
          boundary_half a b h <= h) as (Hha & Hhb & Hhh)
    by (unfold boundary_half; lia).
  assert (run_len a / 2 < run_len a)
    by (apply Z.div_lt_upper_bound; lia).
  assert (run_len b / 2 < run_len b)
    by (apply Z.div_lt_upper_bound; lia).
  split; [done|]. split; [done|]. split; [done|]. split; [done|].
  split; lia.
Qed.

(** X17. A frame that the schedule blends blends its own timestep with
    the neighbouring one: the two textures differ, the factor lies strictly
    between 0 and 1, and for the transition the entry belongs to, a frame
    before the transition shows the outgoing timestep and a frame at or
    after it shows the incoming one.  Such a frame is never alone in its
    run: the frame before it (before the transition) or after it (from the
    transition on) shows the same timestep. *)
Theorem X17_blend_of_own_timestep
    (path_frames : list frame) (crossfade_half : Z)
    (m : gmap Z assignment) (i geo_a geo_b : Z) (alpha : Q) :
  compute_crossfade_schedule path_frames crossfade_half = Some m ->
  m !! i = Some (geo_a, geo_b, alpha) ->
  geo_a <> geo_b /\ (0 < alpha < 1)%Q /\
  exists transition,
    geo_at path_frames (transition - 1) = Some geo_a /\
    geo_at path_frames transition = Some geo_b /\
    transition - crossfade_half <= i < transition + crossfade_half /\
    (i < transition ->
     geo_at path_frames i = Some geo_a /\
     geo_at path_frames (i - 1) = Some geo_a) /\
    (transition <= i ->
     geo_at path_frames i = Some geo_b /\
     geo_at path_frames (i + 1) = Some geo_b).
Proof.
  unfold compute_crossfade_schedule. intros Hsched Hi.
  destruct (build_runs path_frames) as [runs|] eqn:Hruns; [|done].
  cbn [mbind option_bind] in Hsched. injection Hsched as <-.
  assert (path_frames <> []) as Hne by (by intros ->).
  destruct (build_runs_maximal path_frames Hne) as (runs' & Hruns' & Hmax).
  assert (runs' = runs) as -> by congruence.
  pose proof (mr_tiles _ _ Hmax) as Ht.
  apply store_all_lookup in Hi; [|by eapply NoDup_crossfade_writes].
  destruct (crossfade_entry _ _ _ _ _ Hmax Hi)
    as (a & b & k & Ha & Hb & Hgeo & Hadj & Hh1 & Hhh & Hk & -> & Hv
        & Hlo & Hhi).
  injection Hv as -> -> ->.
  destruct (tiles_bounds _ _ _ _ Ht Ha) as (_ & Ha1 & _ & _).
  destruct (tiles_bounds _ _ _ _ Ht Hb) as (_ & Hb1 & _ & _).
  split; [done|]. split; [apply blend_factor_range; lia|].
  exists (run_start b). split; [|split; [|split; [|split]]].
  - apply (mr_geo _ _ Hmax a); [done|lia].
  - apply (mr_geo _ _ Hmax b); [done|lia].
  - lia.
  - intros Hlt. split; apply (mr_geo _ _ Hmax a); (done || lia).
  - intros Hge. split; apply (mr_geo _ _ Hmax b); (done || lia).
Qed.

Lemma X17_blend_of_own_timestep_witness :
  0 <> 1 /\ (0 < 1 # 5 < 1)%Q /\
  exists transition,
    geo_at ten_ten (transition - 1) = Some 0 /\
    geo_at ten_ten transition = Some 1 /\
    transition - 2 <= 8 < transition + 2 /\
    (8 < transition ->
     geo_at ten_ten 8 = Some 0 /\ geo_at ten_ten (8 - 1) = Some 0) /\
    (transition <= 8 ->
     geo_at ten_ten 8 = Some 1 /\ geo_at ten_ten (8 + 1) = Some 1).
Proof.
  apply (X17_blend_of_own_timestep ten_ten 2
           (<[11 := (0, 1, (4 # 5)%Q)]>
              (<[10 := (0, 1, (3 # 5)%Q)]>
                 (<[9 := (0, 1, (2 # 5)%Q)]>
                    (<[8 := (0, 1, (1 # 5)%Q)]> ∅))))
           8 0 1 (1 # 5)).
  - reflexivity.
  - reflexivity.
Defined.

(** X18. Hard cuts and lone frames.  On a non-empty path the scheduler
    returns a schedule for every half window, and with a non-positive half
    window the schedule is empty.  With any half window a frame that is
    alone in its run is not blended: frame [i] is alone when it is the
    first frame of the path or the frame before it shows another timestep,
    and it is the last frame of the path or the frame after it shows another
    timestep. *)
Theorem X18_single_frames_are_not_blended (path_frames : list frame) :
  path_frames <> [] ->
  (forall crossfade_half,
      crossfade_half <= 0 ->
      compute_crossfade_schedule path_frames crossfade_half = Some ∅) /\
  (forall crossfade_half,
      exists m,
        compute_crossfade_schedule path_frames crossfade_half = Some m /\
        forall i,
          (i <= 0 \/ geo_at path_frames (i - 1) <> geo_at path_frames i) ->
          (Z.of_nat (length path_frames) <= i + 1 \/
           geo_at path_frames (i + 1) <> geo_at path_frames i) ->
          m !! i = None).
Proof.
  intros Hne. unfold compute_crossfade_schedule.
  destruct (build_runs_maximal path_frames Hne) as (runs & -> & Hmax).
  cbn [mbind option_bind].
  pose proof (mr_tiles _ _ Hmax) as Ht.
  split.
  - intros crossfade_half Hhalf.
    assert (crossfade_writes runs crossfade_half = []) as ->; [|done].
    destruct (crossfade_writes runs crossfade_half) as [|[i v] l] eqn:Hw;
      [done|].
    assert ((i, v) ∈ crossfade_writes runs crossfade_half) as Hin
      by (rewrite Hw; left).
    destruct (crossfade_entry _ _ _ _ _ Hmax Hin)
      as (a & b & k & _ & _ & _ & _ & Hh1 & Hhh & _). lia.
  - intros crossfade_half. eexists. split; [reflexivity|].
    intros i Hprev Hnext.
    pose proof (NoDup_crossfade_writes _ _ _ crossfade_half Ht) as Hnd.
    destruct (store_all (crossfade_writes runs crossfade_half) !! i)
      as [v|] eqn:Hi; [|done].
    exfalso. apply store_all_lookup in Hi; [|done].
    destruct (crossfade_entry _ _ _ _ _ Hmax Hi)
      as (a & b & k & Ha & Hb & Hgeo & Hadj & Hh1 & Hhh & Hk & -> & Hv
          & Hlo & Hhi).
    destruct (tiles_bounds _ _ _ _ Ht Ha) as (Ha0 & Ha1 & _ & _).
    destruct (tiles_bounds _ _ _ _ Ht Hb) as (_ & Hb1 & Hbn & _).
    destruct (Z.lt_ge_cases k (boundary_half a b crossfade_half))
      as [Hlt|Hge].
    + destruct Hprev as [Hprev|Hprev]; [lia|]. apply Hprev.
      rewrite (mr_geo _ _ Hmax a) by (done || lia).
      rewrite (mr_geo _ _ Hmax a) by (done || lia). done.
    + destruct Hnext as [Hnext|Hnext]; [lia|]. apply Hnext.
      rewrite (mr_geo _ _ Hmax b) by (done || lia).
      rewrite (mr_geo _ _ Hmax b) by (done || lia). done.
Qed.

Lemma X18_single_frames_are_not_blended_witness :
  compute_crossfade_schedule lone_ends 0 = Some ∅ /\
  exists m,
    compute_crossfade_schedule lone_ends 2 = Some m /\
    m !! 0 = None /\ m !! 9 = None /\ is_Some (m !! 4).
Proof.
  destruct (X18_single_frames_are_not_blended lone_ends) as [Hcut Hlone];
    [discriminate|].
  split; [apply Hcut; lia|].
  destruct (Hlone 2) as (m & Hm & Hnone).
  exists m. split; [exact Hm|].
  split; [apply Hnone; [left; lia|right; discriminate]|].
  split; [apply Hnone; [right; discriminate|left; vm_compute; discriminate]|].
  vm_compute in Hm. injection Hm as <-. vm_compute. eexists. reflexivity.
Defined.

Lemma boundary_writes_length a b h :
  0 <= h -> Z.of_nat (length (boundary_writes a b h)) <= 2 * h /\
  (2 * h <= run_len a -> 2 * h <= run_len b ->
   Z.of_nat (length (boundary_writes a b h)) = 2 * h).
Proof.
  intros Hh. unfold boundary_writes.
  assert (boundary_half a b h <= h) as Hle by (unfold boundary_half; lia).
  destruct (Z.ltb_spec (boundary_half a b h) 1) as [Hlt|Hge].
  - simpl. split; [lia|]. intros Ha Hb.
    assert (h <= run_len a / 2) by (apply Z.div_le_lower_bound; lia).
    assert (h <= run_len b / 2) by (apply Z.div_le_lower_bound; lia).
    unfold boundary_half in Hlt. lia.
  - rewrite length_map, length_range. split; [lia|]. intros Ha Hb.
    assert (h <= run_len a / 2) by (apply Z.div_le_lower_bound; lia).
    assert (h <= run_len b / 2) by (apply Z.div_le_lower_bound; lia).
    unfold boundary_half in *. lia.
Qed.

Lemma crossfade_writes_length h : 0 <= h -> forall runs : list run,
  Z.of_nat (length (crossfade_writes runs h))
  <= 2 * h * Z.of_nat (length runs - 1) /\
  ((forall r, r ∈ runs -> 2 * h <= run_len r) ->
   Z.of_nat (length (crossfade_writes runs h))
   = 2 * h * Z.of_nat (length runs - 1)).
Proof.
  intros Hh. induction runs as [|a runs IH].
  - rewrite crossfade_writes_short by (simpl; lia). simpl. lia.
  - destruct runs as [|b rest].
    + rewrite crossfade_writes_short by (simpl; lia). simpl. lia.
    + rewrite crossfade_writes_cons, length_app.
      destruct (boundary_writes_length a b h Hh) as [Hle Heq].
      destruct IH as [IHle IHeq].
      replace (length (a :: b :: rest) - 1)%nat
        with (S (length (b :: rest) - 1)) by (simpl; lia).
      split; [lia|]. intros Hall.
      rewrite Nat2Z.inj_add, Heq, IHeq.
      * lia.
      * intros r Hr. apply Hall. by right.
      * apply Hall. left.
      * apply Hall. right. left.
Qed.

(** X19. The number of blended frames: with a non-negative half window
    [h] the schedule has at most [2 * h] entries per transition, that is at
    most [2 * h * (number of runs - 1)] in all, and exactly that many when
    every run is at least [2 * h] frames long. *)
Theorem X19_schedule_size
    (path_frames : list frame) (crossfade_half : Z)
    (runs : list run) (m : gmap Z assignment) :
  build_runs path_frames = Some runs ->
  compute_crossfade_schedule path_frames crossfade_half = Some m ->
  0 <= crossfade_half ->
  (1 <= length runs <= length path_frames)%nat /\
  Z.of_nat (size m) <= 2 * crossfade_half * Z.of_nat (length runs - 1) /\
  ((forall r, r ∈ runs -> 2 * crossfade_half <= run_len r) ->
   Z.of_nat (size m) = 2 * crossfade_half * Z.of_nat (length runs - 1)).
Proof.
  unfold compute_crossfade_schedule. intros Hruns Hsched Hh.
  rewrite Hruns in Hsched. cbn [mbind option_bind] in Hsched.
  injection Hsched as <-.
  assert (path_frames <> []) as Hne by (by intros ->).
  destruct (build_runs_maximal path_frames Hne) as (runs' & Hruns' & Hmax).
  assert (runs' = runs) as -> by congruence.
  pose proof (mr_tiles _ _ Hmax) as Ht.
  rewrite store_all_size by (by eapply NoDup_crossfade_writes).
  split; [|by apply crossfade_writes_length].
  clear -Ht Hne. split.
  - inversion Ht as [? Hlen|]; subst; simpl; [|lia].
    destruct path_frames; [done|]. simpl in *. lia.
  - assert (forall s (rs : list run) e,
               tiles s rs e -> Z.of_nat (length rs) <= e - s) as Hcount.
    { induction 1 as [|s r rs e Hs Hlt Hlen Ht' IH]; simpl length; lia. }
    apply Hcount in Ht. lia.
Qed.

Lemma X19_schedule_size_witness :
  (1 <= 2 <= length ten_ten)%nat /\
  Z.of_nat (size (<[11 := (0, 1, (4 # 5)%Q)]>
                    (<[10 := (0, 1, (3 # 5)%Q)]>
                       (<[9 := (0, 1, (2 # 5)%Q)]>
                          (<[8 := (0, 1, (1 # 5)%Q)]>
                             (∅ : gmap Z assignment))))))
  <= 2 * 2 * Z.of_nat (2 - 1).
Proof.
  destruct (X19_schedule_size ten_ten 2 [(0, 0, 10, 10); (1, 10, 20, 10)]
              (<[11 := (0, 1, (4 # 5)%Q)]>
                 (<[10 := (0, 1, (3 # 5)%Q)]>
                    (<[9 := (0, 1, (2 # 5)%Q)]>
                       (<[8 := (0, 1, (1 # 5)%Q)]> ∅)))))
    as (H1 & H2 & _).
  - reflexivity.
  - reflexivity.
  - lia.
  - split; [exact H1|exact H2].
Defined.

End ExtraCrossfade.

(** ** [render_flat.py]: the frame files follow the schedule *)

Section ExtraRenderFlat.
Import RenderFlatMain.

(** *** The schedule only names frames and timesteps of the path *)

Lemma schedule_entry_in_path (path_frames : list frame) (h : Z)
    (m : gmap Z assignment) (i geo_a geo_b : Z) (alpha : Q) :
  RenderGlobe.compute_crossfade_schedule path_frames h = Some m ->
  m !! i = Some (geo_a, geo_b, alpha) ->
  0 <= i < Z.of_nat (length path_frames) /\
  (exists ka, geo_at path_frames ka = Some geo_a) /\
  (exists kb, geo_at path_frames kb = Some geo_b).
Proof.
  unfold RenderGlobe.compute_crossfade_schedule. intros Hsched Hi.
  destruct (RenderGlobe.build_runs path_frames) as [runs|] eqn:Hruns; [|done].
  cbn [mbind option_bind] in Hsched. injection Hsched as <-.
  assert (path_frames <> []) as Hne by (by intros ->).
  destruct (build_runs_maximal path_frames Hne) as (runs' & Hruns' & Hmax).
  assert (runs' = runs) as -> by congruence.
  pose proof (mr_tiles _ _ Hmax) as Ht.
  apply store_all_lookup in Hi; [|by eapply NoDup_crossfade_writes].
  destruct (crossfade_entry _ _ _ _ _ Hmax Hi)
    as (a & b & k & Ha & Hb & Hgeo & Hadj & Hh1 & Hhh & Hk & -> & Hv
        & Hlo & Hhi).
  injection Hv as -> -> ->.
  destruct (tiles_bounds _ _ _ _ Ht Ha) as (Ha0 & Ha1 & _ & _).
  destruct (tiles_bounds _ _ _ _ Ht Hb) as (_ & Hb1 & Hb2 & _).
  split; [lia|]. split.
  - exists (run_start a). apply (mr_geo _ _ Hmax a); [done|lia].
  - exists (run_start b). apply (mr_geo _ _ Hmax b); [done|lia].
Qed.

(** *** Eviction keeps exactly the current pair *)

Lemma evict_fold (geo_a geo_b : Z) : forall (keys : list Z)
    (cache : gmap Z image) (k : Z),
  foldl (fun cache cached_idx =>
           if negb (cached_idx =? geo_a) && negb (cached_idx =? geo_b)
           then delete cached_idx cache else cache)
        cache keys !! k
  = if decide (k ∈ keys /\ k <> geo_a /\ k <> geo_b) then None
    else cache !! k.
Proof.
  induction keys as [|x keys IH]; intros cache k; cbn [foldl].
  - destruct (decide _) as [[Hin _]|]; [by apply elem_of_nil in Hin|done].
  - rewrite IH.
    destruct (decide (k ∈ keys /\ k <> geo_a /\ k <> geo_b))
      as [(Hin & Ha & Hb)|Hno].
    + rewrite decide_True; [done|]. split; [by right|done].
    + destruct (Z.eqb_spec x geo_a) as [->|Hxa]; cbn [negb andb].
      * destruct (decide _) as [(Hin & Ha & Hb)|]; [|done].
        apply elem_of_cons in Hin as [->|Hin]; [done|]. by destruct Hno.
      * destruct (Z.eqb_spec x geo_b) as [->|Hxb]; cbn [negb].
        -- destruct (decide _) as [(Hin & Ha & Hb)|]; [|done].
           apply elem_of_cons in Hin as [->|Hin]; [done|]. by destruct Hno.
        -- destruct (decide (k = x)) as [->|Hkx].
           ++ rewrite lookup_delete_eq. rewrite decide_True; [done|].
              split; [left|done].
           ++ rewrite lookup_delete_ne by done.
              destruct (decide _) as [(Hin & Ha & Hb)|]; [|done].
              apply elem_of_cons in Hin as [->|Hin]; [done|]. by destruct Hno.
Qed.

Lemma evict_lookup (geo_a geo_b : Z) (cache : gmap Z image) (k : Z) :
  evict geo_a geo_b cache !! k
  = if decide (k = geo_a \/ k = geo_b) then cache !! k else None.
Proof.
  unfold evict. rewrite evict_fold.
  destruct (decide (k = geo_a \/ k = geo_b)) as [Hk|Hk].
  - rewrite decide_False; [done|]. intros (_ & Ha & Hb). by destruct Hk.
  - destruct (decide _) as [|Hno]; [done|].
    destruct (cache !! k) as [img|] eqn:Hc; [|done].
    exfalso. apply Hno. split; [|split].
    + change (map fst (map_to_list cache)) with ((map_to_list cache).*1).
      apply list_elem_of_fmap. exists (k, img). split; [done|].
      by apply elem_of_map_to_list.
    + intros ->. apply Hk. by left.
    + intros ->. apply Hk. by right.
Qed.

Lemma evict_size (geo_a geo_b : Z) (cache : gmap Z image) :
  (size (evict geo_a geo_b cache) <= 2)%nat.
Proof.
  rewrite <- size_dom.
  assert (dom (evict geo_a geo_b cache) ⊆ ({[geo_a]} ∪ {[geo_b]} : gset Z))
    as Hsub.
  { intros k Hk. apply elem_of_dom in Hk as [img Hk].
    rewrite evict_lookup in Hk.
    destruct (decide (k = geo_a \/ k = geo_b)) as [[->| ->]|]; [| |done];
      set_solver. }
  apply subseteq_size in Hsub.
  assert (size ({[geo_a]} ∪ {[geo_b]} : gset Z) <= 2)%nat; [|lia].
  destruct (decide (geo_a = geo_b)) as [->|Hne].
  - rewrite union_idemp_L, size_singleton. lia.
  - rewrite size_union by set_solver. rewrite !size_singleton. lia.
Qed.

Lemma frame_step_spec (m : gmap Z assignment) (st : state) (k : nat)
    (pf : frame) :
  cache_ok (image_cache st) ->
  exists st',
    frame_step m st (Z.of_nat k) pf = Some st' /\
    cache_ok (image_cache st') /\
    created st' = created st ++ [expected_file m k pf] /\
    blend_count st'
    = blend_count st + (if decide (is_Some (m !! Z.of_nat k)) then 1 else 0).
Proof.
  intros [Hsize Himg]. unfold frame_step, expected_file.
  destruct (m !! Z.of_nat k) as [[[geo_a geo_b] alpha]|] eqn:Hm.
  - set (c1 := match image_cache st !! geo_a with
               | Some _ => image_cache st
               | None => <[geo_a := Image_open geo_a]> (image_cache st)
               end).
    set (c2 := match c1 !! geo_b with
               | Some _ => c1
               | None => <[geo_b := Image_open geo_b]> c1
               end).
    assert (forall g img, c1 !! g = Some img -> img = Image_open g) as H1.
    { intros g img. unfold c1.
      destruct (image_cache st !! geo_a) eqn:Ha; [apply Himg|].
      intros [[<- <-]|[_ Hg]]%lookup_insert_Some; [done|by apply Himg]. }
    assert (forall g img, c2 !! g = Some img -> img = Image_open g) as H2.
    { intros g img. unfold c2.
      destruct (c1 !! geo_b) eqn:Hb; [apply H1|].
      intros [[<- <-]|[_ Hg]]%lookup_insert_Some; [done|by apply H1]. }
    assert (is_Some (c1 !! geo_a)) as [ia Hia].
    { unfold c1. destruct (image_cache st !! geo_a) eqn:Ha; [eauto|].
      rewrite lookup_insert_eq. eauto. }
    assert (c2 !! geo_a = Some ia) as Hia2.
    { unfold c2. destruct (c1 !! geo_b) eqn:Hb; [done|].
      rewrite lookup_insert_ne; [done|]. intros <-. congruence. }
    assert (is_Some (c2 !! geo_b)) as [ib Hib].
    { unfold c2. destruct (c1 !! geo_b) eqn:Hb; [eauto|].
      rewrite lookup_insert_eq. eauto. }
    rewrite Hia2, Hib. cbn [mbind option_bind].
    eexists. split; [reflexivity|]. cbn [image_cache created blend_count].
    split; [split|split].
    + apply evict_size.
    + intros g img. rewrite evict_lookup.
      destruct (decide _); [apply H2|done].
    + rewrite (H2 _ _ Hia2), (H2 _ _ Hib). done.
    + rewrite decide_True by eauto. done.
  - eexists. split; [reflexivity|]. cbn [image_cache created blend_count].
    split; [done|]. split; [done|].
    rewrite decide_False; [lia|]. by intros [? ?].
Qed.

Lemma frame_loop_spec (m : gmap Z assignment) : forall rest k st,
  cache_ok (image_cache st) ->
  exists st',
    frame_loop m (Z.of_nat k) rest st = Some st' /\
    cache_ok (image_cache st') /\
    created st'
    = created st ++ imap (fun j f => expected_file m (k + j) f) rest /\
    blend_count st'
    = blend_count st
      + Z.of_nat (length (filter (fun j => is_Some (m !! Z.of_nat j))
                                 (seq k (length rest)))).
Proof.
  induction rest as [|pf rest IH]; intros k st Hok.
  - exists st. simpl. rewrite app_nil_r. split; [done|]. split; [done|].
    split; [done|lia].
  - cbn [frame_loop].
    destruct (frame_step_spec m st k pf Hok)
      as (st1 & Hstep & Hok1 & Hfiles1 & Hcount1).
    rewrite Hstep. cbn [mbind option_bind].
    replace (Z.of_nat k + 1) with (Z.of_nat (S k)) by lia.
    destruct (IH (S k) st1 Hok1) as (st' & Hloop & Hok' & Hfiles & Hcount).
    exists st'. split; [done|]. split; [done|]. split.
    + rewrite Hfiles, Hfiles1, <- app_assoc. f_equal. cbn [imap app].
      rewrite Nat.add_0_r. f_equal. apply imap_ext. intros j f _. simpl.
      f_equal. lia.
    + rewrite Hcount, Hcount1. cbn [length seq]. rewrite filter_cons.
      destruct (decide (is_Some (m !! Z.of_nat k))); simpl length; lia.
Qed.

Lemma keys_count (m : gmap Z assignment) (n : nat) :
  (forall i v, m !! i = Some v -> 0 <= i < Z.of_nat n) ->
  size m
  = length (filter (fun j => is_Some (m !! Z.of_nat j)) (seq 0 n)).
Proof.
  intros Hkeys. rewrite <- length_map_to_list.
  rewrite <- (length_fmap fst (map_to_list m)).
  rewrite <- (length_fmap Z.of_nat (filter _ (seq 0 n))).
  apply Permutation_length, NoDup_Permutation.
  - apply NoDup_fst_map_to_list.
  - apply (NoDup_fmap_2 Z.of_nat), NoDup_filter, NoDup_seq.
  - intros i. rewrite !list_elem_of_fmap. split.
    + intros ([i' v] & -> & Hin). apply elem_of_map_to_list in Hin.
      simpl. destruct (Hkeys _ _ Hin) as [H0 Hn].
      exists (Z.to_nat i'). split; [lia|].
      apply list_elem_of_filter. rewrite Z2Nat.id by lia.
      split; [eauto|]. apply elem_of_seq. lia.
    + intros (j & -> & Hin). apply list_elem_of_filter in Hin as [[v Hv] _].
      exists (Z.of_nat j, v). split; [done|]. by apply elem_of_map_to_list.
Qed.

(** X20. For a non-empty path the frame loop of [render_flat.py] creates
    exactly one file per animation frame, numbered from 1 in frame order: a
    blend of the two source images named by the schedule, with the
    schedule's factor, for a scheduled frame, and a symlink to the frame's
    own source image otherwise.  The number of blends it reports equals the
    number of entries of the schedule. *)
Theorem X20_flat_frame_files (path_frames : list frame) :
  path_frames <> [] ->
  exists m st,
    RenderFlat.compute_crossfade_schedule path_frames CROSSFADE_HALF
      = Some m /\
    create_frames path_frames = Some st /\
    length (created st) = length path_frames /\
    (forall k f, path_frames !! k = Some f ->
       created st !! k
       = Some (match m !! Z.of_nat k with
               | Some (geo_a, geo_b, alpha) =>
                   Blended (Z.of_nat k + 1) (Image_open geo_a)
                           (Image_open geo_b) alpha
               | None => Symlink (Z.of_nat k + 1) (geo_frame_idx f)
               end)) /\
    blend_count st = Z.of_nat (size m).
Proof.
  intros Hne.
  destruct (build_runs_maximal path_frames Hne) as (runs & Hruns & _).
  assert (exists m, RenderGlobe.compute_crossfade_schedule
                      path_frames CROSSFADE_HALF = Some m) as [m Hm].
  { unfold RenderGlobe.compute_crossfade_schedule. rewrite Hruns. eauto. }
  assert (RenderFlat.compute_crossfade_schedule path_frames CROSSFADE_HALF
          = Some m) as Hm' by (by rewrite render_flat_agrees).
  destruct (frame_loop_spec m path_frames 0 (State ∅ 0 []))
    as (st & Hloop & _ & Hfiles & Hcount).
  { split; [cbn [image_cache]; rewrite map_size_empty; lia|].
    intros g img Hg. done. }
  exists m, st. split; [done|]. split; [|split; [|split]].
  - unfold create_frames. rewrite Hm'. done.
  - rewrite Hfiles. cbn [created app]. by rewrite length_imap.
  - intros k f Hk. rewrite Hfiles. cbn [created app].
    rewrite list_lookup_imap, Hk. done.
  - rewrite Hcount. cbn [blend_count]. rewrite Z.add_0_l. f_equal.
    symmetry. apply keys_count. intros i [[ga gb] alpha] Hi.
    by destruct (schedule_entry_in_path _ _ _ _ _ _ _ Hm Hi).
Qed.

Lemma X20_flat_frame_files_witness :
  exists m st,
    RenderFlat.compute_crossfade_schedule two_two CROSSFADE_HALF = Some m /\
    create_frames two_two = Some st /\
    created st !! 1%nat = Some (Blended 2 0 1 (1 # 3)) /\
    created st !! 3%nat = Some (Symlink 4 1) /\
    blend_count st = 2.
Proof.
  destruct (X20_flat_frame_files two_two) as (m & st & Hm & Hst & _ & Hk & Hc).
  - discriminate.
  - exists m, st. split; [exact Hm|]. split; [exact Hst|].
    assert (m = <[2 := (0, 1, (2 # 3)%Q)]> (<[1 := (0, 1, (1 # 3)%Q)]> ∅))
      as Hmeq.
    { assert (Some m = Some (<[2 := (0, 1, (2 # 3)%Q)]>
                               (<[1 := (0, 1, (1 # 3)%Q)]> ∅))) as Heq
        by (rewrite <- Hm; reflexivity).
      by injection Heq. }
    split; [|split].
    + rewrite (Hk 1%nat _ eq_refl), Hmeq. reflexivity.
    + rewrite (Hk 3%nat _ eq_refl), Hmeq. reflexivity.
    + rewrite Hc, Hmeq. reflexivity.
Defined.

(** X21. The image cache of [render_flat.py] stays small and never goes
    stale: for any schedule and any frames (so after every iteration of the
    loop) the loop returns without a [KeyError], the cache holds at most
    two images, and every cached image is the image of the source frame it
    is filed under. *)
Theorem X21_flat_cache_bounded
    (crossfade_map : gmap Z assignment) (path_frames : list frame) :
  exists st,
    frame_loop crossfade_map 0 path_frames (State ∅ 0 []) = Some st /\
    (size (image_cache st) <= 2)%nat /\
    (forall g img, image_cache st !! g = Some img -> img = Image_open g) /\
    forall k, exists st_k,
      frame_loop crossfade_map 0 (take k path_frames) (State ∅ 0 [])
        = Some st_k /\
      (size (image_cache st_k) <= 2)%nat.
Proof.
  assert (cache_ok (image_cache (State ∅ 0 []))) as Hinit.
  { split; [cbn [image_cache]; rewrite map_size_empty; lia|].
    intros g img Hg. done. }
  destruct (frame_loop_spec crossfade_map path_frames 0 (State ∅ 0 []) Hinit)
    as (st & Hloop & [Hsize Himg] & _).
  exists st. split; [exact Hloop|]. split; [exact Hsize|].
  split; [exact Himg|]. intros k.
  destruct (frame_loop_spec crossfade_map (take k path_frames) 0
              (State ∅ 0 []) Hinit)
    as (st_k & Hloop_k & [Hsize_k _] & _).
  exists st_k. done.
Qed.

End ExtraRenderFlat.

(** ** [render_flat.py]: the number of transitions it reports *)

Section ExtraTransitions.
Import RenderGlobe RenderFlatMain.

Lemma tiles_cover s runs e : tiles s runs e ->
  forall k, s <= k < e -> exists r, r ∈ runs /\ run_start r <= k < run_end r.
Proof.
  induction 1 as [s|s r rs e Hs Hlt Hlen Ht IH]; intros k Hk; [lia|].
  destruct (Z.lt_ge_cases k (run_end r)) as [Hin|Hout].
  - exists r. split; [left|lia].
  - destruct (IH k) as (r' & Hr' & Hk'); [lia|].
    exists r'. split; [by right|done].
Qed.

Lemma size_list_to_set_le (l : list Z) :
  (size (list_to_set l : gset Z) <= length l)%nat.
Proof.
  induction l as [|x l IH]; cbn [list_to_set length].
  - rewrite size_empty. lia.
  - rewrite size_union_alt, size_singleton.
    assert (size (list_to_set l ∖ {[x]} : gset Z)
            <= size (list_to_set l : gset Z))%nat
      by (apply subseteq_size; set_solver).
    lia.
Qed.

Lemma increasing_lookup (l : list Z) :
  (forall j a b, l !! j = Some a -> l !! S j = Some b -> a < b) ->
  forall d i a b, l !! i = Some a -> l !! (i + S d)%nat = Some b -> a < b.
Proof.
  intros Hadj. induction d as [|d IH]; intros i a b Ha Hb.
  - apply (Hadj i); [done|]. by replace (S i) with (i + 1)%nat by lia.
  - destruct (lookup_lt_is_Some_2 l (i + S d)) as [c Hc].
    { apply lookup_lt_Some in Hb. lia. }
    pose proof (IH i a c Ha Hc).
    assert (c < b); [|lia].
    apply (Hadj (i + S d)%nat); [done|].
    by replace (S (i + S d)) with (i + S (S d))%nat by lia.
Qed.

(** X22. [render_flat.py] reports [n_geo_frames - 1] transitions, where
    [n_geo_frames] counts the distinct timesteps of the path, while the
    schedule works on the boundaries between runs.  The number of distinct
    timesteps never exceeds the number of runs, and the two agree when the
    timestep index never decreases along the path, as in the output of the
    frame expander; the reported number is then the number of
    boundaries. *)
Theorem X22_reported_transitions
    (path_frames : list frame) (runs : list run) :
  build_runs path_frames = Some runs ->
  (n_geo_frames path_frames <= length runs)%nat /\
  ((forall k1 k2 f1 f2, (k1 <= k2)%nat ->
      path_frames !! k1 = Some f1 -> path_frames !! k2 = Some f2 ->
      geo_frame_idx f1 <= geo_frame_idx f2) ->
   n_geo_frames path_frames = length runs /\
   (n_geo_frames path_frames - 1 = length runs - 1)%nat).
Proof.
  intros Hruns.
  assert (path_frames <> []) as Hne by (by intros ->).
  destruct (build_runs_maximal path_frames Hne) as (runs' & Hruns' & Hmax).
  assert (runs' = runs) as -> by congruence.
  pose proof (mr_tiles _ _ Hmax) as Ht.
  assert ((list_to_set (geo_frame_idx <$> path_frames) : gset Z)
          = list_to_set (run_geo <$> runs)) as Hsets.
  { apply set_eq. intros g. rewrite !elem_of_list_to_set, !list_elem_of_fmap.
    split.
    - intros (f & -> & Hf). apply list_elem_of_lookup_1 in Hf as [k Hk].
      pose proof (lookup_lt_Some _ _ _ Hk) as Hlt.
      destruct (tiles_cover _ _ _ Ht (Z.of_nat k)) as (r & Hr & Hin); [lia|].
      exists r. split; [|done].
      pose proof (mr_geo _ _ Hmax r _ Hr Hin) as Hgeo.
      unfold geo_at in Hgeo. rewrite Nat2Z.id, Hk in Hgeo.
      simpl in Hgeo. congruence.
    - intros (r & -> & Hr).
      destruct (tiles_bounds _ _ _ _ Ht Hr) as (H0 & H1 & H2 & _).
      pose proof (mr_geo _ _ Hmax r (run_start r) Hr ltac:(lia)) as Hgeo.
      unfold geo_at in Hgeo.
      destruct (path_frames !! Z.to_nat (run_start r)) as [f|] eqn:Hf;
        [|done].
      exists f. split; [simpl in Hgeo; congruence|].
      by eapply list_elem_of_lookup_2. }
  unfold n_geo_frames. rewrite Hsets. split.
  - rewrite <- (length_fmap run_geo runs). apply size_list_to_set_le.
  - intros Hmono.
    assert (size (list_to_set (run_geo <$> runs) : gset Z) = length runs)
      as Hsize; [|by rewrite Hsize].
    rewrite <- (length_fmap run_geo runs). apply size_list_to_set.
    assert (forall j a b, (run_geo <$> runs) !! j = Some a ->
                          (run_geo <$> runs) !! S j = Some b -> a < b)
      as Hadj.
    { intros j ga gb Ha Hb. rewrite list_lookup_fmap in Ha, Hb.
      destruct (runs !! j) as [a|] eqn:Hja; [|done].
      destruct (runs !! S j) as [b|] eqn:Hjb; [|done].
      simpl in Ha, Hb. simplify_eq.
      pose proof (mr_maximal _ _ Hmax j a b Hja Hjb) as Hdiff.
      assert (a ∈ runs) as Hain by (by eapply list_elem_of_lookup_2).
      assert (b ∈ runs) as Hbin by (by eapply list_elem_of_lookup_2).
      destruct (tiles_bounds _ _ _ _ Ht Hain) as (Ha0 & Ha1 & _ & _).
      destruct (tiles_bounds _ _ _ _ Ht Hbin) as (_ & Hb1 & Hb2 & _).
      pose proof (tiles_adjacent _ _ _ Ht j a b Hja Hjb) as Hadj.
      pose proof (mr_geo _ _ Hmax a (run_start a) Hain ltac:(lia)) as Hga.
      pose proof (mr_geo _ _ Hmax b (run_start b) Hbin ltac:(lia)) as Hgb.
      unfold geo_at in Hga, Hgb.
      destruct (path_frames !! Z.to_nat (run_start a)) as [fa|] eqn:Hfa;
        [|done].
      destruct (path_frames !! Z.to_nat (run_start b)) as [fb|] eqn:Hfb;
        [|done].
      simpl in Hga, Hgb. simplify_eq.
      assert (geo_frame_idx fa <= geo_frame_idx fb); [|lia].
      apply (Hmono (Z.to_nat (run_start a)) (Z.to_nat (run_start b)));
        [lia|done|done]. }
    apply NoDup_alt. intros i j g Hi Hj.
    destruct (Nat.lt_trichotomy i j) as [Hlt|[->|Hgt]]; [|done|].
    + replace j with (i + S (j - i - 1))%nat in Hj by lia.
      pose proof (increasing_lookup _ Hadj _ _ _ _ Hi Hj). lia.
    + replace i with (j + S (i - j - 1))%nat in Hi by lia.
      pose proof (increasing_lookup _ Hadj _ _ _ _ Hj Hi). lia.
Qed.

Lemma X22_reported_transitions_witness :
  (n_geo_frames ten_ten <= 2)%nat.
Proof.
  refine (proj1 (X22_reported_transitions ten_ten
                   [(0, 0, 10, 10); (1, 10, 20, 10)] _)).
  reflexivity.
Defined.

End ExtraTransitions.

(** ** [render_globe.py]: every render shows the scheduled textures *)

Section ExtraRenderGlobe.
Import RenderGlobeMain.
Context {py_math : PyMath}.

Lemma py_index_in_range {A : Type} (l : list A) (i : Z) :
  0 <= i < Z.of_nat (length l) ->
  exists x, py_index l i = Some x /\ l !! Z.to_nat i = Some x.
Proof.
  intros Hi. unfold py_index.
  destruct (Z.leb_spec 0 i) as [_|]; [|lia].
  destruct (lookup_lt_is_Some_2 l (Z.to_nat i)) as [x Hx]; [lia|]. eauto.
Qed.

Lemma load_texture_a_spec (frame_files : list string) (geo : Z) (st : state) :
  slots_ok frame_files st -> 0 <= geo < Z.of_nat (length frame_files) ->
  exists st',
    load_texture_a frame_files geo st = Some st' /\
    slots_ok frame_files st' /\
    frame_files !! Z.to_nat geo = Some (tex_image_a st') /\
    tex_image_b st' = tex_image_b st /\
    mix_factor st' = mix_factor st /\
    rotation_euler st' = rotation_euler st /\
    renders st' = renders st.
Proof.
  intros (Himg & Ha & Hb) Hgeo. unfold load_texture_a.
  destruct (Z.eqb_spec geo (prev_geo_a st)) as [Heq|Hne]; cbn [negb].
  - exists st. split; [done|]. split; [done|].
    destruct Ha as [Ha|[_ Ha]]; [lia|]. rewrite Heq. done.
  - destruct (py_index_in_range frame_files geo Hgeo) as (new_a & -> & Hnew).
    cbn [mbind option_bind]. eexists. split; [reflexivity|].
    unfold slots_ok.
    cbn [images tex_image_a tex_image_b mix_factor rotation_euler prev_geo_a
         prev_geo_b renders].
    split; [|done]. split; [|split; [right; split; [lia|done]|done]].
    rewrite Himg.
    destruct (bool_decide (tex_image_a st <> new_a)) eqn:H1;
      destruct (bool_decide (tex_image_a st <> tex_image_b st)) eqn:H2;
      cbn [andb];
      try apply bool_decide_eq_true in H1;
      try apply bool_decide_eq_false in H1;
      try apply bool_decide_eq_true in H2;
      try apply bool_decide_eq_false in H2;
      try apply dec_stable in H1; try apply dec_stable in H2;
      set_solver.
Qed.

Lemma load_texture_b_spec (frame_files : list string) (geo : Z) (st : state) :
  slots_ok frame_files st -> 0 <= geo < Z.of_nat (length frame_files) ->
  exists st',
    load_texture_b frame_files geo st = Some st' /\
    slots_ok frame_files st' /\
    frame_files !! Z.to_nat geo = Some (tex_image_b st') /\
    tex_image_a st' = tex_image_a st /\
    mix_factor st' = mix_factor st /\
    rotation_euler st' = rotation_euler st /\
    renders st' = renders st.
Proof.
  intros (Himg & Ha & Hb) Hgeo. unfold load_texture_b.
  destruct (Z.eqb_spec geo (prev_geo_b st)) as [Heq|Hne]; cbn [negb].
  - exists st. split; [done|]. split; [done|].
    destruct Hb as [Hb|[_ Hb]]; [lia|]. rewrite Heq. done.
  - destruct (py_index_in_range frame_files geo Hgeo) as (new_b & -> & Hnew).
    cbn [mbind option_bind]. eexists. split; [reflexivity|].
    unfold slots_ok.
    cbn [images tex_image_a tex_image_b mix_factor rotation_euler prev_geo_a
         prev_geo_b renders].
    split; [|done]. split; [|split; [done|right; split; [lia|done]]].
    rewrite Himg.
    destruct (bool_decide (tex_image_b st <> new_b)) eqn:H1;
      destruct (bool_decide (tex_image_b st <> tex_image_a st)) eqn:H2;
      cbn [andb];
      try apply bool_decide_eq_true in H1;
      try apply bool_decide_eq_false in H1;
      try apply bool_decide_eq_true in H2;
      try apply bool_decide_eq_false in H2;
      try apply dec_stable in H1; try apply dec_stable in H2;
      set_solver.
Qed.

Lemma slots_ok_ext (frame_files : list string) (st st' : state) :
  slots_ok frame_files st ->
  images st' = images st -> tex_image_a st' = tex_image_a st ->
  tex_image_b st' = tex_image_b st -> prev_geo_a st' = prev_geo_a st ->
  prev_geo_b st' = prev_geo_b st ->
  slots_ok frame_files st'.
Proof.
  unfold slots_ok. intros H -> -> -> -> ->. done.
Qed.

Lemma globe_frame_step_spec (frame_files : list string)
    (m : gmap Z assignment) (st : state) (i : Z) (pf : frame) :
  slots_ok frame_files st ->
  0 <= geo_frame_idx pf < Z.of_nat (length frame_files) ->
  (forall geo_a geo_b alpha, m !! i = Some (geo_a, geo_b, alpha) ->
     0 <= geo_a < Z.of_nat (length frame_files) /\
     0 <= geo_b < Z.of_nat (length frame_files)) ->
  exists st' r,
    frame_step frame_files m st i pf = Some st' /\
    slots_ok frame_files st' /\
    renders st' = renders st ++ [r] /\
    shows frame_files m i pf r /\
    r_image_a r ∈ images st' /\ r_image_b r ∈ images st'.
Proof.
  intros Hok Hgeo Hentry. unfold frame_step, shows.
  set (st0 := State (images st) (tex_image_a st) (tex_image_b st)
                    (mix_factor st)
                    (0%Q, (- math_radians (camera_lat pf))%Q,
                     (- math_radians (camera_lon pf))%Q)
                    (prev_geo_a st) (prev_geo_b st) (renders st)).
  assert (slots_ok frame_files st0) as Hok0
    by (by apply (slots_ok_ext frame_files st)).
  destruct (m !! i) as [[[geo_a geo_b] alpha]|] eqn:Hm.
  - destruct (Hentry geo_a geo_b alpha eq_refl) as [Hga Hgb].
    destruct (load_texture_a_spec frame_files geo_a st0 Hok0 Hga)
      as (st1 & -> & Hok1 & Ha1 & Hb1 & Hm1 & Hr1 & Hrs1).
    cbn [mbind option_bind].
    destruct (load_texture_b_spec frame_files geo_b st1 Hok1 Hgb)
      as (st2 & -> & Hok2 & Hb2 & Ha2 & Hm2 & Hr2 & Hrs2).
    cbn [mbind option_bind]. eexists _, _. split; [reflexivity|].
    cbn [images tex_image_a tex_image_b mix_factor rotation_euler prev_geo_a
         prev_geo_b renders set_mix_factor r_anim_f r_rotation_euler
         r_image_a r_image_b r_factor].
    split; [by apply (slots_ok_ext frame_files st2)|].
    split; [by rewrite Hrs2, Hrs1|].
    split; [|destruct Hok2 as (-> & _); set_solver].
    split; [done|]. split; [by rewrite Hr2, Hr1|].
    split; [by rewrite Ha2|]. done.
  - destruct (load_texture_a_spec frame_files (geo_frame_idx pf) st0 Hok0 Hgeo)
      as (st1 & -> & Hok1 & Ha1 & Hb1 & Hm1 & Hr1 & Hrs1).
    cbn [mbind option_bind]. eexists _, _. split; [reflexivity|].
    cbn [images tex_image_a tex_image_b mix_factor rotation_euler prev_geo_a
         prev_geo_b renders set_mix_factor r_anim_f r_rotation_euler
         r_image_a r_image_b r_factor].
    split; [by apply (slots_ok_ext frame_files st1)|].
    split; [by rewrite Hrs1|].
    split; [|destruct Hok1 as (-> & _); set_solver].
    split; [done|]. split; [by rewrite Hr1|]. done.
Qed.

Lemma globe_frame_loop_spec (frame_files : list string)
    (m : gmap Z assignment) :
  (forall i geo_a geo_b alpha, m !! i = Some (geo_a, geo_b, alpha) ->
     0 <= geo_a < Z.of_nat (length frame_files) /\
     0 <= geo_b < Z.of_nat (length frame_files)) ->
  forall rest k st,
    slots_ok frame_files st -> geo_in_range frame_files rest ->
    exists st' new,
      frame_loop frame_files m (Z.of_nat k) rest st = Some st' /\
      slots_ok frame_files st' /\
      renders st' = renders st ++ new /\ length new = length rest /\
      forall j pf, rest !! j = Some pf ->
        exists r, new !! j = Some r /\
                  shows frame_files m (Z.of_nat (k + j)) pf r.
Proof.
  intros Hentry. induction rest as [|pf rest IH]; intros k st Hok Hrange.
  - exists st, []. simpl. rewrite app_nil_r. done.
  - cbn [frame_loop].
    destruct (globe_frame_step_spec frame_files m st (Z.of_nat k) pf Hok)
      as (st1 & r & Hstep & Hok1 & Hrs1 & Hshow & _).
    { apply (Hrange 0%nat). done. }
    { apply Hentry. }
    rewrite Hstep. cbn [mbind option_bind].
    replace (Z.of_nat k + 1) with (Z.of_nat (S k)) by lia.
    destruct (IH (S k) st1 Hok1)
      as (st' & new & Hloop & Hok' & Hrs & Hlen & Hall).
    { intros j pf' Hj. apply (Hrange (S j)). done. }
    exists st', (r :: new). split; [done|]. split; [done|].
    split; [by rewrite Hrs, Hrs1, <- app_assoc|].
    split; [simpl; lia|].
    intros [|j] pf' Hj; simpl in Hj.
    + injection Hj as <-. exists r. rewrite Nat.add_0_r. done.
    + destruct (Hall j pf' Hj) as (r' & Hr' & Hshow').
      exists r'. split; [done|].
      by replace (k + S j)%nat with (S k + j)%nat by lia.
Qed.

Lemma initial_state_ok (frame_files : list string) (st : state) :
  initial_state frame_files = Some st ->
  slots_ok frame_files st /\ renders st = [].
Proof.
  unfold initial_state. destruct (frame_files !! 0%nat) as [img|]; [|done].
  intros [= <-]. split; [|done]. split; [|split].
  - cbn [images tex_image_a tex_image_b]. set_solver.
  - by left.
  - by left.
Qed.

Lemma schedule_geo_in_range (frame_files : list string)
    (path_frames : list frame) (h : Z) (m : gmap Z assignment) :
  geo_in_range frame_files path_frames ->
  RenderGlobe.compute_crossfade_schedule path_frames h = Some m ->
  forall i geo_a geo_b alpha, m !! i = Some (geo_a, geo_b, alpha) ->
    0 <= geo_a < Z.of_nat (length frame_files) /\
    0 <= geo_b < Z.of_nat (length frame_files).
Proof.
  intros Hrange Hm i geo_a geo_b alpha Hi.
  destruct (schedule_entry_in_path _ _ _ _ _ _ _ Hm Hi)
    as (_ & (ka & Hka) & (kb & Hkb)).
  unfold geo_at in Hka, Hkb.
  destruct (path_frames !! Z.to_nat ka) as [fa|] eqn:Hfa; [|done].
  destruct (path_frames !! Z.to_nat kb) as [fb|] eqn:Hfb; [|done].
  simpl in Hka, Hkb. simplify_eq. split; by eapply Hrange.
Qed.

(** X23. The render loop of [render_globe.py] never shows a stale
    texture.  For a non-empty path whose timestep indices all name frame
    files, the loop runs to the end and renders one image per animation
    frame, in order, under the frame's number plus one and with the globe
    turned by the frame's camera angles: a frame outside the schedule shows
    the file of its own timestep with mix factor 0, a scheduled frame shows
    the files of the two timesteps of its entry mixed by the entry's
    factor.  Skipping the load when the index equals the one loaded before
    is therefore sound. *)
Theorem X23_globe_renders_scheduled_textures
    (frame_files : list string) (path_frames : list frame) :
  path_frames <> [] -> frame_files <> [] ->
  geo_in_range frame_files path_frames ->
  exists m st,
    RenderGlobe.compute_crossfade_schedule path_frames CROSSFADE_HALF
      = Some m /\
    render_frames frame_files path_frames = Some st /\
    length (renders st) = length path_frames /\
    forall k pf, path_frames !! k = Some pf ->
      exists r, renders st !! k = Some r /\
                shows frame_files m (Z.of_nat k) pf r.
Proof.
  intros Hne Hfiles Hrange.
  destruct (build_runs_maximal path_frames Hne) as (runs & Hruns & _).
  assert (exists m, RenderGlobe.compute_crossfade_schedule
                      path_frames CROSSFADE_HALF = Some m) as [m Hm].
  { unfold RenderGlobe.compute_crossfade_schedule. rewrite Hruns. eauto. }
  destruct (initial_state frame_files) as [st0|] eqn:Hinit.
  2:{ unfold initial_state in Hinit. by destruct frame_files. }
  destruct (initial_state_ok _ _ Hinit) as [Hok0 Hrs0].
  destruct (globe_frame_loop_spec frame_files m
              (schedule_geo_in_range _ _ _ _ Hrange Hm)
              path_frames 0 st0 Hok0 Hrange)
    as (st & new & Hloop & _ & Hrs & Hlen & Hall).
  exists m, st. split; [done|]. split; [|split].
  - unfold render_frames. rewrite Hinit. cbn [mbind option_bind].
    rewrite Hm. done.
  - rewrite Hrs, Hrs0. done.
  - intros k pf Hk. rewrite Hrs, Hrs0. cbn [app]. by apply Hall.
Qed.

(** X24. The render loop of [render_globe.py] keeps at most two images
    loaded: after any number of frames the set of loaded image data-blocks
    is exactly the two texture slots, so an image is removed only once no
    slot uses it and every image that leaves both slots is removed. *)
Theorem X24_globe_images_bounded
    (frame_files : list string) (path_frames : list frame)
    (m : gmap Z assignment) (st0 : state) (k : nat) :
  geo_in_range frame_files path_frames ->
  RenderGlobe.compute_crossfade_schedule path_frames CROSSFADE_HALF
    = Some m ->
  initial_state frame_files = Some st0 ->
  exists st,
    frame_loop frame_files m 0 (take k path_frames) st0 = Some st /\
    images st = {[tex_image_a st]} ∪ {[tex_image_b st]} /\
    (size (images st) <= 2)%nat /\
    length (renders st) = Nat.min k (length path_frames).
Proof.
  intros Hrange Hm Hinit.
  destruct (initial_state_ok _ _ Hinit) as [Hok0 Hrs0].
  destruct (globe_frame_loop_spec frame_files m
              (schedule_geo_in_range _ _ _ _ Hrange Hm)
              (take k path_frames) 0 st0 Hok0)
    as (st & new & Hloop & (Himg & _) & Hrs & Hlen & _).
  { intros j pf Hj. apply lookup_take_Some in Hj as [Hj _].
    by apply (Hrange j). }
  exists st. split; [done|]. split; [done|]. split.
  - rewrite Himg.
    destruct (decide (tex_image_a st = tex_image_b st)) as [->|Hne].
    + rewrite union_idemp_L, size_singleton. lia.
    + rewrite size_union by set_solver. rewrite !size_singleton. lia.
  - rewrite Hrs, Hrs0. cbn [app]. by rewrite Hlen, length_take.
Qed.

End ExtraRenderGlobe.

Lemma X23_globe_renders_scheduled_textures_witness :
  exists m st,
    RenderGlobe.compute_crossfade_schedule two_two 1 = Some m /\
    @RenderGlobeMain.render_frames linear_math
      ["globe_frame_0000.png"; "globe_frame_0001.png"]%string two_two
    = Some st /\
    length (RenderGlobeMain.renders st) = 4%nat.
Proof.
  destruct (@X23_globe_renders_scheduled_textures linear_math
              ["globe_frame_0000.png"; "globe_frame_0001.png"]%string two_two)
    as (m & st & Hm & Hst & Hlen & _).
  - discriminate.
  - discriminate.
  - intros k pf Hk.
    repeat (destruct k as [|k]; [injection Hk as <-; simpl; lia|]).
    discriminate.
  - exists m, st. split; [exact Hm|]. split; [exact Hst|exact Hlen].
Defined.

Lemma X24_globe_images_bounded_witness :
  exists st,
    @RenderGlobeMain.frame_loop linear_math
      ["globe_frame_0000.png"; "globe_frame_0001.png"]%string
      (<[2 := (0, 1, (2 # 3)%Q)]> (<[1 := (0, 1, (1 # 3)%Q)]> ∅)) 0
      (take 3 two_two)
      (RenderGlobeMain.State {["globe_frame_0000.png"%string]}
         "globe_frame_0000.png" "globe_frame_0000.png" 0 (0%Q, 0%Q, 0%Q)
         (-1) (-1) [])
    = Some st /\
    (size (RenderGlobeMain.images st) <= 2)%nat.
Proof.
  destruct (@X24_globe_images_bounded linear_math
              ["globe_frame_0000.png"; "globe_frame_0001.png"]%string two_two
              (<[2 := (0, 1, (2 # 3)%Q)]> (<[1 := (0, 1, (1 # 3)%Q)]> ∅))
              (RenderGlobeMain.State {["globe_frame_0000.png"%string]}
                 "globe_frame_0000.png" "globe_frame_0000.png" 0
                 (0%Q, 0%Q, 0%Q) (-1) (-1) [])
              3)
    as (st & Hloop & _ & Hsize & _).
  - intros k pf Hk.
    repeat (destruct k as [|k]; [injection Hk as <-; simpl; lia|]).
    discriminate.
  - reflexivity.
  - reflexivity.
  - exists st. split; [exact Hloop|exact Hsize].
Defined.

(** ** The subtitle overlay: time stamps and blocks *)

Section ExtraSubtitles.
Import Subtitles.
Context {py_format : PyFormat} {arith : Float64}.

Lemma Qfloor_unique (x : Q) (z : Z) :
  (inject_Z z <= x)%Q -> (x < inject_Z (z + 1))%Q -> Qfloor x = z.
Proof.
  intros H1 H2.
  pose proof (Qfloor_le x) as H3. pose proof (Qlt_floor x) as H4.
  assert (Qfloor x < z + 1)
    by (rewrite Zlt_Qlt; eapply Qle_lt_trans; eauto).
  assert (z < Qfloor x + 1)
    by (rewrite Zlt_Qlt; eapply Qle_lt_trans; eauto).
  lia.
Qed.

Lemma py_int_inject_Z (z : Z) : py_int (inject_Z z) = z.
Proof.
  unfold py_int.
  destruct (Qle_bool 0 (inject_Z z)); [apply Qfloor_Z|apply Qceiling_Z].
Qed.

Lemma inject_Z_pos (c : Z) : 0 < c -> (0 < inject_Z c)%Q.
Proof. intros H. rewrite Zlt_Qlt in H. exact H. Qed.

(** Python's float [%] and [//] on a non-negative dividend and a positive
    integer divisor: the remainder is [fmod]'s, with no sign correction,
    and the quotient is the floor of the exact quotient as long as the
    dividend is at most [2^53]. *)
Lemma fmod_nonneg (x : Q) (c : Z) :
  (0 <= x)%Q -> 0 < c ->
  fmod x (inject_Z c)
  = (x - inject_Z c * inject_Z (Qfloor (x / inject_Z c)))%Q /\
  (0 <= fmod x (inject_Z c))%Q /\ (fmod x (inject_Z c) < inject_Z c)%Q /\
  0 <= Qfloor (x / inject_Z c) /\
  (inject_Z (c * Qfloor (x / inject_Z c)) <= x)%Q.
Proof.
  intros Hx Hc.
  pose proof (inject_Z_pos c Hc) as Hc'.
  assert (0 <= x / inject_Z c)%Q as Hq by (apply Qle_shift_div_l; lra).
  unfold fmod, py_int.
  replace (Qle_bool 0 (x / inject_Z c)) with true
    by (symmetry; by apply Qle_bool_iff).
  pose proof (Qfloor_le (x / inject_Z c)) as H1.
  pose proof (Qlt_floor (x / inject_Z c)) as H2.
  set (K := Qfloor (x / inject_Z c)) in *.
  rewrite inject_Z_plus in H2. change (inject_Z 1) with 1%Q in H2.
  assert (x == x / inject_Z c * inject_Z c)%Q as Ex by (field; lra).
  assert (inject_Z K * inject_Z c <= x / inject_Z c * inject_Z c)%Q as Hlo
    by (apply Qmult_le_compat_r; lra).
  assert (x / inject_Z c * inject_Z c < (inject_Z K + 1) * inject_Z c)%Q
    as Hhi by (apply Qmult_lt_compat_r; lra).
  rewrite <- Ex in Hlo, Hhi.
  split; [done|]. split; [lra|]. split; [lra|]. split.
  - assert (-1 < K); [|lia].
    rewrite Zlt_Qlt. change (inject_Z (-1)) with (-1 # 1)%Q. lra.
  - rewrite inject_Z_mult. lra.
Qed.

Lemma sign_differs_nonneg (r y : Q) :
  (0 <= r)%Q -> (0 <= y)%Q -> sign_differs r y = false.
Proof.
  intros Hr Hy. unfold sign_differs.
  replace (Qle_bool 0 y) with true by (symmetry; by apply Qle_bool_iff).
  replace (Qle_bool 0 r) with true by (symmetry; by apply Qle_bool_iff).
  simpl. apply andb_false_r.
Qed.

Lemma py_mod_nonneg (x : Q) (c : Z) :
  (0 <= x)%Q -> 0 < c -> py_mod x (inject_Z c) = fmod x (inject_Z c).
Proof.
  intros Hx Hc. destruct (fmod_nonneg x c Hx Hc) as (_ & Hr0 & _).
  assert (0 <= inject_Z c)%Q as Hc'
    by (apply Qlt_le_weak, inject_Z_pos, Hc).
  unfold py_mod. cbv zeta. by rewrite sign_differs_nonneg.
Qed.

Lemma py_floordiv_nonneg (x : Q) (c : Z) :
  Float64Laws arith ->
  (0 <= x)%Q -> (x <= inject_Z (2 ^ 53))%Q -> 0 < c ->
  py_int (py_floordiv x (inject_Z c)) = Qfloor (x / inject_Z c).
Proof.
  intros Hlaws Hx Hbig Hc.
  destruct (fmod_nonneg x c Hx Hc) as (Hr & Hr0 & Hrc & HK0 & HcK).
  assert (0 <= inject_Z c)%Q as Hc0 by (apply Qlt_le_weak, inject_Z_pos, Hc).
  pose proof (inject_Z_pos c Hc) as Hc'.
  unfold py_floordiv. cbv zeta. rewrite sign_differs_nonneg by done.
  set (K := Qfloor (x / inject_Z c)) in *.
  assert (c * K <= 2 ^ 53) as HcK'.
  { rewrite Zle_Qle. exact (Qle_trans _ _ _ HcK Hbig). }
  assert (K <= c * K) as HKc by nia.
  assert (f64_sub x (fmod x (inject_Z c)) == inject_Z (c * K))%Q as Esub.
  { apply f64_sub_exact; [lia|]. rewrite Hr, inject_Z_mult. ring. }
  assert (f64_div (f64_sub x (fmod x (inject_Z c))) (inject_Z c)
          == inject_Z K)%Q as Ediv.
  { pose proof f64_div_proper as Hp. rewrite Esub.
    apply f64_div_exact; [lia|lra|]. rewrite inject_Z_mult. field. lra. }
  set (div := f64_div (f64_sub x (fmod x (inject_Z c))) (inject_Z c)) in *.
  destruct (Qeq_bool div 0) eqn:Hz.
  - apply Qeq_bool_iff in Hz.
    assert (K = 0) as ->; [|reflexivity].
    apply inject_Z_injective. rewrite <- Ediv. exact Hz.
  - assert (Qfloor div = K) as HfK.
    { rewrite (Qfloor_comp _ _ Ediv). apply Qfloor_Z. }
    rewrite HfK.
    assert (f64_sub div (inject_Z K) == inject_Z 0)%Q as Ezero.
    { apply f64_sub_exact; [lia|]. rewrite Ediv. change (inject_Z 0) with 0%Q.
      ring. }
    replace (Qle_bool (f64_sub div (inject_Z K)) (1 # 2)) with true.
    + apply py_int_inject_Z.
    + symmetry. apply Qle_bool_iff. rewrite Ezero. done.
Qed.

(** X25. [frame_to_ass_time] splits the seconds without loss.  In the
    script's arithmetic, for a frame rate other than zero and a quotient
    [total_seconds = frame_num / fps] that the script computes as a value
    from 0 to [2^53], the three fields it formats add up to
    [total_seconds], the hours are not negative, the minutes lie in 0..59
    and the seconds in [0, 60). *)
Theorem X25_ass_time_splits_seconds (frame_num fps : Z) :
  Float64Laws arith ->
  fps <> 0 ->
  (0 <= total_seconds frame_num fps)%Q ->
  (total_seconds frame_num fps <= inject_Z (2 ^ 53))%Q ->
  exists h m s,
    ass_time_fields frame_num fps = Some (h, m, s) /\
    (inject_Z (3600 * h + 60 * m) + s == total_seconds frame_num fps)%Q /\
    0 <= h /\ 0 <= m < 60 /\ (0 <= s)%Q /\ (s < 60)%Q.
Proof.
  intros Hlaws Hfps Ht0 Htbig. unfold ass_time_fields.
  destruct (Z.eqb_spec fps 0) as [|_]; [done|]. cbv zeta.
  set (t := total_seconds frame_num fps) in *.
  eexists _, _, _. split; [reflexivity|].
  change (3600 # 1)%Q with (inject_Z 3600).
  change (60 # 1)%Q with (inject_Z 60).
  destruct (fmod_nonneg t 3600 Ht0 ltac:(lia)) as (Hr & Hr0 & Hr1 & HH0 & _).
  rewrite !py_mod_nonneg by (done || lia).
  rewrite (py_floordiv_nonneg t 3600) by (done || lia).
  rewrite (py_floordiv_nonneg (fmod t (inject_Z 3600)) 60);
    [|done|done| |lia].
  2:{ eapply Qle_trans; [apply Qlt_le_weak, Hr1|].
      rewrite <- Zle_Qle. lia. }
  destruct (fmod_nonneg t 60 Ht0 ltac:(lia)) as (Hs & Hs0 & Hs1 & _ & _).
  rewrite Hr in *. rewrite Hs in *. clear Hr Hs.
  change (inject_Z 3600) with (3600 # 1)%Q in *.
  change (inject_Z 60) with (60 # 1)%Q in *.
  pose proof (Qfloor_le (t / (3600 # 1))) as HH1.
  pose proof (Qlt_floor (t / (3600 # 1))) as HH2.
  pose proof (Qfloor_le (t / (60 # 1))) as Hq1.
  pose proof (Qlt_floor (t / (60 # 1))) as Hq2.
  set (H := Qfloor (t / (3600 # 1))) in *.
  set (q := Qfloor (t / (60 # 1))) in *.
  rewrite inject_Z_plus in HH2, Hq2.
  change (inject_Z 1) with 1%Q in HH2, Hq2.
  assert (t / (3600 # 1) == t * (1 # 3600))%Q as E1 by field.
  assert (t / (60 # 1) == t * (1 # 60))%Q as E2 by field.
  rewrite E1 in HH1, HH2. rewrite E2 in Hq1, Hq2.
  assert (Qfloor ((t - (3600 # 1) * inject_Z H) / (60 # 1)) = q - 60 * H)
    as ->.
  { assert ((t - (3600 # 1) * inject_Z H) / (60 # 1)
            == t * (1 # 60) - (60 # 1) * inject_Z H)%Q as E3 by field.
    apply Qfloor_unique; rewrite E3; unfold Z.sub;
      rewrite ?inject_Z_plus, ?inject_Z_opp, ?inject_Z_mult;
      change (inject_Z 60) with (60 # 1); change (inject_Z 1) with 1%Q; lra. }
  assert (60 * H < q + 1) as Hlo.
  { rewrite Zlt_Qlt, inject_Z_plus, inject_Z_mult.
    change (inject_Z 60) with (60 # 1). change (inject_Z 1) with 1%Q. lra. }
  assert (q < 60 * H + 60) as Hhi.
  { rewrite Zlt_Qlt, inject_Z_plus, inject_Z_mult.
    change (inject_Z 60) with (60 # 1). lra. }
  split; [|split; [done|split; [lia|split; lra]]].
  replace (3600 * H + 60 * (q - 60 * H)) with (60 * q) by lia.
  rewrite inject_Z_mult. change (inject_Z 60) with (60 # 1). lra.
Qed.

Lemma chained_snoc (s : Z) (l : list dialogue) (b e : Z)
    (sty : ass_style) (txt : string) :
  chained s l b -> b < e -> chained s (l ++ [Dialogue b e sty txt]) e.
Proof.
  induction 1 as [s|s d ds e' Hs Hlt Hch IH]; intros Hbe; simpl.
  - apply (chained_cons s (Dialogue s e sty txt) [] e); [done|done|].
    apply chained_nil.
  - apply chained_cons; [done|done|]. by apply IH.
Qed.

Lemma filter_block_events (b e : Z) (txt era : string) :
  filter is_time_label (block_events b e txt era)
  = [Dialogue b e TimeLabel txt].
Proof.
  unfold block_events. by destruct (negb (String.eqb era EmptyString)).
Qed.

Lemma same_block_spec (t t0 : Q) (e e0 : string) :
  negb (Qeq_bool t t0) || negb (String.eqb e e0) = false
  <-> (t == t0)%Q /\ e = e0.
Proof.
  rewrite orb_false_iff, !negb_false_iff, Qeq_bool_iff, String.eqb_eq. done.
Qed.

Lemma close_block (path_frames : list frame) (evs : list dialogue)
    (f0 : frame) (b e : Z) (txt : string) :
  (forall d, d ∈ evs ->
     d_end d <= b /\
     exists g, covers_block path_frames d g /\
       describes (Z.of_nat (length path_frames)) d g /\
       (era_label g <> EmptyString ->
        Dialogue (d_start d) (d_end d) EraLabel (era_label g) ∈ evs)) ->
  path_frames !! Z.to_nat b = Some f0 -> 0 <= b < e ->
  (forall j f, b <= j < e -> path_frames !! Z.to_nat j = Some f ->
     (time_ma f == time_ma f0)%Q /\ era_label f = era_label f0) ->
  (forall f, path_frames !! Z.to_nat e = Some f ->
     ~ ((time_ma f == time_ma f0)%Q /\ era_label f = era_label f0)) ->
  txt = (if e =? Z.of_nat (length path_frames)
         then final_time_str (time_ma f0) else time_str (time_ma f0)) ->
  forall d, d ∈ evs ++ block_events b e txt (era_label f0) ->
    d_end d <= e /\
    exists g, covers_block path_frames d g /\
      describes (Z.of_nat (length path_frames)) d g /\
      (era_label g <> EmptyString ->
       Dialogue (d_start d) (d_end d) EraLabel (era_label g)
       ∈ evs ++ block_events b e txt (era_label f0)).
Proof.
  intros Hevs Hb Hbe Hsame Hend Htxt d Hd.
  apply elem_of_app in Hd as [Hd|Hd].
  - destruct (Hevs d Hd) as (Hle & g & Hc & Hdesc & Hera).
    split; [lia|]. exists g. split; [done|]. split; [done|].
    intros Hne. apply elem_of_app. left. auto.
  - assert (forall sty t, covers_block path_frames (Dialogue b e sty t) f0)
      as Hcov.
    { intros sty t. unfold covers_block. cbn [d_start d_end].
      split; [exact Hb|]. split; [exact Hbe|].
      split; [exact Hsame|exact Hend]. }
    assert (era_label f0 <> EmptyString ->
            Dialogue b e EraLabel (era_label f0)
            ∈ evs ++ block_events b e txt (era_label f0)) as Hcomp.
    { intros Hne. apply elem_of_app. right. unfold block_events.
      apply String.eqb_neq in Hne. rewrite Hne. cbn [negb].
      rewrite !elem_of_cons. auto. }
    unfold block_events in Hd. apply elem_of_cons in Hd as [->|Hd].
    + cbn [d_start d_end]. split; [lia|]. exists f0.
      split; [apply Hcov|]. split; [|exact Hcomp].
      unfold describes. cbn [d_style d_text d_end]. exact Htxt.
    + destruct (String.eqb (era_label f0) EmptyString) eqn:He;
        cbn [negb] in Hd; [by apply elem_of_nil in Hd|].
      apply list_elem_of_singleton in Hd as ->.
      cbn [d_start d_end]. split; [lia|]. exists f0.
      split; [apply Hcov|]. split; [|exact Hcomp].
      unfold describes. cbn [d_style d_text d_end].
      split; [done|]. by apply String.eqb_neq.
Qed.

Lemma subtitle_prefix (path_frames : list frame) :
  (forall k f, path_frames !! k = Some f -> anim_frame f = Z.of_nat k) ->
  forall k, (k < length path_frames)%nat ->
  exists evs f0 b,
    foldl subtitle_step ([], None, 0) (take (S k) path_frames)
    = (evs, Some (time_ma f0, era_label f0), b) /\
    chained 0 (filter is_time_label evs) b /\
    0 <= b <= Z.of_nat k /\
    path_frames !! Z.to_nat b = Some f0 /\
    (forall j f, b <= j <= Z.of_nat k ->
       path_frames !! Z.to_nat j = Some f ->
       (time_ma f == time_ma f0)%Q /\ era_label f = era_label f0) /\
    (forall d, d ∈ evs ->
       d_end d <= b /\
       exists g, covers_block path_frames d g /\
         describes (Z.of_nat (length path_frames)) d g /\
         (era_label g <> EmptyString ->
          Dialogue (d_start d) (d_end d) EraLabel (era_label g) ∈ evs)).
Proof.
  intros Hanim. induction k as [|k IH]; intros Hk.
  - destruct path_frames as [|f rest] eqn:Hpath; [simpl in Hk; lia|].
    exists [], f, 0. cbn [take foldl subtitle_step].
    rewrite (Hanim 0%nat f eq_refl). cbn [Z.of_nat].
    split; [done|]. split; [apply chained_nil|]. split; [lia|].
    split; [done|]. split.
    + intros j f' Hj Hf'. assert (j = 0) as -> by lia.
      simpl in Hf'. injection Hf' as <-. done.
    + intros d Hd. by apply elem_of_nil in Hd.
  - destruct IH as (evs & f0 & b & Hfold & Hch & Hb & Hf0 & Hsame & Hevs);
      [lia|].
    destruct (lookup_lt_is_Some_2 path_frames (S k) Hk) as [f Hf].
    rewrite (take_S_r _ _ _ Hf), foldl_app, Hfold. cbn [foldl].
    unfold subtitle_step. rewrite (Hanim _ _ Hf).
    destruct (negb (Qeq_bool (time_ma f) (time_ma f0))
              || negb (String.eqb (era_label f) (era_label f0))) eqn:Hc.
    + eexists _, f, _. split; [reflexivity|].
      split.
      { rewrite filter_app, filter_block_events.
        apply chained_snoc; [done|lia]. }
      split; [lia|]. split; [by rewrite Nat2Z.id|]. split.
      { intros j f' Hj Hf'. assert (j = Z.of_nat (S k)) as -> by lia.
        rewrite Nat2Z.id in Hf'. assert (f' = f) as -> by congruence.
        done. }
      apply (close_block path_frames evs f0 b (Z.of_nat (S k))); try done.
      * lia.
      * intros j f' Hj. apply Hsame. lia.
      * intros f' Hf' Hagree. rewrite Nat2Z.id in Hf'.
        assert (f' = f) as -> by congruence.
        apply same_block_spec in Hagree. congruence.
      * destruct (Z.eqb_spec (Z.of_nat (S k)) (Z.of_nat (length path_frames)));
          [lia|done].
    + exists evs, f0, b. split; [done|]. split; [done|]. split; [lia|].
      split; [done|]. split; [|done].
      intros j f' Hj Hf'.
      destruct (Z.eq_dec j (Z.of_nat (S k))) as [->|Hne].
      * rewrite Nat2Z.id in Hf'. assert (f' = f) as -> by congruence.
        by apply same_block_spec.
      * apply (Hsame j); [lia|done].
Qed.

(** X26. The subtitle loop cuts the animation into blocks of equal time
    and era.  For a non-empty path whose frames are numbered 0, 1, 2, ...,
    the time labels follow one another without gap or overlap from frame 0
    to [total_frames]; every event covers the frames of one block, which
    agree with the block's first frame in time and era, and ends where the
    next frame differs or the path ends; a time label carries the block's
    time (written by the final [time_str] for the last block), an era label
    the block's era, and a block has an era label over the same frames
    exactly when its era is not the empty string. *)
Theorem X26_subtitle_blocks (path_frames : list frame) :
  path_frames <> [] ->
  (forall k f, path_frames !! k = Some f -> anim_frame f = Z.of_nat k) ->
  chained 0
    (filter is_time_label
       (subtitle_blocks path_frames (Z.of_nat (length path_frames))))
    (Z.of_nat (length path_frames)) /\
  forall d,
    d ∈ subtitle_blocks path_frames (Z.of_nat (length path_frames)) ->
    exists f0,
      covers_block path_frames d f0 /\
      describes (Z.of_nat (length path_frames)) d f0 /\
      (era_label f0 <> EmptyString ->
       Dialogue (d_start d) (d_end d) EraLabel (era_label f0)
       ∈ subtitle_blocks path_frames (Z.of_nat (length path_frames))).
Proof.
  intros Hne Hanim.
  assert (0 < length path_frames)%nat as Hlen
    by (destruct path_frames; [done|simpl; lia]).
  destruct (subtitle_prefix path_frames Hanim (length path_frames - 1))
    as (evs & f0 & b & Hfold & Hch & Hb & Hf0 & Hsame & Hevs); [lia|].
  replace (S (length path_frames - 1)) with (length path_frames) in Hfold
    by lia.
  rewrite take_ge in Hfold by lia.
  unfold subtitle_blocks. rewrite Hfold. split.
  - rewrite filter_app, filter_block_events.
    apply chained_snoc; [done|lia].
  - intros d Hd.
    destruct (close_block path_frames evs f0 b
                (Z.of_nat (length path_frames))
                (final_time_str (time_ma f0)) Hevs Hf0) with (d := d)
      as (_ & g & Hg); try done.
    + lia.
    + intros j f Hj. apply Hsame. lia.
    + intros f Hf. rewrite Nat2Z.id in Hf.
      apply lookup_lt_Some in Hf. lia.
    + by rewrite Z.eqb_refl.
    + by exists g.
Qed.

End ExtraSubtitles.

Lemma X25_ass_time_splits_seconds_witness :
  exists h m s,
    @Subtitles.ass_time_fields binary64 100000 24 = Some (h, m, s) /\
    h = 1 /\ m = 9 /\ (0 <= s)%Q /\ (s < 60)%Q.
Proof.
  destruct (@X25_ass_time_splits_seconds binary64 100000 24 binary64_laws)
    as (h & m & s & Hf & _ & _ & _ & Hs0 & Hs60);
    [lia|vm_compute; discriminate|vm_compute; discriminate|].
  exists h, m, s. split; [exact Hf|].
  vm_compute in Hf. injection Hf as <- <- _.
  split; [reflexivity|]. split; [reflexivity|]. split; [exact Hs0|exact Hs60].
Defined.

(** Below zero the fields can leave their ranges: a quotient of [-1e-18]
    seconds is formatted with 60 minutes and 60 seconds, because the
    remainders [3600 - 1e-18] and [60 - 1e-18] round to 3600 and 60. *)
Lemma ass_time_fields_below_zero :
  exists s,
    @Subtitles.ass_time_fields binary64 (-1) (10 ^ 18) = Some (-1, 60, s) /\
    (s == 60 # 1)%Q.
Proof. eexists. split; vm_compute; reflexivity. Qed.

Lemma X26_subtitle_blocks_witness :
  Subtitles.chained 0
    (filter Subtitles.is_time_label
       (@Subtitles.subtitle_blocks plain_format two_two 4)) 4.
Proof.
  refine (proj1 (@X26_subtitle_blocks plain_format two_two _ _)).
  - discriminate.
  - intros k f Hk.
    repeat (destruct k as [|k]; [injection Hk as <-; reflexivity|]).
    discriminate.
Defined.

(** ** [test_crossfade.py]: the frames it picks *)

Section ExtraTestCrossfade.
Import TestCrossfadeMain.

Lemma py_range_from_one (n : nat) :
  py_range 1 (Z.of_nat n) = map Z.of_nat (seq 1 (n - 1)).
Proof.
  unfold py_range, range. rewrite map_map.
  replace (Z.to_nat (Z.of_nat n - 1)) with (n - 1)%nat by lia.
  rewrite <- seq_shift, map_map. apply map_ext. intros j. lia.
Qed.

Lemma py_range_lookup (a b : Z) (j : nat) :
  Z.of_nat j < b - a -> py_range a b !! j = Some (a + Z.of_nat j).
Proof.
  intros Hj. unfold py_range, range. rewrite map_map.
  change (map ?f ?l) with (f <$> l). rewrite list_lookup_fmap.
  rewrite lookup_seq_lt by lia. done.
Qed.

Lemma py_index_wraps {A : Type} (l : list A) (i : Z) :
  - Z.of_nat (length l) <= i < Z.of_nat (length l) ->
  exists x, py_index l i = Some x /\
            l !! Z.to_nat (i mod Z.of_nat (length l)) = Some x.
Proof.
  intros Hi. unfold py_index. destruct (Z.leb_spec 0 i) as [Hpos|Hneg].
  - rewrite Z.mod_small by lia.
    destruct (lookup_lt_is_Some_2 l (Z.to_nat i)) as [x Hx]; [lia|]. eauto.
  - destruct (Z.leb_spec (- Z.of_nat (length l)) i) as [_|]; [|lia].
    replace (i mod Z.of_nat (length l)) with (Z.of_nat (length l) + i).
    + destruct (lookup_lt_is_Some_2 l (Z.to_nat (Z.of_nat (length l) + i)))
        as [x Hx]; [lia|]. eauto.
    + apply (Z.mod_unique _ _ (-1)); lia.
Qed.

Lemma py_index_past_end {A : Type} (l : list A) (i : Z) :
  Z.of_nat (length l) <= i -> py_index l i = None.
Proof.
  intros Hi. unfold py_index. destruct (Z.leb_spec 0 i); [|lia].
  apply lookup_ge_None. lia.
Qed.

Lemma late_transition_inside (path_frames : list frame) (i : Z) :
  late_transition path_frames i -> 1 <= i < Z.of_nat (length path_frames).
Proof.
  intros (pf & prev & Hpf & Hprev & Hgeo & _).
  pose proof (lookup_lt_Some _ _ _ Hpf) as Hlt. split; [|lia].
  destruct (Z.le_gt_cases 1 i) as [|Hi]; [done|]. exfalso. apply Hgeo.
  replace (Z.to_nat (i - 1)) with (Z.to_nat i) in Hprev by lia. congruence.
Qed.

Lemma transition_scan_spec (path_frames : list frame) :
  forall (m s : nat), (1 <= s)%nat -> (s + m <= length path_frames)%nat ->
  exists r,
    transition_scan path_frames (map Z.of_nat (seq s m)) = Some r /\
    match r with
    | Some c =>
        Z.of_nat s <= c < Z.of_nat (s + m) /\
        late_transition path_frames c /\
        forall i, Z.of_nat s <= i < c -> ~ late_transition path_frames i
    | None =>
        forall i, Z.of_nat s <= i < Z.of_nat (s + m) ->
                  ~ late_transition path_frames i
    end.
Proof.
  induction m as [|m IH]; intros s Hs Hlen.
  - exists None. split; [done|]. intros i Hi. lia.
  - cbn [seq map transition_scan].
    destruct (py_index_in_range path_frames (Z.of_nat s))
      as (pf & -> & Hpf); [lia|].
    destruct (py_index_in_range path_frames (Z.of_nat s - 1))
      as (prev & -> & Hprev); [lia|].
    cbn [mbind option_bind].
    assert (~ late_transition path_frames (Z.of_nat s) ->
            exists r,
              transition_scan path_frames (map Z.of_nat (seq (S s) m))
              = Some r /\
              match r with
              | Some c =>
                  Z.of_nat s <= c < Z.of_nat (s + S m) /\
                  late_transition path_frames c /\
                  forall i, Z.of_nat s <= i < c ->
                            ~ late_transition path_frames i
              | None =>
                  forall i, Z.of_nat s <= i < Z.of_nat (s + S m) ->
                            ~ late_transition path_frames i
              end) as Hrest.
    { intros Hnot. destruct (IH (S s)) as (r & Hr & Hspec); [lia|lia|].
      exists r. split; [done|]. destruct r as [c|].
      - destruct Hspec as (Hc & Hlate & Hfirst). split; [lia|].
        split; [done|]. intros i Hi.
        destruct (Z.eq_dec i (Z.of_nat s)) as [->|]; [done|].
        apply Hfirst. lia.
      - intros i Hi.
        destruct (Z.eq_dec i (Z.of_nat s)) as [->|]; [done|].
        apply Hspec. lia. }
    destruct (Z.eqb_spec (geo_frame_idx pf) (geo_frame_idx prev))
      as [Hgeo|Hgeo]; cbn [negb].
    { apply Hrest. intros (pf' & prev' & Hpf' & Hprev' & Hne & _).
      apply Hne. congruence. }
    destruct (Qle_bool (time_ma pf) (500 # 1)) eqn:Hq.
    + exists (Some (Z.of_nat s)). split; [done|]. split; [lia|]. split.
      * exists pf, prev. split; [done|]. split; [done|]. split; [done|].
        by apply Qle_bool_iff.
      * intros i Hi. lia.
    + apply Hrest. intros (pf' & prev' & Hpf' & Hprev' & _ & Hle).
      assert (pf' = pf) as -> by congruence.
      apply Qle_bool_iff in Hle. congruence.
Qed.

Lemma test_center_scan (path_frames : list frame) :
  path_frames <> [] ->
  exists r,
    transition_scan path_frames
      (py_range 1 (Z.of_nat (length path_frames))) = Some r /\
    match r with
    | Some c =>
        1 <= c < Z.of_nat (length path_frames) /\
        late_transition path_frames c /\
        forall i, 1 <= i < c -> ~ late_transition path_frames i
    | None =>
        forall i, 1 <= i < Z.of_nat (length path_frames) ->
                  ~ late_transition path_frames i
    end.
Proof.
  intros Hne. rewrite py_range_from_one.
  assert (0 < length path_frames)%nat as Hlen
    by (destruct path_frames; [done|simpl; lia]).
  destruct (transition_scan_spec path_frames (length path_frames - 1) 1)
    as (r & Hr & Hspec); [lia|lia|].
  exists r. split; [done|].
  replace (1 + (length path_frames - 1))%nat with (length path_frames)
    in Hspec by lia.
  exact Hspec.
Qed.

Lemma mapM_total {A B : Type} (f : A -> option B) (l : list A) :
  (forall x, x ∈ l -> is_Some (f x)) ->
  exists k, mapM f l = Some k /\ Forall2 (fun x y => f x = Some y) l k.
Proof.
  intros Hall.
  destruct (mapM f l) as [k|] eqn:Hk.
  - exists k. split; [done|]. by apply mapM_Some.
  - apply mapM_None in Hk. apply Exists_exists in Hk as (x & Hx & Hnone).
    destruct (Hall x Hx) as [y Hy]. congruence.
Qed.

(** X27. The search of [test_crossfade.py] never raises and finds the
    first late transition.  The centre it returns is either the smallest
    index whose frame shows another timestep than the frame before it at
    500 Ma or later, or the fallback 672 when the path has no such index
    (in particular when the path is empty). *)
Theorem X27_test_center_first_late_transition (path_frames : list frame) :
  exists c,
    test_center path_frames = Some c /\
    ((1 <= c < Z.of_nat (length path_frames) /\
      late_transition path_frames c /\
      forall i, i < c -> ~ late_transition path_frames i) \/
     (c = 672 /\ forall i, ~ late_transition path_frames i)).
Proof.
  destruct path_frames as [|pf0 rest] eqn:Hpath.
  { exists 672. split; [done|]. right. split; [done|].
    intros i (pf & _ & Hpf & _). done. }
  rewrite <- Hpath.
  destruct (test_center_scan path_frames) as (r & Hr & Hspec);
    [by rewrite Hpath|].
  unfold test_center. rewrite Hr. cbn [mbind option_bind].
  destruct r as [c|]; cbn [default from_option id].
  - exists c. split; [done|]. left.
    destruct Hspec as (Hc & Hlate & Hfirst).
    split; [done|]. split; [done|].
    intros i Hi Hlt. pose proof (late_transition_inside _ _ Hlt).
    apply (Hfirst i); [lia|done].
  - exists 672. split; [done|]. right. split; [done|].
    intros i Hlt. pose proof (late_transition_inside _ _ Hlt).
    by apply (Hspec i).
Qed.

(** X28. The six test frames of [test_crossfade.py] need room after the
    centre, not before it.  With fewer than [c + 3] frames in the path the
    read of [path_frames[idx]] raises; otherwise the loop reads the six
    indices [c - 3 .. c + 2] with their schedule entries, and an index
    below zero (a centre of 1 or 2) silently reads a frame from the end of
    the path. *)
Theorem X28_test_frames_need_room (path_frames : list frame) (c : Z) :
  path_frames <> [] -> test_center path_frames = Some c ->
  (Z.of_nat (length path_frames) < c + 3 ->
   test_frames path_frames = None) /\
  (c + 3 <= Z.of_nat (length path_frames) ->
   exists m entries,
     TestCrossfade.compute_crossfade_schedule path_frames CROSSFADE_HALF
     = Some m /\
     test_frames path_frames = Some entries /\
     length entries = 6%nat /\
     forall j, (j < 6)%nat ->
       exists pf,
         entries !! j
         = Some (c - 3 + Z.of_nat j, pf, m !! (c - 3 + Z.of_nat j)) /\
         path_frames
           !! Z.to_nat ((c - 3 + Z.of_nat j)
                        mod Z.of_nat (length path_frames))
         = Some pf).
Proof.
  intros Hne Hc.
  assert (1 <= c) as Hpos.
  { destruct (test_center_scan path_frames Hne) as (r & Hr & Hspec).
    unfold test_center in Hc. rewrite Hr in Hc.
    cbn [mbind option_bind] in Hc. injection Hc as <-.
    destruct r as [c'|]; cbn [default from_option id]; [|lia].
    destruct Hspec as (Hc' & _). lia. }
  assert (exists m, TestCrossfade.compute_crossfade_schedule
                      path_frames CROSSFADE_HALF = Some m) as [m Hm].
  { unfold TestCrossfade.compute_crossfade_schedule.
    destruct path_frames as [|pf0 rest]; [done|].
    destruct (foldl _ _ _) as [[runs0 prev_geo] run_start0]. eauto. }
  assert (forall j, (j < 6)%nat ->
            test_indices c !! j = Some (c - 3 + Z.of_nat j)) as Hidx.
  { intros j Hj. unfold test_indices. apply py_range_lookup. lia. }
  assert (length (test_indices c) = 6%nat) as Hlen.
  { unfold test_indices, py_range.
    rewrite length_map, length_range. lia. }
  unfold test_frames. rewrite Hm, Hc. cbn [mbind option_bind]. split.
  - intros Hshort. apply mapM_None. apply Exists_exists.
    exists (c + 2). split.
    + eapply list_elem_of_lookup_2.
      rewrite (Hidx 5%nat) by lia. f_equal. lia.
    + rewrite py_index_past_end by lia. done.
  - intros Hroom.
    destruct (mapM_total
                (fun idx => pf ← py_index path_frames idx;
                            Some (idx, pf, m !! idx))
                (test_indices c)) as (entries & -> & Hall).
    { intros idx Hin. apply list_elem_of_lookup_1 in Hin as [j Hj].
      pose proof (lookup_lt_Some _ _ _ Hj) as Hjlt. rewrite Hlen in Hjlt.
      rewrite (Hidx j Hjlt) in Hj. injection Hj as <-.
      destruct (py_index_wraps path_frames (c - 3 + Z.of_nat j))
        as (pf & -> & _); [lia|]. by eexists. }
    exists m, entries. split; [done|]. split; [done|].
    split; [by rewrite <- (Forall2_length _ _ _ Hall)|].
    intros j Hj.
    destruct (Forall2_lookup_l _ _ _ j _ Hall (Hidx j Hj))
      as (entry & Hentry & Hf).
    destruct (py_index_wraps path_frames (c - 3 + Z.of_nat j))
      as (pf & Hpf & Hmod); [lia|].
    exists pf. rewrite Hpf in Hf. cbn [mbind option_bind] in Hf.
    split; [congruence|done].
Qed.

End ExtraTestCrossfade.

Lemma X28_test_frames_need_room_witness :
  TestCrossfadeMain.test_frames two_two = None.
Proof.
  refine (proj1 (X28_test_frames_need_room two_two 2 _ _) _).
  - discriminate.
  - reflexivity.
  - simpl. lia.
Defined.

